(** * Graphtik: network assembly, plan compilation and the plan cache

    A shallow embedding of [graphtik/network.py] (graph builder, requirement
    collector, pruner, step sequencer, plan cache), of the operation merging
    of [graphtik/pipeline.py] and of the [skip_evictions] bit of
    [graphtik/config.py], with the properties of the specification stated
    and settled on that embedding.

    Python objects that are mutated in place and may be aliased (the
    [networkx] graphs) live in an explicit store; everything else is a
    value.  Dictionaries whose iteration order is observable are ordered
    association lists; the plan cache, which is only looked up, is a
    [gmap]. *)

From Stdlib Require Import String Ascii List Arith Lia Permutation.
From stdpp Require Import base decidable option list gmap strings fin_maps.

Local Open Scope list_scope.

(** ** Strings *)

(** [sep.join(parts)] *)
Fixpoint join (sep : string) (parts : list string) : string :=
  match parts with
  | [] => EmptyString
  | [p] => p
  | p :: rest => String.append p (String.append sep (join sep rest))
  end.

(** [name.split("/")] *)
Fixpoint split_on (c : ascii) (s : string) : list string :=
  match s with
  | EmptyString => [EmptyString]
  | String a rest =>
      if Ascii.eqb a c then EmptyString :: split_on c rest
      else match split_on c rest with
           | [] => [String a EmptyString]
           | p :: ps => String a p :: ps
           end
  end.

(** [sorted(names)]: the order of [str] is the lexicographic order of the
    code points; the sort is stable. *)
Fixpoint insert_sorted (s : string) (l : list string) : list string :=
  match l with
  | [] => [s]
  | x :: rest => if String.ltb s x then s :: l else x :: insert_sorted s rest
  end.

Definition sorted (l : list string) : list string :=
  fold_left (fun acc s => insert_sorted s acc) l [].

(** ** Dependencies and their modifiers *)

(** Modelled from the spec: the [modifiers] module is not among the sources;
    section 3 of the specification gives a dependency as a string identity
    plus a set of modifiers, and section 6 the constructors and the
    [withset] combinator.  A dependency compares and hashes as its string. *)
Record Dep := mkDep {
  dep_name : string;
  dep_optional : bool;
  dep_sfx : bool;
  dep_keyword : option string;
  dep_jsonp : bool;
}.

#[global] Instance Dep_eq_dec : EqDecision Dep.
Proof. solve_decision. Defined.

Definition plain (s : string) : Dep := mkDep s false false None false.

Definition is_optional (d : Dep) : bool := dep_optional d.
Definition is_sfx (d : Dep) : bool := dep_sfx d.
Definition get_keyword (d : Dep) : option string := dep_keyword d.

(** The parts of the json-pointer path of a [jsonp] dependency. *)
Definition get_jsonp (d : Dep) : option (list string) :=
  if dep_jsonp d then Some (split_on "/"%char (dep_name d)) else None.

(** The constructor [optional(name)]. *)
Definition optional (d : Dep) : Dep := mkDep (dep_name d) true false None false.

(** [modifier_withset(dep, optional=None, keyword=False)]: the same
    dependency without its [optional] and [keyword] modifiers. *)
Definition modifier_withset_unoptional (d : Dep) : Dep :=
  mkDep (dep_name d) false (dep_sfx d) None (dep_jsonp d).

(** ** Operations *)

Definition NodeProps := list (string * string).

(** Modelled from the spec: the [Operation] class lives in the [base] module,
    which is not among the sources; section 3 gives its attributes and the
    identity of an operation, which is its [name]; section 6 says that
    [op_needs] and [op_provides] are exposed only when they differ from
    [needs] and [provides]. *)
Module Operation.
Record t := mk {
  name : string;
  needs : list Dep;
  provides : list Dep;
  op_needs : option (list Dep);
  op_provides : option (list Dep);
  aliases : list (string * string);
  node_props : NodeProps;
}.

(** [getattr(operation, "op_needs", operation.needs)] *)
Definition get_op_needs (o : t) : list Dep :=
  match op_needs o with Some l => l | None => needs o end.

(** [getattr(operation, "op_provides", operation.provides)] *)
Definition get_op_provides (o : t) : list Dep :=
  match op_provides o with Some l => l | None => provides o end.
End Operation.

#[global] Instance Operation_eq_dec : EqDecision Operation.t.
Proof. solve_decision. Defined.

(** ** Graph nodes

    A node of the graph is a data name or an operation.  Python finds a node
    by hash and equality, which for a dependency are those of its string and
    for an operation those of its name; the node key is therefore the string
    or the operation name, and the operation object itself is kept with the
    attributes of its node. *)
Inductive Node :=
| Data (d : string)
| Oper (op_name : string).

#[global] Instance Node_eq_dec : EqDecision Node.
Proof. solve_decision. Defined.

Definition is_Oper (n : Node) : bool :=
  match n with Oper _ => true | Data _ => false end.

Definition is_Data (n : Node) : bool :=
  match n with Data _ => true | Oper _ => false end.

Definition dnode (d : Dep) : Node := Data (dep_name d).
Definition onode (o : Operation.t) : Node := Oper (Operation.name o).

(** [x in l] *)
Definition mem {A} `{EqDecision A} (x : A) (l : list A) : bool :=
  bool_decide (x ∈ l).

(** An insertion-ordered set ([IndexedSet], and [set] where only membership
    is observed): adding keeps the first occurrence. *)
Definition iset_add {A} `{EqDecision A} (acc : list A) (x : A) : list A :=
  if mem x acc then acc else acc ++ [x].

Definition iset {A} `{EqDecision A} (l : list A) : list A :=
  fold_left iset_add l [].

(** [IndexedSet] of dependencies: two dependencies are the same element when
    their strings are equal; the first one inserted stays. *)
Definition dep_iset_add (acc : list Dep) (d : Dep) : list Dep :=
  if mem (dep_name d) (map dep_name acc) then acc else acc ++ [d].

Definition dep_iset (l : list Dep) : list Dep := fold_left dep_iset_add l [].

#[global] Instance Node_countable : Countable Node.
Proof.
  refine (inj_countable'
    (fun n => match n with Data s => inl s | Oper s => inr s end)
    (fun x => match x with inl s => Data s | inr s => Oper s end) _).
  intros []; reflexivity.
Defined.

(** ** Exceptions *)

(** [ValueError msg culprits] stands for a [ValueError] whose message begins
    with [msg], followed by the listed names. *)
Inductive Exception :=
| ValueError (msg : string) (culprits : list string)
| NetworkXUnfeasible
| RuntimeError
| RecursionError
| KeyError
| AssertionError
| AttributeError
| TypeError.

(** Code that raises or returns. *)
Abbreviation Exc := (sum Exception).

#[global] Instance Exc_ret : MRet Exc := fun A a => inr a.

#[global] Instance Exc_bind : MBind Exc := fun A B f m =>
  match m with
  | inl e => inl e
  | inr a => f a
  end.

(** ** The attribute dictionaries of nodes and edges *)

(** [old.update(new)] on dictionaries kept as association lists. *)
Fixpoint dict_set (k v : string) (d : NodeProps) : NodeProps :=
  match d with
  | [] => [(k, v)]
  | (k', v') :: rest =>
      if decide (k' = k) then (k, v) :: rest else (k', v') :: dict_set k v rest
  end.

Definition dict_update (old new : NodeProps) : NodeProps :=
  fold_left (fun acc kv => dict_set kv.1 kv.2 acc) new old.

Module NodeAttrs.
(** The attributes of a node: [sideffect=True] on side-effect data, the
    [node_props] of an operation; [obj] is the operation object that is the
    key of an operation node. *)
Record t := mk {
  sideffect : bool;
  props : NodeProps;
  obj : option Operation.t;
}.
Definition empty : t := mk false [] None.
Definition update (old new : t) : t :=
  mk (sideffect old || sideffect new)
     (dict_update (props old) (props new))
     (match obj old with Some o => Some o | None => obj new end).
End NodeAttrs.

Module EdgeAttrs.
(** The attributes of an edge; a boolean attribute is [True] or absent. *)
Record t := mk {
  optional : bool;
  sideffect : bool;
  keyword : option string;
  subdoc : bool;
  alias_of : option string;
}.
Definition empty : t := mk false false None false None.
Definition update (old new : t) : t :=
  mk (optional old || optional new)
     (sideffect old || sideffect new)
     (match keyword new with Some k => Some k | None => keyword old end)
     (subdoc old || subdoc new)
     (match alias_of new with Some a => Some a | None => alias_of old end).
End EdgeAttrs.

#[global] Instance NodeAttrs_eq_dec : EqDecision NodeAttrs.t.
Proof. solve_decision. Defined.
#[global] Instance EdgeAttrs_eq_dec : EqDecision EdgeAttrs.t.
Proof. solve_decision. Defined.

(** ** The [networkx] directed graph

    [networkx] is a library the code calls; it is modelled by what the
    calls of [network.py] observe.  A [DiGraph] keeps three insertion-ordered
    dictionaries (nodes, successors, predecessors).  The nodes are kept in
    insertion order and the edges in insertion order: the successors of [u]
    are then the targets of its edges in that order, and the predecessors of
    [v] the sources of its edges in that order. *)
Module nx.

Definition Edge : Type := Node * Node * EdgeAttrs.t.
Definition src (e : Edge) : Node := e.1.1.
Definition dst (e : Edge) : Node := e.1.2.
Definition attrs (e : Edge) : EdgeAttrs.t := e.2.

Record DiGraph := mk {
  nodes : list (Node * NodeAttrs.t);
  edges : list Edge;
}.

Definition empty : DiGraph := mk [] [].

(** [list(G)] *)
Definition node_list (g : DiGraph) : list Node := map fst (nodes g).

(** [n in G] *)
Definition has_node (g : DiGraph) (n : Node) : bool := mem n (node_list g).

Definition is_edge (u v : Node) (e : Edge) : bool :=
  bool_decide (src e = u) && bool_decide (dst e = v).

Definition has_edge (g : DiGraph) (u v : Node) : bool :=
  existsb (is_edge u v) (edges g).

(** [G.nodes[n]] *)
Definition node_attrs (g : DiGraph) (n : Node) : NodeAttrs.t :=
  match List.find (fun na => bool_decide (na.1 = n)) (nodes g) with
  | Some na => na.2
  | None => NodeAttrs.empty
  end.

(** [G.add_node(n, **attr)] *)
Definition add_node (g : DiGraph) (n : Node) (a : NodeAttrs.t) : DiGraph :=
  if has_node g n
  then mk (map (fun na => if decide (na.1 = n)
                          then (na.1, NodeAttrs.update na.2 a) else na)
               (nodes g))
          (edges g)
  else mk (nodes g ++ [(n, a)]) (edges g).

(** [G.add_nodes_from([(n, attr), ...])] *)
Definition add_nodes_from (g : DiGraph) (l : list (Node * NodeAttrs.t))
  : DiGraph :=
  fold_left (fun g na => add_node g na.1 na.2) l g.

(** [G.add_edge(u, v, **attr)]: both ends become nodes if they are not;
    an edge that exists keeps its place and has its attributes updated. *)
Definition add_edge (g : DiGraph) (u v : Node) (a : EdgeAttrs.t) : DiGraph :=
  let g1 := add_node g u NodeAttrs.empty in
  let g2 := add_node g1 v NodeAttrs.empty in
  if has_edge g2 u v
  then mk (nodes g2)
          (map (fun e => if is_edge u v e
                         then (src e, dst e, EdgeAttrs.update (attrs e) a)
                         else e)
               (edges g2))
  else mk (nodes g2) (edges g2 ++ [(u, v, a)]).

(** [G.add_edges_from([(u, v, attr), ...])] *)
Definition add_edges_from (g : DiGraph) (l : list Edge) : DiGraph :=
  fold_left (fun g e => add_edge g (src e) (dst e) (attrs e)) l g.

(** [G.remove_nodes_from(ns)]: nodes that are absent are passed over. *)
Definition remove_node (g : DiGraph) (n : Node) : DiGraph :=
  mk (List.filter (fun na => negb (bool_decide (na.1 = n))) (nodes g))
     (List.filter (fun e => negb (bool_decide (src e = n))
                            && negb (bool_decide (dst e = n)))
                  (edges g)).

Definition remove_nodes_from (g : DiGraph) (ns : list Node) : DiGraph :=
  fold_left remove_node ns g.

(** [G.remove_edges_from([(u, v), ...])] *)
Definition remove_edge (g : DiGraph) (uv : Node * Node) : DiGraph :=
  mk (nodes g) (List.filter (fun e => negb (is_edge uv.1 uv.2 e)) (edges g)).

Definition remove_edges_from (g : DiGraph) (l : list (Node * Node))
  : DiGraph :=
  fold_left remove_edge l g.

(** The out-edges and the in-edges of a node, in their order: what
    [G.out_edges(n, data=...)] and [G.in_edges(n, data=...)] give when [n]
    is a node. *)
Definition out_edges (g : DiGraph) (n : Node) : list Edge :=
  List.filter (fun e => bool_decide (src e = n)) (edges g).

Definition in_edges (g : DiGraph) (n : Node) : list Edge :=
  List.filter (fun e => bool_decide (dst e = n)) (edges g).

(** [G.nbunch_iter(n)]: a node is itself; what is no node is taken for a
    collection of nodes, which for a string are its characters, and those
    that are nodes are kept.  (An operation that is no node is not
    iterable, and [networkx] raises; the calls below pass data names.) *)
Definition nbunch_iter (g : DiGraph) (n : Node) : list Node :=
  if has_node g n then [n]
  else match n with
       | Data s =>
           List.filter (has_node g)
             (map (fun c => Data (String c EmptyString))
                  (list_ascii_of_string s))
       | Oper _ => []
       end.

(** [G.out_edges(n, data=...)] and [G.in_edges(n, data=...)]: the edges of
    the nodes of [dict.fromkeys(G.nbunch_iter(n))]. *)
Definition out_edges_view (g : DiGraph) (n : Node) : list Edge :=
  flat_map (out_edges g) (iset (nbunch_iter g n)).

Definition in_edges_view (g : DiGraph) (n : Node) : list Edge :=
  flat_map (in_edges g) (iset (nbunch_iter g n)).

(** [G.successors(n)], [G.adj[n]], [G.predecessors(n)] *)
Definition successors (g : DiGraph) (n : Node) : list Node :=
  map dst (out_edges g n).

Definition predecessors (g : DiGraph) (n : Node) : list Node :=
  map src (in_edges g n).

Definition in_degree (g : DiGraph) (n : Node) : nat :=
  length (in_edges g n).

Definition degree (g : DiGraph) (n : Node) : nat :=
  length (in_edges g n) + length (out_edges g n).

(** [nx.isolates(G)] *)
Definition isolates (g : DiGraph) : list Node :=
  List.filter (fun n => degree g n =? 0) (node_list g).

(** [G.copy()]: the nodes are added in their order, then the edges node by
    node, each node's out-edges in their order. *)
Definition copy (g : DiGraph) : DiGraph :=
  mk (nodes g) (flat_map (out_edges g) (node_list g)).

(** [G.subgraph(ns).copy()].  The view keeps the nodes of [ns] that are in
    [G]; it is walked in the order of [G] unless the kept nodes are fewer
    than half the nodes of [G], in which case it is walked in the order in
    which Python iterates over the [set] of the kept nodes, [set_iter]. *)
Definition subgraph_copy (set_iter : list Node -> list Node)
    (g : DiGraph) (ns : list Node) : DiGraph :=
  let kept := iset (List.filter (has_node g) ns) in
  let order :=
    if 2 * length kept <? length (nodes g)
    then List.filter (has_node g) (set_iter kept)
    else List.filter (fun n => mem n kept) (node_list g) in
  mk (map (fun n => (n, node_attrs g n)) order)
     (flat_map (fun u => List.filter (fun e => mem (dst e) kept)
                                     (out_edges g u))
               order).

(** [nx.ancestors(G, source)]: the nodes with a path to [source], [source]
    left out.  Computed by rounds, each adding the predecessors not yet
    seen; no round can add a node after as many rounds as the graph has
    nodes. *)
Fixpoint reach_back (g : DiGraph) (fuel : nat) (seen frontier : list Node)
  : list Node :=
  match fuel with
  | 0 => seen
  | S fuel' =>
      let fresh :=
        iset (List.filter (fun n => negb (mem n seen))
                          (flat_map (predecessors g) frontier)) in
      match fresh with
      | [] => seen
      | _ => reach_back g fuel' (seen ++ fresh) fresh
      end
  end.

Definition ancestors (g : DiGraph) (source : Node) : list Node :=
  List.filter (fun n => negb (bool_decide (n = source)))
              (reach_back g (S (length (edges g))) [source] [source]).

(** *** Topological sorts

    Both sorts keep the map of the remaining in-degrees and a collection of
    the nodes whose in-degree is zero; they differ in which of these is
    taken next. *)

Definition indegree_map (g : DiGraph) : gmap Node nat :=
  list_to_map (List.filter (fun nd => negb (nd.2 =? 0))
                 (map (fun n => (n, in_degree g n)) (node_list g))).

Definition zero_indegree (g : DiGraph) : list Node :=
  List.filter (fun n => in_degree g n =? 0) (node_list g).

(** [for _, child in G.edges(node): indegree_map[child] -= 1; ...] *)
Fixpoint release (children : list Node) (indeg : gmap Node nat)
    (ready : list Node) : Exception + (gmap Node nat * list Node) :=
  match children with
  | [] => inr (indeg, ready)
  | c :: cs =>
      match indeg !! c with
      | None => inl RuntimeError
      | Some d =>
          if d - 1 =? 0
          then release cs (delete c indeg) (ready ++ [c])
          else release cs (<[c := d - 1]> indeg) ready
      end
  end.

Fixpoint kahn (pop : list Node -> option (Node * list Node)) (g : DiGraph)
    (fuel : nat) (indeg : gmap Node nat) (ready out : list Node)
  : Exception + list Node :=
  match pop ready with
  | None =>
      if decide (indeg = ∅) then inr out else inl NetworkXUnfeasible
  | Some (node, ready') =>
      match fuel with
      | 0 => inl RuntimeError
      | S fuel' =>
          if has_node g node then
            match release (successors g node) indeg ready' with
            | inl e => inl e
            | inr (indeg', ready'') =>
                kahn pop g fuel' indeg' ready'' (out ++ [node])
            end
          else inl RuntimeError
      end
  end.

(** [zero_indegree.pop()] *)
Definition pop_last (l : list Node) : option (Node * list Node) :=
  match rev l with
  | [] => None
  | x :: r => Some (x, rev r)
  end.

(** [nx.topological_sort(G)], the nodes that are ready being kept on a
    stack. *)
Definition topological_sort (g : DiGraph) : Exception + list Node :=
  kahn pop_last g (length (nodes g)) (indegree_map g) (zero_indegree g) [].

(** The position of a node in [G.nodes]. *)
Fixpoint index_of (n : Node) (l : list Node) : option nat :=
  match l with
  | [] => None
  | x :: rest => if decide (x = n) then Some 0 else S <$> index_of n rest
  end.

(** [heapq.heappop] on triples [(key(node), position, node)], the key of a
    node being its position too: the node of least position comes out. *)
Fixpoint min_by (key : Node -> option nat) (best : Node) (l : list Node)
  : Node :=
  match l with
  | [] => best
  | x :: rest =>
      match key x, key best with
      | Some kx, Some kb =>
          if kx <? kb then min_by key x rest else min_by key best rest
      | None, Some _ => min_by key x rest
      | _, _ => min_by key best rest
      end
  end.

Fixpoint remove_first (n : Node) (l : list Node) : list Node :=
  match l with
  | [] => []
  | x :: rest => if decide (x = n) then rest else x :: remove_first n rest
  end.

Definition pop_min (key : Node -> option nat) (l : list Node)
  : option (Node * list Node) :=
  match l with
  | [] => None
  | x :: rest => let m := min_by key x rest in Some (m, remove_first m l)
  end.

(** [nx.lexicographical_topological_sort(G, key)] *)
Definition lexicographical_topological_sort (g : DiGraph)
    (key : Node -> option nat) : Exception + list Node :=
  kahn (pop_min key) g (length (nodes g)) (indegree_map g)
       (zero_indegree g) [].

End nx.

(** ** The store of graph objects

    A [networkx] graph is a mutable object: [G.copy()] makes a new one, the
    [remove_*] and [add_*] methods change one in place, and a variable is a
    reference to one.  The store holds the graph objects; a reference is an
    index into it. *)

Abbreviation loc := nat (only parsing).
Abbreviation Store := (list nx.DiGraph) (only parsing).

(** Computations that read and change the store and may raise. *)
Definition M (A : Type) : Type := Store -> (Exception + A) * Store.

#[global] Instance M_ret : MRet M := fun A a s => (inr a, s).

#[global] Instance M_bind : MBind M := fun A B f m s =>
  match m s with
  | (inl e, s') => (inl e, s')
  | (inr a, s') => f a s'
  end.

Definition raise {A} (e : Exception) : M A := fun s => (inl e, s).

(** A new graph object. *)
Definition new_graph (g : nx.DiGraph) : M loc :=
  fun s => (inr (length s), s ++ [g]).

(** The graph a reference points to. *)
Definition deref (l : loc) : M nx.DiGraph :=
  fun s => match s !! l with
           | Some g => (inr g, s)
           | None => (inl KeyError, s)
           end.

(** An in-place change of the graph a reference points to. *)
Definition mutate (l : loc) (f : nx.DiGraph -> nx.DiGraph) : M unit :=
  fun s => (inr tt, alter f l s).

(** A computation that only raises or returns. *)
Definition lift {A} (r : Exc A) : M A :=
  match r with inl e => raise e | inr a => mret a end.

(** [for x in xs: body(x)] *)
Fixpoint for_each {A} (xs : list A) (body : A -> M unit) : M unit :=
  match xs with
  | [] => mret tt
  | x :: rest => body x ;; for_each rest body
  end.

(** ** Plans and networks *)

(** The key of the plan cache: the sorted inputs, the sorted outputs and the
    identity of the predicate. *)
Abbreviation CacheKey :=
  (option (list string) * option (list string) * option nat)%type
  (only parsing).

(** Modelled from the spec: the [ExecutionPlan] class lives in the
    [execution] module, which is not among the sources; section 3 and
    section 6 give its fields.  [net] is the graph object of its network.
    An entry of [steps] is a node: an operation to compute, or the name of a
    value to evict. *)
Module ExecutionPlan.
Record t := mk {
  net : loc;
  needs : list Dep;
  provides : list Dep;
  dag : loc;
  steps : list Node;
  asked_outs : bool;
}.
End ExecutionPlan.

Module Network.
Record t := mk {
  graph : loc;
  needs : list Dep;
  provides : list Dep;
  _cached_plans : gmap CacheKey ExecutionPlan.t;
}.
End Network.

(** The operation object that is the key of an operation node. *)
Definition op_object (g : nx.DiGraph) (n : Node) : option Operation.t :=
  match n with
  | Oper _ => NodeAttrs.obj (nx.node_attrs g n)
  | Data _ => None
  end.

(** [yield_ops(nodes)] *)
Definition yield_ops (g : nx.DiGraph) (ns : list Node) : list Operation.t :=
  omap (op_object g) ns.

(** [yield_datanodes(nodes)] *)
Definition yield_datanodes (ns : list Node) : list string :=
  omap (fun n => match n with Data d => Some d | Oper _ => None end) ns.

(** ** Requirement collector *)

(** [all(e[2] for e in graph.out_edges(data, "optional", False))] *)
Definition all_optionals (graph : nx.DiGraph) (data : Dep) : bool :=
  forallb (fun e => EdgeAttrs.optional (nx.attrs e))
          (nx.out_edges_view graph (dnode data)).

Definition _optionalized (graph : nx.DiGraph) (data : Dep) : Dep :=
  if all_optionals graph data then optional data
  else if is_sfx data then data
  else modifier_withset_unoptional data.

Definition collect_requirements (graph : nx.DiGraph)
  : list Dep * list Dep :=
  let operations := yield_ops graph (nx.node_list graph) in
  let provides :=
    dep_iset (flat_map Operation.get_op_provides operations) in
  let needs :=
    dep_iset (map (_optionalized graph)
                  (flat_map Operation.needs operations)) in
  (needs, provides).

(** ** Graph builder *)

Definition subdoc_attrs : EdgeAttrs.t :=
  EdgeAttrs.mk false false None true None.

(** [boltons.iterutils.pairwise] *)
Fixpoint pairwise {A} (l : list A) : list (A * A) :=
  match l with
  | x :: ((y :: _) as rest) => (x, y) :: pairwise rest
  | _ => []
  end.

(** [unseen_subdoc_edges]: from the leaf edge upwards, stopping at the first
    edge already seen; returns the edges to add and the edges seen. *)
Fixpoint unseen_subdoc_edges (rev_doc_edges : list (string * string))
    (seen : list (string * string))
  : list nx.Edge * list (string * string) :=
  match rev_doc_edges with
  | [] => ([], seen)
  | (s, d) :: rest =>
      if mem (s, d) seen then ([], seen)
      else let '(es, seen') := unseen_subdoc_edges rest (seen ++ [(s, d)]) in
           ((Data s, Data d, subdoc_attrs) :: es, seen')
  end.

(** [["/".join(doc_chain[: i + 1]) for i in range(len(doc_chain))]] *)
Definition doc_chain (doc_parts : list string) : list string :=
  map (fun i => join "/" (take (S i) doc_parts)) (seq 0 (length doc_parts)).

Definition append_subdoc_chain (graph : nx.DiGraph)
    (seen : list (string * string)) (doc_parts : list string)
  : nx.DiGraph * list (string * string) :=
  let '(es, seen') :=
    unseen_subdoc_edges (rev (pairwise (doc_chain doc_parts))) seen in
  (nx.add_edges_from graph es, seen').

(** [json_path = get_jsonp(n); if json_path: append_subdoc_chain(json_path)] *)
Definition append_jsonp (graph : nx.DiGraph) (seen : list (string * string))
    (n : Dep) : nx.DiGraph * list (string * string) :=
  match get_jsonp n with
  | Some (p :: ps) => append_subdoc_chain graph seen (p :: ps)
  | _ => (graph, seen)
  end.

(** The attributes of the node and of the edge of a need. *)
Definition need_node_attrs (n : Dep) : NodeAttrs.t :=
  NodeAttrs.mk (is_sfx n) [] None.

Definition need_edge_attrs (n : Dep) : EdgeAttrs.t :=
  EdgeAttrs.mk (is_optional n) (is_sfx n)
    (match get_keyword n with
     | Some k => if decide (k = EmptyString) then None else Some k
     | None => None
     end)
    false None.

(** [{v: src for src, v in aliases}[n]] *)
Definition alias_source (aliases : list (string * string)) (n : string)
  : option string :=
  fst <$> List.find (fun sv => bool_decide (sv.2 = n)) (rev aliases).

Definition provide_edge_attrs (operation : Operation.t) (n : Dep)
  : EdgeAttrs.t :=
  EdgeAttrs.mk false (is_sfx n) None false
    (alias_source (Operation.aliases operation) (dep_name n)).

Definition _append_operation (graph : nx.DiGraph) (operation : Operation.t)
  : nx.DiGraph :=
  let op := onode operation in
  (* Needs *)
  let '(graph, seen_doc_edges) :=
    fold_left (fun gs n => append_jsonp gs.1 gs.2 n)
              (Operation.get_op_needs operation) (graph, []) in
  let needs :=
    map (fun n => (dnode n, need_node_attrs n))
        (Operation.get_op_needs operation) in
  let needs_edges :=
    map (fun n => (dnode n, op, need_edge_attrs n))
        (Operation.get_op_needs operation) in
  let graph := nx.add_nodes_from graph needs in
  let graph :=
    nx.add_node graph op
      (NodeAttrs.mk false (Operation.node_props operation) (Some operation)) in
  let graph := nx.add_edges_from graph needs_edges in
  (* Provides *)
  fst (fold_left
         (fun gs n =>
            let '(graph, seen) := append_jsonp gs.1 gs.2 n in
            let graph :=
              if is_sfx n
              then nx.add_node graph (dnode n) (NodeAttrs.mk true [] None)
              else graph in
            (nx.add_edge graph op (dnode n) (provide_edge_attrs operation n),
             seen))
         (Operation.get_op_provides operation) (graph, seen_doc_edges)).

(** ** [Network.__init__] *)

(** [set(operations)]: operations of the same name are the same element. *)
Definition op_iset_add (acc : list Operation.t) (o : Operation.t)
  : list Operation.t :=
  if mem (Operation.name o) (map Operation.name acc) then acc else acc ++ [o].

Definition op_set (l : list Operation.t) : list Operation.t :=
  fold_left op_iset_add l [].

(** [dupes.remove(i)] *)
Fixpoint list_remove (i : Operation.t) (dupes : list Operation.t)
  : list Operation.t :=
  match dupes with
  | [] => []
  | x :: rest =>
      if decide (Operation.name x = Operation.name i) then rest
      else x :: list_remove i rest
  end.

Definition Network_init (operations : list Operation.t) (graph : option loc)
  : M Network.t :=
  let uniques := op_set operations in
  if negb (length operations =? length uniques)
  then
    let dupes := fold_left (fun d i => list_remove i d) uniques operations in
    raise (ValueError "Operations may only be added once, dupes: "
                      (map Operation.name dupes))
  else
    graph ← match graph with
            | None => new_graph nx.empty
            | Some l => mret l
            end;
    for_each operations
      (fun op => mutate graph (fun g => _append_operation g op)) ;;
    g ← deref graph;
    let '(needs, provides) := collect_requirements g in
    mret (Network.mk graph needs provides ∅).

(** ** Sub-document chains *)

(** The two ways to dig: [("out_edges", 1)] to the sub-documents and
    [("in_edges", 0)] to the super-documents. *)
Inductive Dig := out_edges_1 | in_edges_0.

(** [getattr(dag, meth)(doc, data="subdoc")], each edge as the node picked
    from it and the [subdoc] attribute. *)
Definition dig_edges (dag : nx.DiGraph) (meth : Dig) (doc : Node)
  : list (Node * bool) :=
  match meth with
  | out_edges_1 =>
      map (fun e => (nx.dst e, EdgeAttrs.subdoc (nx.attrs e)))
          (nx.out_edges dag doc)
  | in_edges_0 =>
      map (fun e => (nx.src e, EdgeAttrs.subdoc (nx.attrs e)))
          (nx.in_edges dag doc)
  end.

(** The chain functions are generators, and their callers change the
    [stop_set] while they consume them: every doc is handed to the caller
    ([consume]) before the walk goes on, and [stop_set] is asked on the state
    the caller has reached.  [None] is the recursion that does not end. *)
Section Generators.
Context {A : Type}.
Variable stop_set : A -> Node -> bool.
Variable consume : A -> Node -> A.

Fixpoint _yield_also_chained_docs (fuel : nat) (dig_dag : list Dig)
    (dag : nx.DiGraph) (doc : Node) (acc : A) : option A :=
  match fuel with
  | 0 => None
  | S fuel' =>
      if negb (nx.has_node dag doc) then Some acc
      else if stop_set acc doc then Some acc
      else
        fold_left
          (fun r meth =>
             fold_left
               (fun r (child : Node * bool) =>
                  match r with
                  | None => None
                  | Some acc' =>
                      if child.2
                      then _yield_also_chained_docs fuel' [meth] dag
                             child.1 acc'
                      else Some acc'
                  end)
               (dig_edges dag meth doc) r)
          dig_dag (Some (consume acc doc))
  end.

Definition _yield_chained_docs (dig_dag : list Dig) (dag : nx.DiGraph)
    (docs : list Node) (acc : A) : option A :=
  fold_left
    (fun r d =>
       match r with
       | None => None
       | Some acc' =>
           _yield_also_chained_docs (S (length (nx.nodes dag))) dig_dag dag
             d acc'
       end)
    docs (Some acc).

Definition yield_also_chaindocs (dag : nx.DiGraph) (doc : Node) (acc : A)
  : option A :=
  _yield_also_chained_docs (S (length (nx.nodes dag)))
    [out_edges_1; in_edges_0] dag doc acc.

Definition yield_chaindocs (dag : nx.DiGraph) (docs : list Node) (acc : A)
  : option A :=
  _yield_chained_docs [out_edges_1; in_edges_0] dag docs acc.
End Generators.

(** [s.update(yield_chaindocs(dag, docs, s))]: the set that is filled is the
    stop set itself. *)
Definition update_with_chaindocs (dag : nx.DiGraph) (docs : list Node)
    (s : list Node) : option (list Node) :=
  yield_chaindocs (fun acc d => mem d acc) iset_add dag docs s.

(** [set(yield_chaindocs(dag, docs))] *)
Definition set_of_chaindocs (dag : nx.DiGraph) (docs : list Node)
  : option (list Node) :=
  yield_chaindocs (fun _ _ => false) iset_add dag docs [].

(** [set(yield_also_chaindocs(dag, doc))] *)
Definition set_of_also_chaindocs (dag : nx.DiGraph) (doc : Node)
  : option (list Node) :=
  yield_also_chaindocs (fun _ _ => false) iset_add dag doc [].

Definition root_doc (dag : nx.DiGraph) (doc : Node) : Node :=
  fold_left (fun doc e => if EdgeAttrs.subdoc (nx.attrs e) then nx.src e
                          else doc)
            (nx.in_edges_view dag doc) doc.

Definition or_recursion_error {A} (r : option A) : Exc A :=
  match r with Some a => inr a | None => inl RecursionError end.

(** ** Unsatisfied operations *)

Module Pass.
(** The state of the pass of [unsatisfied_operations]. *)
Record t := mk {
  ok_data : list Node;
  op_satisfaction : gmap Node (list Node);
  unsatisfied : list Node;
}.
End Pass.

(** [op_satisfaction[node]] of a [defaultdict(set)] *)
Definition satisfied_needs (st : Pass.t) (node : Node) : list Node :=
  default [] (Pass.op_satisfaction st !! node).

(** [set(n for n, _, opt in dag.in_edges(node, data="optional") if not opt)] *)
Definition real_needs (dag : nx.DiGraph) (node : Node) : list Node :=
  iset (map nx.src
          (List.filter (fun e => negb (EdgeAttrs.optional (nx.attrs e)))
                       (nx.in_edges dag node))).

(** [a.issubset(b)] *)
Definition issubset (a b : list Node) : bool :=
  forallb (fun n => mem n b) a.

(** The body of the loop over the sorted nodes. *)
Definition visit (dag : nx.DiGraph) (st : Pass.t) (node : Node)
  : Exc Pass.t :=
  match node with
  | Oper _ =>
      match op_object dag node with
      | None => inl AssertionError
      | Some _ =>
          match nx.successors dag node with
          | [] =>
              inr (Pass.mk (Pass.ok_data st) (Pass.op_satisfaction st)
                           (Pass.unsatisfied st ++ [node]))
          | provides =>
              if issubset (real_needs dag node) (satisfied_needs st node)
              then
                ok ← or_recursion_error
                       (update_with_chaindocs dag provides (Pass.ok_data st));
                inr (Pass.mk ok (Pass.op_satisfaction st)
                             (Pass.unsatisfied st))
              else
                inr (Pass.mk (Pass.ok_data st) (Pass.op_satisfaction st)
                             (Pass.unsatisfied st ++ [node]))
          end
      end
  | Data _ =>
      if mem node (Pass.ok_data st)
      then
        inr (Pass.mk (Pass.ok_data st)
               (fold_left
                  (fun sat future_op =>
                     <[future_op :=
                         iset_add (default [] (sat !! future_op)) node]> sat)
                  (nx.successors dag node) (Pass.op_satisfaction st))
               (Pass.unsatisfied st))
      else inr st
  end.

Definition visit_all (dag : nx.DiGraph) (sorted_nodes : list Node)
    (st : Pass.t) : Exc Pass.t :=
  fold_left (fun r node => st ← r; visit dag st node) sorted_nodes (inr st).

Definition unsatisfied_operations (dag : nx.DiGraph) (inputs : list Node)
  : Exc (list Node) :=
  ok_data ← or_recursion_error (update_with_chaindocs dag inputs []);
  sorted_nodes ← nx.topological_sort dag;
  st ← visit_all dag sorted_nodes (Pass.mk ok_data ∅ []);
  inr (Pass.unsatisfied st).

(** ** Configuration and the compile request *)

(** [config.py]: the context variable [skip_evictions] holds [None], [True]
    or [False]; [is_skip_evictions()] returns what it holds. *)
Module Config.
Record t := mk { _skip_evictions : option bool }.
End Config.

Definition is_skip_evictions (cfg : Config.t) : option bool :=
  Config._skip_evictions cfg.

(** The truth value of an [Optional[bool]]. *)
Definition truthy (b : option bool) : bool := default false b.

(** A node predicate: a callable with its identity; [call] is [None] when
    the call raises, and [is_true] is the truth value of the object itself. *)
Module NodePredicate.
Record t := mk {
  id : nat;
  is_true : bool;
  call : Operation.t -> NodeAttrs.t -> option bool;
}.
End NodePredicate.

(** The [inputs] and [outputs] arguments: [None], one name, or a collection
    of names. *)
Inductive Items :=
| ItemsNone
| ItemsStr (s : string)
| ItemsColl (l : list string).

(** Modelled from the spec: [astuple] lives in the [base] module, which is
    not among the sources; the documentation of [compile] says that a string
    is converted to a single-element collection. *)
Definition astuple (i : Items) : option (list string) :=
  match i with
  | ItemsNone => None
  | ItemsStr s => Some [s]
  | ItemsColl l => Some l
  end.

(** ** Pruner, step sequencer and plan cache *)

Section Planning.

(** The order in which Python iterates over a [set] with the given
    elements. *)
Variable set_iter : list Node -> list Node.

(** [dict(zip(dag.nodes, count())).get] *)
Definition node_keys (dag : nx.DiGraph) (n : Node) : option nat :=
  nx.index_of n (nx.node_list dag).

Definition _topo_sort_nodes (dag : nx.DiGraph) : Exc (list Node) :=
  nx.lexicographical_topological_sort dag (node_keys dag).

(** The loop of [_apply_graph_predicate] that collects [to_del]. *)
Fixpoint predicate_to_del (predicate : NodePredicate.t)
    (items : list (Node * NodeAttrs.t)) : Exc (list Node) :=
  match items with
  | [] => inr []
  | (node, data) :: rest =>
      match node, NodeAttrs.obj data with
      | Oper _, Some op =>
          match NodePredicate.call predicate op data with
          | None => inl (ValueError "Node-predicate(" [Operation.name op])
          | Some keep =>
              to_del ← predicate_to_del predicate rest;
              inr (if keep then to_del else node :: to_del)
          end
      | _, _ => predicate_to_del predicate rest
      end
  end.

Definition _apply_graph_predicate (graph : loc)
    (predicate : NodePredicate.t) : M unit :=
  g ← deref graph;
  to_del ← lift (predicate_to_del predicate (nx.nodes g));
  mutate graph (fun g => nx.remove_nodes_from g to_del).

(** [list((src, dst) for src, dst, subdoc in
          broken_dag.in_edges(n, data="subdoc") if not subdoc)] *)
Definition non_subdoc_in_edges (g : nx.DiGraph) (n : Node)
  : list (Node * Node) :=
  map (fun e => (nx.src e, nx.dst e))
      (List.filter (fun e => negb (EdgeAttrs.subdoc (nx.attrs e)))
                   (nx.in_edges g n)).

(** [a - b] and [a & dag.nodes] on [IndexedSet]s of dependencies. *)
Definition dep_difference (a b : list Dep) : list Dep :=
  List.filter (fun d => negb (mem (dep_name d) (map dep_name b))) a.

Definition in_graph (g : nx.DiGraph) (d : Dep) : bool :=
  nx.has_node g (dnode d).

(** [ending_in_outputs.update(nx.ancestors(dag, out));
     ending_in_outputs.add(out)] *)
Definition add_ending (g : nx.DiGraph) (ending : list Node) (out : Node)
  : list Node :=
  iset_add (fold_left iset_add (nx.ancestors g out) ending) out.

(** The first lines of [_prune_graph]: [satisfied_inputs], [inputs] and
    [outputs] as the given inputs and outputs make them, or the error for
    unknown outputs. *)
Definition resolve_inputs_outputs (g : nx.DiGraph) (self : Network.t)
    (inputs outputs : option (list Dep))
  : Exc (list Dep * option (list Dep) * option (list Dep)) :=
  match inputs, outputs with
  | None, None =>
      inr (Network.needs self, None, Some (Network.provides self))
  | _, _ =>
      let '(satisfied_inputs, inputs) :=
        match inputs with
        | None =>
            (dep_difference (Network.needs self) (default [] outputs),
             None)
        | Some inputs =>
            let inputs := List.filter (in_graph g) (dep_iset inputs) in
            (inputs, Some inputs)
        end in
      (* Scream on unknown [outputs]. *)
      match outputs with
      | Some (o :: os) =>
          let unknown_outputs :=
            List.filter (fun d => negb (in_graph g d))
                        (dep_iset (o :: os)) in
          match unknown_outputs with
          | [] => inr (satisfied_inputs, inputs, outputs)
          | _ =>
              inl (ValueError "Unknown output nodes: "
                              (map dep_name unknown_outputs))
          end
      | _ => inr (satisfied_inputs, inputs, outputs)
      end
  end.

(** The last lines of [_prune_graph]: the needs and provides of the plan. *)
Definition resolved_needs_provides (p : nx.DiGraph) (self : Network.t)
    (satisfied_inputs : list Dep) (outputs : option (list Dep))
  : list Dep * list Dep :=
  let inputs :=
    dep_iset (map (_optionalized p)
                  (List.filter (in_graph p) satisfied_inputs)) in
  let outputs :=
    match outputs with
    | None =>
        dep_iset
          (List.filter
             (fun n => negb (mem (dep_name n) (map dep_name inputs))
                       && in_graph p n && negb (is_sfx n))
             (Network.provides self))
    | Some outputs => dep_iset (List.filter (in_graph p) outputs)
    end in
  (inputs, outputs).

(** [for out in yield_chaindocs(dag, outputs, ending_in_outputs): ...] *)
Definition ending_in_outputs (g : nx.DiGraph) (outputs : list Dep)
  : Exc (list Node) :=
  or_recursion_error
    (yield_chaindocs (fun acc d => mem d acc) (add_ending g) g
       (map dnode outputs) []).

Definition _prune_graph (self : Network.t)
    (inputs outputs : option (list Dep))
    (predicate : option NodePredicate.t)
  : M (loc * list Dep * list Dep) :=
  let dag := Network.graph self in
  g ← deref dag;
  '(satisfied_inputs, inputs, outputs) ←
    lift (resolve_inputs_outputs g self inputs outputs);
  (* preserve net's graph *)
  broken_dag ← (g ← deref dag; new_graph (nx.copy g));
  match predicate with
  | Some predicate => _apply_graph_predicate broken_dag predicate
  | None => mret tt
  end ;;
  (* Break the incoming edges to all given inputs. *)
  for_each (default [] inputs)
    (fun n =>
       b ← deref broken_dag;
       mutate broken_dag
         (fun b' => nx.remove_edges_from b'
                      (non_subdoc_in_edges b (dnode n)))) ;;
  (* Drop stray input values and operations (if any). *)
  broken_dag ←
    match outputs with
    | Some outputs =>
        g ← deref dag;
        ending_in_outputs ← lift (ending_in_outputs g outputs);
        b ← deref broken_dag;
        new_graph (nx.subgraph_copy set_iter b ending_in_outputs)
    | None => mret broken_dag
    end;
  (* Prune unsatisfied operations. *)
  b ← deref broken_dag;
  unsatisfied ←
    lift (unsatisfied_operations b (map dnode satisfied_inputs));
  g ← deref dag;
  pruned_dag ←
    new_graph
      (nx.subgraph_copy set_iter g
         (List.filter (fun n => negb (mem n unsatisfied))
                      (nx.node_list b)));
  (* Clean unlinked data-nodes. *)
  p ← deref pruned_dag;
  mutate pruned_dag (fun p' => nx.remove_nodes_from p' (nx.isolates p)) ;;
  p ← deref pruned_dag;
  let '(inputs, outputs) :=
    resolved_needs_provides p self satisfied_inputs outputs in
  mret (pruned_dag, inputs, outputs).

(** [add_eviction(dep)] *)
Definition add_eviction (steps : list Node) (dep : Node) : list Node :=
  match last steps with
  | Some s => if decide (s = dep) then steps else steps ++ [dep]
  | None => steps ++ [dep]
  end.

(** [isinstance(node, Operation)] *)
Definition is_operation (g : nx.DiGraph) (n : Node) : bool :=
  bool_decide (is_Some (op_object g n)).

(** [set(dst for n in need_chain
         for _, dst, subdoc in pruned_dag.out_edges(n, data="subdoc")
         if not subdoc)] *)
Definition need_users (pruned_dag : nx.DiGraph) (need_chain : list Node)
  : list Node :=
  flat_map
    (fun n =>
       map nx.dst
           (List.filter (fun e => negb (EdgeAttrs.subdoc (nx.attrs e)))
                        (nx.out_edges pruned_dag n)))
    need_chain.

(** [a & b] is not empty *)
Definition intersects (a b : list Node) : bool :=
  existsb (fun n => mem n b) a.

(** EVICT(1): the needs of [op] that are not to be used in the future. *)
Definition evict_needs (pruned_dag : nx.DiGraph)
    (outputs future_nodes : list Node) (op : Node) (steps : list Node)
  : Exc (list Node) :=
  fold_left
    (fun r need =>
       steps ← r;
       need_chain ←
         or_recursion_error (set_of_also_chaindocs pruned_dag need);
       if intersects need_chain outputs then inr steps
       else if intersects (need_users pruned_dag need_chain) future_nodes
            then inr steps
            else inr (add_eviction steps (root_doc pruned_dag need)))
    (nx.predecessors pruned_dag op) (inr steps).

(** EVICT(2): the provides of [op] that were pruned. *)
Definition evict_provides (graph pruned_dag : nx.DiGraph) (op : Node)
    (steps : list Node) : list Node :=
  fold_left
    (fun steps provide =>
       if nx.has_node pruned_dag provide then steps
       else add_eviction steps (root_doc pruned_dag provide))
    (nx.successors graph op) steps.

(** [for i, op in enumerate(ordered_nodes): ...], [future_nodes] being
    [ordered_nodes[i + 1 :]]. *)
Fixpoint build_steps (graph pruned_dag : nx.DiGraph) (outputs : list Node)
    (ordered_nodes : list Node) (steps : list Node) : Exc (list Node) :=
  match ordered_nodes with
  | [] => inr steps
  | op :: future_nodes =>
      if is_operation pruned_dag op then
        steps ← evict_needs pruned_dag outputs future_nodes op
                  (steps ++ [op]);
        build_steps graph pruned_dag outputs future_nodes
          (evict_provides graph pruned_dag op steps)
      else build_steps graph pruned_dag outputs future_nodes steps
  end.

(** The steps, given the graph of the network and the pruned dag. *)
Definition execution_steps (cfg : Config.t) (graph p : nx.DiGraph)
    (outputs : list string) : Exc (list Node) :=
  sorted_nodes ← _topo_sort_nodes p;
  let ordered_nodes := iset sorted_nodes in
  if negb (bool_decide (outputs ≠ [])) || truthy (is_skip_evictions cfg)
  then inr (List.filter (is_operation p) ordered_nodes)
  else
    outputs ← or_recursion_error (set_of_chaindocs p (map Data outputs));
    build_steps graph p outputs ordered_nodes [].

Definition _build_execution_steps (cfg : Config.t) (self : Network.t)
    (pruned_dag : loc) (inputs : list Dep) (outputs : list string)
  : M (list Node) :=
  p ← deref pruned_dag;
  graph ← deref (Network.graph self);
  lift (execution_steps cfg graph p outputs).

(** [if not predicate: predicate = None] *)
Definition normal_predicate (predicate : option NodePredicate.t)
  : option NodePredicate.t :=
  match predicate with
  | Some p => if NodePredicate.is_true p then Some p else None
  | None => None
  end.

Definition cache_key (inputs outputs : Items)
    (predicate : option NodePredicate.t) : CacheKey :=
  (sorted <$> astuple inputs, sorted <$> astuple outputs,
   NodePredicate.id <$> normal_predicate predicate).

(** [Network.compile]; the network comes back with its cache. *)
Definition compile (cfg : Config.t) (self : Network.t)
    (inputs outputs : Items) (predicate : option NodePredicate.t)
  : M (ExecutionPlan.t * Network.t) :=
  let inputs := sorted <$> astuple inputs in
  let outputs := sorted <$> astuple outputs in
  let predicate := normal_predicate predicate in
  let cache_key := (inputs, outputs, NodePredicate.id <$> predicate) in
  match Network._cached_plans self !! cache_key with
  | Some plan => mret (plan, self)
  | None =>
      '(pruned_dag, needs, provides) ←
        _prune_graph self (map plain <$> inputs) (map plain <$> outputs)
                     predicate;
      steps ← _build_execution_steps cfg self pruned_dag needs
                (default [] outputs);
      let plan :=
        ExecutionPlan.mk (Network.graph self) needs provides pruned_dag
          steps (bool_decide (is_Some outputs)) in
      mret (plan,
            Network.mk (Network.graph self) (Network.needs self)
              (Network.provides self)
              (<[cache_key := plan]> (Network._cached_plans self)))
  end.
End Planning.

(** A call of [compile] on a network, with the configuration in force. *)
Module Call.
Record t := mk {
  cfg : Config.t;
  inputs : Items;
  outputs : Items;
  predicate : option NodePredicate.t;
}.
End Call.

Section Calls.
Variable set_iter : list Node -> list Node.

(** The network and the store after a call of [compile], whether it
    returned or raised. *)
Definition after_call (ns : Network.t * Store) (c : Call.t)
  : Network.t * Store :=
  match compile set_iter (Call.cfg c) ns.1 (Call.inputs c)
          (Call.outputs c) (Call.predicate c) ns.2 with
  | (inr (_, net'), s') => (net', s')
  | (inl _, s') => (ns.1, s')
  end.

Definition after_calls (ns : Network.t * Store) (calls : list Call.t)
  : Network.t * Store :=
  fold_left after_call calls ns.
End Calls.

(** ** Operation merging ([pipeline.py]) *)

(** What [build_network] receives and merges: operations, [NULL_OP]
    sentinels, and pipelines with the operations of their network. *)
Inductive OpLike :=
| FnOp (op : Operation.t)
| NULL_OP (name : string).

Module Pipeline.
Record t := mk {
  name : string;
  ops : list Operation.t;
}.
End Pipeline.

Inductive Member :=
| Single (op : OpLike)
| Nested (pipeline : Pipeline.t).

(** [op.name] *)
Definition oplike_name (o : OpLike) : string :=
  match o with
  | FnOp op => Operation.name op
  | NULL_OP name => name
  end.

(** [isinstance(i, NULL_OP)] *)
Definition is_NULL_OP (o : OpLike) : bool :=
  match o with NULL_OP _ => true | FnOp _ => false end.

(** The keywords of [build_network] and of [compose], each [None] unless
    it is given.  A renamer is a callable or a mapping, known here by an
    identity. *)
Inductive Renamer :=
| callable_renamer (id : nat)
| mapping_renamer (id : nat).

Module Keywords.
Record t := mk {
  rescheduled : option bool;
  endured : option bool;
  parallel : option bool;
  marshalled : option bool;
  node_props : option NodeProps;
  renamer : option Renamer;
}.

(** No keyword is given. *)
Definition none : t := mk None None None None None None.

(** [if kw]: some keyword is not [None]. *)
Definition given (kw : t) : bool :=
  bool_decide (is_Some (rescheduled kw)) || bool_decide (is_Some (endured kw))
  || bool_decide (is_Some (parallel kw))
  || bool_decide (is_Some (marshalled kw))
  || bool_decide (is_Some (node_props kw))
  || bool_decide (is_Some (renamer kw)).
End Keywords.

Section Merging.

(** The keywords that [build_network] is called with. *)
Variable kw : Keywords.t.

(** [op.withset( **op_kw)] and [op.validate_fn_name()] of an operation
    that has a function are code of the [fnop] module, which is not among
    the sources: they are any functions here, which may raise.  [withset]
    is given the operation, the keywords and the parent that the renamer
    is wrapped with. *)
Variable withset
  : Operation.t -> Keywords.t -> option Pipeline.t -> Exc Operation.t.
Variable validate_fn_name : Operation.t -> Exc unit.

(** [bool(n)] of an operation, which rests on the operation classes. *)
Variable truth : Operation.t -> bool.

(** [op_kw]: the keywords, with the [node_props] of the operation overlaid
    by those of the pipeline when these are not empty. *)
Definition op_kw (op : Operation.t) : Keywords.t :=
  match Keywords.node_props kw with
  | Some (p :: ps) =>
      Keywords.mk (Keywords.rescheduled kw) (Keywords.endured kw)
        (Keywords.parallel kw) (Keywords.marshalled kw)
        (Some (dict_update (Operation.node_props op) (p :: ps)))
        (Keywords.renamer kw)
  | _ => kw
  end.

(** The parent that [parent_wrapper] hands to a callable renamer. *)
Definition renamer_parent (parent : option Pipeline.t)
  : option Pipeline.t :=
  match Keywords.renamer kw with
  | Some (callable_renamer _) => parent
  | _ => None
  end.

(** [proc_op(op, parent)].  A [NULL_OP] has its [name] and nothing else:
    when a keyword is given, reading its [node_props] or its [withset]
    raises [AttributeError]; it has no [fn] either, and is not
    validated. *)
Definition proc_op (op : OpLike) (parent : option Pipeline.t)
  : Exc OpLike :=
  match op with
  | NULL_OP name =>
      if Keywords.given kw then inl AttributeError else inr (NULL_OP name)
  | FnOp o =>
      o' ← (if Keywords.given kw
            then withset o (op_kw o) (renamer_parent parent)
            else inr o);
      validate_fn_name o' ;;
      inr (FnOp o')
  end.

(** [merge_set.add(op)]: an element of the same name that is already in
    stays, and the new one is dropped. *)
Definition merge_add (merge_set : list OpLike) (op : OpLike)
  : list OpLike :=
  if mem (oplike_name op) (map oplike_name merge_set) then merge_set
  else merge_set ++ [op].

(** [merge_set.update(proc_op(s, parent) for s in ops)]: each operation is
    processed when its turn to be added comes. *)
Fixpoint merge_update (merge_set : list OpLike) (ops : list OpLike)
    (parent : option Pipeline.t) : Exc (list OpLike) :=
  match ops with
  | [] => inr merge_set
  | s :: rest =>
      s' ← proc_op s parent;
      merge_update (merge_add merge_set s') rest parent
  end.

(** [merge_set] at the end of the loop over [operations]. *)
Fixpoint merge_members (merge_set : list OpLike) (operations : list Member)
  : Exc (list OpLike) :=
  match operations with
  | [] => inr merge_set
  | Nested p :: rest =>
      merge_set ← merge_update merge_set (map FnOp (Pipeline.ops p))
                    (Some p);
      merge_members merge_set rest
  | Single op :: rest =>
      op' ← proc_op op None;
      merge_members (merge_add merge_set op') rest
  end.

Definition merged (operations : list Member) : Exc (list OpLike) :=
  merge_members [] operations.

(** [iset(i for i in merge_set if not isinstance(i, NULL_OP))] *)
Definition without_NULL_OP (merge_set : list OpLike) : list OpLike :=
  fold_left merge_add
    (List.filter (fun i => negb (is_NULL_OP i)) merge_set) [].

Definition operations_of (l : list OpLike) : list Operation.t :=
  omap (fun i => match i with FnOp op => Some op | NULL_OP _ => None end) l.

(** [build_network]: the merging, the assertion that every member is
    truthy, and [Network( *merge_set)]. *)
Definition build_network (operations : list Member) : M Network.t :=
  merge_set ← lift (merged operations);
  let merge_set := operations_of (without_NULL_OP merge_set) in
  if forallb truth merge_set then Network_init merge_set None
  else raise AssertionError.
End Merging.

(** ** The plan as a function of the graph

    [_prune_graph] and [compile] work on graph objects in the store.  What
    they compute is a function of the graph of the network; the functions
    below give it, and the store is shown further down to hold these very
    values. *)

Section Functional.
Variable set_iter : list Node -> list Node.

(** The graph [broken_dag] holds before it is cut down to the outputs. *)
Definition broken_graph (g : nx.DiGraph)
    (predicate : option NodePredicate.t) (inputs : option (list Dep))
  : Exc nx.DiGraph :=
  b ← match predicate with
      | Some predicate =>
          to_del ← predicate_to_del predicate (nx.nodes (nx.copy g));
          inr (nx.remove_nodes_from (nx.copy g) to_del)
      | None => inr (nx.copy g)
      end;
  inr (fold_left
         (fun b n => nx.remove_edges_from b
                       (non_subdoc_in_edges b (dnode n)))
         (default [] inputs) b).

(** The graph [pruned_dag] holds in the end. *)
Definition pruned_graph (g b : nx.DiGraph) (unsatisfied : list Node)
  : nx.DiGraph :=
  let p :=
    nx.subgraph_copy set_iter g
      (List.filter (fun n => negb (mem n unsatisfied)) (nx.node_list b)) in
  nx.remove_nodes_from p (nx.isolates p).

(** What [_prune_graph] returns, with the graph instead of the reference. *)
Definition pruned (g : nx.DiGraph) (self : Network.t)
    (inputs outputs : option (list Dep))
    (predicate : option NodePredicate.t)
  : Exc (nx.DiGraph * list Dep * list Dep) :=
  '(satisfied_inputs, inputs, outputs) ←
    resolve_inputs_outputs g self inputs outputs;
  b ← broken_graph g predicate inputs;
  b ← match outputs with
      | Some outputs =>
          ending ← ending_in_outputs g outputs;
          inr (nx.subgraph_copy set_iter b ending)
      | None => inr b
      end;
  unsatisfied ← unsatisfied_operations b (map dnode satisfied_inputs);
  let p := pruned_graph g b unsatisfied in
  let '(inputs, outputs) :=
    resolved_needs_provides p self satisfied_inputs outputs in
  inr (p, inputs, outputs).

(** What a call of [compile] that misses the cache computes: the pruned
    graph, the needs, the provides and the steps of the plan. *)
Definition compiled (cfg : Config.t) (g : nx.DiGraph) (self : Network.t)
    (inputs outputs : Items) (predicate : option NodePredicate.t)
  : Exc (nx.DiGraph * list Dep * list Dep * list Node) :=
  let inputs := sorted <$> astuple inputs in
  let outputs := sorted <$> astuple outputs in
  '(p, needs, provides) ←
    pruned g self (map plain <$> inputs) (map plain <$> outputs)
           (normal_predicate predicate);
  steps ← execution_steps cfg g p (default [] outputs);
  inr (p, needs, provides, steps).
End Functional.

(** ** Notions used in the statements *)

(** The number of times [n] occurs in [l]. *)
Definition occurrences (n : string) (l : list string) : nat :=
  length (List.filter (fun x => bool_decide (x = n)) l).

(** [x] is reached from [doc] by digging [meth] along [subdoc] edges. *)
Inductive dug (dag : nx.DiGraph) (meth : Dig) : Node -> Node -> Prop :=
| dug_here doc : nx.has_node dag doc = true -> dug dag meth doc doc
| dug_dig doc child x :
    (child, true) ∈ dig_edges dag meth doc ->
    dug dag meth child x ->
    dug dag meth doc x.

(** [x] belongs to the sub-document chain of [doc]: it is [doc], one of its
    sub-documents, or one of its super-documents. *)
Definition in_chain (dag : nx.DiGraph) (doc x : Node) : Prop :=
  dug dag out_edges_1 doc x \/ dug dag in_edges_0 doc x.

(** The docs that a walk from [doc] may hand to its consumer. *)
Definition walked (dag : nx.DiGraph) (dig_dag : list Dig) (doc d : Node)
  : Prop :=
  (d = doc /\ nx.has_node dag doc = true)
  \/ exists meth, meth ∈ dig_dag /\ dug dag meth doc d.


(** [x] is the first element of its name in [l]. *)
Definition first_of_name (l : list OpLike) (x : OpLike) : Prop :=
  exists i,
    l !! i = Some x
    /\ forall j y, j < i -> l !! j = Some y -> oplike_name y <> oplike_name x.

(** The operations that [build_network] processes, each with its parent, in
    the order in which it processes them. *)
Definition members (operations : list Member)
  : list (OpLike * option Pipeline.t) :=
  flat_map
    (fun m =>
       match m with
       | Nested p => map (fun s => (FnOp s, Some p)) (Pipeline.ops p)
       | Single op => [(op, None)]
       end)
    operations.

(** What [proc_op] makes of them when it raises on none, and the first
    error that it raises otherwise. *)
Section Processed.
Variable kw : Keywords.t.
Variable withset
  : Operation.t -> Keywords.t -> option Pipeline.t -> Exc Operation.t.
Variable validate_fn_name : Operation.t -> Exc unit.

Fixpoint process (l : list (OpLike * option Pipeline.t))
  : Exc (list OpLike) :=
  match l with
  | [] => inr []
  | (op, parent) :: rest =>
      op' ← proc_op kw withset validate_fn_name op parent;
      rest' ← process rest;
      inr (op' :: rest')
  end.

Definition processed (operations : list Member) : Exc (list OpLike) :=
  process (members operations).
End Processed.

(** The predicate raises on no operation of the graph. *)
Definition never_raises (predicate : NodePredicate.t) (g : nx.DiGraph)
  : Prop :=
  forall n a op,
    (n, a) ∈ nx.nodes g ->
    NodeAttrs.obj a = Some op ->
    is_Some (NodePredicate.call predicate op a).

(** The plan and the network that a call of [compile] which misses the cache
    returns, the pruned graph being the object [dag]. *)
Definition fresh_plan (self : Network.t) (outputs : Items) (dag : loc)
    (needs provides : list Dep) (steps : list Node) : ExecutionPlan.t :=
  ExecutionPlan.mk (Network.graph self) needs provides dag steps
    (bool_decide (is_Some (sorted <$> astuple outputs))).

Definition with_plan (self : Network.t) (key : CacheKey)
    (plan : ExecutionPlan.t) : Network.t :=
  Network.mk (Network.graph self) (Network.needs self)
    (Network.provides self) (<[key := plan]> (Network._cached_plans self)).

(** What holds of a network and the store after calls of [compile] on a
    network [net0] whose graph is [g]: the graph is untouched, and every cached
    plan is what some call has compiled, its pruned graph being in the
    store. *)
Definition cache_from (set_iter : list Node -> list Node)
    (net0 : Network.t) (g : nx.DiGraph) (ns : Network.t * Store) : Prop :=
  Network.graph ns.1 = Network.graph net0
  /\ Network.needs ns.1 = Network.needs net0
  /\ Network.provides ns.1 = Network.provides net0
  /\ ns.2 !! Network.graph net0 = Some g
  /\ forall key plan,
       Network._cached_plans ns.1 !! key = Some plan ->
       exists cfg inputs outputs predicate p,
         key = cache_key inputs outputs predicate
         /\ compiled set_iter cfg g net0 inputs outputs predicate
            = inr (p, ExecutionPlan.needs plan, ExecutionPlan.provides plan,
                   ExecutionPlan.steps plan)
         /\ ns.2 !! ExecutionPlan.dag plan = Some p
         /\ ExecutionPlan.asked_outs plan
            = bool_decide (is_Some (sorted <$> astuple outputs)).

(** ** Notions used in the proofs about the graphs *)

Section Views.
Variable set_iter : list Node -> list Node.

(** The nodes kept by [G.subgraph(ns)]. *)
Definition kept_nodes (g : nx.DiGraph) (ns : list Node) : list Node :=
  iset (List.filter (nx.has_node g) ns).

(** The order in which the view is walked. *)
Definition view_order (g : nx.DiGraph) (ns : list Node) : list Node :=
  if 2 * length (kept_nodes g ns) <? length (nx.nodes g)
  then List.filter (nx.has_node g) (set_iter (kept_nodes g ns))
  else List.filter (fun n => mem n (kept_nodes g ns)) (nx.node_list g).
End Views.

(** How many times [v] occurs in [l]. *)
Definition count (v : Node) (l : list Node) : nat :=
  length (List.filter (fun x => bool_decide (x = v)) l).

(** The in-edges of [v] that come from a node of [out]. *)
Definition cnt (p : nx.DiGraph) (out : list Node) (v : Node) : nat :=
  length (List.filter (fun e => mem (nx.src e) out) (nx.in_edges p v)).

(** Every node of [out] comes after the sources of its in-edges. *)
Definition sorted_by_edges (p : nx.DiGraph) (out : list Node) : Prop :=
  forall i v, out !! i = Some v ->
    forall e, e ∈ nx.edges p -> nx.dst e = v ->
      exists j, j < i /\ out !! j = Some (nx.src e).

(** What the loop of the topological sorts keeps true: [out] holds the nodes
    taken so far, [ready] those whose in-edges all come from [out], and
    [indeg] the number of the in-edges of the others that do not. *)
Definition kahn_inv (p : nx.DiGraph) (indeg : gmap Node nat)
    (ready out : list Node) : Prop :=
  NoDup (out ++ ready)
  /\ (forall v, v ∈ out ++ ready -> indeg !! v = None)
  /\ (forall v d, indeg !! v = Some d ->
                  0 < d /\ d + cnt p out v = nx.in_degree p v)
  /\ (forall v, v ∈ ready ->
        forall e, e ∈ nx.edges p -> nx.dst e = v -> nx.src e ∈ out)
  /\ sorted_by_edges p out
  /\ (forall v, v ∈ out -> v ∈ nx.node_list p).

(** [s] holds the source of every edge whose destination it holds. *)
Definition closed_back (g : nx.DiGraph) (s : list Node) : Prop :=
  forall e, e ∈ nx.edges g -> nx.dst e ∈ s -> nx.src e ∈ s.

(** How many edges start at a node that is not in [seen]. *)
Definition unseen_sources (g : nx.DiGraph) (seen : list Node) : nat :=
  length (List.filter (fun n => negb (mem n seen)) (map nx.src (nx.edges g))).

(** ** Graphs of networks

    What [_append_operation] makes of a graph: an edge joins data to data,
    data to an operation or an operation to data, only edges between data
    being [subdoc] edges, and the node of an operation has an edge from each
    of its needs and to each of its provides. *)

Definition edge_typed (e : nx.Edge) : bool :=
  match nx.src e, nx.dst e with
  | Data _, Data _ => true
  | Data _, Oper _ | Oper _, Data _ => negb (EdgeAttrs.subdoc (nx.attrs e))
  | Oper _, Oper _ => false
  end.

Definition op_linked (g : nx.DiGraph) (na : Node * NodeAttrs.t) : bool :=
  match NodeAttrs.obj na.2 with
  | Some o =>
      forallb (fun n => nx.has_edge g (dnode n) na.1)
              (Operation.get_op_needs o)
      && forallb (fun n => nx.has_edge g na.1 (dnode n))
                 (Operation.get_op_provides o)
  | None => true
  end.

Definition wf_graph (g : nx.DiGraph) : bool :=
  bool_decide (NoDup (nx.node_list g))
  && forallb (fun e => nx.has_node g (nx.src e) && nx.has_node g (nx.dst e)
                       && edge_typed e)
             (nx.edges g)
  && forallb (op_linked g) (nx.nodes g).

(** No name of one character is a sub-document: the in-edges of such a name
    are what [G.in_edges] gives for a longer name that is no node. *)
Definition no_char_subdoc (g : nx.DiGraph) : bool :=
  forallb
    (fun e =>
       negb (EdgeAttrs.subdoc (nx.attrs e))
       || match nx.dst e with
          | Data s => negb (String.length s =? 1)
          | Oper _ => true
          end)
    (nx.edges g).

(** What the pruned graph [p] of a plan is to the graph [g] of its network,
    [l] being the asked outputs: the part of [g] between the nodes that are
    kept, with the needs of the operations that are kept and with the asked
    outputs that they provide. *)
Definition pruned_from (g p : nx.DiGraph) (l : list string) : Prop :=
  NoDup (nx.node_list p)
  /\ (forall e, e ∈ nx.edges p ->
        e ∈ nx.edges g /\ nx.src e ∈ nx.node_list p
        /\ nx.dst e ∈ nx.node_list p)
  /\ (forall e, e ∈ nx.edges g -> nx.src e ∈ nx.node_list p ->
        nx.dst e ∈ nx.node_list p -> e ∈ nx.edges p)
  /\ (forall n, n ∈ nx.node_list p ->
        n ∈ nx.node_list g /\ nx.node_attrs p n = nx.node_attrs g n)
  /\ (forall e, e ∈ nx.edges g -> nx.dst e ∈ nx.node_list p ->
        is_Oper (nx.dst e) = true -> nx.src e ∈ nx.node_list p)
  /\ (forall e d, e ∈ nx.edges g -> nx.src e ∈ nx.node_list p ->
        nx.dst e = Data d -> d ∈ l -> Data d ∈ nx.node_list p).

(** ** Eviction safety *)

(** The operation of the node [op'] does not use [d]: [d] is not among its
    needs, and it is not among its provides if [d] is data of the pruned
    graph. *)
Definition unused_by (p : nx.DiGraph) (d : string) (op' : Node) : Prop :=
  forall o, op_object p op' = Some o ->
    (d ∉ map dep_name (Operation.get_op_needs o))
    /\ (nx.has_node p (Data d) = true ->
        d ∉ map dep_name (Operation.get_op_provides o)).

(** What is evicted is not an asked output and is used by no later step. *)
Definition evictions_safe (p : nx.DiGraph) (l : list string)
    (steps : list Node) : Prop :=
  forall i d, steps !! i = Some (Data d) ->
    (d ∉ l)
    /\ forall j op', i < j -> steps !! j = Some op' -> unused_by p d op'.

(** What is evicted is not an asked output and is used by none of the
    nodes that are still to come. *)
Definition evictions_pending (p : nx.DiGraph) (l : list string)
    (steps future : list Node) : Prop :=
  forall d, Data d ∈ steps ->
    (d ∉ l) /\ forall op', op' ∈ future -> unused_by p d op'.

(** What the loop of the step sequencer keeps true of the steps. *)
Definition steps_ok (p : nx.DiGraph) (l : list string)
    (steps future : list Node) : Prop :=
  evictions_safe p l steps /\ evictions_pending p l steps future.

(** ** What the graph builder keeps true *)

(** The node [n] has an edge from each need of [o] and to each provide. *)
Definition linked (g : nx.DiGraph) (n : Node) (o : Operation.t) : Prop :=
  (forall x, x ∈ Operation.get_op_needs o ->
             nx.has_edge g (dnode x) n = true)
  /\ (forall x, x ∈ Operation.get_op_provides o ->
                nx.has_edge g n (dnode x) = true).

(** The graph once operations are appended to the empty graph. *)
Definition appended (g : nx.DiGraph) : Prop :=
  NoDup (nx.node_list g)
  /\ (forall e, e ∈ nx.edges g ->
        nx.src e ∈ nx.node_list g /\ nx.dst e ∈ nx.node_list g
        /\ edge_typed e = true)
  /\ (forall n a o, (n, a) ∈ nx.nodes g -> NodeAttrs.obj a = Some o ->
        linked g n o).

(** The graph while [operation] is being appended to it: the node of
    [operation] may be there without all its edges yet. *)
Definition appending (operation : Operation.t) (g : nx.DiGraph) : Prop :=
  NoDup (nx.node_list g)
  /\ (forall e, e ∈ nx.edges g ->
        nx.src e ∈ nx.node_list g /\ nx.dst e ∈ nx.node_list g
        /\ edge_typed e = true)
  /\ (forall n a o, (n, a) ∈ nx.nodes g -> NodeAttrs.obj a = Some o ->
        (n = onode operation /\ o = operation) \/ linked g n o).

(** [g'] has the edges of [g], whatever their attributes. *)
Definition keeps_edges (g g' : nx.DiGraph) : Prop :=
  forall u v, nx.has_edge g u v = true -> nx.has_edge g' u v = true.

(** ** Example networks and requests *)

(** An iteration order of sets: the order of insertion. *)
Definition set_id (l : list Node) : list Node := l.

(** An operation with its needs and provides, and nothing else. *)
Definition fnop (name : string) (needs provides : list Dep) : Operation.t :=
  Operation.mk name needs provides None None [] [].

(** The network built from operations in an empty store, with the store. *)
Definition built (operations : list Operation.t) : Network.t * Store :=
  match Network_init operations None [] with
  | (inr net, s) => (net, s)
  | (inl _, s) => (Network.mk 0 [] [] ∅, s)
  end.

Definition graph_of (ns : Network.t * Store) : nx.DiGraph :=
  default nx.empty (ns.2 !! Network.graph ns.1).

(** The plan and the network that a call of [compile] returned. *)
Definition returned_plan (r : Exc (ExecutionPlan.t * Network.t) * Store)
  : ExecutionPlan.t :=
  match r.1 with
  | inr (plan, _) => plan
  | inl _ => ExecutionPlan.mk 0 [] [] 0 [] false
  end.

Definition returned_network (r : Exc (ExecutionPlan.t * Network.t) * Store)
  : Network.t :=
  match r.1 with
  | inr (_, net) => net
  | inl _ => Network.mk 0 [] [] ∅
  end.

Definition skip_unset : Config.t := Config.mk None.
Definition skip_set : Config.t := Config.mk (Some true).

(** [op1: x -> a], [op2: x -> b], [op3: a, b -> y]. *)
Definition diamond : list Operation.t :=
  [fnop "op1" [plain "x"] [plain "a"];
   fnop "op2" [plain "x"] [plain "b"];
   fnop "op3" [plain "a"; plain "b"] [plain "y"]].

(** Two operations that both provide [x], which nobody asks for. *)
Definition two_providers : list Operation.t :=
  [fnop "op1" [plain "i"] [plain "a"; plain "x"];
   fnop "op2" [plain "i"] [plain "b"; plain "x"]].

Definition two_providers_run
  : Exc (ExecutionPlan.t * Network.t) * Store :=
  compile set_id skip_unset (built two_providers).1
    (ItemsColl ["i"]) (ItemsColl ["a"; "b"]) None (built two_providers).2.

(** The same operation given twice. *)
Definition twice : list Operation.t :=
  [fnop "op1" [plain "x"] [plain "a"]; fnop "op1" [plain "x"] [plain "a"]].

(** A side-effect that one operation needs optionally and another needs
    compulsorily. *)
Definition sfx_optional : Dep := mkDep "s" true true None false.
Definition sfx_compulsory : Dep := mkDep "s" false true None false.

Definition sfx_users : list Operation.t :=
  [fnop "op1" [sfx_optional] [plain "a"];
   fnop "op2" [sfx_compulsory] [plain "b"]].

(** A document [a] with the sub-documents [a/x] and [a/y]. *)
Definition jsonp (s : string) : Dep := mkDep s false false None true.

Definition subdocs : list Operation.t :=
  [fnop "op0" [plain "i"] [plain "a"];
   fnop "opX" [jsonp "a/x"] [plain "o1"];
   fnop "opY" [jsonp "a/y"] [plain "o2"]].

Definition subdocs_dag : nx.DiGraph :=
  fold_left _append_operation subdocs nx.empty.


(** A predicate that raises on every operation, and one that keeps them
    all. *)
Definition raising : NodePredicate.t :=
  NodePredicate.mk 1 true (fun _ _ => None).

Definition keep_all : NodePredicate.t :=
  NodePredicate.mk 2 true (fun _ _ => Some true).

(** The diamond compiled for [y] from [x] while [skip_evictions] is unset,
    then compiled again for the same request while it is set. *)
Definition diamond_first : Exc (ExecutionPlan.t * Network.t) * Store :=
  compile set_id skip_unset (built diamond).1
    (ItemsColl ["x"]) (ItemsColl ["y"]) None (built diamond).2.

Definition diamond_again : Exc (ExecutionPlan.t * Network.t) * Store :=
  compile set_id skip_set (returned_network diamond_first)
    (ItemsColl ["x"]) (ItemsColl ["y"]) None diamond_first.2.

(** The diamond compiled for [a] and [y] from [x], and compiled again for
    the same names given otherwise, with a predicate that is falsy. *)
Definition falsy : NodePredicate.t :=
  NodePredicate.mk 3 false (fun _ _ => Some false).

Definition same_key_first : Exc (ExecutionPlan.t * Network.t) * Store :=
  compile set_id skip_unset (built diamond).1
    (ItemsStr "x") (ItemsColl ["y"; "a"]) None (built diamond).2.

Definition same_key_second : Exc (ExecutionPlan.t * Network.t) * Store :=
  compile set_id skip_unset (returned_network same_key_first)
    (ItemsColl ["x"]) (ItemsColl ["a"; "y"]) (Some falsy) same_key_first.2.


(** A [NULL_OP] before the operation of its name, and the keywords of which
    [rescheduled] alone is given. *)
Definition dropped_by_NULL_OP : list Member :=
  [Single (NULL_OP "op1"); Single (FnOp (fnop "op1" [plain "x"] [plain "a"]))].

Definition rescheduled_only : Keywords.t :=
  Keywords.mk (Some true) None None None None None.

(** ** Walks, cycles and rankings *)

(** There is a walk of at least one edge from [u] to [v]. *)
Inductive reaches (g : nx.DiGraph) : Node -> Node -> Prop :=
| reaches_edge u v : nx.has_edge g u v = true -> reaches g u v
| reaches_step u w v :
    nx.has_edge g u w = true -> reaches g w v -> reaches g u v.

(** Every edge goes from a node of lower rank to a node of higher rank; a
    graph that can be ranked so has no cycle. *)
Definition ranked_by (rank : Node -> nat) (g : nx.DiGraph) : bool :=
  forallb (fun e => rank (nx.src e) <? rank (nx.dst e)) (nx.edges g).

(** The edges of the graph end at its nodes, and no node is there twice. *)
Definition edges_at_nodes (g : nx.DiGraph) : bool :=
  bool_decide (NoDup (nx.node_list g))
  && forallb (fun e => nx.has_node g (nx.src e) && nx.has_node g (nx.dst e))
             (nx.edges g).

(** What the loop of the topological sorts keeps true besides [kahn_inv]:
    every node is taken, ready, or waits in the map of the in-degrees. *)
Definition kahn_cover (p : nx.DiGraph) (indeg : gmap Node nat)
    (ready out : list Node) : Prop :=
  (forall v, v ∈ nx.node_list p -> v ∈ out ++ ready \/ is_Some (indeg !! v))
  /\ (forall v, is_Some (indeg !! v) -> v ∈ nx.node_list p)
  /\ (forall v, v ∈ ready -> v ∈ nx.node_list p).

(** ** What the graph builder keeps true of the operations and the documents *)

(** Two names that follow each other in the chain of a json-pointer path:
    a document and its sub-document. *)
Definition chain_pair (s d : string) : Prop :=
  exists doc_parts, (s, d) ∈ pairwise (doc_chain doc_parts).

(** The nodes of the graph hold the operations [ops], in this order: the
    node of a name holds no operation, and the node of an operation holds
    the operation of its name. *)
Definition holds_operations (ops : list Operation.t) (g : nx.DiGraph)
  : Prop :=
  omap (fun na : Node * NodeAttrs.t => NodeAttrs.obj na.2) (nx.nodes g) = ops
  /\ forall n a, (n, a) ∈ nx.nodes g ->
       match n with
       | Data _ => NodeAttrs.obj a = None
       | Oper nm => exists o, NodeAttrs.obj a = Some o /\ Operation.name o = nm
       end.

(** A [subdoc] edge goes from a name to a longer name. *)
Definition subdoc_grows (g : nx.DiGraph) : Prop :=
  forall e, e ∈ nx.edges g -> EdgeAttrs.subdoc (nx.attrs e) = true ->
    exists s d, nx.src e = Data s /\ nx.dst e = Data d
                /\ String.length s < String.length d.

(** The length of the name of a node; an operation counts for nothing. *)
Definition name_length (n : Node) : nat :=
  match n with Data s => String.length s | Oper _ => 0 end.

(** How far a walk can still dig from [doc]: the nodes of longer names
    towards the sub-documents, of shorter names towards the
    super-documents. *)
Definition chain_rank (dag : nx.DiGraph) (meth : Dig) (doc : Node) : nat :=
  match meth with
  | out_edges_1 =>
      length (List.filter (fun n => name_length doc <? name_length n)
                          (nx.node_list dag))
  | in_edges_0 =>
      length (List.filter (fun n => name_length n <? name_length doc)
                          (nx.node_list dag))
  end.

(** ** Parts of a graph *)

(** [b] is a part of [g]: some of its nodes, each once and with its
    attributes, and some of its edges between these nodes. *)
Definition part_of (g b : nx.DiGraph) : Prop :=
  NoDup (nx.node_list b)
  /\ (forall e, e ∈ nx.edges b ->
        e ∈ nx.edges g /\ nx.src e ∈ nx.node_list b
        /\ nx.dst e ∈ nx.node_list b)
  /\ (forall n, n ∈ nx.node_list b ->
        n ∈ nx.node_list g /\ nx.node_attrs b n = nx.node_attrs g n).

(** The graph of a network: what [_append_operation] keeps true. *)
Definition network_graph (g : nx.DiGraph) : Prop :=
  appended g /\ subdoc_grows g /\ exists ops, holds_operations ops g.

(** What a part of the graph of a network is to the walks and the sorts:
    its edges end at its nodes, its [subdoc] edges lead to longer names,
    and its operation nodes hold their operations. *)
Definition sound_part (b : nx.DiGraph) : Prop :=
  edges_at_nodes b = true
  /\ subdoc_grows b
  /\ forall n, n ∈ nx.node_list b -> is_Oper n = true ->
       is_Some (op_object b n).

(** The errors that [compile] raises on a network. *)
Definition compile_error (e : Exception) : Prop :=
  (exists names, e = ValueError "Unknown output nodes: " names)
  \/ (exists names, e = ValueError "Node-predicate(" names)
  \/ e = NetworkXUnfeasible.

(** ** The predicate that [compile] is given

    [compile] looks its cache up under a key that holds the predicate, and
    the lookup hashes the key.  A [NodePredicate.t] is a callable that
    hashes.  Of a callable that does not hash only the truth value is read:
    a falsy predicate is taken for none, and with a truthy one the lookup
    raises [TypeError] before the network or the store is touched. *)
Inductive Predicate :=
| no_predicate
| hashable (predicate : NodePredicate.t)
| unhashable (is_true : bool).

(** The predicate that the cache key holds, when the key hashes. *)
Definition keyed_predicate (predicate : Predicate)
  : option NodePredicate.t :=
  match predicate with
  | hashable p => Some p
  | _ => None
  end.

(** [Network.compile] given names and any predicate: [compile] is the method
    for the predicates that hash. *)
Definition Network_compile (set_iter : list Node -> list Node)
    (cfg : Config.t) (self : Network.t) (inputs outputs : Items)
    (predicate : Predicate) : M (ExecutionPlan.t * Network.t) :=
  match predicate with
  | unhashable true => raise TypeError
  | _ => compile set_iter cfg self inputs outputs (keyed_predicate predicate)
  end.

(** ** The steps of a plan *)

(** The steps do not begin with an eviction, and no eviction is followed at
    once by the eviction of the same name. *)
Definition steps_tidy (steps : list Node) : Prop :=
  (forall d, head steps <> Some (Data d))
  /\ forall i d, steps !! i = Some (Data d) -> steps !! S i <> Some (Data d).

(** ** More example networks and requests *)

(** The nodes that a sort or a pass returned. *)
Definition returned_nodes (r : Exc (list Node)) : list Node :=
  match r with inr l => l | inl _ => [] end.

(** Two operations, each needing what the other provides. *)
Definition cyclic : list Operation.t :=
  [fnop "op1" [plain "a"] [plain "b"]; fnop "op2" [plain "b"] [plain "a"]].

Definition cyclic_run : Exc (ExecutionPlan.t * Network.t) * Store :=
  compile set_id skip_unset (built cyclic).1 ItemsNone ItemsNone None
    (built cyclic).2.

(** The place of a node among the nodes of the graph, taken as its rank. *)
Definition position_rank (g : nx.DiGraph) (n : Node) : nat :=
  default 0 (nx.index_of n (nx.node_list g)).

(** The graph of the diamond with the node of [y] removed: [op3] has no
    outgoing edge left. *)
Definition diamond_without_y : nx.DiGraph :=
  nx.remove_nodes_from (graph_of (built diamond)) [Data "y"].

(** A predicate that keeps every operation but [op2]. *)
Definition without_op2 : NodePredicate.t :=
  NodePredicate.mk 4 true
    (fun op _ => Some (negb (String.eqb (Operation.name op) "op2"))).

(** The diamond compiled from [x] with that predicate. *)
Definition diamond_without_op2 : Exc (ExecutionPlan.t * Network.t) * Store :=
  compile set_id skip_unset (built diamond).1 (ItemsColl ["x"]) ItemsNone
    (Some without_op2) (built diamond).2.

(** The documents compiled for [o1] and [o2] from [i]. *)
Definition subdocs_run : Exc (ExecutionPlan.t * Network.t) * Store :=
  compile set_id skip_unset (built subdocs).1 (ItemsColl ["i"])
    (ItemsColl ["o2"; "o1"]) None (built subdocs).2.

(** A [NULL_OP] before a pipeline that holds an operation of its name, and
    an operation after the pipeline that holds one of its name. *)
Definition nested_diamond : list Member :=
  [Single (NULL_OP "op2");
   Nested (Pipeline.mk "p" diamond);
   Single (FnOp (fnop "op1" [plain "z"] [plain "a"]))].

(** No keyword, an operation that is left as it is and validated, and
    operations that are truthy. *)
Definition withset_same (op : Operation.t) (_ : Keywords.t)
    (_ : option Pipeline.t) : Exc Operation.t := inr op.

Definition validate_ok (_ : Operation.t) : Exc unit := inr tt.

Definition truthy_operation (_ : Operation.t) : bool := true.

(** * The properties

    Facts about the definitions above, and with them the properties
    that the specification states, marked C1 to C10. *)

(** ** Membership, and the operations given more than once *)

Lemma mem_true {A} `{EqDecision A} (x : A) l : mem x l = true <-> x ∈ l.
Proof. unfold mem. rewrite bool_decide_eq_true. reflexivity. Qed.

Lemma mem_false {A} `{EqDecision A} (x : A) l : mem x l = false <-> x ∉ l.
Proof. unfold mem. rewrite bool_decide_eq_false. reflexivity. Qed.

Section Uniques.
Local Abbreviation names := (map Operation.name).

Lemma op_set_fold l : forall acc,
  NoDup (names acc) ->
  NoDup (names (fold_left op_iset_add l acc))
  /\ (forall n, n ∈ names (fold_left op_iset_add l acc)
                <-> n ∈ names acc \/ n ∈ names l)
  /\ length (fold_left op_iset_add l acc) <= length acc + length l
  /\ (length (fold_left op_iset_add l acc) = length acc + length l ->
      NoDup (names (acc ++ l))).
Proof.
  induction l as [|x l IH]; intros acc Hacc; simpl.
  - split; [done|]. split; [intros n; rewrite elem_of_nil; tauto|].
    split; [lia|]. intros _. by rewrite app_nil_r.
  - unfold op_iset_add at 2 4 6 8.
    destruct (mem (Operation.name x) (names acc)) eqn:Hm.
    + apply mem_true in Hm.
      destruct (IH acc Hacc) as (H1 & H2 & H3 & H4).
      split; [done|]. split.
      * intros n. rewrite H2, elem_of_cons. split; [tauto|].
        intros [?|[->|?]]; tauto.
      * split; [lia|]. intros; lia.
    + apply mem_false in Hm.
      assert (Hacc' : NoDup (names (acc ++ [x]))).
      { rewrite map_app. apply NoDup_app. split; [done|].
        split; [|apply NoDup_singleton].
        intros n Hn Hx. simpl in Hx. apply list_elem_of_singleton in Hx.
        by subst. }
      destruct (IH _ Hacc') as (H1 & H2 & H3 & H4).
      split; [done|]. split.
      * intros n. rewrite H2, map_app, elem_of_app, elem_of_cons. simpl.
        rewrite list_elem_of_singleton. tauto.
      * rewrite length_app in *. simpl in *. split; [lia|].
        intros Hl. rewrite <- app_assoc in H4. simpl in H4. apply H4. lia.
Qed.

Lemma list_remove_occurrences i d n :
  occurrences n (names (list_remove i d))
  = if decide (Operation.name i = n) then pred (occurrences n (names d))
    else occurrences n (names d).
Proof.
  unfold occurrences. induction d as [|x d IH]; simpl.
  - by destruct decide.
  - destruct (decide (Operation.name x = Operation.name i)) as [Hx|Hx].
    + destruct (decide (Operation.name i = n)) as [Hn|Hn].
      * rewrite bool_decide_true by congruence. done.
      * rewrite bool_decide_false by congruence. done.
    + simpl. destruct (decide (Operation.name i = n)) as [Hn|Hn].
      * rewrite bool_decide_false by congruence. done.
      * destruct (bool_decide (Operation.name x = n)); simpl; by rewrite IH.
Qed.

Lemma fold_remove_occurrences uniques : forall d n,
  NoDup (names uniques) ->
  occurrences n (names (fold_left (fun d i => list_remove i d) uniques d))
  = if decide (n ∈ names uniques) then pred (occurrences n (names d))
    else occurrences n (names d).
Proof.
  induction uniques as [|u us IH]; intros d n Hnd; simpl.
  - destruct (decide (n ∈ [])) as [H|H]; [by apply elem_of_nil in H|done].
  - simpl in Hnd. apply NoDup_cons in Hnd as [Hu Hus].
    rewrite IH by done. rewrite list_remove_occurrences.
    destruct (decide (Operation.name u = n)) as [H2|H2].
    + subst n. rewrite (decide_False (P := _ ∈ names us)) by done.
      rewrite decide_True by (by left). done.
    + destruct (decide (n ∈ names us)) as [H1|H1].
      * rewrite decide_True by (by right). done.
      * rewrite decide_False; [done|].
        intros [?|?]%elem_of_cons; congruence.
Qed.

Lemma occurrences_not_in n l : n ∉ l -> occurrences n l = 0.
Proof.
  unfold occurrences. induction l as [|x l IH]; intros H; simpl; [done|].
  apply not_elem_of_cons in H as [H1 H2].
  rewrite bool_decide_false by congruence. auto.
Qed.

Lemma occurrences_NoDup l : (forall n, occurrences n l <= 1) -> NoDup l.
Proof.
  unfold occurrences. induction l as [|x l IH]; intros H.
  - constructor.
  - constructor.
    + intros Hx. specialize (H x). simpl in H.
      rewrite bool_decide_true in H by done. simpl in H.
      apply list_elem_of_In in Hx.
      assert (In x (List.filter (fun y => bool_decide (y = x)) l)).
      { apply filter_In. split; [done|]. by apply bool_decide_eq_true. }
      destruct (List.filter _ l); [done|simpl in H; lia].
    + apply IH. intros n. specialize (H n). simpl in H.
      destruct (bool_decide (x = n)); simpl in H; lia.
Qed.
End Uniques.

(** C7.  Constructing a network from operations among which a name occurs
    twice raises the [ValueError] whose message begins with [Operations may
    only be added once]; the names it lists are the duplicates, each name
    once less than it is given, and the store is left as it was. *)
Theorem Network_init_duplicate_operations operations graph s :
  ~ NoDup (map Operation.name operations) ->
  exists dupes,
    Network_init operations graph s
    = (inl (ValueError "Operations may only be added once, dupes: " dupes), s)
    /\ dupes <> []
    /\ forall n, occurrences n dupes
                 = pred (occurrences n (map Operation.name operations)).
Proof.
  intros Hdup.
  destruct (op_set_fold operations [] NoDup_nil_2) as (H1 & H2 & H3 & H4).
  fold (op_set operations) in *. simpl in *.
  assert (Hlen : (length operations =? length (op_set operations)) = false).
  { apply Nat.eqb_neq. intros Hl. apply Hdup, H4. done. }
  assert (Hocc : forall n,
    occurrences n (map Operation.name
      (fold_left (fun d i => list_remove i d) (op_set operations) operations))
    = pred (occurrences n (map Operation.name operations))).
  { intros n. rewrite fold_remove_occurrences by done.
    destruct (decide (n ∈ _)) as [Hin|Hin]; [done|].
    rewrite occurrences_not_in; [done|].
    intros Hn. apply Hin, H2. by right. }
  eexists. split; [|split].
  - unfold Network_init. rewrite Hlen. simpl. reflexivity.
  - intros Hnil. apply Hdup, occurrences_NoDup. intros n.
    specialize (Hocc n). rewrite Hnil in Hocc. simpl in Hocc.
    unfold occurrences in Hocc at 1. simpl in Hocc. lia.
  - exact Hocc.
Qed.

(** ** Requirement collector *)

Lemma dep_iset_fold_elem l : forall acc d,
  d ∈ fold_left dep_iset_add l acc -> d ∈ acc \/ d ∈ l.
Proof.
  induction l as [|x l IH]; intros acc d H; simpl in H; [by left|].
  apply IH in H as [H|H]; [|right; by right].
  unfold dep_iset_add in H. destruct (mem _ _); [by left|].
  apply elem_of_app in H as [H|H]; [by left|].
  apply list_elem_of_singleton in H. subst. right. by left.
Qed.

Lemma dep_iset_elem l d : d ∈ dep_iset l -> d ∈ l.
Proof.
  intros H. apply dep_iset_fold_elem in H as [H|H]; [|done].
  by apply elem_of_nil in H.
Qed.

(** The edge views at a node, and at a name that is no node. *)
Lemma nbunch_iter_node g n :
  nx.has_node g n = true -> iset (nx.nbunch_iter g n) = [n].
Proof. intros H. unfold nx.nbunch_iter. by rewrite H. Qed.


Lemma in_edges_view_node g n :
  nx.has_node g n = true -> nx.in_edges_view g n = nx.in_edges g n.
Proof.
  intros H. unfold nx.in_edges_view. rewrite nbunch_iter_node by done.
  simpl. apply app_nil_r.
Qed.

Lemma in_edges_view_elem g n e :
  e ∈ nx.in_edges_view g n ->
  e ∈ nx.edges g
  /\ (nx.dst e = n
      \/ (nx.has_node g n = false
          /\ exists c, nx.dst e = Data (String c EmptyString))).
Proof.
  destruct (nx.has_node g n) eqn:Hn.
  - rewrite in_edges_view_node by done. unfold nx.in_edges.
    rewrite list_elem_of_In, filter_In, <- list_elem_of_In.
    intros [He Hd%bool_decide_eq_true]. auto.
  - unfold nx.in_edges_view. rewrite list_elem_of_In, in_flat_map.
    intros (m & Hm & He). unfold nx.in_edges in He.
    apply filter_In in He as [He Hd%bool_decide_eq_true].
    split; [by apply list_elem_of_In|]. right. split; [done|].
    assert (Hm' : m ∈ nx.nbunch_iter g n).
    { apply list_elem_of_In in Hm. unfold iset in Hm.
      assert (H : forall (l acc : list Node) x,
                x ∈ fold_left iset_add l acc -> x ∈ acc \/ x ∈ l).
      { induction l as [|y l IH]; intros acc x Hx; simpl in Hx; [by left|].
        apply IH in Hx as [Hx|Hx]; [|right; by right].
        unfold iset_add in Hx. destruct (mem y acc); [by left|].
        apply elem_of_app in Hx as [Hx|Hx]; [by left|].
        apply list_elem_of_singleton in Hx. subst. right. by left. }
      apply H in Hm as [Hm|Hm]; [by apply elem_of_nil in Hm|done]. }
    unfold nx.nbunch_iter in Hm'. rewrite Hn in Hm'.
    destruct n as [s|nm]; [|by apply elem_of_nil in Hm'].
    apply list_elem_of_In, filter_In in Hm' as [Hm' _].
    apply in_map_iff in Hm' as (c & <- & _). rewrite Hd. by exists c.
Qed.


Lemma _optionalized_name graph n : dep_name (_optionalized graph n) = dep_name n.
Proof.
  unfold _optionalized. destruct (all_optionals _ _); [done|].
  by destruct (is_sfx n).
Qed.




(** ** Operation merging *)

Section MergingFacts.
Variable kw : Keywords.t.
Variable withset
  : Operation.t -> Keywords.t -> option Pipeline.t -> Exc Operation.t.
Variable validate_fn_name : Operation.t -> Exc unit.
Local Abbreviation names := (map oplike_name).
Local Abbreviation proc := (proc_op kw withset validate_fn_name).
Local Abbreviation process' := (process kw withset validate_fn_name).

Lemma process_app l1 l2 :
  process' (l1 ++ l2)
  = (a ← process' l1; b ← process' l2; inr (a ++ b)).
Proof.
  induction l1 as [|[op parent] l1 IH]; simpl.
  - by destruct (process' l2).
  - destruct (proc op parent) as [e|op']; [done|]. simpl.
    rewrite IH. destruct (process' l1) as [e|a]; [done|]. simpl.
    by destruct (process' l2).
Qed.

Lemma merge_update_process ops parent : forall acc,
  merge_update kw withset validate_fn_name acc ops parent
  = (flat ← process' (map (fun s => (s, parent)) ops);
     inr (fold_left merge_add flat acc)).
Proof.
  induction ops as [|s ops IH]; intros acc; simpl; [done|].
  destruct (proc s parent) as [e|s']; [done|]. simpl.
  rewrite IH. by destruct (process' _).
Qed.

Lemma merge_members_process operations : forall acc,
  merge_members kw withset validate_fn_name acc operations
  = (flat ← process' (members operations);
     inr (fold_left merge_add flat acc)).
Proof.
  induction operations as [|m ms IH]; intros acc; [done|].
  change (members (m :: ms))
    with (match m with
          | Nested p => map (fun s => (FnOp s, Some p)) (Pipeline.ops p)
          | Single op => [(op, None)]
          end ++ members ms).
  rewrite process_app. destruct m as [op|p]; simpl.
  - destruct (proc op None) as [e|op']; [done|]. simpl.
    rewrite IH. by destruct (process' (members ms)) as [e|b].
  - rewrite merge_update_process, map_map. simpl.
    destruct (process' (map _ (Pipeline.ops p))) as [e|a]; [done|]. simpl.
    rewrite IH. destruct (process' (members ms)) as [e|b]; [done|]. simpl.
    by rewrite fold_left_app.
Qed.

Lemma merged_processed operations :
  merged kw withset validate_fn_name operations
  = (flat ← processed kw withset validate_fn_name operations;
     inr (fold_left merge_add flat [])).
Proof. apply merge_members_process. Qed.

(** An error of the processing is an error of [proc_op] on a member. *)
Lemma process_error l e :
  process' l = inl e ->
  exists op parent, (op, parent) ∈ l /\ proc op parent = inl e.
Proof.
  induction l as [|[op parent] l IH]; simpl; [done|].
  destruct (proc op parent) as [e'|op'] eqn:Hp; simpl.
  - intros [= <-]. exists op, parent. split; [by left|done].
  - destruct (process' l) as [e'|rest]; [|done]. simpl.
    intros [= <-]. destruct (IH eq_refl) as (o & pa & Hin & Ho).
    exists o, pa. split; [by right|done].
Qed.
End MergingFacts.

Local Abbreviation names := (map oplike_name).

Lemma merge_add_fold l : forall acc,
  NoDup (names acc) ->
  NoDup (names (fold_left merge_add l acc))
  /\ sublist (fold_left merge_add l acc) (acc ++ l)
  /\ forall x, x ∈ fold_left merge_add l acc
       <-> x ∈ acc \/ ((oplike_name x ∉ names acc) /\ first_of_name l x).
Proof.
  induction l as [|a l IH]; intros acc Hacc; simpl.
  - split; [done|]. split; [by rewrite app_nil_r|].
    intros x. split; [by left|]. intros [?|[_ (i & Hi & _)]]; [done|].
    by rewrite lookup_nil in Hi.
  - unfold merge_add at 2 4 6. destruct (mem _ _) eqn:Hm.
    + apply mem_true in Hm. destruct (IH acc Hacc) as (H1 & H2 & H3).
      split; [done|]. split.
      { etrans; [exact H2|]. apply sublist_app; [done|]. by apply sublist_cons. }
      intros x. rewrite H3. split.
      * intros [?|[Hx (i & Hi & Hfirst)]]; [by left|]. right.
        split; [done|]. exists (S i). split; [done|].
        intros [|j] y Hj Hy; simpl in Hy.
        -- injection Hy as <-. intros Heq. rewrite Heq in Hm. done.
        -- apply (Hfirst j); [lia|done].
      * intros [?|[Hx (i & Hi & Hfirst)]]; [by left|]. right.
        split; [done|]. destruct i as [|i]; simpl in Hi.
        -- injection Hi as ->. done.
        -- exists i. split; [done|]. intros j y Hj Hy.
           apply (Hfirst (S j)); [lia|done].
    + apply mem_false in Hm.
      assert (Hacc' : NoDup (names (acc ++ [a]))).
      { rewrite map_app. apply NoDup_app. split; [done|].
        split; [|apply NoDup_singleton].
        intros n Hn Hx. simpl in Hx. apply list_elem_of_singleton in Hx.
        by subst. }
      destruct (IH _ Hacc') as (H1 & H2 & H3).
      split; [done|]. split.
      { by rewrite <- app_assoc in H2. }
      intros x. rewrite H3. rewrite map_app, !elem_of_app. simpl.
      rewrite !list_elem_of_singleton. split.
      * intros [ [? | ->] | [Hx (i & Hi & Hfirst)] ].
        -- by left.
        -- right. split; [done|]. exists 0. split; [done|]. intros; lia.
        -- right. split; [tauto|]. exists (S i). split; [done|].
           intros [|j] y Hj Hy; simpl in Hy.
           ++ injection Hy as <-. intros Heq. apply Hx. right. done.
           ++ apply (Hfirst j); [lia|done].
      * intros [?|[Hx (i & Hi & Hfirst)]]; [tauto|].
        destruct i as [|i]; simpl in Hi.
        -- injection Hi as ->. tauto.
        -- right. split.
           ++ intros [?|Heq]; [done|].
              apply (Hfirst 0 a); [lia|done|done].
           ++ exists i. split; [done|]. intros j y Hj Hy.
              apply (Hfirst (S j)); [lia|done].
Qed.

Lemma merge_add_fold_id l : forall acc,
  NoDup (names (acc ++ l)) -> fold_left merge_add l acc = acc ++ l.
Proof.
  induction l as [|a l IH]; intros acc H; simpl; [by rewrite app_nil_r|].
  unfold merge_add at 2. destruct (mem _ _) eqn:Hm.
  - apply mem_true in Hm. rewrite map_app in H. apply NoDup_app in H as (_ & H & _).
    exfalso. apply (H _ Hm). simpl. by left.
  - rewrite IH; rewrite <- app_assoc; done.
Qed.

Lemma NoDup_names_filter (f : OpLike -> bool) l :
  NoDup (names l) -> NoDup (names (List.filter f l)).
Proof.
  induction l as [|a l IH]; simpl; [done|].
  intros [Ha Hl]%NoDup_cons. destruct (f a); simpl; [|by apply IH].
  apply NoDup_cons. split; [|by apply IH].
  intros Hin. apply Ha. apply list_elem_of_fmap in Hin as (y & Hy1 & Hy2).
  apply list_elem_of_fmap. exists y. split; [done|].
  apply list_elem_of_In in Hy2. apply filter_In in Hy2 as [Hy2 _].
  by apply list_elem_of_In.
Qed.

Lemma sublist_filter (f : OpLike -> bool) l : sublist (List.filter f l) l.
Proof.
  induction l as [|a l IH]; simpl; [done|].
  destruct (f a); [by apply sublist_skip|by apply sublist_cons].
Qed.

(** What the merging keeps of the processed operations [flat]: those that
    are the first of their name, in their order, the [NULL_OP]s left out. *)
Lemma without_NULL_OP_spec flat :
  let result := without_NULL_OP (fold_left merge_add flat []) in
  NoDup (names result)
  /\ sublist result flat
  /\ (forall x, x ∈ result
                <-> is_NULL_OP x = false /\ first_of_name flat x)
  /\ (forall n, first_of_name flat (NULL_OP n) -> n ∉ names result).
Proof.
  intros result.
  destruct (merge_add_fold flat [] NoDup_nil_2) as (H1 & H2 & H3).
  simpl in H2.
  assert (Hres : result
                 = List.filter (fun i => negb (is_NULL_OP i))
                               (fold_left merge_add flat [])).
  { unfold result, without_NULL_OP. rewrite merge_add_fold_id; [done|].
    simpl. by apply NoDup_names_filter. }
  assert (Hmem : forall x, x ∈ result
                   <-> is_NULL_OP x = false /\ first_of_name flat x).
  { intros x. rewrite Hres, list_elem_of_In, filter_In, <- list_elem_of_In.
    rewrite H3, negb_true_iff. split.
    - intros [[?|[_ ?]] ?]; [by apply elem_of_nil in H|done].
    - intros [? ?]. split; [|done]. right. split; [|done].
      simpl. apply not_elem_of_nil. }
  split; [|split; [|split]].
  - rewrite Hres. by apply NoDup_names_filter.
  - rewrite Hres. etrans; [apply sublist_filter|done].
  - exact Hmem.
  - intros n (i & Hi & Hfirst) Hin.
    apply list_elem_of_fmap in Hin as (x & Hn & Hx).
    apply Hmem in Hx as (Hnull & i' & Hi' & Hfirst').
    destruct (lt_eq_lt_dec i i') as [[Hlt|Heq]|Hlt].
    + apply (Hfirst' i (NULL_OP n)); [done|done|]. by rewrite Hn.
    + subst i'. rewrite Hi in Hi'. injection Hi' as <-. done.
    + apply (Hfirst i' x); [done|done|]. by rewrite <- Hn.
Qed.

(** C8.  With a keyword given, a [NULL_OP] among the operations makes
    [build_network] raise [AttributeError], whatever [withset],
    [validate_fn_name] and the truth of the operations are, and the store
    is left as it was; with no keyword given, the same operations give the
    network of no operation: the [NULL_OP] has dropped the operation of its
    name. *)
Theorem build_network_NULL_OP_with_keyword :
  (forall withset validate_fn_name truth (s : Store),
     build_network rescheduled_only withset validate_fn_name truth
       dropped_by_NULL_OP s
     = (inl AttributeError, s))
  /\ (forall withset truth (s : Store),
        build_network Keywords.none withset (fun _ => inr tt) truth
          dropped_by_NULL_OP s
        = Network_init [] None s).
Proof. split; reflexivity. Qed.

(** ** Sub-document chains and the pass over the operations *)

Lemma iset_add_elem {A} `{EqDecision A} (acc : list A) x y :
  y ∈ iset_add acc x <-> y ∈ acc \/ y = x.
Proof.
  unfold iset_add. destruct (mem x acc) eqn:Hm.
  - apply mem_true in Hm. split; [by left|]. intros [?| ->]; done.
  - rewrite elem_of_app, list_elem_of_singleton. done.
Qed.

Lemma fold_left_invariant {A B} (P : A -> Prop) (f : A -> B -> A) l :
  forall a, (forall a b, b ∈ l -> P a -> P (f a b)) -> P a -> P (fold_left f l a).
Proof.
  induction l as [|x l IH]; intros a Hf Ha; simpl; [done|].
  apply IH.
  - intros a' b Hb. apply Hf. by right.
  - apply Hf; [by left|done].
Qed.

Section GeneratorFacts.
Context {A : Type}.
Variable stop_set : A -> Node -> bool.
Variable consume : A -> Node -> A.
Variable dag : nx.DiGraph.

(** Whatever holds before a walk and is kept by the consumer on the docs
    of the chain holds after the walk. *)
Lemma _yield_also_chained_docs_invariant (P : A -> Prop) fuel :
  forall dig_dag doc acc r,
    (forall a d, walked dag dig_dag doc d ->
                 stop_set a d = false -> P a -> P (consume a d)) ->
    P acc ->
    _yield_also_chained_docs stop_set consume fuel dig_dag dag doc acc
    = Some r ->
    P r.
Proof.
  induction fuel as [|fuel IH]; intros dig_dag doc acc r Hc Hacc Hr;
    simpl in Hr; [done|].
  destruct (nx.has_node dag doc) eqn:Hnode; simpl in Hr;
    [|by injection Hr as <-].
  destruct (stop_set acc doc) eqn:Hstop; [by injection Hr as <-|].
  revert Hr. generalize r. clear r.
  match goal with
  | |- forall r, ?x = Some r -> P r =>
      change ((fun o => forall r, o = Some r -> P r) x)
  end.
  apply fold_left_invariant.
  - intros o meth Hmeth Ho.
    apply fold_left_invariant; [|done].
    intros o' [child sd] Hchild Ho' r. destruct o' as [acc'|]; [|done].
    simpl. destruct sd.
    + apply IH; [|by apply Ho'].
      intros a d Hd. apply Hc. right. exists meth. split; [done|].
      destruct Hd as [[-> Hn]|(meth' & Hm' & Hd)].
      * eapply dug_dig; [done|]. by apply dug_here.
      * apply list_elem_of_singleton in Hm'. subst meth'.
        by eapply dug_dig.
    + intros [= <-]. by apply Ho'.
  - intros r [= <-]. apply Hc; [|done|done]. by left.
Qed.

Lemma _yield_chained_docs_invariant (P : A -> Prop) dig_dag docs :
  forall acc r,
    (forall a doc d, doc ∈ docs -> walked dag dig_dag doc d ->
                     stop_set a d = false -> P a -> P (consume a d)) ->
    P acc ->
    _yield_chained_docs stop_set consume dig_dag dag docs acc = Some r ->
    P r.
Proof.
  unfold _yield_chained_docs. intros acc r Hc Hacc. revert r.
  match goal with
  | |- forall r, ?x = Some r -> P r =>
      change ((fun o => forall r, o = Some r -> P r) x)
  end.
  apply fold_left_invariant.
  - intros o doc Hdoc Ho r. destruct o as [acc'|]; [|done].
    apply _yield_also_chained_docs_invariant; [|by apply Ho].
    intros a d. by apply Hc.
  - by intros r [= <-].
Qed.
End GeneratorFacts.

Section GeneratorHead.
Context {A : Type}.
Variable stop_set : A -> Node -> bool.
Variable consume : A -> Node -> A.
Variable dag : nx.DiGraph.

(** What holds once [doc] is consumed or found in the stop set, and is kept
    by the consumer, holds after the walk from [doc]. *)
Lemma _yield_also_chained_docs_head (Q : A -> Prop) fuel dig_dag doc acc r :
  (stop_set acc doc = true -> Q acc) ->
  (stop_set acc doc = false -> Q (consume acc doc)) ->
  (forall a d, Q a -> Q (consume a d)) ->
  nx.has_node dag doc = true ->
  _yield_also_chained_docs stop_set consume fuel dig_dag dag doc acc
  = Some r ->
  Q r.
Proof.
  intros Hstop Hcons Hkeep Hnode Hr.
  destruct fuel as [|fuel]; simpl in Hr; [done|].
  rewrite Hnode in Hr. simpl in Hr.
  destruct (stop_set acc doc) eqn:Hs; [injection Hr as <-; by apply Hstop|].
  revert Hr. generalize r. clear r.
  match goal with
  | |- forall r, ?x = Some r -> Q r =>
      change ((fun o => forall r, o = Some r -> Q r) x)
  end.
  apply fold_left_invariant.
  - intros o meth Hmeth Ho.
    apply fold_left_invariant; [|done].
    intros o' [child sd] Hchild Ho' r. destruct o' as [acc'|]; [|done].
    simpl. destruct sd.
    + apply _yield_also_chained_docs_invariant; [|by apply Ho'].
      intros a d _ _. apply Hkeep.
    + intros [= <-]. by apply Ho'.
  - intros r [= <-]. by apply Hcons.
Qed.
End GeneratorHead.

Lemma walked_in_chain dag doc d :
  walked dag [out_edges_1; in_edges_0] doc d -> in_chain dag doc d.
Proof.
  intros [[-> Hn]|(meth & Hm & Hd)].
  - left. by apply dug_here.
  - apply elem_of_cons in Hm as [->|Hm]; [by left|].
    apply list_elem_of_singleton in Hm as ->. by right.
Qed.




(** ** Running computations on the store *)

Lemma run_bind {A B} (m : M A) (f : A -> M B) s :
  (m ≫= f) s
  = match m s with
    | (inl e, s') => (inl e, s')
    | (inr a, s') => f a s'
    end.
Proof. reflexivity. Qed.

Lemma run_ret {A} (a : A) s : (mret a : M A) s = (inr a, s).
Proof. reflexivity. Qed.

Lemma run_lift {A} (r : Exc A) s : lift r s = (r, s).
Proof. by destruct r. Qed.

Lemma run_deref_old l g (s news : Store) :
  s !! l = Some g -> deref l (s ++ news) = (inr g, s ++ news).
Proof. intros H. unfold deref. by erewrite lookup_app_l_Some by eassumption. Qed.

Lemma run_deref_new k b (s news : Store) :
  news !! k = Some b -> deref (length s + k) (s ++ news) = (inr b, s ++ news).
Proof.
  intros H. unfold deref. rewrite lookup_app_r by lia.
  replace (length s + k - length s) with k by lia. by rewrite H.
Qed.

Lemma run_new_graph g (s news : Store) :
  new_graph g (s ++ news)
  = (inr (length s + length news), s ++ (news ++ [g])).
Proof. unfold new_graph. by rewrite length_app, app_assoc. Qed.

Lemma run_mutate_new k f (s news : Store) :
  mutate (length s + k) f (s ++ news) = (inr tt, s ++ alter f k news).
Proof. unfold mutate. by rewrite alter_app_r. Qed.

Lemma exc_bind_inr {A B} (a : A) (f : A -> Exc B) :
  ((inr a : Exc A) ≫= f) = f a.
Proof. reflexivity. Qed.

Lemma exc_bind_inl {A B} (e : Exception) (f : A -> Exc B) :
  ((inl e : Exc A) ≫= f) = inl e.
Proof. reflexivity. Qed.

(** Rewrites the sub-results found so far in a pure computation. *)
Ltac exc_known :=
  repeat first
    [ rewrite exc_bind_inr
    | rewrite exc_bind_inl
    | match goal with
      | E : ?X = inr _ |- context [?X] => rewrite E
      | E : ?X = inl _ |- context [?X] => rewrite E
      end
    | progress cbv beta iota ].

Ltac run_step :=
  repeat rewrite run_bind;
  first
    [ rewrite run_lift
    | rewrite run_ret
    | rewrite run_new_graph
    | erewrite run_deref_new by reflexivity
    | erewrite run_deref_old by eassumption
    | rewrite run_mutate_new ];
  cbv beta iota.

Section Refinement.
Variable set_iter : list Node -> list Node.

Lemma run_apply_graph_predicate predicate b (s : Store) :
  _apply_graph_predicate (length s + 0) predicate (s ++ [b])
  = match predicate_to_del predicate (nx.nodes b) with
    | inl e => (inl e, s ++ [b])
    | inr to_del => (inr tt, s ++ [nx.remove_nodes_from b to_del])
    end.
Proof.
  unfold _apply_graph_predicate. run_step. run_step.
  destruct (predicate_to_del predicate (nx.nodes b)) as [e|to_del];
    cbv beta iota; [done|].
  by rewrite run_mutate_new.
Qed.

Lemma run_break_edges inputs : forall b (s : Store),
  for_each inputs
    (fun n =>
       b ← deref (length s + 0);
       mutate (length s + 0)
         (fun b' => nx.remove_edges_from b'
                      (non_subdoc_in_edges b (dnode n))))
    (s ++ [b])
  = (inr tt,
     s ++ [fold_left
             (fun b n => nx.remove_edges_from b
                           (non_subdoc_in_edges b (dnode n)))
             inputs b]).
Proof.
  induction inputs as [|n inputs IH]; intros b s; [reflexivity|].
  cbn [for_each fold_left]. run_step. run_step.
  cbn [alter list_alter]. apply IH.
Qed.

Lemma run_predicate predicate b (s : Store) :
  (match predicate with
   | Some predicate => _apply_graph_predicate (length s + 0) predicate
   | None => mret tt
   end) (s ++ [b])
  = match (match predicate with
           | Some predicate =>
               to_del ← predicate_to_del predicate (nx.nodes b);
               inr (nx.remove_nodes_from b to_del)
           | None => inr b
           end : Exc nx.DiGraph) with
    | inl e => (inl e, s ++ [b])
    | inr b' => (inr tt, s ++ [b'])
    end.
Proof.
  destruct predicate as [predicate|]; [|done].
  rewrite run_apply_graph_predicate.
  by destruct (predicate_to_del predicate (nx.nodes b)).
Qed.

(** [_prune_graph] adds graph objects to the store and changes none that
    was there; the last one added is the pruned graph it returns, and what
    it returns is [pruned]. *)
Lemma run_prune_graph self inputs outputs predicate (s : Store) g
    (Q : Exc (loc * list Dep * list Dep) * Store -> Prop) :
  s !! Network.graph self = Some g ->
  (forall e news,
     pruned set_iter g self inputs outputs predicate = inl e ->
     Q (inl e, s ++ news)) ->
  (forall p needs provides news,
     pruned set_iter g self inputs outputs predicate
     = inr (p, needs, provides) ->
     Q (inr (length s + length news, needs, provides), s ++ news ++ [p])) ->
  Q (_prune_graph set_iter self inputs outputs predicate s).
Proof.
  intros Hg Herr Hok.
  cut (forall σ, σ = s ++ [] ->
         Q (_prune_graph set_iter self inputs outputs predicate σ)).
  { intros H. apply H. by rewrite app_nil_r. }
  intros σ ->. unfold _prune_graph.
  run_step. run_step.
  destruct (resolve_inputs_outputs g self inputs outputs)
    as [e|[[satisfied_inputs inputs'] outputs']] eqn:E1; cbv beta iota.
  { apply Herr. unfold pruned. by exc_known. }
  run_step. run_step. cbn [length app].
  rewrite run_bind, run_predicate.
  match goal with
  | |- context [match ?X with inl _ => _ | inr _ => (inr tt, _) end] =>
      destruct X as [e|b0] eqn:E2
  end; cbv beta iota.
  { apply Herr. unfold pruned, broken_graph. by exc_known. }
  rewrite run_bind, run_break_edges. cbv beta iota.
  match goal with
  | |- context [s ++ [?B]] => set (b1 := B)
  end.
  assert (Eb1 : broken_graph g predicate inputs' = inr b1).
  { unfold broken_graph. by exc_known. }
  clearbody b1. clear E2 b0.
  destruct outputs' as [outs|].
  - run_step. run_step.
    destruct (ending_in_outputs g outs) as [e|ending] eqn:E3;
      cbv beta iota.
    { apply Herr. unfold pruned. by exc_known. }
    run_step. run_step. cbn [length app]. run_step. run_step.
    match goal with
    | |- context [unsatisfied_operations ?B ?I] =>
        destruct (unsatisfied_operations B I) as [e|unsatisfied] eqn:E4
    end; cbv beta iota.
    { apply Herr. unfold pruned. by exc_known. }
    run_step. run_step. cbn [length app]. run_step. run_step.
    cbn [alter list_alter]. run_step.
    destruct (resolved_needs_provides _ _ _ _) as [needs provides] eqn:E5.
    rewrite run_ret.
    apply (Hok _ _ _ [_; _]).
    unfold pruned. exc_known. unfold pruned_graph. by rewrite E5.
  - run_step. run_step. run_step.
    match goal with
    | |- context [unsatisfied_operations ?B ?I] =>
        destruct (unsatisfied_operations B I) as [e|unsatisfied] eqn:E4
    end; cbv beta iota.
    { apply Herr. unfold pruned. by exc_known. }
    run_step. run_step. cbn [length app]. run_step. run_step.
    cbn [alter list_alter]. run_step.
    destruct (resolved_needs_provides _ _ _ _) as [needs provides] eqn:E5.
    rewrite run_ret.
    apply (Hok _ _ _ [_]).
    unfold pruned. exc_known. unfold pruned_graph. by rewrite E5.
Qed.

Lemma run_deref l g (s : Store) : s !! l = Some g -> deref l s = (inr g, s).
Proof. intros H. unfold deref. by rewrite H. Qed.

Lemma run_build_execution_steps cfg self pruned_dag inputs outputs
    (s : Store) p g :
  s !! pruned_dag = Some p ->
  s !! Network.graph self = Some g ->
  _build_execution_steps cfg self pruned_dag inputs outputs s
  = (execution_steps cfg g p outputs, s).
Proof.
  intros Hp Hg. unfold _build_execution_steps.
  rewrite run_bind, (run_deref _ _ _ Hp). cbv beta iota.
  rewrite run_bind, (run_deref _ _ _ Hg). cbv beta iota.
  apply run_lift.
Qed.

Lemma run_compile cfg self inputs outputs predicate (s : Store)
    (Q : Exc (ExecutionPlan.t * Network.t) * Store -> Prop) :
  let key := cache_key inputs outputs predicate in
  (forall plan,
     Network._cached_plans self !! key = Some plan ->
     Q (inr (plan, self), s)) ->
  (Network._cached_plans self !! key = None ->
   s !! Network.graph self = None ->
   Q (inl KeyError, s)) ->
  (forall g e news,
     Network._cached_plans self !! key = None ->
     s !! Network.graph self = Some g ->
     compiled set_iter cfg g self inputs outputs predicate = inl e ->
     Q (inl e, s ++ news)) ->
  (forall g p needs provides steps news,
     Network._cached_plans self !! key = None ->
     s !! Network.graph self = Some g ->
     compiled set_iter cfg g self inputs outputs predicate
     = inr (p, needs, provides, steps) ->
     let plan :=
       fresh_plan self outputs (length s + length news) needs provides
         steps in
     Q (inr (plan, with_plan self key plan), s ++ news ++ [p])) ->
  Q (compile set_iter cfg self inputs outputs predicate s).
Proof.
  intros key Hhit Hdangling Herr Hok. unfold compile.
  fold (cache_key inputs outputs predicate). fold key.
  destruct (Network._cached_plans self !! key) as [plan|] eqn:Hkey.
  { by apply Hhit. }
  destruct (s !! Network.graph self) as [g|] eqn:Hg.
  2:{ unfold _prune_graph. repeat rewrite run_bind. unfold deref at 1.
      rewrite Hg. cbv beta iota. by apply Hdangling. }
  rewrite run_bind.
  match goal with
  | |- context [_prune_graph ?a ?b ?c ?d ?e ?f] =>
      pattern (_prune_graph a b c d e f)
  end.
  apply run_prune_graph with (g := g); [done|..].
  - intros e news Hp. apply (Herr g); [done|done|].
    unfold compiled. by rewrite Hp.
  - intros p needs provides news Hp. cbv beta iota.
    assert (Hlp : (s ++ news ++ [p]) !! (length s + length news) = Some p).
    { rewrite app_assoc, lookup_app_r; rewrite length_app; [|lia].
      by rewrite Nat.sub_diag. }
    assert (Hlg : (s ++ news ++ [p]) !! Network.graph self = Some g).
    { by apply lookup_app_l_Some. }
    rewrite run_bind.
    rewrite (run_build_execution_steps _ _ _ _ _ _ _ _ Hlp Hlg).
    destruct (execution_steps cfg g p _) as [e|steps] eqn:Hsteps;
      cbv beta iota.
    + apply (Herr g); [done|done|].
      unfold compiled. rewrite Hp. cbv beta iota.
      rewrite exc_bind_inr. cbv beta iota. by rewrite Hsteps.
    + rewrite run_ret. apply (Hok g); [done|done|].
      unfold compiled. rewrite Hp. cbv beta iota.
      rewrite exc_bind_inr. cbv beta iota. by rewrite Hsteps.
Qed.
End Refinement.

(** ** The network and its cache across calls *)

Section CompileFacts.
Variable set_iter : list Node -> list Node.

(** C9.  A call of [compile], whether it returns or raises, leaves the
    graph of the network and every graph that was in the store as they
    were: the same nodes, edges and attributes; and the network that comes
    back has the same graph, needs and provides. *)
Theorem compile_leaves_network_unchanged cfg self inputs outputs predicate
    (s : Store) :
  let r := compile set_iter cfg self inputs outputs predicate s in
  r.2 !! Network.graph self = s !! Network.graph self
  /\ (forall l g, s !! l = Some g -> r.2 !! l = Some g)
  /\ (forall plan self',
        r.1 = inr (plan, self') ->
        Network.graph self' = Network.graph self
        /\ Network.needs self' = Network.needs self
        /\ Network.provides self' = Network.provides self).
Proof.
  cbv zeta.
  cut ((fun x : Exc (ExecutionPlan.t * Network.t) * Store =>
          (exists news, x.2 = s ++ news)
          /\ (s !! Network.graph self = None -> x.2 = s)
          /\ (forall plan self',
                x.1 = inr (plan, self') ->
                Network.graph self' = Network.graph self
                /\ Network.needs self' = Network.needs self
                /\ Network.provides self' = Network.provides self))
         (compile set_iter cfg self inputs outputs predicate s)).
  { cbv beta. intros ((news & Hnews) & Hnone & Hnet).
    split; [|split; [|done]].
    - destruct (s !! Network.graph self) as [g|] eqn:Hg.
      + rewrite Hnews. by apply lookup_app_l_Some.
      + by rewrite Hnone.
    - intros l g Hl. rewrite Hnews. by apply lookup_app_l_Some. }
  apply run_compile.
  - intros plan _. simpl. split; [exists []; by rewrite app_nil_r|].
    split; [done|]. by intros ? ? [= _ <-].
  - intros _ _. simpl. split; [exists []; by rewrite app_nil_r|]. done.
  - intros g e news _ Hg _. simpl. split; [by exists news|].
    split; [by rewrite Hg|]. done.
  - intros g p needs provides steps news _ Hg _ plan. simpl.
    split; [by eexists|]. split; [by rewrite Hg|].
    by intros ? ? [= _ <-].
Qed.

(** *** The cache only grows *)

Lemma compile_cached cfg self inputs outputs predicate (s : Store)
    plan self' :
  (compile set_iter cfg self inputs outputs predicate s).1
  = inr (plan, self') ->
  Network._cached_plans self' !! cache_key inputs outputs predicate
  = Some plan
  /\ forall k plan0,
       Network._cached_plans self !! k = Some plan0 ->
       Network._cached_plans self' !! k = Some plan0.
Proof.
  pattern (compile set_iter cfg self inputs outputs predicate s).
  apply run_compile; simpl.
  - intros plan0 Hhit [= <- <-]. done.
  - done.
  - done.
  - intros g p needs provides steps news Hmiss _ _ [= <- <-]. simpl.
    split; [by rewrite lookup_insert_eq|].
    intros k plan0 Hk. rewrite lookup_insert_ne; [done|].
    intros <-. congruence.
Qed.

Lemma after_call_cached ns c k plan :
  Network._cached_plans ns.1 !! k = Some plan ->
  Network._cached_plans (after_call set_iter ns c).1 !! k = Some plan.
Proof.
  intros Hk. unfold after_call.
  destruct (compile _ _ _ _ _ _ _) as [[e|[plan' net']] s'] eqn:Hc;
    [done|]. simpl.
  eapply compile_cached; [|done]. by rewrite Hc.
Qed.

Lemma after_calls_cached calls : forall ns k plan,
  Network._cached_plans ns.1 !! k = Some plan ->
  Network._cached_plans (after_calls set_iter ns calls).1 !! k = Some plan.
Proof.
  induction calls as [|c calls IH]; intros ns k plan Hk; [done|].
  simpl. apply IH. by apply after_call_cached.
Qed.

(** C2.  Two calls of [compile] on a network, with any calls in between,
    whose inputs are the same once sorted, whose outputs are the same once
    sorted, and whose predicates are the same once a falsy one is taken as
    absent, return the same plan: the same steps in the same order. *)
Theorem compile_same_key_same_plan cfg1 cfg2 self (s : Store)
    inputs1 outputs1 predicate1 inputs2 outputs2 predicate2
    calls plan1 self1 plan2 self2 :
  sorted <$> astuple inputs1 = sorted <$> astuple inputs2 ->
  sorted <$> astuple outputs1 = sorted <$> astuple outputs2 ->
  normal_predicate predicate1 = normal_predicate predicate2 ->
  (compile set_iter cfg1 self inputs1 outputs1 predicate1 s).1
  = inr (plan1, self1) ->
  let later :=
    after_calls set_iter
      (self1, (compile set_iter cfg1 self inputs1 outputs1 predicate1 s).2)
      calls in
  (compile set_iter cfg2 later.1 inputs2 outputs2 predicate2 later.2).1
  = inr (plan2, self2) ->
  plan2 = plan1
  /\ ExecutionPlan.steps plan2 = ExecutionPlan.steps plan1.
Proof.
  intros Hi Ho Hp H1 later H2.
  assert (plan2 = plan1); [|by subst].
  apply compile_cached in H1 as [H1 _].
  apply (after_calls_cached calls
           (self1,
            (compile set_iter cfg1 self inputs1 outputs1 predicate1 s).2))
    in H1.
  fold later in H1.
  assert (Hkey : cache_key inputs2 outputs2 predicate2
                 = cache_key inputs1 outputs1 predicate1).
  { unfold cache_key. by rewrite Hi, Ho, Hp. }
  revert H2.
  pattern (compile set_iter cfg2 later.1 inputs2 outputs2 predicate2
             later.2).
  apply run_compile; simpl; rewrite Hkey.
  - intros plan Hhit [= <- _]. congruence.
  - done.
  - done.
  - intros; congruence.
Qed.
End CompileFacts.

(** ** Sorting *)

Lemma insert_sorted_perm s l : insert_sorted s l ≡ₚ s :: l.
Proof.
  induction l as [|x l IH]; simpl; [done|].
  destruct (String.ltb s x); [done|].
  rewrite IH. apply Permutation_swap.
Qed.

Lemma sorted_perm l : sorted l ≡ₚ l.
Proof.
  unfold sorted.
  assert (H : forall acc, fold_left (fun acc s => insert_sorted s acc) l acc
                          ≡ₚ l ++ acc).
  { induction l as [|x l IH]; intros acc; simpl; [done|].
    rewrite IH, insert_sorted_perm. symmetry. apply Permutation_middle. }
  rewrite H. by rewrite app_nil_r.
Qed.

Lemma sorted_elem l x : x ∈ sorted l <-> x ∈ l.
Proof. by rewrite sorted_perm. Qed.

Lemma sorted_nil_inv l : sorted l = [] -> l = [].
Proof.
  intros H. apply Permutation_nil_r. rewrite <- H. by rewrite sorted_perm.
Qed.

(** ** Insertion-ordered sets of dependencies *)

Lemma dep_iset_fold_names l : forall acc n,
  n ∈ map dep_name (fold_left dep_iset_add l acc)
  <-> n ∈ map dep_name acc \/ n ∈ map dep_name l.
Proof.
  induction l as [|x l IH]; intros acc n; simpl.
  - rewrite elem_of_nil. tauto.
  - rewrite IH. unfold dep_iset_add. destruct (mem _ _) eqn:Hm.
    + apply mem_true in Hm. rewrite elem_of_cons. split; [tauto|].
      intros [?|[->|?]]; tauto.
    + rewrite map_app, elem_of_app, elem_of_cons. simpl.
      rewrite list_elem_of_singleton. tauto.
Qed.

Lemma dep_iset_names l n :
  n ∈ map dep_name (dep_iset l) <-> n ∈ map dep_name l.
Proof.
  unfold dep_iset. rewrite dep_iset_fold_names. simpl. rewrite elem_of_nil.
  tauto.
Qed.

Lemma dep_iset_plain_elem l d :
  d ∈ dep_iset (map plain l) <-> exists x, d = plain x /\ x ∈ l.
Proof.
  split.
  - intros H. apply dep_iset_elem in H.
    apply list_elem_of_fmap in H as (x & -> & Hx). eauto.
  - intros (x & -> & Hx).
    assert (Hn : x ∈ map dep_name (dep_iset (map plain l))).
    { apply dep_iset_names. rewrite map_map. simpl. by rewrite map_id. }
    apply list_elem_of_fmap in Hn as (d & Hd & Hin).
    pose proof Hin as Hin'. apply dep_iset_elem in Hin'.
    apply list_elem_of_fmap in Hin' as (y & -> & Hy). simpl in Hd. by subst.
Qed.

Section CacheFacts.
Variable set_iter : list Node -> list Node.

(** [compiled] reads the needs and the provides of the network only. *)
Lemma compiled_ext cfg g self net0 inputs outputs predicate :
  Network.needs self = Network.needs net0 ->
  Network.provides self = Network.provides net0 ->
  compiled set_iter cfg g self inputs outputs predicate
  = compiled set_iter cfg g net0 inputs outputs predicate.
Proof.
  destruct self, net0. simpl. intros -> ->. reflexivity.
Qed.

Lemma cache_from_after_call net0 g ns c :
  cache_from set_iter net0 g ns -> cache_from set_iter net0 g (after_call set_iter ns c).
Proof.
  intros (Hgr & Hn & Hp & Hg & Hc). unfold after_call.
  pattern (compile set_iter (Call.cfg c) ns.1 (Call.inputs c)
             (Call.outputs c) (Call.predicate c) ns.2).
  apply run_compile.
  - intros plan _. by destruct ns.
  - intros _ _. by destruct ns.
  - intros g' e news _ Hg' _. simpl.
    split; [done|]. split; [done|]. split; [done|].
    split; [by apply lookup_app_l_Some|].
    intros key plan Hk. destruct (Hc key plan Hk)
      as (cfg & i & o & pr & p & ? & ? & ? & ?).
    exists cfg, i, o, pr, p. split; [done|]. split; [done|].
    split; [by apply lookup_app_l_Some|done].
  - intros g' p needs provides steps news Hmiss Hg' Hcomp plan.
    subst plan. unfold with_plan, fresh_plan. simpl.
    rewrite Hgr, Hg in Hg'. injection Hg' as <-.
    rewrite (compiled_ext _ _ _ net0) in Hcomp by done.
    split; [done|]. split; [done|]. split; [done|].
    split; [by apply lookup_app_l_Some|].
    intros key plan0.
    destruct (decide (cache_key (Call.inputs c) (Call.outputs c)
                        (Call.predicate c) = key)) as [<-|Hne].
    + cbn [fst snd Network._cached_plans]. rewrite lookup_insert_eq.
      intros [= <-].
      exists (Call.cfg c), (Call.inputs c), (Call.outputs c),
             (Call.predicate c), p.
      split; [done|]. split; [done|]. split; [|done]. simpl.
      rewrite app_assoc, lookup_app_r; rewrite length_app; [|lia].
      by rewrite Nat.sub_diag.
    + cbn [fst snd Network._cached_plans].
      rewrite lookup_insert_ne by done. intros Hk.
      destruct (Hc key plan0 Hk) as (cfg & i & o & pr & p0 & ? & ? & ? & ?).
      exists cfg, i, o, pr, p0. split; [done|]. split; [done|].
      split; [by apply lookup_app_l_Some|done].
Qed.

Lemma cache_from_after_calls net0 g calls : forall ns,
  cache_from set_iter net0 g ns -> cache_from set_iter net0 g (after_calls set_iter ns calls).
Proof.
  induction calls as [|c calls IH]; intros ns H; [done|].
  simpl. by apply IH, cache_from_after_call.
Qed.

Lemma cache_from_start net0 g (s0 : Store) :
  Network._cached_plans net0 = ∅ ->
  s0 !! Network.graph net0 = Some g ->
  cache_from set_iter net0 g (net0, s0).
Proof.
  intros Hc Hg. repeat (split; [done|]). intros key plan. simpl.
  by rewrite Hc, lookup_empty.
Qed.

(** *** Unknown outputs *)

Lemma compiled_unknown_outputs cfg g self inputs outputs predicate l name :
  sorted <$> astuple outputs = Some (sorted l) ->
  name ∈ l ->
  nx.has_node g (Data name) = false ->
  exists unknown,
    compiled set_iter cfg g self inputs outputs predicate
    = inl (ValueError "Unknown output nodes: " unknown)
    /\ forall u, u ∈ unknown
                 <-> u ∈ l /\ nx.has_node g (Data u) = false.
Proof.
  intros Ho Hname Hg.
  set (unknown_deps :=
    List.filter (fun d => negb (in_graph g d))
                (dep_iset (map plain (sorted l)))).
  assert (Hu : forall u, u ∈ map dep_name unknown_deps
                         <-> u ∈ l /\ nx.has_node g (Data u) = false).
  { intros u. unfold unknown_deps. rewrite list_elem_of_fmap. split.
    - intros (d & -> & Hd). apply list_elem_of_In, filter_In in Hd.
      destruct Hd as [Hd Hf]. apply list_elem_of_In in Hd.
      apply dep_iset_plain_elem in Hd as (x & -> & Hx).
      rewrite sorted_elem in Hx. split; [exact Hx|].
      apply negb_true_iff in Hf. exact Hf.
    - intros [Hl Hf]. exists (plain u). split; [done|].
      apply list_elem_of_In, filter_In. split.
      + apply list_elem_of_In, dep_iset_plain_elem. exists u.
        split; [done|]. by rewrite sorted_elem.
      + apply negb_true_iff. exact Hf. }
  exists (map dep_name unknown_deps). split; [|done].
  unfold compiled, pruned. rewrite Ho. cbn [fmap option_fmap option_map].
  assert (Hne : unknown_deps <> []).
  { intros Hnil. assert (name ∈ map dep_name unknown_deps) by by apply Hu.
    rewrite Hnil in H. by apply elem_of_nil in H. }
  assert (Hsl : exists o os, map plain (sorted l) = o :: os).
  { destruct (map plain (sorted l)) as [|o os] eqn:E; [|eauto].
    exfalso. apply Hne. unfold unknown_deps. try rewrite E. done. }
  destruct Hsl as (o & os & Hsl). fold unknown_deps.
  assert (Hres : forall i,
    resolve_inputs_outputs g self i (Some (map plain (sorted l)))
    = inl (ValueError "Unknown output nodes: "
                      (map dep_name unknown_deps))).
  { intros i. unfold resolve_inputs_outputs. unfold unknown_deps in *.
    rewrite Hsl in *.
    destruct (List.filter _ (dep_iset (o :: os))) eqn:E; [done|].
    by destruct i. }
  by rewrite Hres.
Qed.

(** C6.  Asking for an output that is no node of the graph of the network
    makes [compile] raise the [ValueError] whose message begins with
    [Unknown output nodes: ] and which lists the asked names that are no
    nodes; no plan is in the cache for such a request, and the call leaves
    the network, its cache included, as it was. *)
Theorem compile_unknown_output_nodes net0 (s0 : Store) g calls cfg
    inputs outputs predicate l name :
  Network._cached_plans net0 = ∅ ->
  s0 !! Network.graph net0 = Some g ->
  astuple outputs = Some l ->
  name ∈ l ->
  nx.has_node g (Data name) = false ->
  let now := after_calls set_iter (net0, s0) calls in
  exists unknown,
    (compile set_iter cfg now.1 inputs outputs predicate now.2).1
    = inl (ValueError "Unknown output nodes: " unknown)
    /\ (forall u, u ∈ unknown
                  <-> u ∈ l /\ nx.has_node g (Data u) = false)
    /\ Network._cached_plans now.1 !! cache_key inputs outputs predicate
       = None
    /\ (after_call set_iter now (Call.mk cfg inputs outputs predicate)).1
       = now.1.
Proof.
  intros Hc0 Hg0 Ho Hname Hg now.
  pose proof (cache_from_after_calls net0 g calls _
                (cache_from_start _ _ _ Hc0 Hg0)) as Hinv.
  fold now in Hinv. destruct Hinv as (Hgr & Hn & Hp & Hgnow & Hc).
  assert (Ho' : sorted <$> astuple outputs = Some (sorted l))
    by by rewrite Ho.
  destruct (compiled_unknown_outputs cfg g net0 inputs outputs predicate
              l name Ho' Hname Hg) as (unknown & Hcomp & Hu).
  assert (Hmiss : Network._cached_plans now.1
                  !! cache_key inputs outputs predicate = None).
  { destruct (Network._cached_plans now.1
              !! cache_key inputs outputs predicate) as [plan|] eqn:Hk;
      [|done].
    exfalso.
    destruct (Hc _ _ Hk) as (cfg' & i' & o' & pr' & p & Hkey & Hcomp' & _).
    assert (Ho'' : sorted <$> astuple o' = Some (sorted l)).
    { unfold cache_key in Hkey. injection Hkey as _ <- _. done. }
    destruct (compiled_unknown_outputs cfg' g net0 i' o' pr' l name
                Ho'' Hname Hg) as (? & Hx & _).
    congruence. }
  assert (Hrun : (compile set_iter cfg now.1 inputs outputs predicate
                    now.2).1
                 = inl (ValueError "Unknown output nodes: " unknown)).
  { pattern (compile set_iter cfg now.1 inputs outputs predicate now.2).
    apply run_compile; simpl.
    - intros plan Hk. congruence.
    - intros _ Hnone. rewrite Hgr in Hnone. congruence.
    - intros g' e news _ Hg' Hcomp'. rewrite Hgr, Hgnow in Hg'.
      injection Hg' as <-.
      rewrite (compiled_ext _ _ _ net0) in Hcomp' by done. congruence.
    - intros g' p ? ? ? news _ Hg' Hcomp'. rewrite Hgr, Hgnow in Hg'.
      injection Hg' as <-.
      rewrite (compiled_ext _ _ _ net0) in Hcomp' by done. congruence. }
  exists unknown. split; [done|]. split; [done|]. split; [done|].
  unfold after_call. simpl.
  destruct (compile set_iter cfg now.1 inputs outputs predicate now.2)
    as [[e|[plan net']] s'] eqn:E; [done|]. simpl in Hrun. done.
Qed.
End CacheFacts.

(** ** Empty outputs *)

Lemma filter_nil_false {A} (f : A -> bool) l :
  (forall x, f x = false) -> List.filter f l = [].
Proof.
  intros H. induction l as [|x l IH]; simpl; [done|]. by rewrite H.
Qed.

Lemma predicate_to_del_total predicate items :
  (forall n a op, (n, a) ∈ items -> NodeAttrs.obj a = Some op ->
                  is_Some (NodePredicate.call predicate op a)) ->
  exists to_del, predicate_to_del predicate items = inr to_del.
Proof.
  induction items as [|[n a] items IH]; intros H; simpl; [eauto|].
  destruct IH as [to_del Hdel].
  { intros n' a' op Hin. apply (H n'). by right. }
  destruct n as [d|nm]; [eauto|].
  destruct (NodeAttrs.obj a) as [op|] eqn:Hobj; [|eauto].
  destruct (H (Oper nm) a op) as [keep Hkeep]; [by left|done|].
  rewrite Hkeep, Hdel. simpl. eauto.
Qed.

Section EmptyOutputs.
Variable set_iter : list Node -> list Node.
Hypothesis set_iter_perm : forall l, NoDup l -> set_iter l ≡ₚ l.

Lemma set_iter_nil : set_iter [] = [].
Proof. apply Permutation_nil_r, set_iter_perm. constructor. Qed.

Lemma subgraph_copy_nil b : nx.subgraph_copy set_iter b [] = nx.empty.
Proof.
  unfold nx.subgraph_copy, iset. simpl. rewrite set_iter_nil. simpl.
  rewrite filter_nil_false by done. by destruct (_ <? _).
Qed.

Lemma update_with_chaindocs_empty docs : forall acc,
  update_with_chaindocs nx.empty docs acc = Some acc.
Proof.
  unfold update_with_chaindocs, yield_chaindocs, _yield_chained_docs.
  induction docs as [|d docs IH]; intros acc; [done|].
  cbn [fold_left]. simpl. apply IH.
Qed.

Lemma unsatisfied_operations_empty inputs :
  unsatisfied_operations nx.empty inputs = inr [].
Proof.
  unfold unsatisfied_operations. by rewrite update_with_chaindocs_empty.
Qed.

Lemma broken_graph_total g predicate inputs :
  (forall pr, predicate = Some pr -> never_raises pr g) ->
  exists b, broken_graph g predicate inputs = inr b.
Proof.
  intros H. unfold broken_graph. destruct predicate as [pr|]; [|eauto].
  destruct (predicate_to_del_total pr (nx.nodes (nx.copy g))) as [? ->].
  { intros n a op. by apply (H pr). }
  simpl. eauto.
Qed.

Lemma resolved_needs_provides_empty self sat :
  resolved_needs_provides nx.empty self sat (Some []) = ([], []).
Proof.
  unfold resolved_needs_provides. by rewrite filter_nil_false.
Qed.

Lemma execution_steps_empty cfg g :
  execution_steps cfg g nx.empty [] = inr [].
Proof. reflexivity. Qed.

(** With an empty collection of outputs nothing is left of the graph. *)
Lemma compiled_empty_outputs cfg g self inputs outputs predicate :
  sorted <$> astuple outputs = Some [] ->
  exists inputs',
    compiled set_iter cfg g self inputs outputs predicate
    = match broken_graph g (normal_predicate predicate) inputs' with
      | inl e => inl e
      | inr _ => inr (nx.empty, [], [], [])
      end.
Proof.
  intros Ho. unfold compiled, pruned. rewrite Ho.
  cbn [fmap option_fmap option_map map default].
  assert (Hres : exists sat inputs',
    resolve_inputs_outputs g self (map plain <$> (sorted <$> astuple inputs))
      (Some [])
    = inr (sat, inputs', Some [])).
  { unfold resolve_inputs_outputs.
    destruct (map plain <$> (sorted <$> astuple inputs)); eauto. }
  destruct Hres as (sat & inputs' & ->). exists inputs'.
  rewrite exc_bind_inr. cbv beta iota.
  destruct (broken_graph g (normal_predicate predicate) inputs')
    as [e|b]; [done|].
  rewrite exc_bind_inr. unfold ending_in_outputs. cbn [map].
  unfold yield_chaindocs, _yield_chained_docs. cbn [fold_left].
  cbn [or_recursion_error]. rewrite exc_bind_inr.
  rewrite subgraph_copy_nil, exc_bind_inr, unsatisfied_operations_empty.
  rewrite exc_bind_inr. unfold pruned_graph. cbn [nx.node_list nx.nodes
    nx.empty map List.filter]. rewrite subgraph_copy_nil.
  change (nx.remove_nodes_from nx.empty (nx.isolates nx.empty))
    with nx.empty.
  rewrite resolved_needs_provides_empty, exc_bind_inr. cbv beta iota.
  change (id (@nil string)) with (@nil string).
  by rewrite execution_steps_empty.
Qed.

(** C10, for a predicate that raises on no operation of the graph.
    [compile] with outputs given as an empty collection raises nothing and
    returns a plan whose pruned graph has no node, whose needs, provides
    and steps are empty, and whose [asked_outs] is true. *)
Theorem compile_empty_outputs net0 (s0 : Store) g calls cfg
    inputs outputs predicate :
  Network._cached_plans net0 = ∅ ->
  s0 !! Network.graph net0 = Some g ->
  astuple outputs = Some [] ->
  (forall pr, normal_predicate predicate = Some pr -> never_raises pr g) ->
  let now := after_calls set_iter (net0, s0) calls in
  let r := compile set_iter cfg now.1 inputs outputs predicate now.2 in
  exists plan self' p,
    r.1 = inr (plan, self')
    /\ r.2 !! ExecutionPlan.dag plan = Some p
    /\ nx.nodes p = []
    /\ ExecutionPlan.needs plan = []
    /\ ExecutionPlan.provides plan = []
    /\ ExecutionPlan.steps plan = []
    /\ ExecutionPlan.asked_outs plan = true.
Proof.
  intros Hc0 Hg0 Ho Hpred now r.
  pose proof (cache_from_after_calls set_iter net0 g calls _
                (cache_from_start set_iter _ _ _ Hc0 Hg0)) as Hinv.
  fold now in Hinv. destruct Hinv as (Hgr & Hn & Hp & Hgnow & Hc).
  assert (Ho' : sorted <$> astuple outputs = Some []) by by rewrite Ho.
  subst r.
  pattern (compile set_iter cfg now.1 inputs outputs predicate now.2).
  apply run_compile; simpl.
  - intros plan Hk.
    destruct (Hc _ _ Hk)
      as (cfg' & i' & o' & pr' & p & Hkey & Hcomp & Hdag & Hasked).
    assert (Ho'' : sorted <$> astuple o' = Some []).
    { unfold cache_key in Hkey. injection Hkey as _ <- _. done. }
    destruct (compiled_empty_outputs cfg' g net0 i' o' pr' Ho'')
      as (inputs' & Heq).
    rewrite Heq in Hcomp.
    destruct (broken_graph _ _ _); [done|].
    injection Hcomp as E1 E2 E3 E4. subst p.
    exists plan, now.1, nx.empty. rewrite <- E2, <- E3, <- E4.
    rewrite Hasked, Ho''. done.
  - intros _ Hnone. rewrite Hgr in Hnone. congruence.
  - intros g' e news _ Hg' Hcomp. exfalso.
    rewrite Hgr, Hgnow in Hg'. injection Hg' as <-.
    destruct (compiled_empty_outputs cfg g now.1 inputs outputs predicate
                Ho') as (inputs' & Heq).
    rewrite Heq in Hcomp.
    destruct (broken_graph_total g (normal_predicate predicate) inputs'
                Hpred) as [b Hb].
    by rewrite Hb in Hcomp.
  - intros g' p needs provides steps news _ Hg' Hcomp.
    destruct (compiled_empty_outputs cfg g' now.1 inputs outputs predicate
                Ho') as (inputs' & Heq).
    rewrite Heq in Hcomp. destruct (broken_graph _ _ _); [done|].
    injection Hcomp as <- <- <- <-.
    eexists _, _, nx.empty. split; [reflexivity|]. simpl.
    split; [|by rewrite Ho'].
    rewrite app_assoc, lookup_app_r; rewrite length_app; [|lia].
    by rewrite Nat.sub_diag.
Qed.
End EmptyOutputs.

(** ** No evictions without outputs or with [skip_evictions] *)

Lemma is_operation_Oper p n : is_operation p n = true -> is_Oper n = true.
Proof.
  unfold is_operation, op_object. destruct n; [|done].
  intros H. apply bool_decide_eq_true in H. by destruct H.
Qed.

Lemma compiled_only_operations set_iter cfg g self inputs outputs predicate
    p needs provides steps :
  compiled set_iter cfg g self inputs outputs predicate
  = inr (p, needs, provides, steps) ->
  astuple outputs = None \/ astuple outputs = Some []
  \/ is_skip_evictions cfg = Some true ->
  Forall (fun step => is_Oper step = true) steps.
Proof.
  unfold compiled. intros Hc Hcond.
  destruct (pruned _ _ _ _ _ _) as [e|[[p' needs'] provides']]; [done|].
  rewrite exc_bind_inr in Hc. cbv beta iota in Hc.
  unfold execution_steps in Hc.
  destruct (_topo_sort_nodes p') as [e|sorted_nodes]; [done|].
  rewrite exc_bind_inr in Hc.
  assert (Hb : negb (bool_decide (default [] (sorted <$> astuple outputs)
                                  ≠ []))
               || truthy (is_skip_evictions cfg) = true).
  { destruct Hcond as [Hc1|[Hc1|Hc1]]; rewrite Hc1; [done|done|].
    apply orb_true_r. }
  rewrite Hb in Hc. injection Hc as <- <- <- <-.
  apply Forall_forall. intros n Hn. apply list_elem_of_In, filter_In in Hn.
  destruct Hn as [_ Hn]. by apply is_operation_Oper in Hn.
Qed.

(** A call that misses the cache and is made without outputs, or with the
    [skip_evictions] bit set, plans no eviction. *)
Lemma compile_miss_only_operations set_iter cfg self inputs outputs predicate
    (s : Store) plan self' :
  Network._cached_plans self !! cache_key inputs outputs predicate = None ->
  (compile set_iter cfg self inputs outputs predicate s).1
  = inr (plan, self') ->
  astuple outputs = None \/ astuple outputs = Some []
  \/ is_skip_evictions cfg = Some true ->
  Forall (fun step => is_Oper step = true) (ExecutionPlan.steps plan).
Proof.
  intros Hmiss Hrun Hcond. revert Hrun.
  pattern (compile set_iter cfg self inputs outputs predicate s).
  apply run_compile; simpl.
  - intros; congruence.
  - done.
  - done.
  - intros g p needs provides steps news _ _ Hcomp [= <- _]. simpl.
    by eapply compiled_only_operations.
Qed.

(** ** Graphs: membership in what the [networkx] calls return *)

Lemma elem_of_List_filter {A} (f : A -> bool) l x :
  x ∈ List.filter f l <-> x ∈ l /\ f x = true.
Proof. by rewrite !list_elem_of_In, filter_In. Qed.

Lemma has_node_true g n : nx.has_node g n = true <-> n ∈ nx.node_list g.
Proof. apply mem_true. Qed.

Lemma has_node_false g n : nx.has_node g n = false <-> n ∉ nx.node_list g.
Proof. apply mem_false. Qed.

Lemma in_edges_elem g v e :
  e ∈ nx.in_edges g v <-> e ∈ nx.edges g /\ nx.dst e = v.
Proof.
  unfold nx.in_edges. rewrite elem_of_List_filter, bool_decide_eq_true. done.
Qed.

Lemma out_edges_elem g u e :
  e ∈ nx.out_edges g u <-> e ∈ nx.edges g /\ nx.src e = u.
Proof.
  unfold nx.out_edges. rewrite elem_of_List_filter, bool_decide_eq_true. done.
Qed.

Lemma predecessors_elem g v u :
  u ∈ nx.predecessors g v
  <-> exists e, e ∈ nx.edges g /\ nx.src e = u /\ nx.dst e = v.
Proof.
  unfold nx.predecessors. rewrite list_elem_of_fmap. split.
  - intros (e & -> & He). apply in_edges_elem in He as [? ?]. eauto.
  - intros (e & He & <- & <-). exists e. split; [done|].
    by apply in_edges_elem.
Qed.

Lemma successors_elem g u v :
  v ∈ nx.successors g u
  <-> exists e, e ∈ nx.edges g /\ nx.src e = u /\ nx.dst e = v.
Proof.
  unfold nx.successors. rewrite list_elem_of_fmap. split.
  - intros (e & -> & He). apply out_edges_elem in He as [? ?]. eauto.
  - intros (e & He & <- & <-). exists e. split; [done|].
    by apply out_edges_elem.
Qed.

Lemma iset_fold_spec {A} `{EqDecision A} (l : list A) : forall acc,
  NoDup acc ->
  NoDup (fold_left iset_add l acc)
  /\ forall x, x ∈ fold_left iset_add l acc <-> x ∈ acc \/ x ∈ l.
Proof.
  induction l as [|a l IH]; intros acc Hacc; simpl.
  - split; [done|]. intros x. rewrite elem_of_nil. tauto.
  - assert (Hadd : NoDup (iset_add acc a)).
    { unfold iset_add. destruct (mem a acc) eqn:Hm; [done|].
      apply mem_false in Hm. apply NoDup_app. split; [done|].
      split; [|apply NoDup_singleton].
      intros x Hx ->%list_elem_of_singleton. done. }
    destruct (IH _ Hadd) as [H1 H2]. split; [done|].
    intros x. rewrite H2, iset_add_elem, elem_of_cons. tauto.
Qed.

Lemma iset_NoDup {A} `{EqDecision A} (l : list A) : NoDup (iset l).
Proof. apply iset_fold_spec. constructor. Qed.

Lemma iset_elem {A} `{EqDecision A} (l : list A) x : x ∈ iset l <-> x ∈ l.
Proof.
  unfold iset. destruct (iset_fold_spec l [] (NoDup_nil_2)) as [_ H].
  rewrite H, elem_of_nil. tauto.
Qed.

Lemma NoDup_List_filter {A} (f : A -> bool) l :
  NoDup l -> NoDup (List.filter f l).
Proof.
  induction l as [|x l IH]; simpl; [done|].
  intros [Hx Hl]%NoDup_cons. destruct (f x); [|by apply IH].
  apply NoDup_cons. split; [|by apply IH].
  rewrite elem_of_List_filter. tauto.
Qed.

Section Subgraphs.
Variable set_iter : list Node -> list Node.
Hypothesis set_iter_perm : forall l, NoDup l -> set_iter l ≡ₚ l.

Lemma kept_nodes_elem g ns n :
  n ∈ kept_nodes g ns <-> n ∈ nx.node_list g /\ n ∈ ns.
Proof.
  unfold kept_nodes. rewrite iset_elem, elem_of_List_filter, has_node_true.
  tauto.
Qed.

Lemma kept_nodes_NoDup g ns : NoDup (kept_nodes g ns).
Proof. apply iset_NoDup. Qed.

Lemma view_order_elem g ns n :
  n ∈ view_order set_iter g ns <-> n ∈ nx.node_list g /\ n ∈ ns.
Proof.
  unfold view_order. destruct (_ <? _).
  - rewrite elem_of_List_filter, has_node_true.
    rewrite (set_iter_perm _ (kept_nodes_NoDup g ns)).
    rewrite kept_nodes_elem. tauto.
  - rewrite elem_of_List_filter, mem_true, kept_nodes_elem. tauto.
Qed.

Lemma view_order_NoDup g ns :
  NoDup (nx.node_list g) -> NoDup (view_order set_iter g ns).
Proof.
  intros Hg. unfold view_order. destruct (_ <? _).
  - apply NoDup_List_filter.
    rewrite (set_iter_perm _ (kept_nodes_NoDup g ns)).
    apply kept_nodes_NoDup.
  - by apply NoDup_List_filter.
Qed.

Lemma subgraph_copy_eq g ns :
  nx.subgraph_copy set_iter g ns
  = nx.mk (map (fun n => (n, nx.node_attrs g n)) (view_order set_iter g ns))
          (flat_map
             (fun u => List.filter (fun e => mem (nx.dst e)
                                                 (kept_nodes g ns))
                                   (nx.out_edges g u))
             (view_order set_iter g ns)).
Proof. reflexivity. Qed.

Lemma subgraph_copy_node_list g ns :
  nx.node_list (nx.subgraph_copy set_iter g ns) = view_order set_iter g ns.
Proof.
  rewrite subgraph_copy_eq. unfold nx.node_list. simpl.
  rewrite map_map. simpl. apply map_id.
Qed.

Lemma subgraph_copy_nodes g ns n :
  n ∈ nx.node_list (nx.subgraph_copy set_iter g ns)
  <-> n ∈ nx.node_list g /\ n ∈ ns.
Proof. rewrite subgraph_copy_node_list. apply view_order_elem. Qed.

Lemma subgraph_copy_edges g ns e :
  e ∈ nx.edges (nx.subgraph_copy set_iter g ns)
  <-> e ∈ nx.edges g
      /\ (nx.src e ∈ nx.node_list g /\ nx.src e ∈ ns)
      /\ (nx.dst e ∈ nx.node_list g /\ nx.dst e ∈ ns).
Proof.
  rewrite subgraph_copy_eq. simpl. rewrite list_elem_of_In, in_flat_map.
  split.
  - intros (u & Hu & He). apply list_elem_of_In in Hu, He.
    apply elem_of_List_filter in He as [He Hd].
    apply out_edges_elem in He as [He <-].
    apply mem_true, kept_nodes_elem in Hd.
    by apply view_order_elem in Hu.
  - intros (He & Hs & Hd). exists (nx.src e). split.
    + by apply list_elem_of_In, view_order_elem.
    + apply list_elem_of_In, elem_of_List_filter. split.
      * by apply out_edges_elem.
      * by apply mem_true, kept_nodes_elem.
Qed.

Lemma node_attrs_map (f : Node -> NodeAttrs.t) order es n :
  n ∈ order ->
  nx.node_attrs (nx.mk (map (fun n => (n, f n)) order) es) n = f n.
Proof.
  unfold nx.node_attrs. simpl. induction order as [|x order IH]; intros Hn.
  - by apply elem_of_nil in Hn.
  - simpl. destruct (decide (x = n)) as [->|Hne].
    + by rewrite bool_decide_true.
    + rewrite bool_decide_false by done. apply IH.
      apply elem_of_cons in Hn as [?|?]; [congruence|done].
Qed.

Lemma subgraph_copy_node_attrs g ns n :
  n ∈ nx.node_list (nx.subgraph_copy set_iter g ns) ->
  nx.node_attrs (nx.subgraph_copy set_iter g ns) n = nx.node_attrs g n.
Proof.
  rewrite subgraph_copy_node_list, subgraph_copy_eq. apply node_attrs_map.
Qed.
End Subgraphs.

(** *** Removing nodes and edges *)

Lemma remove_nodes_from_spec ns : forall g,
  (forall n, n ∈ nx.node_list (nx.remove_nodes_from g ns)
             <-> n ∈ nx.node_list g /\ n ∉ ns)
  /\ (forall e, e ∈ nx.edges (nx.remove_nodes_from g ns)
                <-> e ∈ nx.edges g /\ (nx.src e ∉ ns) /\ (nx.dst e ∉ ns))
  /\ (NoDup (nx.node_list g) ->
      NoDup (nx.node_list (nx.remove_nodes_from g ns)))
  /\ (forall n, n ∉ ns ->
        nx.node_attrs (nx.remove_nodes_from g ns) n = nx.node_attrs g n).
Proof.
  unfold nx.remove_nodes_from.
  induction ns as [|x ns IH]; intros g; simpl.
  - split; [intros n; rewrite elem_of_nil; tauto|].
    split; [intros e; rewrite !elem_of_nil; tauto|]. done.
  - destruct (IH (nx.remove_node g x)) as (H1 & H2 & H3 & H4).
    assert (Hn : forall n, n ∈ nx.node_list (nx.remove_node g x)
                           <-> n ∈ nx.node_list g /\ n <> x).
    { intros n. unfold nx.node_list, nx.remove_node. simpl.
      rewrite !list_elem_of_fmap. split.
      - intros ([m a] & -> & Hin). apply elem_of_List_filter in Hin as [? Hf].
        apply negb_true_iff, bool_decide_eq_false in Hf. simpl in *.
        split; [|done]. exists (m, a). done.
      - intros [([m a] & -> & Hin) Hne]. exists (m, a). split; [done|].
        apply elem_of_List_filter. split; [done|].
        by apply negb_true_iff, bool_decide_eq_false. }
    split; [|split; [|split]].
    + intros n. rewrite H1, Hn, not_elem_of_cons. tauto.
    + intros e. rewrite H2. unfold nx.remove_node at 1. simpl.
      rewrite elem_of_List_filter, andb_true_iff, !negb_true_iff,
        !bool_decide_eq_false, !not_elem_of_cons.
      tauto.
    + intros Hnd. apply H3. unfold nx.node_list, nx.remove_node. simpl.
      clear -Hnd. unfold nx.node_list in Hnd.
      induction (nx.nodes g) as [|[m a] l IHl]; simpl; [done|].
      simpl in Hnd. apply NoDup_cons in Hnd as [Hm Hl].
      destruct (negb _); simpl; [|by apply IHl].
      apply NoDup_cons. split; [|by apply IHl].
      intros Hin. apply Hm. apply list_elem_of_fmap in Hin as (y & -> & Hy).
      apply elem_of_List_filter in Hy as [Hy _].
      apply list_elem_of_fmap. by exists y.
    + intros n [Hx Hns]%not_elem_of_cons. rewrite H4 by done.
      unfold nx.node_attrs, nx.remove_node. simpl.
      clear -Hx. induction (nx.nodes g) as [|[m a] l IHl]; simpl; [done|].
      destruct (decide (m = x)) as [->|Hmx].
      * rewrite bool_decide_true by done. simpl.
        rewrite (bool_decide_false (x = n)) by done. done.
      * rewrite (bool_decide_false (m = x)) by done. simpl.
        destruct (bool_decide (m = n)); [done|apply IHl].
Qed.

Lemma remove_edges_from_nodes l : forall g,
  nx.nodes (nx.remove_edges_from g l) = nx.nodes g.
Proof.
  unfold nx.remove_edges_from. induction l as [|uv l IH]; intros g; [done|].
  simpl. by rewrite IH.
Qed.

Lemma isolates_elem g n :
  n ∈ nx.isolates g
  <-> n ∈ nx.node_list g
      /\ forall e, e ∈ nx.edges g -> nx.src e <> n /\ nx.dst e <> n.
Proof.
  unfold nx.isolates, nx.degree. rewrite elem_of_List_filter, Nat.eqb_eq.
  split.
  - intros [Hn Hd]. split; [done|]. intros e He.
    assert (Hin : length (nx.in_edges g n) = 0) by lia.
    assert (Hout : length (nx.out_edges g n) = 0) by lia.
    apply length_zero_iff_nil in Hin, Hout. split; intros Heq.
    + assert (e ∈ nx.out_edges g n) by by apply out_edges_elem.
      rewrite Hout in H. by apply elem_of_nil in H.
    + assert (e ∈ nx.in_edges g n) by by apply in_edges_elem.
      rewrite Hin in H. by apply elem_of_nil in H.
  - intros [Hn He]. split; [done|].
    assert (Hin : nx.in_edges g n = []).
    { destruct (nx.in_edges g n) as [|e l] eqn:E; [done|]. exfalso.
      assert (Hx : e ∈ nx.in_edges g n) by (rewrite E; by left).
      apply in_edges_elem in Hx as [Hx1 Hx2]. by destruct (He e Hx1). }
    assert (Hout : nx.out_edges g n = []).
    { destruct (nx.out_edges g n) as [|e l] eqn:E; [done|]. exfalso.
      assert (Hx : e ∈ nx.out_edges g n) by (rewrite E; by left).
      apply out_edges_elem in Hx as [Hx1 Hx2]. by destruct (He e Hx1). }
    by rewrite Hin, Hout.
Qed.

(** ** The topological sorts *)

Lemma count_cons v x l :
  count v (x :: l) = (if decide (x = v) then 1 else 0) + count v l.
Proof.
  unfold count. simpl. destruct (decide (x = v)).
  - by rewrite bool_decide_true.
  - by rewrite bool_decide_false.
Qed.

Lemma count_zero v l : count v l = 0 <-> v ∉ l.
Proof.
  induction l as [|x l IH].
  { split; [intros _; apply not_elem_of_nil|done]. }
  rewrite count_cons, not_elem_of_cons. destruct (decide (x = v)).
  - split; [lia|]. intros [? _]. congruence.
  - simpl. rewrite IH. split; [done|]. tauto.
Qed.

(** [release]: what is left in the map and what becomes ready, when every
    in-degree in the map is positive. *)
Lemma release_spec cs : forall indeg ready indeg' ready',
  (forall v d, indeg !! v = Some d -> 0 < d) ->
  nx.release cs indeg ready = inr (indeg', ready') ->
  (forall v, count v cs <= default 0 (indeg !! v))
  /\ (forall v,
        indeg' !! v
        = match indeg !! v with
          | Some d => if d =? count v cs then None else Some (d - count v cs)
          | None => None
          end)
  /\ exists newly,
       ready' = ready ++ newly
       /\ NoDup newly
       /\ forall v, v ∈ newly
                    <-> exists d, indeg !! v = Some d /\ d = count v cs.
Proof.
  induction cs as [|c cs IH]; intros indeg ready indeg' ready' Hpos Hrel;
    simpl in Hrel.
  - injection Hrel as <- <-. split; [intros; unfold count; simpl; lia|].
    split.
    + intros v. destruct (indeg !! v) as [d|] eqn:E; [|done].
      unfold count. simpl. apply Hpos in E.
      destruct (Nat.eqb_spec d 0); [lia|]. f_equal. lia.
    + exists []. split; [by rewrite app_nil_r|]. split; [constructor|].
      intros v. rewrite elem_of_nil. split; [done|].
      intros (d & Hd & ->). apply Hpos in Hd. unfold count in Hd.
      simpl in Hd. lia.
  - destruct (indeg !! c) as [d|] eqn:Hc; [|done].
    pose proof (Hpos _ _ Hc) as Hd.
    destruct (Nat.eqb_spec (d - 1) 0) as [Hz|Hz].
    + (* [c] becomes ready *)
      assert (d = 1) by lia. subst d.
      apply IH in Hrel as (Hle & Hmap & newly & -> & Hnd & Hnew).
      2:{ intros v d'. rewrite lookup_delete. destruct (decide (c = v)); [done|].
          apply Hpos. }
      assert (Hccs : count c cs = 0).
      { specialize (Hle c). rewrite lookup_delete_eq in Hle. simpl in Hle.
        lia. }
      split; [|split].
      * intros v. rewrite count_cons. specialize (Hle v).
        destruct (decide (c = v)) as [->|Hne].
        -- rewrite Hc. simpl. lia.
        -- by rewrite lookup_delete_ne in Hle.
      * intros v. rewrite Hmap, count_cons.
        destruct (decide (c = v)) as [->|Hne].
        -- rewrite lookup_delete_eq, Hc, Hccs. done.
        -- by rewrite lookup_delete_ne.
      * exists (c :: newly). split; [by rewrite <- app_assoc|]. split.
        -- apply NoDup_cons. split; [|done]. rewrite Hnew.
           intros (d & Hd' & _). by rewrite lookup_delete_eq in Hd'.
        -- intros v. rewrite elem_of_cons, Hnew, count_cons.
           destruct (decide (c = v)) as [->|Hne].
           ++ split; [|by left]. intros _. exists 1. split; [done|]. lia.
           ++ rewrite lookup_delete_ne by done. split.
              ** intros [?|?]; [congruence|done].
              ** intros ?. by right.
    + (* [c] waits *)
      apply IH in Hrel as (Hle & Hmap & newly & -> & Hnd & Hnew).
      2:{ intros v d'. rewrite lookup_insert. destruct (decide (c = v)).
          - intros [= <-]. lia.
          - apply Hpos. }
      split; [|split].
      * intros v. rewrite count_cons. specialize (Hle v).
        destruct (decide (c = v)) as [->|Hne].
        -- rewrite lookup_insert_eq in Hle. rewrite Hc. simpl in *. lia.
        -- by rewrite lookup_insert_ne in Hle.
      * intros v. rewrite Hmap, count_cons. specialize (Hle v).
        destruct (decide (c = v)) as [->|Hne].
        -- rewrite lookup_insert_eq in *. rewrite Hc. simpl in Hle.
           destruct (Nat.eqb_spec (d - 1) (count v cs));
             destruct (Nat.eqb_spec d (1 + count v cs)); try lia; try done.
           f_equal. lia.
        -- by rewrite lookup_insert_ne.
      * exists newly. split; [done|]. split; [done|].
        intros v. rewrite Hnew, count_cons.
        destruct (decide (c = v)) as [->|Hne].
        -- rewrite lookup_insert_eq, Hc. split.
           ++ intros (d' & Heq & Hd'). injection Heq as <-.
              exists d. split; [done|]. simpl. lia.
           ++ intros (d' & Heq & Hd'). injection Heq as <-.
              exists (d - 1). split; [done|]. simpl in Hd'. lia.
        -- by rewrite lookup_insert_ne.
Qed.

Lemma filter_length_le {A} (f : A -> bool) l :
  length (List.filter f l) <= length l.
Proof.
  induction l as [|x l IH]; simpl; [done|]. destruct (f x); simpl; lia.
Qed.

Lemma filter_length_all {A} (f : A -> bool) l :
  length (List.filter f l) = length l -> forall x, x ∈ l -> f x = true.
Proof.
  induction l as [|y l IH]; intros Hl x Hx; [by apply elem_of_nil in Hx|].
  simpl in Hl. pose proof (filter_length_le f l).
  destruct (f y) eqn:Hy; simpl in Hl; [|lia].
  apply elem_of_cons in Hx as [->|Hx]; [done|]. apply IH; [lia|done].
Qed.

Lemma filter_length_split {A} (f g h : A -> bool) l :
  (forall x, f x = g x || h x) ->
  (forall x, g x = true -> h x = true -> False) ->
  length (List.filter f l)
  = length (List.filter g l) + length (List.filter h l).
Proof.
  intros Hf Hd. induction l as [|x l IH]; simpl; [done|].
  rewrite Hf. specialize (Hd x).
  destruct (g x), (h x); simpl; first [lia | exfalso; by apply Hd].
Qed.

Lemma count_successors p n v :
  count v (nx.successors p n)
  = length (List.filter (fun e => bool_decide (nx.src e = n))
                        (nx.in_edges p v)).
Proof.
  unfold count, nx.successors, nx.out_edges, nx.in_edges.
  induction (nx.edges p) as [|e l IH]; simpl; [done|].
  destruct (bool_decide (nx.src e = n)) eqn:Hs;
    destruct (bool_decide (nx.dst e = v)) eqn:Hd; simpl;
    rewrite ?Hs, ?Hd; simpl; by rewrite IH.
Qed.

Lemma cnt_snoc p out n v :
  n ∉ out -> cnt p (out ++ [n]) v = cnt p out v + count v (nx.successors p n).
Proof.
  intros Hn. unfold cnt. rewrite count_successors.
  apply filter_length_split.
  - intros e. unfold mem.
    destruct (decide (nx.src e ∈ out)) as [H1|H1].
    + rewrite (bool_decide_true (nx.src e ∈ out)) by done.
      rewrite bool_decide_true; [done|]. apply elem_of_app. by left.
    + rewrite (bool_decide_false (nx.src e ∈ out)) by done. simpl.
      destruct (decide (nx.src e = n)) as [H2|H2].
      * rewrite (bool_decide_true (nx.src e = n)) by done.
        rewrite bool_decide_true; [done|].
        apply elem_of_app. right. by apply list_elem_of_singleton.
      * rewrite (bool_decide_false (nx.src e = n)) by done.
        rewrite bool_decide_false; [done|].
        intros [?|?%list_elem_of_singleton]%elem_of_app; done.
  - intros e H1%mem_true H2%bool_decide_eq_true. congruence.
Qed.

Lemma cnt_in_degree p out v :
  cnt p out v = nx.in_degree p v ->
  forall e, e ∈ nx.edges p -> nx.dst e = v -> nx.src e ∈ out.
Proof.
  intros H e He Hd. apply mem_true.
  apply (filter_length_all (fun e => mem (nx.src e) out) _ H).
  by apply in_edges_elem.
Qed.

Lemma kahn_inv_step p indeg ready out n ready' indeg' ready'' :
  kahn_inv p indeg ready out ->
  ready ≡ₚ n :: ready' ->
  nx.has_node p n = true ->
  nx.release (nx.successors p n) indeg ready' = inr (indeg', ready'') ->
  kahn_inv p indeg' ready'' (out ++ [n]).
Proof.
  intros (J1 & J2 & J3 & J4 & J5 & J6) Hperm Hnode Hrel.
  apply release_spec in Hrel as (Hle & Hmap & newly & -> & Hnd & Hnew).
  2:{ intros v d Hv. by destruct (J3 v d Hv). }
  rewrite Hperm in J1.
  assert (Hn_out : n ∉ out).
  { apply NoDup_app in J1 as (_ & J1 & _). intros Hin.
    apply (J1 _ Hin). by left. }
  assert (Hn_ready : n ∈ ready) by (rewrite Hperm; by left).
  assert (Hnewly : forall v, v ∈ newly -> v ∉ out ++ n :: ready').
  { intros v Hv Hin. apply Hnew in Hv as (d & Hd & _).
    rewrite (J2 v) in Hd; [done|]. by rewrite Hperm. }
  split; [|split; [|split; [|split; [|split]]]].
  - replace ((out ++ [n]) ++ ready' ++ newly)
      with ((out ++ n :: ready') ++ newly) by (by rewrite <- !app_assoc).
    apply NoDup_app. split; [done|]. split; [|done].
    intros v Hv Hv2. by apply (Hnewly v).
  - intros v Hv. rewrite Hmap.
    rewrite <- app_assoc in Hv. simpl in Hv.
    destruct (decide (v ∈ newly)) as [Hin|Hin].
    + apply Hnew in Hin as (d & -> & ->). by rewrite Nat.eqb_refl.
    + rewrite J2; [done|]. rewrite Hperm.
      rewrite !elem_of_app, !elem_of_cons, elem_of_app in *. tauto.
  - intros v d'. rewrite Hmap. destruct (indeg !! v) as [d|] eqn:Hd; [|done].
    destruct (Nat.eqb_spec d (count v (nx.successors p n))); [done|].
    intros [= <-]. apply J3 in Hd as [Hpos Hd]. specialize (Hle v).
    rewrite cnt_snoc by done.
    assert (count v (nx.successors p n) <= d).
    { destruct (indeg !! v) eqn:E; simpl in Hle; [|lia].
      apply J3 in E. unfold nx.in_degree in *. lia. }
    lia.
  - intros v Hv e He Hdst. apply elem_of_app in Hv as [Hv|Hv].
    + apply elem_of_app. left. apply (J4 v); [|done|done].
      rewrite Hperm. by right.
    + apply Hnew in Hv as (d & Hd & Hdc). apply J3 in Hd as [_ Hd].
      apply (cnt_in_degree p (out ++ [n]) v); [|done|done].
      rewrite cnt_snoc by done. lia.
  - intros i v Hi e He Hdst.
    destruct (lookup_app_Some out [n] i v) as [Hsplit _].
    destruct (Hsplit Hi) as [Hl|[Hlen Hl]].
    + destruct (J5 i v Hl e He Hdst) as (j & Hj & Hjl).
      exists j. split; [done|]. by apply lookup_app_l_Some.
    + destruct (i - length out) as [|k] eqn:Hk; simpl in Hl; [|done].
      injection Hl as <-.
      pose proof (J4 n Hn_ready e He Hdst) as Hsrc.
      apply list_elem_of_lookup in Hsrc as [j Hj].
      exists j. split; [|by apply lookup_app_l_Some].
      apply lookup_lt_Some in Hj. lia.
  - intros v [Hv|Hv%list_elem_of_singleton]%elem_of_app; [by apply J6|].
    subst. by apply has_node_true.
Qed.

Lemma kahn_sound pop p :
  (forall l m l', pop l = Some (m, l') -> l ≡ₚ m :: l') ->
  forall fuel indeg ready out res,
    kahn_inv p indeg ready out ->
    nx.kahn pop p fuel indeg ready out = inr res ->
    NoDup res /\ sorted_by_edges p res
    /\ forall v, v ∈ res -> v ∈ nx.node_list p.
Proof.
  intros Hpop. induction fuel as [|fuel IH];
    intros indeg ready out res Hinv Hk; simpl in Hk.
  - destruct (pop ready) as [[m l']|]; [done|].
    destruct (decide (indeg = ∅)); [|done]. injection Hk as <-.
    destruct Hinv as (J1 & _ & _ & _ & J5 & J6).
    split; [|done]. by apply NoDup_app in J1 as (? & _).
  - destruct (pop ready) as [[m l']|] eqn:Hp.
    + destruct (nx.has_node p m) eqn:Hm; [|done].
      destruct (nx.release _ _ _) as [e|[indeg' ready'']] eqn:Hrel; [done|].
      apply (IH _ _ _ _ (kahn_inv_step _ _ _ _ _ _ _ _ Hinv
                           (Hpop _ _ _ Hp) Hm Hrel) Hk).
    + destruct (decide (indeg = ∅)); [|done]. injection Hk as <-.
      destruct Hinv as (J1 & _ & _ & _ & J5 & J6).
      split; [|done]. by apply NoDup_app in J1 as (? & _).
Qed.

Lemma kahn_inv_start p :
  NoDup (nx.node_list p) ->
  kahn_inv p (nx.indegree_map p) (nx.zero_indegree p) [].
Proof.
  intros Hnd. unfold nx.indegree_map, nx.zero_indegree.
  split; [|split; [|split; [|split; [|split]]]].
  - simpl. by apply NoDup_List_filter.
  - intros v Hv. simpl in Hv. apply elem_of_List_filter in Hv as [Hv Hz].
    apply Nat.eqb_eq in Hz. apply not_elem_of_list_to_map_1.
    intros Hin. apply list_elem_of_fmap in Hin as ([v' d] & -> & Hin).
    apply elem_of_List_filter in Hin as [Hin Hd].
    apply list_elem_of_fmap in Hin as (w & [= -> ->] & _). simpl in *.
    rewrite Hz in Hd. done.
  - intros v d Hv. apply elem_of_list_to_map_2 in Hv.
    apply elem_of_List_filter in Hv as [Hv Hd].
    apply list_elem_of_fmap in Hv as (w & [= -> ->] & _). simpl in Hd.
    apply negb_true_iff, Nat.eqb_neq in Hd. unfold cnt. simpl.
    rewrite filter_nil_false by done. simpl. lia.
  - intros v Hv e He Hdst. apply elem_of_List_filter in Hv as [Hv Hz].
    apply Nat.eqb_eq in Hz. unfold nx.in_degree in Hz.
    apply length_zero_iff_nil in Hz.
    assert (Hin : e ∈ nx.in_edges p v) by by apply in_edges_elem.
    rewrite Hz in Hin. by apply elem_of_nil in Hin.
  - intros i v Hi. by rewrite lookup_nil in Hi.
  - intros v Hv. by apply elem_of_nil in Hv.
Qed.

Lemma remove_first_perm m l : m ∈ l -> l ≡ₚ m :: nx.remove_first m l.
Proof.
  induction l as [|x l IH]; intros Hm; [by apply elem_of_nil in Hm|].
  simpl. destruct (decide (x = m)) as [->|Hne]; [done|].
  apply elem_of_cons in Hm as [?|Hm]; [congruence|].
  rewrite (IH Hm) at 1. apply Permutation_swap.
Qed.

Lemma min_by_elem key l : forall best, nx.min_by key best l ∈ best :: l.
Proof.
  induction l as [|x l IH]; intros best; simpl; [by left|].
  destruct (key x) as [kx|], (key best) as [kb|];
    try destruct (kx <? kb);
    match goal with
    | |- nx.min_by _ ?b _ ∈ _ =>
        pose proof (IH b) as H; rewrite !elem_of_cons in *; tauto
    end.
Qed.

Lemma pop_min_perm key l m l' : nx.pop_min key l = Some (m, l') -> l ≡ₚ m :: l'.
Proof.
  unfold nx.pop_min. destruct l as [|x rest]; [done|].
  intros [= <- <-]. apply remove_first_perm, min_by_elem.
Qed.

Lemma pop_last_perm l m l' : nx.pop_last l = Some (m, l') -> l ≡ₚ m :: l'.
Proof.
  unfold nx.pop_last. destruct (rev l) as [|x r] eqn:E; [done|].
  intros [= <- <-]. rewrite <- (rev_involutive l), E. simpl.
  rewrite <- Permutation_cons_append. done.
Qed.

(** The order of [_topo_sort_nodes]: no node twice, every node after the
    sources of its in-edges, nodes of the graph only. *)
Lemma _topo_sort_nodes_sound p ordered :
  NoDup (nx.node_list p) ->
  _topo_sort_nodes p = inr ordered ->
  NoDup ordered /\ sorted_by_edges p ordered
  /\ forall v, v ∈ ordered -> v ∈ nx.node_list p.
Proof.
  intros Hnd. unfold _topo_sort_nodes, nx.lexicographical_topological_sort.
  apply kahn_sound; [apply pop_min_perm|by apply kahn_inv_start].
Qed.

(** ** Ancestors and the nodes that end in the outputs *)

Lemma fold_left_establish {A B} (Q : A -> Prop) (f : A -> B -> A) l x :
  x ∈ l ->
  (forall a, Q (f a x)) ->
  (forall a b, Q a -> Q (f a b)) ->
  forall a, Q (fold_left f l a).
Proof.
  intros Hx Hat Hkeep. induction l as [|y l IH]; intros a;
    [by apply elem_of_nil in Hx|].
  simpl. apply elem_of_cons in Hx as [->|Hx].
  - apply fold_left_invariant; [|apply Hat]. intros a' b _. apply Hkeep.
  - by apply IH.
Qed.

Lemma filter_length_lt {A} (f g : A -> bool) l x :
  (forall y, f y = true -> g y = true) ->
  x ∈ l -> g x = true -> f x = false ->
  length (List.filter f l) < length (List.filter g l).
Proof.
  intros Hfg. induction l as [|y l IH]; intros Hx Hg Hf;
    [by apply elem_of_nil in Hx|].
  assert (Hle : forall l', length (List.filter f l')
                           <= length (List.filter g l')).
  { induction l' as [|z l' IH']; simpl; [done|]. specialize (Hfg z).
    destruct (f z), (g z); simpl;
      first [lia | by discriminate Hfg]. }
  simpl. apply elem_of_cons in Hx as [<-|Hx].
  - rewrite Hg, Hf. simpl. specialize (Hle l). lia.
  - specialize (IH Hx Hg Hf). specialize (Hfg y).
    destruct (f y), (g y); simpl; first [lia | by discriminate Hfg].
Qed.

Lemma reach_back_closed g fuel : forall seen frontier,
  unseen_sources g seen < fuel ->
  (forall e, e ∈ nx.edges g -> nx.dst e ∈ seen -> nx.dst e ∉ frontier ->
             nx.src e ∈ seen) ->
  closed_back g (nx.reach_back g fuel seen frontier)
  /\ forall x, x ∈ seen -> x ∈ nx.reach_back g fuel seen frontier.
Proof.
  induction fuel as [|fuel IH]; intros seen frontier Hm Hinv; [lia|].
  simpl.
  remember (iset (List.filter (fun n => negb (mem n seen))
                   (flat_map (nx.predecessors g) frontier))) as fresh eqn:Hfr.
  assert (Hfresh : forall x, x ∈ fresh
            <-> (x ∉ seen) /\ exists e, e ∈ nx.edges g /\ nx.src e = x
                                    /\ nx.dst e ∈ frontier).
  { intros x. rewrite Hfr.
    rewrite iset_elem, elem_of_List_filter, negb_true_iff, mem_false.
    rewrite list_elem_of_In, in_flat_map. split.
    - intros [(v & Hv & Hx) Hs].
      rewrite <- list_elem_of_In in Hx, Hv.
      apply predecessors_elem in Hx.
      destruct Hx as (e & He & Hsrc & Hdst). split; [done|].
      exists e. by rewrite Hdst.
    - intros [Hs (e & He & Hsrc & Hdst)]. split; [|done].
      exists (nx.dst e). rewrite <- !list_elem_of_In. split; [done|].
      apply predecessors_elem. by exists e. }
  clear Hfr. destruct fresh as [|y fresh'].
  - split; [|done]. intros e He Hd.
    destruct (decide (nx.dst e ∈ frontier)) as [Hin|Hin]; [|by apply Hinv].
    destruct (decide (nx.src e ∈ seen)) as [|Hs]; [done|].
    assert (Hc : nx.src e ∈ []) by (apply Hfresh; split; [done|by exists e]).
    by apply elem_of_nil in Hc.
  - assert (Hy : y ∈ y :: fresh') by by left.
    remember (y :: fresh') as fresh eqn:Hf. clear Hf.
    destruct (IH (seen ++ fresh) fresh) as [Hclosed Hsub].
    + pose proof Hy as Hy'.
      apply Hfresh in Hy as [Hys (e & He & Hsrc & _)].
      assert (unseen_sources g (seen ++ fresh) < unseen_sources g seen);
        [|lia].
      unfold unseen_sources. apply filter_length_lt with (x := y).
      * intros z. rewrite !negb_true_iff, !mem_false.
        intros Hz Hz'. apply Hz, elem_of_app. by left.
      * apply list_elem_of_fmap. by exists e.
      * by apply negb_true_iff, mem_false.
      * apply negb_false_iff, mem_true, elem_of_app. by right.
    + intros e He Hd Hnf. apply elem_of_app in Hd as [Hd|Hd]; [|done].
      apply elem_of_app.
      destruct (decide (nx.dst e ∈ frontier)) as [Hin|Hin].
      * destruct (decide (nx.src e ∈ seen)) as [|Hs]; [by left|].
        right. apply Hfresh. split; [done|by exists e].
      * left. by apply Hinv.
    + split; [done|]. intros x Hx. apply Hsub, elem_of_app. by left.
Qed.

Lemma ancestors_closed g source e :
  e ∈ nx.edges g ->
  nx.dst e = source \/ nx.dst e ∈ nx.ancestors g source ->
  nx.src e = source \/ nx.src e ∈ nx.ancestors g source.
Proof.
  intros He Hd. unfold nx.ancestors in *.
  destruct (reach_back_closed g (S (length (nx.edges g))) [source] [source])
    as [Hclosed Hsub].
  - unfold unseen_sources.
    pose proof (filter_length_le (fun n => negb (mem n [source]))
                  (map nx.src (nx.edges g))) as Hle.
    rewrite length_map in Hle. lia.
  - intros e' _ H1 H2. done.
  - assert (Hin : nx.dst e ∈ nx.reach_back g (S (length (nx.edges g)))
                              [source] [source]).
    { destruct Hd as [->|Hd]; [apply Hsub; by left|].
      by apply elem_of_List_filter in Hd as [Hd _]. }
    specialize (Hclosed e He Hin).
    destruct (decide (nx.src e = source)) as [|Hne]; [by left|].
    right. apply elem_of_List_filter. split; [done|].
    by rewrite bool_decide_false.
Qed.

Section Ending.
Variable g : nx.DiGraph.

Lemma add_ending_elem ending out x :
  x ∈ add_ending g ending out
  <-> x ∈ ending \/ x ∈ nx.ancestors g out \/ x = out.
Proof.
  unfold add_ending. rewrite iset_add_elem.
  assert (H : forall l acc, x ∈ fold_left iset_add l acc
                            <-> x ∈ acc \/ x ∈ l).
  { induction l as [|y l IH]; intros acc; simpl.
    - rewrite elem_of_nil. tauto.
    - rewrite IH, iset_add_elem, elem_of_cons. intuition congruence. }
  rewrite H. tauto.
Qed.

Lemma add_ending_closed ending out :
  closed_back g ending -> closed_back g (add_ending g ending out).
Proof.
  intros Hc e He. rewrite !add_ending_elem. intros [Hd|Hd].
  - left. by apply Hc.
  - right. assert (H : nx.src e = out \/ nx.src e ∈ nx.ancestors g out).
    { apply ancestors_closed; [done|]. destruct Hd; [by right|by left]. }
    tauto.
Qed.

(** The nodes that end in the outputs hold the outputs and, with a node,
    the sources of its in-edges. *)
Lemma ending_in_outputs_spec outputs ending :
  ending_in_outputs g outputs = inr ending ->
  closed_back g ending
  /\ forall o, o ∈ outputs -> nx.has_node g (dnode o) = true ->
               dnode o ∈ ending.
Proof.
  unfold ending_in_outputs, or_recursion_error.
  destruct (yield_chaindocs _ _ _ _ _) as [r|] eqn:Hy; [|done].
  intros [= ->]. unfold yield_chaindocs in Hy. split.
  - revert Hy. apply _yield_chained_docs_invariant.
    + intros a doc d _ _ _. apply add_ending_closed.
    + intros e _ H. by apply elem_of_nil in H.
  - intros o Ho Hnode. revert ending Hy. unfold _yield_chained_docs.
    match goal with
    | |- forall r, ?x = Some r -> _ =>
        change ((fun o' => forall r, o' = Some r -> dnode o ∈ r) x)
    end.
    apply fold_left_establish with (x := dnode o).
    + apply list_elem_of_fmap. by exists o.
    + intros [a|] r; [|done].
      apply (_yield_also_chained_docs_head _ _ _ (fun a => dnode o ∈ a));
        [..|done].
      * intros H. by apply mem_true in H.
      * intros _. apply add_ending_elem. tauto.
      * intros a' d' H. apply add_ending_elem. tauto.
    + intros [a|] b Ha r; [|done].
      apply (_yield_also_chained_docs_invariant _ _ _
               (fun a => dnode o ∈ a)).
      * intros a' d' _ _ H. apply add_ending_elem. tauto.
      * by apply Ha.
Qed.
End Ending.

(** ** The pruned graph *)

Lemma wf_graph_spec g :
  wf_graph g = true ->
  NoDup (nx.node_list g)
  /\ (forall e, e ∈ nx.edges g ->
        nx.src e ∈ nx.node_list g /\ nx.dst e ∈ nx.node_list g
        /\ edge_typed e = true)
  /\ (forall na, na ∈ nx.nodes g -> op_linked g na = true).
Proof.
  unfold wf_graph. rewrite !andb_true_iff, bool_decide_eq_true.
  rewrite !forallb_forall. intros [[Hnd He] Hn]. split; [done|]. split.
  - intros e Hin. apply list_elem_of_In, He in Hin.
    rewrite !andb_true_iff, !has_node_true in Hin. tauto.
  - intros na Hin. by apply Hn, list_elem_of_In.
Qed.

Lemma predicate_to_del_Oper predicate items : forall to_del,
  predicate_to_del predicate items = inr to_del ->
  forall n, n ∈ to_del -> is_Oper n = true.
Proof.
  induction items as [|[n a] items IH]; intros to_del H; simpl in H.
  - injection H as <-. intros n Hn. by apply elem_of_nil in Hn.
  - destruct n as [d|nm]; [by apply IH|].
    destruct (NodeAttrs.obj a) as [op|]; [|by apply IH].
    destruct (NodePredicate.call predicate op a) as [keep|]; [|done].
    destruct (predicate_to_del predicate items) as [e|rest]; [done|].
    simpl in H. injection H as <-. specialize (IH rest eq_refl).
    destruct keep; [done|]. intros n [->|Hn]%elem_of_cons; [done|].
    by apply IH.
Qed.

Lemma broken_graph_nodes g predicate inputs br :
  broken_graph g predicate inputs = inr br ->
  (forall n, n ∈ nx.node_list br -> n ∈ nx.node_list g)
  /\ (forall d, Data d ∈ nx.node_list g -> Data d ∈ nx.node_list br).
Proof.
  unfold broken_graph. intros H.
  assert (Hb : exists b0,
    br = fold_left (fun b n => nx.remove_edges_from b
                                 (non_subdoc_in_edges b (dnode n)))
                   (default [] inputs) b0
    /\ (forall n, n ∈ nx.node_list b0 -> n ∈ nx.node_list g)
    /\ (forall d, Data d ∈ nx.node_list g -> Data d ∈ nx.node_list b0)).
  { destruct predicate as [pr|]; simpl in H.
    - destruct (predicate_to_del pr (nx.nodes g))
        as [e|to_del] eqn:Hdel; simpl in H; [done|].
      injection H as <-. eexists. split; [done|].
      destruct (remove_nodes_from_spec to_del (nx.copy g)) as (Hn & _).
      split.
      + intros n Hin. apply Hn in Hin as [Hin _]. exact Hin.
      + intros d Hin. apply Hn. split; [exact Hin|]. intros Hd.
        by apply (predicate_to_del_Oper _ _ _ Hdel) in Hd.
    - injection H as <-. exists (nx.copy g). split; [done|].
      split; intros ? Hin; exact Hin. }
  destruct Hb as (b0 & -> & H1 & H2).
  assert (Hnodes : nx.nodes (fold_left
            (fun b n => nx.remove_edges_from b
                          (non_subdoc_in_edges b (dnode n)))
            (default [] inputs) b0) = nx.nodes b0).
  { apply (fold_left_invariant (fun b => nx.nodes b = nx.nodes b0));
      [|done].
    intros b n _ Hb. by rewrite remove_edges_from_nodes. }
  unfold nx.node_list. rewrite Hnodes. done.
Qed.

Lemma visit_unsatisfied_Oper dag st node st' :
  visit dag st node = inr st' ->
  (forall n, n ∈ Pass.unsatisfied st -> is_Oper n = true) ->
  forall n, n ∈ Pass.unsatisfied st' -> is_Oper n = true.
Proof.
  intros Hv Hst. unfold visit in Hv.
  assert (Hadd : forall n, n ∈ Pass.unsatisfied st ++ [node] ->
                           is_Oper node = true -> is_Oper n = true).
  { intros n [Hn|Hn%list_elem_of_singleton]%elem_of_app Ho;
      [by apply Hst|by subst]. }
  destruct node as [d|nm].
  - destruct (mem _ _); injection Hv as <-; done.
  - destruct (op_object dag (Oper nm)); [|done].
    destruct (nx.successors dag (Oper nm)) as [|s ss].
    + injection Hv as <-. intros n Hn. by apply Hadd.
    + destruct (issubset _ _).
      * destruct (update_with_chaindocs _ _ _); simpl in Hv; [|done].
        injection Hv as <-. done.
      * injection Hv as <-. intros n Hn. by apply Hadd.
Qed.

Lemma unsatisfied_operations_Oper dag inputs unsat :
  unsatisfied_operations dag inputs = inr unsat ->
  forall n, n ∈ unsat -> is_Oper n = true.
Proof.
  unfold unsatisfied_operations.
  destruct (or_recursion_error _) as [e|ok]; [done|]. simpl.
  destruct (nx.topological_sort dag) as [e|sorted_nodes]; [done|]. simpl.
  destruct (visit_all dag sorted_nodes _) as [e|st] eqn:Hv; [done|]. simpl.
  intros [= <-]. revert st Hv. unfold visit_all.
  match goal with
  | |- forall st, ?x = inr st -> _ =>
      change ((fun r => forall st, r = inr st ->
                 forall n, n ∈ Pass.unsatisfied st -> is_Oper n = true) x)
  end.
  apply fold_left_invariant.
  - intros r node _ Hr st. destruct r as [e|st0]; [done|]. simpl.
    intros Hv. apply (visit_unsatisfied_Oper _ _ _ _ Hv). by apply Hr.
  - intros st [= <-] n Hn. by apply elem_of_nil in Hn.
Qed.

Section Pruned.
Variable set_iter : list Node -> list Node.
Hypothesis set_iter_perm : forall l, NoDup l -> set_iter l ≡ₚ l.

Lemma pruned_graph_spec g b unsat :
  NoDup (nx.node_list g) ->
  (forall e, e ∈ nx.edges g ->
     nx.src e ∈ nx.node_list g /\ nx.dst e ∈ nx.node_list g) ->
  let kept n := n ∈ nx.node_list b /\ n ∉ unsat in
  let p := pruned_graph set_iter g b unsat in
  NoDup (nx.node_list p)
  /\ (forall e, e ∈ nx.edges p
        <-> e ∈ nx.edges g /\ kept (nx.src e) /\ kept (nx.dst e))
  /\ (forall n, n ∈ nx.node_list p
        <-> n ∈ nx.node_list g /\ kept n
            /\ exists e, e ∈ nx.edges p /\ (nx.src e = n \/ nx.dst e = n))
  /\ (forall n, n ∈ nx.node_list p ->
        nx.node_attrs p n = nx.node_attrs g n).
Proof.
  intros Hnd Hends kept p. unfold pruned_graph in p.
  set (K := List.filter (fun n => negb (mem n unsat)) (nx.node_list b))
    in *.
  set (p0 := nx.subgraph_copy set_iter g K) in *.
  assert (HK : forall n, n ∈ K <-> kept n).
  { intros n. unfold K, kept.
    by rewrite elem_of_List_filter, negb_true_iff, mem_false. }
  assert (He0 : forall e, e ∈ nx.edges p0
            <-> e ∈ nx.edges g /\ kept (nx.src e) /\ kept (nx.dst e)).
  { intros e. unfold p0.
    rewrite (subgraph_copy_edges set_iter set_iter_perm), !HK.
    split; [tauto|]. intros (He & Hs & Hd).
    destruct (Hends e He). tauto. }
  assert (Hn0 : forall n, n ∈ nx.node_list p0
            <-> n ∈ nx.node_list g /\ kept n).
  { intros n. unfold p0.
    by rewrite (subgraph_copy_nodes set_iter set_iter_perm), HK. }
  destruct (remove_nodes_from_spec (nx.isolates p0) p0)
    as (Hn & He & Hndp & Hat).
  fold p in Hn, He, Hndp, Hat.
  assert (Hiso : forall e, e ∈ nx.edges p0 ->
            (nx.src e ∉ nx.isolates p0) /\ (nx.dst e ∉ nx.isolates p0)).
  { intros e Hin. split; intros [_ Hi]%isolates_elem;
      destruct (Hi e Hin); done. }
  assert (Hep : forall e, e ∈ nx.edges p <-> e ∈ nx.edges p0).
  { intros e. rewrite He. split; [tauto|]. intros Hin.
    destruct (Hiso e Hin). tauto. }
  split; [|split; [|split]].
  - apply Hndp. unfold p0.
    rewrite (subgraph_copy_node_list set_iter).
    by apply (view_order_NoDup set_iter set_iter_perm).
  - intros e. by rewrite Hep.
  - intros n. rewrite Hn, Hn0, isolates_elem, Hn0. split.
    + intros [[Hg Hk] Hni]. split; [done|]. split; [done|].
      destruct (decide (Exists (fun e => nx.src e = n \/ nx.dst e = n)
                               (nx.edges p0))) as [Hex|Hno].
      * apply Exists_exists in Hex as (e & Hin & Hsd).
        exists e. by rewrite Hep.
      * exfalso. apply Hni. split; [done|]. intros e Hin.
        split; intros Heq; apply Hno, Exists_exists; exists e; tauto.
    + intros (Hg & Hk & e & Hin & Hsd). split; [done|].
      intros [_ Hi]. apply Hep in Hin. destruct (Hi e Hin).
      destruct Hsd; done.
  - intros n Hin. apply Hn in Hin as [Hin Hni]. rewrite Hat by done.
    by apply subgraph_copy_node_attrs.
Qed.
End Pruned.

Lemma resolve_inputs_outputs_known g self inputs outs si ins outs' :
  resolve_inputs_outputs g self inputs (Some outs) = inr (si, ins, outs') ->
  outs' = Some outs
  /\ forall o, o ∈ outs -> nx.has_node g (dnode o) = true.
Proof.
  unfold resolve_inputs_outputs.
  assert (Hall : forall o os,
    List.filter (fun d => negb (in_graph g d)) (dep_iset (o :: os)) = [] ->
    forall x, x ∈ o :: os -> nx.has_node g (dnode x) = true).
  { intros o os Hnil x Hx.
    assert (Hn : dep_name x ∈ map dep_name (dep_iset (o :: os))).
    { apply dep_iset_names, list_elem_of_fmap. by exists x. }
    apply list_elem_of_fmap in Hn as (y & Hxy & Hy).
    assert (Hy' : y ∈ List.filter (fun d => negb (in_graph g d))
                                  (dep_iset (o :: os)) -> False).
    { rewrite Hnil. apply not_elem_of_nil. }
    destruct (in_graph g y) eqn:Hg.
    - unfold in_graph, dnode in *. by rewrite Hxy.
    - exfalso. apply Hy', elem_of_List_filter. by rewrite Hg. }
  destruct inputs as [inputs|]; simpl.
  - destruct outs as [|o os].
    + intros [= <- <- <-]. split; [done|]. intros o Ho.
      by apply elem_of_nil in Ho.
    + destruct (List.filter _ (dep_iset (o :: os))) eqn:Hf; [|done].
      intros [= <- <- <-]. split; [done|]. by apply Hall.
  - destruct outs as [|o os].
    + intros [= <- <- <-]. split; [done|]. intros o Ho.
      by apply elem_of_nil in Ho.
    + destruct (List.filter _ (dep_iset (o :: os))) eqn:Hf; [|done].
      intros [= <- <- <-]. split; [done|]. by apply Hall.
Qed.

Section PrunedFrom.
Variable set_iter : list Node -> list Node.
Hypothesis set_iter_perm : forall l, NoDup l -> set_iter l ≡ₚ l.

Lemma pruned_pruned_from g self inputs outs predicate p needs provides :
  wf_graph g = true ->
  pruned set_iter g self inputs (Some outs) predicate
  = inr (p, needs, provides) ->
  pruned_from g p (map dep_name outs).
Proof.
  intros (Hnd & Hedges & _)%wf_graph_spec. unfold pruned.
  destruct (resolve_inputs_outputs g self inputs (Some outs))
    as [e|[[si ins] outs']] eqn:Hres; [done|].
  apply resolve_inputs_outputs_known in Hres as [-> Hknown]. simpl.
  destruct (broken_graph g predicate ins) as [e|br] eqn:Hbr; [done|].
  simpl. apply broken_graph_nodes in Hbr as [Hbr1 Hbr2].
  destruct (ending_in_outputs g outs) as [e|ending] eqn:Hend; [done|].
  simpl. apply ending_in_outputs_spec in Hend as [Hclosed Houts].
  set (b := nx.subgraph_copy set_iter br ending).
  destruct (unsatisfied_operations b (map dnode si))
    as [e|unsat] eqn:Hun; [done|].
  simpl. pose proof (unsatisfied_operations_Oper _ _ _ Hun) as Hoper.
  destruct (resolved_needs_provides (pruned_graph set_iter g b unsat)
              self si (Some outs)) as [ns ps].
  intros [= <- <- <-].
  assert (Hends : forall e, e ∈ nx.edges g ->
            nx.src e ∈ nx.node_list g /\ nx.dst e ∈ nx.node_list g).
  { intros e He. destruct (Hedges e He). tauto. }
  destruct (pruned_graph_spec set_iter set_iter_perm g b unsat Hnd Hends)
    as (Hpnd & Hpe & Hpn & Hpa).
  set (p := pruned_graph set_iter g b unsat) in *.
  assert (Hb : forall n, n ∈ nx.node_list b
            <-> n ∈ nx.node_list br /\ n ∈ ending).
  { intros n. apply (subgraph_copy_nodes set_iter set_iter_perm). }
  assert (Hdata : forall d, Data d ∈ nx.node_list g -> Data d ∈ ending ->
            Data d ∈ nx.node_list b /\ Data d ∉ unsat).
  { intros d Hg He. split; [apply Hb; split; [by apply Hbr2|done]|].
    intros Hin. by apply Hoper in Hin. }
  split; [done|]. split; [|split; [|split; [|split]]].
  - intros e He. pose proof He as He'.
    apply Hpe in He' as (Hg & Hs & Hd). destruct (Hends e Hg).
    split; [done|]. split; apply Hpn; (split; [done|]);
      (split; [done|]); exists e; tauto.
  - intros e Hg Hs Hd. apply Hpe. apply Hpn in Hs, Hd. tauto.
  - intros n Hn. split; [|by apply Hpa]. by apply Hpn in Hn as (? & _).
  - intros e Hg Hd Hop.
    assert (Hks : nx.src e ∈ nx.node_list b /\ nx.src e ∉ unsat).
    { destruct (Hedges e Hg) as (Hsg & _ & Hty).
      unfold edge_typed in Hty.
      destruct (nx.src e) as [d|nm] eqn:Hsrc.
      - apply Hdata; [done|]. rewrite <- Hsrc. apply Hclosed; [done|].
        apply Hpn in Hd as (_ & [Hd _] & _).
        by apply Hb in Hd as [_ Hd].
      - destruct (nx.dst e); done. }
    apply Hpn in Hd as (Hdg & Hkd & _). apply Hpn. split; [by apply Hends|].
    split; [done|]. exists e. split; [|by left]. apply Hpe. tauto.
  - intros e d Hg Hs Hdst Hd.
    apply list_elem_of_fmap in Hd as (o & -> & Ho).
    assert (Hkd : nx.dst e ∈ nx.node_list b /\ nx.dst e ∉ unsat).
    { rewrite Hdst. apply Hdata.
      - rewrite <- Hdst. by apply Hends.
      - apply (Houts o Ho), (Hknown o Ho). }
    apply Hpn in Hs as (Hsg & Hks & _). rewrite <- Hdst.
    apply Hpn. split; [by apply Hends|]. split; [done|].
    exists e. split; [|by right]. apply Hpe. tauto.
Qed.
End PrunedFrom.

(** ** What the step sequencer evicts *)

Lemma iset_NoDup_id {A} `{EqDecision A} (l : list A) : NoDup l -> iset l = l.
Proof.
  unfold iset.
  assert (H : forall acc, NoDup (acc ++ l) ->
                          fold_left iset_add l acc = acc ++ l).
  { induction l as [|x l IH]; intros acc Hnd; simpl.
    - by rewrite app_nil_r.
    - assert (Hx : mem x acc = false).
      { apply mem_false. intros Hin.
        apply NoDup_app in Hnd as (_ & Hd & _). apply (Hd x Hin). by left. }
      unfold iset_add at 2. rewrite Hx.
      rewrite IH; rewrite <- app_assoc; done. }
  intros Hnd. by apply (H []).
Qed.

Lemma intersects_false a b :
  intersects a b = false -> forall n, n ∈ a -> n ∉ b.
Proof.
  unfold intersects. intros H n Hn Hb.
  assert (Ht : existsb (fun n => mem n b) a = true).
  { apply existsb_exists. exists n. split; [by apply list_elem_of_In|].
    by apply mem_true. }
  congruence.
Qed.

Lemma need_users_elem p chain n e :
  n ∈ chain -> e ∈ nx.edges p -> nx.src e = n ->
  EdgeAttrs.subdoc (nx.attrs e) = false ->
  nx.dst e ∈ need_users p chain.
Proof.
  intros Hn He Hs Hsub. unfold need_users.
  apply list_elem_of_In, in_flat_map. exists n.
  split; [by apply list_elem_of_In|].
  apply list_elem_of_In, list_elem_of_fmap. exists e. split; [done|].
  apply elem_of_List_filter. rewrite Hsub. split; [|done].
  by apply out_edges_elem.
Qed.

Lemma root_doc_cases p doc :
  root_doc p doc = doc
  \/ exists e, e ∈ nx.in_edges_view p doc
               /\ EdgeAttrs.subdoc (nx.attrs e) = true
               /\ root_doc p doc = nx.src e.
Proof.
  unfold root_doc.
  apply (fold_left_invariant
           (fun r => r = doc
                     \/ exists e, e ∈ nx.in_edges_view p doc
                                  /\ EdgeAttrs.subdoc (nx.attrs e) = true
                                  /\ r = nx.src e)); [|by left].
  intros r e He Hr. destruct (EdgeAttrs.subdoc (nx.attrs e)) eqn:Hs; [|done].
  right. by exists e.
Qed.

(** The root of a node is the node or the source of one of its [subdoc]
    in-edges. *)
Lemma root_doc_node p doc :
  nx.has_node p doc = true ->
  root_doc p doc = doc
  \/ exists e, e ∈ nx.in_edges p doc
               /\ EdgeAttrs.subdoc (nx.attrs e) = true
               /\ root_doc p doc = nx.src e.
Proof.
  intros Hnode. destruct (root_doc_cases p doc) as [?|(e & He & ?)];
    [by left|right].
  rewrite in_edges_view_node in He by done. by exists e.
Qed.

Lemma no_char_subdoc_spec g e c :
  no_char_subdoc g = true -> e ∈ nx.edges g ->
  nx.dst e = Data (String c EmptyString) ->
  EdgeAttrs.subdoc (nx.attrs e) = false.
Proof.
  unfold no_char_subdoc. rewrite forallb_forall. intros Hnc He Hd.
  apply list_elem_of_In, Hnc in He. rewrite Hd in He. simpl in He.
  rewrite orb_false_r in He. by apply negb_true_iff.
Qed.

(** The root of a name that is no node of a graph whose edges end at nodes
    is the name itself, when none of its characters is a sub-document. *)
Lemma root_doc_no_node p doc :
  (forall e, e ∈ nx.edges p -> nx.dst e ∈ nx.node_list p) ->
  (forall e c, e ∈ nx.edges p -> nx.dst e = Data (String c EmptyString) ->
               EdgeAttrs.subdoc (nx.attrs e) = false) ->
  nx.has_node p doc = false ->
  root_doc p doc = doc.
Proof.
  intros Hends Hnc Hnode.
  destruct (root_doc_cases p doc) as [?|(e & He & Hsub & _)]; [done|].
  apply in_edges_view_elem in He as [He [Hd|[_ [c Hd]]]].
  - apply has_node_false in Hnode. exfalso. apply Hnode.
    rewrite <- Hd. by apply Hends.
  - rewrite (Hnc e c He Hd) in Hsub. discriminate Hsub.
Qed.

Section ChainHeads.
Context {A : Type}.
Variable stop_set : A -> Node -> bool.
Variable consume : A -> Node -> A.
Variable dag : nx.DiGraph.
Variable Q : A -> Prop.
Hypothesis Q_keep : forall a d, Q a -> Q (consume a d).

(** What holds once [doc] is consumed or found in the stop set holds
    after the walks from docs among which [doc] is. *)
Lemma _yield_chained_docs_head dig_dag docs doc acc r :
  doc ∈ docs ->
  (forall a, stop_set a doc = true -> Q a) ->
  (forall a, stop_set a doc = false -> Q (consume a doc)) ->
  nx.has_node dag doc = true ->
  _yield_chained_docs stop_set consume dig_dag dag docs acc = Some r ->
  Q r.
Proof.
  intros Hdoc Hstop Hcons Hnode. revert r. unfold _yield_chained_docs.
  match goal with
  | |- forall r, ?x = Some r -> _ =>
      change ((fun o' => forall r, o' = Some r -> Q r) x)
  end.
  apply fold_left_establish with (x := doc); [done|..].
  - intros [a|] r; [|done].
    apply (_yield_also_chained_docs_head _ _ _ Q); auto.
  - intros [a|] b Ha r; [|done].
    apply (_yield_also_chained_docs_invariant _ _ _ Q).
    + intros a' d' _ _. apply Q_keep.
    + by apply Ha.
Qed.

(** The same for a super-document of the doc from which the walk starts. *)
Lemma _yield_also_chained_docs_parent fuel doc acc r e :
  e ∈ nx.in_edges dag doc ->
  EdgeAttrs.subdoc (nx.attrs e) = true ->
  nx.has_node dag doc = true ->
  nx.has_node dag (nx.src e) = true ->
  (forall a, stop_set a doc = false) ->
  (forall a, stop_set a (nx.src e) = true -> Q a) ->
  (forall a, stop_set a (nx.src e) = false -> Q (consume a (nx.src e))) ->
  _yield_also_chained_docs stop_set consume fuel
    [out_edges_1; in_edges_0] dag doc acc = Some r ->
  Q r.
Proof.
  intros He Hsub Hdoc Hsrc Hgo Hstop Hcons.
  destruct fuel as [|fuel]; [done|]. simpl.
  rewrite Hdoc, Hgo. simpl. revert r.
  match goal with
  | |- forall r, ?x = Some r -> _ =>
      change ((fun o' => forall r, o' = Some r -> Q r) x)
  end.
  assert (Hinner : forall meth o,
    (forall r, o = Some r -> Q r) ->
    forall (child : Node * bool) (r : A),
      match o with
      | Some acc' =>
          if child.2
          then _yield_also_chained_docs stop_set consume fuel [meth] dag
                 child.1 acc'
          else Some acc'
      | None => None
      end = Some r -> Q r).
  { intros meth [a|] Ha [child sd] r; [|done]. simpl. destruct sd.
    - apply (_yield_also_chained_docs_invariant _ _ _ Q).
      + intros a' d' _ _. apply Q_keep.
      + by apply Ha.
    - intros [= <-]. by apply Ha. }
  apply fold_left_establish with (x := (nx.src e, true)).
  - apply list_elem_of_fmap. exists e. by rewrite Hsub.
  - intros [a|] r; [|done]. simpl.
    apply (_yield_also_chained_docs_head _ _ _ Q); auto.
  - intros o' child Ho' r. by apply (Hinner in_edges_0 o').
Qed.
End ChainHeads.

Lemma set_of_also_chaindocs_root p need chain :
  (forall e, e ∈ nx.edges p -> nx.src e ∈ nx.node_list p) ->
  nx.has_node p need = true ->
  set_of_also_chaindocs p need = Some chain ->
  root_doc p need ∈ chain.
Proof.
  intros Hsrc Hnode. unfold set_of_also_chaindocs, yield_also_chaindocs.
  assert (Hkeep : forall x (a : list Node) d, x ∈ a -> x ∈ iset_add a d).
  { intros x a d Hx. apply iset_add_elem. by left. }
  destruct (root_doc_node p need Hnode) as [->|(e & He & Hsub & ->)].
  - apply (_yield_also_chained_docs_head _ _ _ (fun a => need ∈ a));
      [done| |by apply Hkeep|done].
    intros _. apply iset_add_elem. by right.
  - apply (_yield_also_chained_docs_parent _ _ _ (fun a => nx.src e ∈ a)
             (Hkeep _) _ _ _ _ e); [done|done|done| |done|done|].
    + apply has_node_true, Hsrc. by apply in_edges_elem in He as [He _].
    + intros a _. apply iset_add_elem. by right.
Qed.

Lemma set_of_chaindocs_outputs p l outs d :
  set_of_chaindocs p (map Data l) = Some outs ->
  d ∈ l -> nx.has_node p (Data d) = true -> Data d ∈ outs.
Proof.
  unfold set_of_chaindocs, yield_chaindocs. intros Hy Hd Hnode.
  revert Hy.
  apply (_yield_chained_docs_head _ _ _ (fun a => Data d ∈ a))
    with (doc := Data d).
  - intros a x Hx. apply iset_add_elem. by left.
  - apply list_elem_of_fmap. by exists d.
  - done.
  - intros a _. apply iset_add_elem. by right.
  - done.
Qed.

Lemma node_attrs_obj g n o :
  NodeAttrs.obj (nx.node_attrs g n) = Some o ->
  exists a, (n, a) ∈ nx.nodes g /\ NodeAttrs.obj a = Some o.
Proof.
  unfold nx.node_attrs.
  destruct (List.find _ (nx.nodes g)) as [[n' a]|] eqn:Hf; [|done].
  apply find_some in Hf as [Hin Heq]. apply bool_decide_eq_true in Heq.
  simpl in *. subst n'. intros Ho. exists a.
  split; [by apply list_elem_of_In|done].
Qed.

Lemma has_edge_true g u v :
  nx.has_edge g u v = true ->
  exists e, e ∈ nx.edges g /\ nx.src e = u /\ nx.dst e = v.
Proof.
  unfold nx.has_edge, nx.is_edge. intros (e & He & Huv)%existsb_exists.
  apply andb_true_iff in Huv as [Hu Hv].
  apply bool_decide_eq_true in Hu, Hv.
  exists e. split; [by apply list_elem_of_In|done].
Qed.

Section Sequencer.
Variables (g p : nx.DiGraph) (l : list string) (outs : list Node).
Hypothesis Hwf : wf_graph g = true.
Hypothesis Hnc : no_char_subdoc g = true.
Hypothesis Hpf : pruned_from g p l.
Hypothesis Houts :
  forall d, d ∈ l -> nx.has_node p (Data d) = true -> Data d ∈ outs.

Lemma typed_edge e : e ∈ nx.edges g -> edge_typed e = true.
Proof.
  intros He. destruct (wf_graph_spec g Hwf) as (_ & H & _).
  by destruct (H e He) as (_ & _ & ?).
Qed.

(** The node of an operation of the plan has an edge from each of its
    needs and an edge to each of its provides. *)
Lemma op_edges op' o :
  op' ∈ nx.node_list p -> op_object p op' = Some o ->
  (forall n, n ∈ Operation.get_op_needs o ->
     exists e, e ∈ nx.edges g /\ nx.src e = dnode n /\ nx.dst e = op'
               /\ EdgeAttrs.subdoc (nx.attrs e) = false)
  /\ (forall n, n ∈ Operation.get_op_provides o ->
        exists e, e ∈ nx.edges g /\ nx.src e = op'
                  /\ nx.dst e = dnode n).
Proof.
  intros Hin Hobj. destruct op' as [d|nm]; [done|]. simpl in Hobj.
  destruct Hpf as (_ & _ & _ & Hattrs & _).
  destruct (Hattrs _ Hin) as [_ Heq]. rewrite Heq in Hobj.
  apply node_attrs_obj in Hobj as (a & Ha & Hobj).
  destruct (wf_graph_spec g Hwf) as (_ & _ & Hlinked).
  specialize (Hlinked _ Ha). unfold op_linked in Hlinked.
  simpl in Hlinked. rewrite Hobj in Hlinked.
  apply andb_true_iff in Hlinked as [Hn Hp].
  rewrite forallb_forall in Hn, Hp. split.
  - intros n Hn'. apply list_elem_of_In, Hn, has_edge_true in Hn'.
    destruct Hn' as (e & He & Hs & Hd). exists e.
    split; [done|]. split; [done|]. split; [done|].
    pose proof (typed_edge e He) as Hty. unfold edge_typed in Hty.
    rewrite Hs, Hd in Hty. simpl in Hty. by apply negb_true_iff.
  - intros n Hn'. apply list_elem_of_In, Hp, has_edge_true in Hn'.
    destruct Hn' as (e & He & Hs & Hd). by exists e.
Qed.

Section Step.
Variables (done : list Node) (op : Node) (future : list Node).
Hypothesis Hnodup : NoDup (done ++ op :: future).
Hypothesis Hsorted : sorted_by_edges p (done ++ op :: future).
Hypothesis Hnodes :
  forall v, v ∈ done ++ op :: future -> v ∈ nx.node_list p.
Hypothesis Hop : is_operation p op = true.

Lemma future_not_before op' j :
  op' ∈ future -> j < length done ->
  (done ++ op :: future) !! j = Some op' -> False.
Proof.
  intros [k Hk]%list_elem_of_lookup Hj Hl.
  assert (Hk' : (done ++ op :: future) !! (length done + S k)
                = Some op').
  { rewrite lookup_app_r by lia.
    replace (length done + S k - length done) with (S k) by lia.
    done. }
  pose proof (NoDup_lookup _ _ _ _ Hnodup Hl Hk'). lia.
Qed.

(** EVICT(1) *)
Lemma evict_need_ok need chain :
  need ∈ nx.predecessors p op ->
  set_of_also_chaindocs p need = Some chain ->
  intersects chain outs = false ->
  intersects (need_users p chain) future = false ->
  exists dn, root_doc p need = Data dn /\ (dn ∉ l)
             /\ forall op', op' ∈ future -> unused_by p dn op'.
Proof.
  intros Hneed Hchain Hasked Hused.
  destruct Hpf as (Hpnd & Hsub & Hind & Hattrs & Hneeds & Hprov).
  apply predecessors_elem in Hneed as (e0 & He0 & Hs0 & Hd0).
  destruct (Hsub e0 He0) as (Hg0 & Hsp0 & Hdp0).
  assert (Hroot : root_doc p need ∈ chain).
  { apply set_of_also_chaindocs_root; [|by rewrite <- Hs0;
      apply has_node_true|done].
    intros e He. by destruct (Hsub e He) as (_ & ? & _). }
  assert (Hpos : exists jr, jr < length done
            /\ (done ++ op :: future) !! jr = Some (root_doc p need)
            /\ root_doc p need ∈ nx.node_list p
            /\ is_Data (root_doc p need) = true).
  { destruct (Hsorted (length done) op) with (e := e0)
      as (j1 & Hj1 & Hl1); [|done|done|].
    { rewrite lookup_app_r by lia. by rewrite Nat.sub_diag. }
    rewrite Hs0 in Hl1.
    pose proof (typed_edge e0 Hg0) as Hty0. unfold edge_typed in Hty0.
    rewrite Hs0, Hd0 in Hty0.
    destruct (root_doc_node p need)
      as [->|(e1 & He1 & Hsub1 & ->)];
      [by rewrite <- Hs0; apply has_node_true| |].
    - exists j1. split; [done|]. split; [done|].
      split; [by rewrite <- Hs0|].
      apply is_operation_Oper in Hop.
      destruct need, op; done.
    - apply in_edges_elem in He1 as [He1 Hd1].
      destruct (Hsorted j1 need Hl1 e1 He1 Hd1) as (j2 & Hj2 & Hl2).
      destruct (Hsub e1 He1) as (Hg1 & Hsp1 & _).
      exists j2. split; [lia|]. split; [done|]. split; [done|].
      pose proof (typed_edge e1 Hg1) as Hty1. unfold edge_typed in Hty1.
      rewrite Hsub1 in Hty1.
      destruct (nx.src e1), (nx.dst e1); done. }
  destruct Hpos as (jr & Hjr & Hlr & Hrp & Hdata).
  destruct (root_doc p need) as [dn|nm] eqn:Hr; [|done].
  exists dn. split; [done|]. split.
  - intros Hin.
    apply (intersects_false _ _ Hasked (Data dn) Hroot).
    apply Houts; [done|]. by apply has_node_true.
  - intros op' Hfut o Hobj.
    assert (Hop' : op' ∈ nx.node_list p).
    { apply Hnodes, elem_of_app. right. by right. }
    destruct (op_edges op' o Hop' Hobj) as [Hn Hp]. split.
    + intros (n & -> & Hin)%list_elem_of_fmap.
      destruct (Hn n Hin) as (e & He & Hs & Hd & Hnsub).
      assert (Hep : e ∈ nx.edges p).
      { apply Hind; [done|by rewrite Hs|by rewrite Hd]. }
      apply (intersects_false _ _ Hused op'); [|done].
      rewrite <- Hd.
      by apply need_users_elem with (n := Data (dep_name n)).
    + intros _ (n & -> & Hin)%list_elem_of_fmap.
      destruct (Hp n Hin) as (e & He & Hs & Hd).
      assert (Hep : e ∈ nx.edges p).
      { apply Hind; [done|by rewrite Hs|by rewrite Hd]. }
      destruct (Hsorted jr (Data (dep_name n)) Hlr e Hep Hd)
        as (j3 & Hj3 & Hl3).
      rewrite Hs in Hl3.
      apply (future_not_before op' j3); [done|lia|done].
Qed.

(** EVICT(2) *)
Lemma evict_provide_ok provide :
  provide ∈ nx.successors g op ->
  nx.has_node p provide = false ->
  exists dn, root_doc p provide = Data dn /\ (dn ∉ l)
             /\ forall op', op' ∈ future -> unused_by p dn op'.
Proof.
  intros Hprovide Hpruned.
  destruct Hpf as (Hpnd & Hsub & Hind & Hattrs & Hneeds & Hprov).
  apply has_node_false in Hpruned.
  apply successors_elem in Hprovide as (e0 & He0 & Hs0 & Hd0).
  assert (Hopp : op ∈ nx.node_list p).
  { apply Hnodes, elem_of_app. right. by left. }
  assert (Hroot : root_doc p provide = provide).
  { apply root_doc_no_node;
      [|intros e c He; apply (no_char_subdoc_spec g); [done|]
       |by apply has_node_false].
    - intros e He. by destruct (Hsub e He) as (_ & _ & ?).
    - by destruct (Hsub e He) as (? & _). }
  pose proof (typed_edge e0 He0) as Hty0. unfold edge_typed in Hty0.
  rewrite Hs0, Hd0 in Hty0. apply is_operation_Oper in Hop.
  destruct provide as [dn|nm]; [|by destruct op].
  exists dn. split; [done|]. split.
  - intros Hin. apply Hpruned, (Hprov e0 dn); [done| |done|done].
    by rewrite Hs0.
  - intros op' Hfut o Hobj.
    assert (Hop' : op' ∈ nx.node_list p).
    { apply Hnodes, elem_of_app. right. by right. }
    destruct (op_edges op' o Hop' Hobj) as [Hn _]. split.
    + intros (n & -> & Hin)%list_elem_of_fmap.
      destruct (Hn n Hin) as (e & He & Hs & Hd & _).
      apply Hpruned. change (Data (dep_name n)) with (dnode n).
      rewrite <- Hs. apply Hneeds; [done|by rewrite Hd|].
      rewrite Hd. destruct op'; [done|done].
    + intros Hhas. by apply has_node_true in Hhas.
Qed.
End Step.
End Sequencer.

(** ** The loop of the step sequencer *)

Lemma unused_by_Data p d d' : unused_by p d (Data d').
Proof. intros o Ho. done. Qed.

Lemma add_eviction_cases steps dep :
  add_eviction steps dep = steps \/ add_eviction steps dep = steps ++ [dep].
Proof.
  unfold add_eviction. destruct (last steps) as [s|]; [|by right].
  destruct (decide (s = dep)); [by left|by right].
Qed.

Section Loop.
Variables (g p : nx.DiGraph) (l : list string) (outs : list Node).
Hypothesis Hwf : wf_graph g = true.
Hypothesis Hnc : no_char_subdoc g = true.
Hypothesis Hpf : pruned_from g p l.
Hypothesis Houts :
  forall d, d ∈ l -> nx.has_node p (Data d) = true -> Data d ∈ outs.

Lemma steps_ok_operation steps op future :
  steps_ok p l steps (op :: future) -> is_Oper op = true ->
  steps_ok p l (steps ++ [op]) future.
Proof.
  intros [Hsafe Hpend] Hop. split.
  - intros i d Hi.
    assert (Hi' : steps !! i = Some (Data d)).
    { apply lookup_app_Some in Hi as [Hi|[_ Hi]]; [done|].
      destruct (i - length steps); simpl in Hi; [|done].
      injection Hi as ->. done. }
    destruct (Hsafe i d Hi') as [Hl Hlater]. split; [done|].
    intros j op' Hij Hj.
    apply lookup_app_Some in Hj as [Hj|[_ Hj]]; [by apply (Hlater j)|].
    destruct (j - length steps); simpl in Hj; [|done].
    injection Hj as <-.
    apply (Hpend d); [|by left]. by apply list_elem_of_lookup_2 in Hi'.
  - intros d [Hd|Hd%list_elem_of_singleton]%elem_of_app; [|by subst].
    destruct (Hpend d Hd) as [Hl Hf]. split; [done|].
    intros op' Hin. apply Hf. by right.
Qed.

Lemma steps_ok_skip steps n future :
  steps_ok p l steps (n :: future) -> steps_ok p l steps future.
Proof.
  intros [Hsafe Hpend]. split; [done|]. intros d Hd.
  destruct (Hpend d Hd) as [Hl Hf]. split; [done|].
  intros op' Hin. apply Hf. by right.
Qed.

Lemma steps_ok_eviction steps future dn :
  steps_ok p l steps future ->
  dn ∉ l -> (forall op', op' ∈ future -> unused_by p dn op') ->
  steps_ok p l (add_eviction steps (Data dn)) future.
Proof.
  intros [Hsafe Hpend] Hl Hf.
  destruct (add_eviction_cases steps (Data dn)) as [->| ->]; [done|].
  split.
  - intros i d Hi.
    apply lookup_app_Some in Hi as [Hi|[Hlen Hi]].
    + destruct (Hsafe i d Hi) as [Hdl Hlater]. split; [done|].
      intros j op' Hij Hj.
      apply lookup_app_Some in Hj as [Hj|[_ Hj]]; [by apply (Hlater j)|].
      destruct (j - length steps); simpl in Hj; [|done].
      injection Hj as <-. apply unused_by_Data.
    + destruct (i - length steps) eqn:Hk; simpl in Hi; [|done].
      injection Hi as <-. split; [done|]. intros j op' Hij Hj.
      apply lookup_lt_Some in Hj. rewrite length_app in Hj. simpl in Hj.
      lia.
  - intros d [Hd|Hd%list_elem_of_singleton]%elem_of_app;
      [by apply Hpend|].
    injection Hd as ->. done.
Qed.

Section Step.
Variables (done : list Node) (op : Node) (future : list Node).
Hypothesis Hnodup : NoDup (done ++ op :: future).
Hypothesis Hsorted : sorted_by_edges p (done ++ op :: future).
Hypothesis Hnodes :
  forall v, v ∈ done ++ op :: future -> v ∈ nx.node_list p.
Hypothesis Hop : is_operation p op = true.

Lemma evict_needs_ok steps steps' :
  steps_ok p l steps future ->
  evict_needs p outs future op steps = inr steps' ->
  steps_ok p l steps' future.
Proof.
  intros Hok. unfold evict_needs. revert steps'.
  match goal with
  | |- forall s, ?x = inr s -> _ =>
      change ((fun r => forall s, r = inr s -> steps_ok p l s future) x)
  end.
  apply fold_left_invariant; [|by intros s [= <-]].
  intros [e|s] need Hneed Hr s'; [done|]. simpl.
  destruct (set_of_also_chaindocs p need) as [chain|] eqn:Hchain;
    [|done].
  simpl. destruct (intersects chain outs) eqn:Hasked.
  { intros [= <-]. by apply Hr. }
  destruct (intersects (need_users p chain) future) eqn:Hused.
  { intros [= <-]. by apply Hr. }
  intros [= <-].
  destruct (evict_need_ok g p l outs Hwf Hpf Houts done op future
              Hnodup Hsorted Hnodes Hop need chain
              Hneed Hchain Hasked Hused)
    as (dn & -> & Hl & Hf).
  apply steps_ok_eviction; [by apply Hr|done|done].
Qed.

Lemma evict_provides_ok steps :
  steps_ok p l steps future ->
  steps_ok p l (evict_provides g p op steps) future.
Proof.
  intros Hok. unfold evict_provides.
  apply (fold_left_invariant (fun s => steps_ok p l s future)); [|done].
  intros s provide Hprovide Hs.
  destruct (nx.has_node p provide) eqn:Hhas; [done|].
  destruct (evict_provide_ok g p l Hwf Hnc Hpf done op future
              Hnodup Hsorted Hnodes Hop provide Hprovide Hhas)
    as (dn & -> & Hl & Hf).
  by apply steps_ok_eviction.
Qed.
End Step.

Lemma build_steps_ok future : forall done steps res,
  NoDup (done ++ future) ->
  sorted_by_edges p (done ++ future) ->
  (forall v, v ∈ done ++ future -> v ∈ nx.node_list p) ->
  steps_ok p l steps future ->
  build_steps g p outs future steps = inr res ->
  evictions_safe p l res.
Proof.
  induction future as [|op future IH];
    intros done steps res Hnd Hsorted Hnodes Hok Hres; simpl in Hres.
  - injection Hres as <-. by destruct Hok.
  - assert (Heq : done ++ op :: future = (done ++ [op]) ++ future)
      by by rewrite <- app_assoc.
    destruct (is_operation p op) eqn:Hop.
    + destruct (evict_needs p outs future op (steps ++ [op]))
        as [e|steps1] eqn:Hev; [done|]. simpl in Hres.
      apply (IH (done ++ [op]) (evict_provides g p op steps1) res);
        try (by rewrite <- Heq); [|done].
      apply (evict_provides_ok done op future Hnd Hsorted Hnodes Hop).
      apply (evict_needs_ok done op future Hnd Hsorted Hnodes Hop
               (steps ++ [op])); [|done].
      apply steps_ok_operation; [done|]. by apply is_operation_Oper in Hop.
    + apply (IH (done ++ [op]) steps res); try (by rewrite <- Heq);
        [|done].
      by apply steps_ok_skip in Hok.
Qed.
End Loop.

(** ** Eviction safety of the plans *)

Section EvictionSafety.
Variable set_iter : list Node -> list Node.
Hypothesis set_iter_perm : forall l, NoDup l -> set_iter l ≡ₚ l.

Lemma evictions_safe_no_eviction p l steps :
  Forall (fun step => is_Oper step = true) steps ->
  evictions_safe p l steps.
Proof.
  intros Hall i d Hi. apply list_elem_of_lookup_2 in Hi.
  by apply (proj1 (Forall_forall _ _) Hall) in Hi.
Qed.

Lemma compiled_evictions_safe cfg g self inputs outputs predicate
    p needs provides steps :
  wf_graph g = true ->
  no_char_subdoc g = true ->
  compiled set_iter cfg g self inputs outputs predicate
  = inr (p, needs, provides, steps) ->
  evictions_safe p (default [] (sorted <$> astuple outputs)) steps.
Proof.
  intros Hwf Hnc Hc.
  destruct (astuple outputs) as [l0|] eqn:Hout.
  2:{ apply evictions_safe_no_eviction.
      eapply compiled_only_operations; [done|]. by left. }
  destruct (decide (l0 = [])) as [->|Hne].
  { apply evictions_safe_no_eviction.
    eapply compiled_only_operations; [done|]. right. by left. }
  unfold compiled in Hc. rewrite Hout in Hc. simpl in Hc.
  destruct (pruned set_iter g self _ _ _) as [e|[[p' needs'] provides']]
    eqn:Hpr; [done|].
  rewrite exc_bind_inr in Hc. cbv beta iota in Hc.
  apply (pruned_pruned_from set_iter set_iter_perm) in Hpr; [|done].
  rewrite map_map in Hpr. simpl in Hpr. rewrite map_id in Hpr.
  unfold execution_steps in Hc.
  destruct (_topo_sort_nodes p') as [e|sorted_nodes] eqn:Htopo; [done|].
  rewrite exc_bind_inr in Hc.
  destruct (negb _ || _).
  { injection Hc as <- <- <- <-. apply evictions_safe_no_eviction.
    apply Forall_forall. intros n Hn.
    apply elem_of_List_filter in Hn as [_ Hn].
    by apply is_operation_Oper in Hn. }
  destruct (set_of_chaindocs p' (map Data (sorted l0))) as [outs|]
    eqn:Houts; [|done].
  simpl in Hc.
  destruct (build_steps g p' outs (iset sorted_nodes) [])
    as [e|steps'] eqn:Hsteps; [done|].
  injection Hc as <- <- <- <-. simpl.
  destruct (_topo_sort_nodes_sound p' sorted_nodes)
    as (Hnd & Hsorted & Hnodes); [by destruct Hpr|done|].
  rewrite iset_NoDup_id in Hsteps by done.
  apply (build_steps_ok g p' (sorted l0) outs Hwf Hnc Hpr) with
    (future := sorted_nodes) (done := []) (steps := []); try done.
  - intros d Hd Hhas. by apply (set_of_chaindocs_outputs p' (sorted l0)).
  - split.
    + intros i d Hi. by rewrite lookup_nil in Hi.
    + intros d Hd. by apply elem_of_nil in Hd.
Qed.

(** Eviction safety of the plans of a network whose graph is the graph
    of its operations. *)
Lemma eviction_safety_of_graph net0 (s0 : Store) g calls cfg
    inputs outputs predicate plan self' :
  wf_graph g = true ->
  no_char_subdoc g = true ->
  Network._cached_plans net0 = ∅ ->
  s0 !! Network.graph net0 = Some g ->
  let now := after_calls set_iter (net0, s0) calls in
  let r := compile set_iter cfg now.1 inputs outputs predicate now.2 in
  r.1 = inr (plan, self') ->
  exists p,
    r.2 !! ExecutionPlan.dag plan = Some p
    /\ forall i d,
         ExecutionPlan.steps plan !! i = Some (Data d) ->
         (d ∉ default [] (astuple outputs))
         /\ forall j nm o,
              i < j ->
              ExecutionPlan.steps plan !! j = Some (Oper nm) ->
              op_object p (Oper nm) = Some o ->
              (d ∉ map dep_name (Operation.get_op_needs o))
              /\ (nx.has_node p (Data d) = true ->
                  d ∉ map dep_name (Operation.get_op_provides o)).
Proof.
  intros Hwf Hnc Hc0 Hg0 now r.
  pose proof (cache_from_after_calls set_iter net0 g calls _
                (cache_from_start set_iter _ _ _ Hc0 Hg0)) as Hinv.
  fold now in Hinv. destruct Hinv as (Hgr & Hn & Hp & Hgnow & Hc).
  assert (Hgoal : forall p l',
    sorted <$> astuple outputs = sorted <$> l' ->
    evictions_safe p (default [] (sorted <$> l'))
      (ExecutionPlan.steps plan) ->
    forall i d,
      ExecutionPlan.steps plan !! i = Some (Data d) ->
      (d ∉ default [] (astuple outputs))
      /\ forall j nm o,
           i < j ->
           ExecutionPlan.steps plan !! j = Some (Oper nm) ->
           op_object p (Oper nm) = Some o ->
           (d ∉ map dep_name (Operation.get_op_needs o))
           /\ (nx.has_node p (Data d) = true ->
               d ∉ map dep_name (Operation.get_op_provides o))).
  { intros p l' Hkey Hsafe i d Hi. destruct (Hsafe i d Hi) as [Hl Hlater].
    split.
    - rewrite <- Hkey in Hl. destruct (astuple outputs) as [l0|]; simpl in *.
      + by rewrite sorted_elem in Hl.
      + done.
    - intros j nm o Hij Hj Hobj. by apply (Hlater j (Oper nm)). }
  unfold r. pattern (compile set_iter cfg now.1 inputs outputs predicate
                       now.2).
  apply run_compile; simpl.
  - intros plan' Hk [= -> <-].
    destruct (Hc _ _ Hk) as (cfg' & i' & o' & pr' & p & Hkey & Hcomp & Hdag
                             & _).
    exists p. split; [done|]. apply (Hgoal p (astuple o')).
    + unfold cache_key in Hkey. by injection Hkey as _ -> _.
    + by apply (compiled_evictions_safe cfg' g net0 i' o' pr' p
                  (ExecutionPlan.needs plan) (ExecutionPlan.provides plan)
                  (ExecutionPlan.steps plan) Hwf Hnc).
  - done.
  - done.
  - intros g' p needs provides steps news _ Hg' Hcomp [= <- <-]. simpl.
    rewrite Hgr, Hgnow in Hg'. injection Hg' as <-.
    exists p. split.
    + rewrite app_assoc, lookup_app_r; rewrite length_app; [|lia].
      by rewrite Nat.sub_diag.
    + apply (Hgoal p (astuple outputs)); [done|].
      by apply (compiled_evictions_safe cfg g now.1 inputs outputs
                  predicate p needs provides steps Hwf Hnc).
Qed.
End EvictionSafety.

(** ** The graph of a network *)

Lemma has_edge_intro g e :
  e ∈ nx.edges g -> nx.has_edge g (nx.src e) (nx.dst e) = true.
Proof.
  intros He. unfold nx.has_edge. apply existsb_exists. exists e.
  split; [by apply list_elem_of_In|]. unfold nx.is_edge.
  by rewrite !bool_decide_true.
Qed.

Lemma add_node_edges g n a : nx.edges (nx.add_node g n a) = nx.edges g.
Proof. unfold nx.add_node. by destruct (nx.has_node g n). Qed.

Lemma add_node_node_list g n a :
  nx.node_list (nx.add_node g n a)
  = if nx.has_node g n then nx.node_list g else nx.node_list g ++ [n].
Proof.
  unfold nx.add_node. destruct (nx.has_node g n); unfold nx.node_list; simpl.
  - rewrite map_map. apply map_ext. intros [n' a']. simpl.
    by destruct (decide (n' = n)).
  - by rewrite map_app.
Qed.

Lemma add_node_elem g n a n' :
  n' ∈ nx.node_list (nx.add_node g n a) <-> n' ∈ nx.node_list g \/ n' = n.
Proof.
  rewrite add_node_node_list. destruct (nx.has_node g n) eqn:Hn.
  - apply has_node_true in Hn. split; [by left|]. by intros [?| ->].
  - by rewrite elem_of_app, list_elem_of_singleton.
Qed.

Lemma add_node_NoDup g n a :
  NoDup (nx.node_list g) -> NoDup (nx.node_list (nx.add_node g n a)).
Proof.
  intros Hnd. rewrite add_node_node_list.
  destruct (nx.has_node g n) eqn:Hn; [done|]. apply has_node_false in Hn.
  apply NoDup_app. split; [done|]. split; [|apply NoDup_singleton].
  intros x Hx Hx'. apply list_elem_of_singleton in Hx'. by subst.
Qed.

(** Where the attributes of a node of the new graph come from. *)
Lemma add_node_nodes g n a n' a' :
  (n', a') ∈ nx.nodes (nx.add_node g n a) ->
  (exists a0, (n', a0) ∈ nx.nodes g
              /\ (a' = a0 \/ (n' = n /\ a' = NodeAttrs.update a0 a)))
  \/ (n' = n /\ a' = a).
Proof.
  unfold nx.add_node. destruct (nx.has_node g n); simpl.
  - intros ([n0 a0] & Heq & Hin)%list_elem_of_fmap. left. simpl in Heq.
    destruct (decide (n0 = n)) as [->|Hne]; injection Heq as -> ->;
      exists a0; split; auto.
  - intros [Hin|Hin%list_elem_of_singleton]%elem_of_app.
    + left. exists a'. auto.
    + right. by injection Hin as -> ->.
Qed.

Lemma add_node_keeps_edges g n a : keeps_edges g (nx.add_node g n a).
Proof. intros u v. unfold nx.has_edge. by rewrite add_node_edges. Qed.

Lemma keeps_edges_refl g : keeps_edges g g.
Proof. by intros u v. Qed.

Lemma keeps_edges_trans g1 g2 g3 :
  keeps_edges g1 g2 -> keeps_edges g2 g3 -> keeps_edges g1 g3.
Proof. intros H1 H2 u v H. by apply H2, H1. Qed.

Lemma linked_keeps_edges g g' n o :
  keeps_edges g g' -> linked g n o -> linked g' n o.
Proof.
  intros Hk [Hn Hp]. split; intros x Hx; apply Hk; [by apply Hn|by apply Hp].
Qed.

Section Appending.
Variable operation : Operation.t.

Lemma add_node_appending g n a :
  appending operation g ->
  NodeAttrs.obj a = None
  \/ (n = onode operation /\ NodeAttrs.obj a = Some operation) ->
  appending operation (nx.add_node g n a).
Proof.
  intros (H1 & H2 & H3) Ha.
  split; [by apply add_node_NoDup|]. split.
  - intros e. rewrite add_node_edges, !add_node_elem. intros He.
    destruct (H2 e He) as (? & ? & ?). auto.
  - intros n' a' o Hin Hobj.
    assert (Hold : forall a0, (n', a0) ∈ nx.nodes g ->
              NodeAttrs.obj a0 = Some o ->
              (n' = onode operation /\ o = operation)
              \/ linked (nx.add_node g n a) n' o).
    { intros a0 Hin0 Hobj0. destruct (H3 n' a0 o Hin0 Hobj0) as [?|Hl];
        [by left|right].
      apply (linked_keeps_edges g); [apply add_node_keeps_edges|done]. }
    apply add_node_nodes in Hin
      as [(a0 & Hin0 & [->|[-> ->]])|[-> ->]].
    + by apply (Hold a0).
    + simpl in Hobj. destruct (NodeAttrs.obj a0) as [o0|] eqn:Hobj0.
      * injection Hobj as ->. by apply (Hold a0).
      * destruct Ha as [Ha|[-> Ha]]; [congruence|].
        left. split; [done|]. congruence.
    + destruct Ha as [Ha|[-> Ha]]; [congruence|].
      left. split; [done|]. congruence.
Qed.

Lemma edge_typed_update e a :
  edge_typed e = true ->
  edge_typed (nx.src e, nx.dst e, a) = true ->
  edge_typed (nx.src e, nx.dst e, EdgeAttrs.update (nx.attrs e) a) = true.
Proof.
  unfold edge_typed. simpl. destruct (nx.src e), (nx.dst e); try done.
  - intros H1 H2. apply negb_true_iff in H1, H2.
    apply negb_true_iff. by rewrite H1, H2.
  - intros H1 H2. apply negb_true_iff in H1, H2.
    apply negb_true_iff. by rewrite H1, H2.
Qed.

Lemma has_edge_updated (f : EdgeAttrs.t -> EdgeAttrs.t) u v x y l :
  existsb (nx.is_edge x y)
    (map (fun e => if nx.is_edge u v e
                   then (nx.src e, nx.dst e, f (nx.attrs e)) else e) l)
  = existsb (nx.is_edge x y) l.
Proof.
  induction l as [|e l IH]; simpl; [done|]. rewrite IH. f_equal.
  by destruct (nx.is_edge u v e).
Qed.

Lemma add_edge_appending g u v a :
  appending operation g ->
  edge_typed (u, v, a) = true ->
  appending operation (nx.add_edge g u v a)
  /\ keeps_edges g (nx.add_edge g u v a)
  /\ nx.has_edge (nx.add_edge g u v a) u v = true.
Proof.
  intros Hg Hty. unfold nx.add_edge.
  set (g2 := nx.add_node (nx.add_node g u NodeAttrs.empty) v
               NodeAttrs.empty).
  assert (Hg2 : appending operation g2).
  { apply add_node_appending; [|by left].
    apply add_node_appending; [done|by left]. }
  assert (Hk2 : keeps_edges g g2).
  { eapply keeps_edges_trans; apply add_node_keeps_edges. }
  assert (Hu2 : u ∈ nx.node_list g2).
  { apply add_node_elem. left. apply add_node_elem. by right. }
  assert (Hv2 : v ∈ nx.node_list g2) by (apply add_node_elem; by right).
  destruct Hg2 as (H1 & H2 & H3).
  destruct (nx.has_edge g2 u v) eqn:Hhe.
  - set (g' := nx.mk _ _).
    assert (Hsame : forall x y, nx.has_edge g' x y = nx.has_edge g2 x y).
    { intros x y. unfold nx.has_edge, g'. simpl.
      apply (has_edge_updated (fun old => EdgeAttrs.update old a)). }
    assert (Hk : keeps_edges g2 g').
    { intros x y. by rewrite Hsame. }
    split; [|split].
    + split; [done|]. split.
      * intros e' (e & -> & He)%list_elem_of_fmap.
        destruct (H2 e He) as (Hs & Hd & Ht).
        destruct (nx.is_edge u v e) eqn:Hie; [|done].
        split; [done|]. split; [done|].
        apply edge_typed_update; [done|].
        unfold nx.is_edge in Hie. apply andb_true_iff in Hie as [Hs' Hd'].
        apply bool_decide_eq_true in Hs', Hd'. by rewrite Hs', Hd'.
      * intros n a' o Hin Hobj.
        destruct (H3 n a' o Hin Hobj) as [?|Hl]; [by left|right].
        by apply (linked_keeps_edges g2).
    + by eapply keeps_edges_trans.
    + by rewrite Hsame.
  - set (g' := nx.mk _ _).
    assert (Hk : keeps_edges g2 g').
    { intros x y. unfold nx.has_edge, g'. simpl. rewrite existsb_app.
      intros ->. done. }
    split; [|split].
    + split; [done|]. split.
      * intros e [He|He%list_elem_of_singleton]%elem_of_app;
          [by apply H2|].
        subst e. done.
      * intros n a' o Hin Hobj.
        destruct (H3 n a' o Hin Hobj) as [?|Hl]; [by left|right].
        by apply (linked_keeps_edges g2).
    + by eapply keeps_edges_trans.
    + unfold nx.has_edge, g'. simpl. rewrite existsb_app. simpl.
      unfold nx.is_edge at 2. simpl. rewrite !bool_decide_true by done.
      apply orb_true_r.
Qed.

Lemma add_edges_from_appending l : forall g,
  appending operation g ->
  (forall e, e ∈ l -> edge_typed e = true) ->
  appending operation (nx.add_edges_from g l)
  /\ keeps_edges g (nx.add_edges_from g l)
  /\ forall e, e ∈ l ->
       nx.has_edge (nx.add_edges_from g l) (nx.src e) (nx.dst e) = true.
Proof.
  unfold nx.add_edges_from.
  induction l as [|e l IH]; intros g Hg Hl; simpl.
  - split; [done|]. split; [apply keeps_edges_refl|].
    intros e He. by apply elem_of_nil in He.
  - destruct (add_edge_appending g (nx.src e) (nx.dst e) (nx.attrs e) Hg)
      as (Hg1 & Hk1 & He1).
    { destruct e as [[u v] a]. apply Hl. by left. }
    destruct (IH _ Hg1) as (Hg2 & Hk2 & He2).
    { intros e' He'. apply Hl. by right. }
    split; [done|]. split; [by eapply keeps_edges_trans|].
    intros e' [->|He']%elem_of_cons; [by apply Hk2|by apply He2].
Qed.

Lemma add_nodes_from_appending l : forall g,
  appending operation g ->
  (forall na, na ∈ l -> NodeAttrs.obj na.2 = None) ->
  appending operation (nx.add_nodes_from g l)
  /\ keeps_edges g (nx.add_nodes_from g l).
Proof.
  unfold nx.add_nodes_from.
  induction l as [|na l IH]; intros g Hg Hl; simpl.
  - split; [done|apply keeps_edges_refl].
  - destruct (IH (nx.add_node g na.1 na.2)) as [Hg2 Hk2].
    + apply add_node_appending; [done|]. left. apply Hl. by left.
    + intros na' Hna'. apply Hl. by right.
    + split; [done|].
      eapply keeps_edges_trans; [apply add_node_keeps_edges|done].
Qed.

Lemma unseen_subdoc_edges_typed l : forall seen e,
  e ∈ (unseen_subdoc_edges l seen).1 -> edge_typed e = true.
Proof.
  induction l as [|[s d] l IH]; intros seen e; simpl.
  - intros He. by apply elem_of_nil in He.
  - destruct (mem (s, d) seen); simpl.
    + intros He. by apply elem_of_nil in He.
    + destruct (unseen_subdoc_edges l (seen ++ [(s, d)])) as [es seen']
        eqn:Hes.
      simpl. intros [->|He]%elem_of_cons; [done|].
      apply (IH (seen ++ [(s, d)])). by rewrite Hes.
Qed.

Lemma append_jsonp_appending g seen n :
  appending operation g ->
  appending operation (append_jsonp g seen n).1
  /\ keeps_edges g (append_jsonp g seen n).1.
Proof.
  intros Hg. unfold append_jsonp.
  destruct (get_jsonp n) as [[|p ps]|];
    try (split; [done|apply keeps_edges_refl]).
  unfold append_subdoc_chain.
  destruct (unseen_subdoc_edges _ seen) as [es seen'] eqn:Hes. simpl.
  destruct (add_edges_from_appending es g Hg) as (H1 & H2 & _);
    [|done].
  intros e He.
  apply (unseen_subdoc_edges_typed
           (rev (pairwise (doc_chain (p :: ps)))) seen).
  by rewrite Hes.
Qed.

Lemma append_needs_jsonp needs : forall gs,
  appending operation gs.1 ->
  appending operation
    (fold_left (fun gs n => append_jsonp gs.1 gs.2 n) needs gs).1
  /\ keeps_edges gs.1
       (fold_left (fun gs n => append_jsonp gs.1 gs.2 n) needs gs).1.
Proof.
  induction needs as [|n needs IH]; intros gs Hgs; simpl.
  - split; [done|apply keeps_edges_refl].
  - destruct (append_jsonp_appending gs.1 gs.2 n Hgs) as [H1 H2].
    destruct (IH _ H1) as [H3 H4]. split; [done|].
    by eapply keeps_edges_trans.
Qed.

(** The loop over the provides. *)
Lemma append_provides provides : forall gs,
  appending operation gs.1 ->
  let r :=
    fold_left
      (fun gs n =>
         let '(graph, seen) := append_jsonp gs.1 gs.2 n in
         let graph :=
           if is_sfx n
           then nx.add_node graph (dnode n) (NodeAttrs.mk true [] None)
           else graph in
         (nx.add_edge graph (onode operation) (dnode n)
            (provide_edge_attrs operation n), seen))
      provides gs in
  appending operation r.1
  /\ keeps_edges gs.1 r.1
  /\ forall n, n ∈ provides ->
       nx.has_edge r.1 (onode operation) (dnode n) = true.
Proof.
  induction provides as [|n provides IH]; intros gs Hgs; simpl.
  - split; [done|]. split; [apply keeps_edges_refl|].
    intros n Hn. by apply elem_of_nil in Hn.
  - destruct (append_jsonp_appending gs.1 gs.2 n Hgs) as [H1 H2].
    destruct (append_jsonp gs.1 gs.2 n) as [graph seen]. simpl in H1, H2.
    set (graph' := if is_sfx n
                   then nx.add_node graph (dnode n)
                          (NodeAttrs.mk true [] None)
                   else graph).
    assert (H3 : appending operation graph' /\ keeps_edges graph graph').
    { unfold graph'. destruct (is_sfx n).
      - split; [|apply add_node_keeps_edges].
        apply add_node_appending; [done|by left].
      - split; [done|apply keeps_edges_refl]. }
    destruct H3 as [H3 H4].
    destruct (add_edge_appending graph' (onode operation) (dnode n)
                (provide_edge_attrs operation n) H3 eq_refl)
      as (H5 & H6 & H7).
    match goal with
    | |- context [fold_left ?f provides ?x] =>
        destruct (IH x H5) as (H8 & H9 & H10)
    end.
    simpl in H9. split; [done|]. split.
    + eapply keeps_edges_trans; [exact H2|].
      eapply keeps_edges_trans; [exact H4|].
      by eapply keeps_edges_trans.
    + intros n' [->|Hn']%elem_of_cons; [by apply H9|by apply H10].
Qed.
End Appending.

Lemma _append_operation_appended g operation :
  appended g -> appended (_append_operation g operation).
Proof.
  intros (H1 & H2 & H3).
  assert (H0 : appending operation (g, @nil (string * string)).1).
  { split; [done|]. split; [done|]. intros n a o Hin Hobj. right.
    by apply (H3 n a). }
  unfold _append_operation.
  destruct (append_needs_jsonp operation (Operation.get_op_needs operation)
              _ H0) as [Ha _].
  destruct (fold_left _ (Operation.get_op_needs operation) (g, []))
    as [graph seen_doc_edges].
  simpl in Ha.
  destruct (add_nodes_from_appending operation
              (map (fun n => (dnode n, need_node_attrs n))
                   (Operation.get_op_needs operation)) graph Ha) as [Hb _].
  { intros na (n & -> & _)%list_elem_of_fmap. done. }
  match type of Hb with
  | appending _ ?g2 =>
      assert (Hc : appending operation
                (nx.add_node g2 (onode operation)
                   (NodeAttrs.mk false (Operation.node_props operation)
                      (Some operation))))
        by (apply add_node_appending; [done|by right])
  end.
  match type of Hc with
  | appending _ ?g3 =>
      destruct (add_edges_from_appending operation
                  (map (fun n => (dnode n, onode operation,
                                  need_edge_attrs n))
                       (Operation.get_op_needs operation)) g3 Hc)
        as (Hd & _ & Hneeds)
  end.
  { intros e (n & -> & _)%list_elem_of_fmap. done. }
  match type of Hd with
  | appending _ ?g4 =>
      destruct (append_provides operation
                  (Operation.get_op_provides operation)
                  (g4, seen_doc_edges) Hd) as (He & Hk & Hprovides)
  end.
  simpl in He, Hk, Hprovides.
  destruct He as (E1 & E2 & E3). split; [done|]. split; [done|].
  intros n a o Hin Hobj.
  destruct (E3 n a o Hin Hobj) as [[-> ->]|Hl]; [|done]. split.
  - intros x Hx. apply Hk.
    apply (Hneeds (dnode x, onode operation, need_edge_attrs x)).
    apply list_elem_of_fmap. by exists x.
  - intros x Hx. by apply Hprovides.
Qed.

Lemma appended_wf_graph g : appended g -> wf_graph g = true.
Proof.
  intros (H1 & H2 & H3). unfold wf_graph.
  rewrite !andb_true_iff, bool_decide_eq_true, !forallb_forall.
  split; [split; [done|]|].
  - intros e He. apply list_elem_of_In in He.
    destruct (H2 e He) as (Hs & Hd & Ht).
    by rewrite !andb_true_iff, !has_node_true.
  - intros [n a] Hin. apply list_elem_of_In in Hin. unfold op_linked.
    simpl. destruct (NodeAttrs.obj a) as [o|] eqn:Hobj; [|done].
    destruct (H3 n a o Hin Hobj) as [Hn Hp].
    rewrite andb_true_iff, !forallb_forall. split.
    + intros x Hx. by apply Hn, list_elem_of_In.
    + intros x Hx. by apply Hp, list_elem_of_In.
Qed.

(** The graph that [Network.__init__] builds. *)
Lemma appended_operations operations : forall g,
  appended g -> appended (fold_left _append_operation operations g).
Proof.
  induction operations as [|o operations IH]; intros g Hg; simpl; [done|].
  by apply IH, _append_operation_appended.
Qed.

Lemma appended_empty : appended nx.empty.
Proof.
  split; [constructor|]. split.
  - intros e He. by apply elem_of_nil in He.
  - intros n a o Hin. by apply elem_of_nil in Hin.
Qed.

(** ** The networks that [Network.__init__] builds *)

Lemma run_append_operations operations : forall (s : Store) g,
  for_each operations
    (fun op => mutate (length s) (fun g => _append_operation g op))
    (s ++ [g])
  = (inr tt, s ++ [fold_left _append_operation operations g]).
Proof.
  induction operations as [|op operations IH]; intros s g; simpl; [done|].
  rewrite run_bind. unfold mutate at 1.
  replace (alter (fun g0 => _append_operation g0 op) (length s) (s ++ [g]))
    with (s ++ [_append_operation g op]).
  - apply IH.
  - replace (length s) with (length s + 0) at 1 by lia.
    by rewrite alter_app_r.
Qed.

Lemma Network_init_graph operations (s : Store) net s' :
  Network_init operations None s = (inr net, s') ->
  s' !! Network.graph net
  = Some (fold_left _append_operation operations nx.empty)
  /\ Network._cached_plans net = ∅.
Proof.
  unfold Network_init. destruct (negb _); [done|].
  rewrite run_bind. unfold new_graph at 1. cbv beta iota.
  rewrite run_bind, run_append_operations. cbv beta iota.
  rewrite run_bind. unfold deref.
  assert (Hl : (s ++ [fold_left _append_operation operations nx.empty])
               !! length s
               = Some (fold_left _append_operation operations nx.empty)).
  { rewrite lookup_app_r by lia. by rewrite Nat.sub_diag. }
  rewrite Hl. cbv beta iota.
  destruct (collect_requirements _) as [needs provides].
  rewrite run_ret. intros [= <- <-]. simpl. done.
Qed.

Section Networks.
Variable set_iter : list Node -> list Node.
Hypothesis set_iter_perm : forall l, NoDup l -> set_iter l ≡ₚ l.

(** C1, with the provides that were pruned left out.  In the steps of a
    plan that [compile] returns for a network built from operations, in
    whose graph no name of one character is a sub-document, what is
    evicted at a position is none of the asked outputs, no operation at a
    later position has it among its needs, and no operation at a later
    position has it among its provides unless it is no node of the pruned
    graph of the plan. *)
Theorem compile_eviction_safety operations (s : Store) net0 s0 g calls cfg
    inputs outputs predicate plan self' :
  Network_init operations None s = (inr net0, s0) ->
  s0 !! Network.graph net0 = Some g ->
  no_char_subdoc g = true ->
  let now := after_calls set_iter (net0, s0) calls in
  let r := compile set_iter cfg now.1 inputs outputs predicate now.2 in
  r.1 = inr (plan, self') ->
  exists p,
    r.2 !! ExecutionPlan.dag plan = Some p
    /\ forall i d,
         ExecutionPlan.steps plan !! i = Some (Data d) ->
         (d ∉ default [] (astuple outputs))
         /\ forall j nm o,
              i < j ->
              ExecutionPlan.steps plan !! j = Some (Oper nm) ->
              op_object p (Oper nm) = Some o ->
              (d ∉ map dep_name (Operation.get_op_needs o))
              /\ (nx.has_node p (Data d) = true ->
                  d ∉ map dep_name (Operation.get_op_provides o)).
Proof.
  intros Hinit Hg Hnc now r Hr.
  apply Network_init_graph in Hinit as [Hg' Hcache].
  assert (g = fold_left _append_operation operations nx.empty)
    by congruence.
  apply (eviction_safety_of_graph set_iter set_iter_perm net0 s0 g
           calls cfg inputs outputs predicate plan self');
    [|done|done|done|done].
  subst g. apply appended_wf_graph, appended_operations, appended_empty.
Qed.
End Networks.

(** * The theorems on example networks *)

Lemma set_id_perm l : NoDup l -> set_id l ≡ₚ l.
Proof. intros _. reflexivity. Qed.

Ltac by_evaluation := apply (bool_decide_unpack _); vm_compute; exact I.

(** Two operations of the same name make [Network.__init__] raise. *)
Lemma Network_init_duplicate_operations_witness :
  ~ NoDup (map Operation.name twice)
  /\ exists dupes,
       Network_init twice None []
       = (inl (ValueError "Operations may only be added once, dupes: "
                          dupes), [])
       /\ dupes <> []
       /\ forall n, occurrences n dupes
                    = pred (occurrences n (map Operation.name twice)).
Proof.
  assert (H : ~ NoDup (map Operation.name twice)).
  { intros H. simpl in H. apply NoDup_cons in H as [H _]. apply H. by left. }
  split; [exact H|].
  apply (Network_init_duplicate_operations twice None [] H).
Defined.



(** A side-effect that is needed optionally by one operation and
    compulsorily by another is an aggregate need that carries the optional
    modifier, though one of its edges is not optional. *)
Lemma collect_requirements_sfx_keeps_optional :
  sfx_optional ∈ (collect_requirements (graph_of (built sfx_users))).1
  /\ nx.has_node (graph_of (built sfx_users)) (dnode sfx_optional) = true
  /\ is_optional sfx_optional = true
  /\ exists e,
       e ∈ nx.out_edges (graph_of (built sfx_users)) (dnode sfx_optional)
       /\ EdgeAttrs.optional (nx.attrs e) = false.
Proof.
  split; [by_evaluation|]. split; [vm_compute; reflexivity|].
  split; [reflexivity|].
  exists (Data "s", Oper "op2", need_edge_attrs sfx_compulsory).
  split; [by_evaluation|reflexivity].
Qed.



(** The diamond asked twice for the same names: the second call returns
    the plan of the first. *)
Lemma compile_same_key_same_plan_witness :
  sorted <$> astuple (ItemsStr "x") = sorted <$> astuple (ItemsColl ["x"])
  /\ sorted <$> astuple (ItemsColl ["y"; "a"])
     = sorted <$> astuple (ItemsColl ["a"; "y"])
  /\ normal_predicate None = normal_predicate (Some falsy)
  /\ same_key_first.1
     = inr (returned_plan same_key_first, returned_network same_key_first)
  /\ same_key_second.1
     = inr (returned_plan same_key_second, returned_network same_key_second)
  /\ returned_plan same_key_second = returned_plan same_key_first
  /\ ExecutionPlan.steps (returned_plan same_key_second)
     = ExecutionPlan.steps (returned_plan same_key_first).
Proof.
  assert (H1 : sorted <$> astuple (ItemsStr "x")
               = sorted <$> astuple (ItemsColl ["x"])) by reflexivity.
  assert (H2 : sorted <$> astuple (ItemsColl ["y"; "a"])
               = sorted <$> astuple (ItemsColl ["a"; "y"]))
    by (vm_compute; reflexivity).
  assert (H3 : normal_predicate None = normal_predicate (Some falsy))
    by reflexivity.
  assert (H4 : same_key_first.1
               = inr (returned_plan same_key_first,
                      returned_network same_key_first))
    by (vm_compute; reflexivity).
  assert (H5 : same_key_second.1
               = inr (returned_plan same_key_second,
                      returned_network same_key_second))
    by (vm_compute; reflexivity).
  repeat (split; [assumption|]).
  apply (compile_same_key_same_plan set_id skip_unset skip_unset
           (built diamond).1 (built diamond).2
           (ItemsStr "x") (ItemsColl ["y"; "a"]) None
           (ItemsColl ["x"]) (ItemsColl ["a"; "y"]) (Some falsy)
           [] (returned_plan same_key_first)
           (returned_network same_key_first)
           (returned_plan same_key_second)
           (returned_network same_key_second) H1 H2 H3 H4 H5).
Defined.

(** The diamond asked for a name that is no node of its graph. *)
Lemma compile_unknown_output_nodes_witness :
  Network._cached_plans (built diamond).1 = ∅
  /\ (built diamond).2 !! Network.graph (built diamond).1
     = Some (graph_of (built diamond))
  /\ astuple (ItemsColl ["y"; "nonexistent"]) = Some ["y"; "nonexistent"]
  /\ "nonexistent" ∈ ["y"; "nonexistent"]
  /\ nx.has_node (graph_of (built diamond)) (Data "nonexistent") = false
  /\ exists unknown,
       (compile set_id skip_unset (built diamond).1 (ItemsColl ["x"])
          (ItemsColl ["y"; "nonexistent"]) None (built diamond).2).1
       = inl (ValueError "Unknown output nodes: " unknown)
       /\ (forall u, u ∈ unknown
                     <-> u ∈ ["y"; "nonexistent"]
                         /\ nx.has_node (graph_of (built diamond)) (Data u)
                            = false)
       /\ Network._cached_plans (built diamond).1
          !! cache_key (ItemsColl ["x"]) (ItemsColl ["y"; "nonexistent"])
               None
          = None
       /\ (after_call set_id (built diamond)
             (Call.mk skip_unset (ItemsColl ["x"])
                (ItemsColl ["y"; "nonexistent"]) None)).1
          = (built diamond).1.
Proof.
  assert (H1 : Network._cached_plans (built diamond).1 = ∅) by reflexivity.
  assert (H2 : (built diamond).2 !! Network.graph (built diamond).1
               = Some (graph_of (built diamond)))
    by (vm_compute; reflexivity).
  assert (H3 : astuple (ItemsColl ["y"; "nonexistent"])
               = Some ["y"; "nonexistent"]) by reflexivity.
  assert (H4 : "nonexistent" ∈ ["y"; "nonexistent"]) by by_evaluation.
  assert (H5 : nx.has_node (graph_of (built diamond)) (Data "nonexistent")
               = false) by (vm_compute; reflexivity).
  repeat (split; [assumption|]).
  apply (compile_unknown_output_nodes set_id (built diamond).1
           (built diamond).2 (graph_of (built diamond)) [] skip_unset
           (ItemsColl ["x"]) (ItemsColl ["y"; "nonexistent"]) None
           ["y"; "nonexistent"] "nonexistent" H1 H2 H3 H4 H5).
Defined.

Lemma keep_all_never_raises g : never_raises keep_all g.
Proof. intros n a op _ _. by exists true. Qed.

(** The diamond asked for no output at all, with a predicate that keeps
    every operation. *)
Lemma compile_empty_outputs_witness :
  Network._cached_plans (built diamond).1 = ∅
  /\ (built diamond).2 !! Network.graph (built diamond).1
     = Some (graph_of (built diamond))
  /\ astuple (ItemsColl []) = Some []
  /\ exists plan self' p,
       (compile set_id skip_unset (built diamond).1 (ItemsColl ["x"])
          (ItemsColl []) (Some keep_all) (built diamond).2).1
       = inr (plan, self')
       /\ (compile set_id skip_unset (built diamond).1 (ItemsColl ["x"])
             (ItemsColl []) (Some keep_all) (built diamond).2).2
          !! ExecutionPlan.dag plan = Some p
       /\ nx.nodes p = []
       /\ ExecutionPlan.needs plan = []
       /\ ExecutionPlan.provides plan = []
       /\ ExecutionPlan.steps plan = []
       /\ ExecutionPlan.asked_outs plan = true.
Proof.
  assert (H1 : Network._cached_plans (built diamond).1 = ∅) by reflexivity.
  assert (H2 : (built diamond).2 !! Network.graph (built diamond).1
               = Some (graph_of (built diamond)))
    by (vm_compute; reflexivity).
  assert (H3 : astuple (ItemsColl []) = Some []) by reflexivity.
  repeat (split; [assumption|]).
  apply (compile_empty_outputs set_id set_id_perm (built diamond).1
           (built diamond).2 (graph_of (built diamond)) [] skip_unset
           (ItemsColl ["x"]) (ItemsColl []) (Some keep_all) H1 H2 H3).
  intros pr [= <-]. apply keep_all_never_raises.
Defined.

(** With a predicate that raises, the same request raises. *)
Lemma compile_empty_outputs_raising_predicate :
  astuple (ItemsColl []) = Some []
  /\ (compile set_id skip_unset (built diamond).1 (ItemsColl ["x"])
        (ItemsColl []) (Some raising) (built diamond).2).1
     = inl (ValueError "Node-predicate(" ["op1"]).
Proof. split; [reflexivity|]. vm_compute. reflexivity. Qed.

(** The plan of the two providers of [x]: what it evicts is no asked output
    and is needed by no later operation. *)
Lemma compile_eviction_safety_witness :
  Network_init two_providers None []
  = (inr (built two_providers).1, (built two_providers).2)
  /\ (built two_providers).2 !! Network.graph (built two_providers).1
     = Some (graph_of (built two_providers))
  /\ no_char_subdoc (graph_of (built two_providers)) = true
  /\ two_providers_run.1
     = inr (returned_plan two_providers_run,
            returned_network two_providers_run)
  /\ exists p,
       two_providers_run.2
       !! ExecutionPlan.dag (returned_plan two_providers_run) = Some p
       /\ forall i d,
            ExecutionPlan.steps (returned_plan two_providers_run) !! i
            = Some (Data d) ->
            (d ∉ default [] (astuple (ItemsColl ["a"; "b"])))
            /\ forall j nm o,
                 i < j ->
                 ExecutionPlan.steps (returned_plan two_providers_run) !! j
                 = Some (Oper nm) ->
                 op_object p (Oper nm) = Some o ->
                 (d ∉ map dep_name (Operation.get_op_needs o))
                 /\ (nx.has_node p (Data d) = true ->
                     d ∉ map dep_name (Operation.get_op_provides o)).
Proof.
  assert (H1 : Network_init two_providers None []
               = (inr (built two_providers).1, (built two_providers).2))
    by (vm_compute; reflexivity).
  assert (H2 : (built two_providers).2
               !! Network.graph (built two_providers).1
               = Some (graph_of (built two_providers)))
    by (vm_compute; reflexivity).
  assert (H3 : no_char_subdoc (graph_of (built two_providers)) = true)
    by (vm_compute; reflexivity).
  assert (H4 : two_providers_run.1
               = inr (returned_plan two_providers_run,
                      returned_network two_providers_run))
    by (vm_compute; reflexivity).
  repeat (split; [assumption|]).
  apply (compile_eviction_safety set_id set_id_perm two_providers []
           (built two_providers).1 (built two_providers).2
           (graph_of (built two_providers)) []
           skip_unset (ItemsColl ["i"]) (ItemsColl ["a"; "b"]) None
           (returned_plan two_providers_run)
           (returned_network two_providers_run) H1 H2 H3 H4).
Defined.

(** The plan of the two providers evicts [x] after [op1], and [op2], which
    comes later, has [x] among its provides. *)
Lemma eviction_before_a_later_provider :
  astuple (ItemsColl ["a"; "b"]) = Some ["a"; "b"]
  /\ is_skip_evictions skip_unset = None
  /\ two_providers_run.1
     = inr (returned_plan two_providers_run,
            returned_network two_providers_run)
  /\ ExecutionPlan.steps (returned_plan two_providers_run)
     = [Oper "op1"; Data "x"; Oper "op2"; Data "i"; Data "x"]
  /\ exists p o,
       two_providers_run.2
       !! ExecutionPlan.dag (returned_plan two_providers_run) = Some p
       /\ op_object p (Oper "op2") = Some o
       /\ "x" ∈ map dep_name (Operation.get_op_provides o)
       /\ "x" ∈ map dep_name (Operation.provides o).
Proof.
  split; [reflexivity|]. split; [reflexivity|].
  split; [vm_compute; reflexivity|]. split; [vm_compute; reflexivity|].
  eexists _, (fnop "op2" [plain "i"] [plain "b"; plain "x"]).
  split; [vm_compute; reflexivity|]. split; [vm_compute; reflexivity|].
  split; by_evaluation.
Qed.

(** C5.  The plan that the diamond network compiles for [y] from [x] while
    [skip_evictions] is unset is kept in the cache, and it is what the same
    request returns while [skip_evictions] is set: a plan whose steps hold
    evictions. *)
Lemma skip_evictions_ignored_by_cached_plan :
  is_skip_evictions skip_set = Some true
  /\ diamond_first.1
     = inr (returned_plan diamond_first, returned_network diamond_first)
  /\ diamond_again.1
     = inr (returned_plan diamond_first, returned_network diamond_first)
  /\ ExecutionPlan.steps (returned_plan diamond_again)
     = [Oper "op1"; Oper "op2"; Data "x"; Oper "op3"; Data "a"; Data "b"].
Proof.
  split; [reflexivity|]. split; [vm_compute; reflexivity|].
  split; vm_compute; reflexivity.
Qed.

(** * Further properties of the code

    Properties of the functions of [network.py], [pipeline.py] and
    [config.py] beyond those that the specification states, marked X1,
    X2, ... *)

(** ** The topological sorts: every node is sorted, and what stops them *)

Lemma edges_at_nodes_spec g :
  edges_at_nodes g = true ->
  NoDup (nx.node_list g)
  /\ forall e, e ∈ nx.edges g ->
       nx.src e ∈ nx.node_list g /\ nx.dst e ∈ nx.node_list g.
Proof.
  unfold edges_at_nodes. intros [Hnd Hall]%andb_true_iff.
  split; [by apply bool_decide_eq_true in Hnd|].
  intros e He. rewrite forallb_forall in Hall.
  apply list_elem_of_In, Hall, andb_true_iff in He as [H1 H2].
  by rewrite <- !has_node_true.
Qed.

Lemma edges_at_nodes_intro g :
  NoDup (nx.node_list g) ->
  (forall e, e ∈ nx.edges g ->
     nx.src e ∈ nx.node_list g /\ nx.dst e ∈ nx.node_list g) ->
  edges_at_nodes g = true.
Proof.
  intros Hnd He. unfold edges_at_nodes. apply andb_true_iff.
  split; [by apply bool_decide_eq_true|].
  apply forallb_forall. intros e Hin%list_elem_of_In.
  destruct (He e Hin). apply andb_true_iff. by rewrite !has_node_true.
Qed.

Lemma release_total cs : forall indeg ready,
  (forall v d, indeg !! v = Some d -> 0 < d) ->
  (forall v, count v cs <= default 0 (indeg !! v)) ->
  exists r, nx.release cs indeg ready = inr r.
Proof.
  induction cs as [|c cs IH]; intros indeg ready Hpos Hle; simpl.
  { by eexists. }
  pose proof (Hle c) as Hc. rewrite count_cons in Hc.
  destruct (decide (c = c)); [|done].
  destruct (indeg !! c) as [d|] eqn:E; simpl in Hc; [|lia].
  destruct (Nat.eqb_spec (d - 1) 0) as [Hz|Hz]; apply IH.
  - intros v d'. rewrite lookup_delete. destruct (decide (c = v)); [done|].
    apply Hpos.
  - intros v. specialize (Hle v). rewrite count_cons in Hle.
    destruct (decide (c = v)) as [->|Hne].
    + rewrite lookup_delete_eq. rewrite E in Hle. simpl in *. lia.
    + by rewrite lookup_delete_ne.
  - intros v d'. rewrite lookup_insert. destruct (decide (c = v)).
    + intros [= <-]. lia.
    + apply Hpos.
  - intros v. specialize (Hle v). rewrite count_cons in Hle.
    destruct (decide (c = v)) as [->|Hne].
    + rewrite lookup_insert_eq. rewrite E in Hle. simpl in *. lia.
    + by rewrite lookup_insert_ne.
Qed.

(** The children of a node that is ready wait in the map, each for at least
    as many edges as come from that node. *)
Lemma children_wait p indeg ready out n :
  (forall e, e ∈ nx.edges p -> nx.dst e ∈ nx.node_list p) ->
  kahn_inv p indeg ready out ->
  kahn_cover p indeg ready out ->
  n ∈ ready ->
  forall v, count v (nx.successors p n) <= default 0 (indeg !! v).
Proof.
  intros Hdst (J1 & J2 & J3 & J4 & J5 & J6) (K1 & K2 & K3) Hn v.
  assert (Hn_out : n ∉ out).
  { apply NoDup_app in J1 as (_ & J1 & _). intros Hin. by apply (J1 _ Hin). }
  destruct (decide (count v (nx.successors p n) = 0)) as [->|Hpos]; [lia|].
  assert (Hv : v ∈ nx.successors p n).
  { destruct (decide (v ∈ nx.successors p n)) as [?|Hno]; [done|].
    by apply count_zero in Hno. }
  apply successors_elem in Hv as (e & He & Hsrc & Hdst').
  assert (Hwait : v ∉ out ++ ready).
  { intros [Hin|Hin]%elem_of_app.
    - apply list_elem_of_lookup in Hin as [i Hi].
      destruct (J5 i v Hi e He Hdst') as (j & _ & Hj).
      apply Hn_out. rewrite <- Hsrc. by eapply list_elem_of_lookup_2.
    - apply Hn_out. rewrite <- Hsrc. by apply (J4 v Hin e He Hdst'). }
  destruct (K1 v) as [?|[d Hd]]; [rewrite <- Hdst'; by apply Hdst|done|].
  rewrite Hd. simpl. destruct (J3 v d Hd) as [_ Heq].
  pose proof (cnt_snoc p out n v Hn_out) as Hs.
  assert (cnt p (out ++ [n]) v <= nx.in_degree p v)
    by apply filter_length_le.
  lia.
Qed.

Lemma kahn_cover_step p indeg ready out n ready' indeg' ready'' :
  kahn_inv p indeg ready out ->
  kahn_cover p indeg ready out ->
  ready ≡ₚ n :: ready' ->
  nx.release (nx.successors p n) indeg ready' = inr (indeg', ready'') ->
  kahn_cover p indeg' ready'' (out ++ [n]).
Proof.
  intros (J1 & J2 & J3 & J4 & J5 & J6) (K1 & K2 & K3) Hperm Hrel.
  apply release_spec in Hrel as (Hle & Hmap & newly & -> & Hnd & Hnew).
  2:{ intros v d Hv. by destruct (J3 v d Hv). }
  split; [|split].
  - intros v Hv. destruct (K1 v Hv) as [Hin|[d Hd]].
    + left. rewrite Hperm in Hin.
      rewrite !elem_of_app, elem_of_cons in Hin.
      rewrite !elem_of_app, list_elem_of_singleton. tauto.
    + rewrite Hmap, Hd.
      destruct (Nat.eqb_spec d (count v (nx.successors p n))) as [Heq|Hne].
      * left. rewrite !elem_of_app. right. right. apply Hnew. by exists d.
      * right. by eexists.
  - intros v [d Hd]. rewrite Hmap in Hd.
    destruct (indeg !! v) as [d0|] eqn:E; [|done]. apply K2. by eexists.
  - intros v [Hv|Hv]%elem_of_app.
    + apply K3. rewrite Hperm. by right.
    + apply Hnew in Hv as (d & Hd & _). apply K2. by eexists.
Qed.

Lemma kahn_cover_start p :
  NoDup (nx.node_list p) ->
  kahn_cover p (nx.indegree_map p) (nx.zero_indegree p) [].
Proof.
  intros Hnd. unfold nx.indegree_map, nx.zero_indegree.
  split; [|split].
  - intros v Hv. simpl.
    destruct (Nat.eqb_spec (nx.in_degree p v) 0) as [Hz|Hz].
    + left. apply elem_of_List_filter. split; [done|]. by apply Nat.eqb_eq.
    + right. exists (nx.in_degree p v). apply elem_of_list_to_map_1.
      * assert (Heq : forall l : list Node,
                  (List.filter (fun nd : Node * nat => negb (nd.2 =? 0))
                     (map (fun n => (n, nx.in_degree p n)) l)).*1
                  = List.filter (fun n => negb (nx.in_degree p n =? 0)) l).
        { induction l as [|x l IH]; [done|]. simpl.
          destruct (negb (nx.in_degree p x =? 0)); simpl;
            [f_equal; exact IH|exact IH]. }
        rewrite Heq. by apply NoDup_List_filter.
      * apply elem_of_List_filter. split.
        -- apply list_elem_of_fmap. by exists v.
        -- simpl. by apply negb_true_iff, Nat.eqb_neq.
  - intros v [d Hd]. apply elem_of_list_to_map_2 in Hd.
    apply elem_of_List_filter in Hd as [Hd _].
    by apply list_elem_of_fmap in Hd as (w & [= -> ->] & Hw).
  - intros v Hv. by apply elem_of_List_filter in Hv as [Hv _].
Qed.

(** The state in which the loop of a topological sort stops: nothing is
    ready, and the sort returns what it has taken if no node waits, and
    raises otherwise. *)
Lemma kahn_cases pop p :
  (forall l m l', pop l = Some (m, l') -> l ≡ₚ m :: l') ->
  (forall l, pop l = None -> l = []) ->
  (forall e, e ∈ nx.edges p -> nx.dst e ∈ nx.node_list p) ->
  forall fuel indeg ready out,
    kahn_inv p indeg ready out ->
    kahn_cover p indeg ready out ->
    length (nx.node_list p) <= length out + fuel ->
    exists indeg' out',
      kahn_inv p indeg' [] out'
      /\ kahn_cover p indeg' [] out'
      /\ nx.kahn pop p fuel indeg ready out
         = if decide (indeg' = ∅) then inr out' else inl NetworkXUnfeasible.
Proof.
  intros Hpop Hnone Hdst. induction fuel as [|fuel IH];
    intros indeg ready out Hinv Hcov Hfuel.
  - simpl. destruct (pop ready) as [[m l']|] eqn:Hp.
    + exfalso. destruct Hinv as (J1 & _ & _ & _ & _ & J6).
      destruct Hcov as (_ & _ & K3).
      assert (Hsub : out ++ ready ⊆ nx.node_list p).
      { intros v [?|?]%elem_of_app; [by apply J6|by apply K3]. }
      pose proof (submseteq_length _ _ (NoDup_submseteq _ _ J1 Hsub))
        as Hlen.
      rewrite length_app, (Permutation_length (Hpop _ _ _ Hp)) in Hlen.
      simpl in Hlen. lia.
    + apply Hnone in Hp as ->. exists indeg, out. done.
  - simpl. destruct (pop ready) as [[m l']|] eqn:Hp.
    + pose proof (Hpop _ _ _ Hp) as Hperm.
      assert (Hm : m ∈ ready) by (rewrite Hperm; by left).
      assert (Hnode : nx.has_node p m = true).
      { apply has_node_true. destruct Hcov as (_ & _ & K3). by apply K3. }
      rewrite Hnode.
      destruct (release_total (nx.successors p m) indeg l')
        as [[indeg' ready''] Hrel].
      { intros v d Hv. destruct Hinv as (_ & _ & J3 & _). by destruct (J3 v d Hv). }
      { by apply (children_wait p indeg ready out m). }
      rewrite Hrel. apply IH.
      * by apply (kahn_inv_step p indeg ready out m l').
      * by apply (kahn_cover_step p indeg ready out m l').
      * rewrite length_app. simpl. lia.
    + apply Hnone in Hp as ->. exists indeg, out. done.
Qed.

Lemma kahn_complete pop p :
  (forall l m l', pop l = Some (m, l') -> l ≡ₚ m :: l') ->
  (forall l, pop l = None -> l = []) ->
  forall fuel indeg ready out res,
    kahn_inv p indeg ready out ->
    kahn_cover p indeg ready out ->
    nx.kahn pop p fuel indeg ready out = inr res ->
    forall v, v ∈ nx.node_list p -> v ∈ res.
Proof.
  intros Hpop Hnone.
  assert (Hend : forall indeg out res,
            kahn_cover p indeg [] out ->
            (if decide (indeg = ∅) then inr out
             else inl NetworkXUnfeasible) = (inr res : Exc (list Node)) ->
            forall v, v ∈ nx.node_list p -> v ∈ res).
  { intros indeg out res (K1 & _ & _) Hk v Hv.
    destruct (decide (indeg = ∅)) as [->|]; [|done]. injection Hk as <-.
    destruct (K1 v Hv) as [Hin|[d Hd]]; [by rewrite app_nil_r in Hin|].
    by rewrite lookup_empty in Hd. }
  induction fuel as [|fuel IH]; intros indeg ready out res Hinv Hcov Hk;
    simpl in Hk.
  - destruct (pop ready) as [[m l']|] eqn:Hp; [done|].
    apply Hnone in Hp as ->. by apply (Hend indeg out).
  - destruct (pop ready) as [[m l']|] eqn:Hp.
    + destruct (nx.has_node p m) eqn:Hm; [|done].
      destruct (nx.release _ _ _) as [e|[indeg' ready'']] eqn:Hrel; [done|].
      pose proof (Hpop _ _ _ Hp) as Hperm.
      apply (IH indeg' ready'' (out ++ [m]) res); [| |done].
      * by apply (kahn_inv_step p indeg ready out m l').
      * by apply (kahn_cover_step p indeg ready out m l').
    + apply Hnone in Hp as ->. by apply (Hend indeg out).
Qed.

Lemma pop_min_none key l : nx.pop_min key l = None -> l = [].
Proof. by destruct l. Qed.

Lemma pop_last_none l : nx.pop_last l = None -> l = [].
Proof.
  unfold nx.pop_last. destruct (rev l) as [|x r] eqn:E; [|done].
  intros _. by rewrite <- (rev_involutive l), E.
Qed.

(** Along a walk the position in a sorted order grows. *)
Lemma reaches_sorted p res u v :
  sorted_by_edges p res ->
  (forall e, e ∈ nx.edges p -> nx.dst e ∈ res) ->
  reaches p u v ->
  exists i j, res !! i = Some u /\ res !! j = Some v /\ i < j.
Proof.
  intros Hs Hdst. induction 1 as [u v He|u w v He _ (i & j & Hi & Hj & Hij)].
  - apply has_edge_true in He as (e & He & <- & <-).
    pose proof (Hdst e He) as Hin.
    apply list_elem_of_lookup in Hin as [j Hj].
    destruct (Hs j _ Hj e He eq_refl) as (i & Hij & Hi). by exists i, j.
  - apply has_edge_true in He as (e & He & <- & <-).
    destruct (Hs i _ Hi e He eq_refl) as (k & Hki & Hk).
    exists k, j. split; [done|]. split; [done|]. lia.
Qed.

(** In a graph that is ranked, no node waits when nothing is ready. *)
Lemma ranked_none_waits rank p indeg out :
  ranked_by rank p = true ->
  (forall e, e ∈ nx.edges p -> nx.src e ∈ nx.node_list p) ->
  kahn_inv p indeg [] out ->
  kahn_cover p indeg [] out ->
  indeg = ∅.
Proof.
  intros Hr Hsrc (J1 & J2 & J3 & J4 & J5 & J6) (K1 & K2 & K3).
  assert (Hdesc : forall n v d, rank v < n -> indeg !! v = Some d -> False).
  { induction n as [|n IH]; intros v d Hn Hd; [lia|].
    destruct (J3 v d Hd) as [Hpos Heq].
    assert (Hex : exists e, e ∈ nx.edges p /\ nx.dst e = v
                            /\ nx.src e ∉ out).
    { destruct (decide (Exists (fun e => nx.src e ∉ out)
                          (nx.in_edges p v))) as [Hex|Hno].
      - apply Exists_exists in Hex as (e & He & Hout).
        apply in_edges_elem in He as [He Hdst]. by exists e.
      - exfalso. assert (Hall : cnt p out v = nx.in_degree p v).
        { unfold cnt, nx.in_degree.
          rewrite <- (filter_ext_in (fun _ => true)).
          - clear. induction (nx.in_edges p v); simpl; [done|]. by f_equal.
          - intros e He%list_elem_of_In. symmetry. apply mem_true.
            destruct (decide (nx.src e ∈ out)) as [?|Hout]; [done|].
            exfalso. apply Hno, Exists_exists. by exists e. }
        lia. }
    destruct Hex as (e & He & Hdst & Hout).
    destruct (K1 (nx.src e) (Hsrc e He)) as [Hin|[d' Hd']].
    { by rewrite app_nil_r in Hin. }
    apply (IH (nx.src e) d'); [|done].
    unfold ranked_by in Hr. rewrite forallb_forall in Hr.
    apply list_elem_of_In, Hr, Nat.ltb_lt in He. rewrite Hdst in He. lia. }
  apply map_eq. intros v. rewrite lookup_empty.
  destruct (indeg !! v) as [d|] eqn:E; [|done].
  exfalso. apply (Hdesc (S (rank v)) v d); [lia|done].
Qed.

Section TopoSort.
Variable p : nx.DiGraph.

Lemma lexicographical_cases :
  edges_at_nodes p = true ->
  exists indeg' out',
    kahn_inv p indeg' [] out'
    /\ kahn_cover p indeg' [] out'
    /\ _topo_sort_nodes p
       = if decide (indeg' = ∅) then inr out' else inl NetworkXUnfeasible.
Proof.
  intros [Hnd He]%edges_at_nodes_spec.
  apply kahn_cases.
  - apply pop_min_perm.
  - apply pop_min_none.
  - intros e Hin. by destruct (He e Hin).
  - by apply kahn_inv_start.
  - by apply kahn_cover_start.
  - simpl. unfold nx.node_list. rewrite length_map. lia.
Qed.

Lemma topological_cases :
  edges_at_nodes p = true ->
  exists indeg' out',
    kahn_inv p indeg' [] out'
    /\ kahn_cover p indeg' [] out'
    /\ nx.topological_sort p
       = if decide (indeg' = ∅) then inr out' else inl NetworkXUnfeasible.
Proof.
  intros [Hnd He]%edges_at_nodes_spec.
  apply kahn_cases.
  - apply pop_last_perm.
  - apply pop_last_none.
  - intros e Hin. by destruct (He e Hin).
  - by apply kahn_inv_start.
  - by apply kahn_cover_start.
  - simpl. unfold nx.node_list. rewrite length_map. lia.
Qed.

(** What a sort that returned has returned. *)
Lemma sorted_order_spec indeg out :
  kahn_inv p indeg [] out ->
  kahn_cover p indeg [] out ->
  indeg = ∅ ->
  NoDup out /\ sorted_by_edges p out
  /\ forall v, v ∈ out <-> v ∈ nx.node_list p.
Proof.
  intros (J1 & J2 & J3 & J4 & J5 & J6) (K1 & K2 & K3) ->.
  rewrite app_nil_r in J1. split; [done|]. split; [done|].
  intros v. split; [apply J6|]. intros Hv.
  destruct (K1 v Hv) as [Hin|[d Hd]]; [by rewrite app_nil_r in Hin|].
  by rewrite lookup_empty in Hd.
Qed.

Lemma cycle_not_sorted out v :
  (forall e, e ∈ nx.edges p -> nx.dst e ∈ out) ->
  NoDup out -> sorted_by_edges p out -> reaches p v v -> False.
Proof.
  intros Hdst Hnd Hs Hc.
  destruct (reaches_sorted p out v v Hs Hdst Hc) as (i & j & Hi & Hj & Hij).
  pose proof (NoDup_lookup _ _ _ _ Hnd Hi Hj). lia.
Qed.

Lemma sort_cases_cycle indeg out v (r : Exc (list Node)) :
  edges_at_nodes p = true ->
  kahn_inv p indeg [] out ->
  kahn_cover p indeg [] out ->
  r = (if decide (indeg = ∅) then inr out else inl NetworkXUnfeasible) ->
  reaches p v v ->
  r = inl NetworkXUnfeasible.
Proof.
  intros [Hnd He]%edges_at_nodes_spec Hinv Hcov -> Hc.
  destruct (decide (indeg = ∅)) as [Hemp|]; [|done]. exfalso.
  destruct (sorted_order_spec indeg out Hinv Hcov Hemp) as (H1 & H2 & H3).
  apply (cycle_not_sorted out v); [|done..].
  intros e Hin. apply H3. by destruct (He e Hin).
Qed.

Lemma sort_cases_ranked rank indeg out (r : Exc (list Node)) :
  edges_at_nodes p = true ->
  ranked_by rank p = true ->
  kahn_inv p indeg [] out ->
  kahn_cover p indeg [] out ->
  r = (if decide (indeg = ∅) then inr out else inl NetworkXUnfeasible) ->
  r = inr out.
Proof.
  intros [Hnd He]%edges_at_nodes_spec Hr Hinv Hcov ->.
  rewrite decide_True; [done|].
  apply (ranked_none_waits rank p indeg out); [done| |done|done].
  intros e Hin. by destruct (He e Hin).
Qed.

(** X1.  When [_topo_sort_nodes] returns, it returns every node of the dag
    once, and every edge of the dag goes from a node to a node that comes
    later in the order. *)
Theorem _topo_sort_nodes_permutation ordered :
  NoDup (nx.node_list p) ->
  _topo_sort_nodes p = inr ordered ->
  ordered ≡ₚ nx.node_list p
  /\ forall e i j,
       e ∈ nx.edges p ->
       ordered !! i = Some (nx.src e) ->
       ordered !! j = Some (nx.dst e) ->
       i < j.
Proof.
  intros Hnd Hsort.
  destruct (_topo_sort_nodes_sound p ordered Hnd Hsort) as (H1 & H2 & H3).
  assert (H4 : forall v, v ∈ nx.node_list p -> v ∈ ordered).
  { apply (kahn_complete (nx.pop_min (node_keys p)) p
             (pop_min_perm _) (pop_min_none _)
             (length (nx.nodes p)) (nx.indegree_map p)
             (nx.zero_indegree p) []);
      [by apply kahn_inv_start|by apply kahn_cover_start|done]. }
  split.
  - apply NoDup_Permutation; [done|done|]. intros v. split; [apply H3|apply H4].
  - intros e i j He Hi Hj.
    destruct (H2 j _ Hj e He eq_refl) as (k & Hkj & Hk).
    by rewrite (NoDup_lookup _ _ _ _ H1 Hi Hk).
Qed.

(** X2.  On a dag with a cycle, a walk that comes back to the node it
    left, [_topo_sort_nodes] raises [NetworkXUnfeasible]. *)
Theorem _topo_sort_nodes_cycle v :
  edges_at_nodes p = true ->
  reaches p v v ->
  _topo_sort_nodes p = inl NetworkXUnfeasible.
Proof.
  intros Hwf Hc.
  destruct (lexicographical_cases Hwf) as (indeg & out & Hinv & Hcov & Heq).
  by apply (sort_cases_cycle indeg out v).
Qed.

(** X3.  On a dag whose nodes can be ranked so that every edge goes from a
    lower to a higher rank, [_topo_sort_nodes] returns an order. *)
Theorem _topo_sort_nodes_ranked rank :
  edges_at_nodes p = true ->
  ranked_by rank p = true ->
  exists ordered, _topo_sort_nodes p = inr ordered.
Proof.
  intros Hwf Hr.
  destruct (lexicographical_cases Hwf) as (indeg & out & Hinv & Hcov & Heq).
  exists out. by apply (sort_cases_ranked rank indeg out).
Qed.
End TopoSort.

(** ** The pass over the sorted nodes *)

Lemma visit_cases dag st node st' :
  visit dag st node = inr st' ->
  Pass.unsatisfied st' = Pass.unsatisfied st
  \/ (Pass.unsatisfied st' = Pass.unsatisfied st ++ [node]
      /\ is_operation dag node = true
      /\ (nx.successors dag node = []
          \/ exists e, e ∈ nx.in_edges dag node
                       /\ EdgeAttrs.optional (nx.attrs e) = false)).
Proof.
  unfold visit. destruct node as [d|nm].
  - destruct (mem _ _); intros [= <-]; by left.
  - destruct (op_object dag (Oper nm)) as [o|] eqn:Ho; [|done].
    assert (Hop : is_operation dag (Oper nm) = true).
    { unfold is_operation. apply bool_decide_eq_true. by rewrite Ho. }
    destruct (nx.successors dag (Oper nm)) as [|s succs] eqn:Hs.
    { intros [= <-]. right. simpl. split; [done|]. split; [done|]. by left. }
    destruct (issubset _ _) eqn:Hsub.
    + destruct (update_with_chaindocs _ _ _); simpl; [|done].
      intros [= <-]. by left.
    + intros [= <-]. right. simpl. split; [done|]. split; [done|]. right.
      unfold issubset in Hsub.
      destruct (real_needs dag (Oper nm)) as [|r rs] eqn:Hr; [done|].
      assert (Hin : r ∈ real_needs dag (Oper nm)) by (rewrite Hr; by left).
      unfold real_needs in Hin. apply (proj1 (iset_elem _ _)) in Hin.
      apply list_elem_of_fmap in Hin as (e & _ & He).
      apply elem_of_List_filter in He as [He Hopt].
      exists e. split; [done|]. by apply negb_true_iff.
Qed.

Lemma visit_no_outputs dag st node st' :
  visit dag st node = inr st' ->
  is_operation dag node = true ->
  nx.successors dag node = [] ->
  Pass.unsatisfied st' = Pass.unsatisfied st ++ [node].
Proof.
  unfold visit, is_operation. intros Hv Hop%bool_decide_eq_true Hs.
  destruct node as [d|nm]; [by destruct Hop|].
  destruct (op_object dag (Oper nm)) as [o|]; [|by destruct Hop].
  rewrite Hs in Hv. by injection Hv as <-.
Qed.

Lemma visit_all_snoc dag nodes node st :
  visit_all dag (nodes ++ [node]) st
  = (st' ← visit_all dag nodes st; visit dag st' node).
Proof. unfold visit_all. by rewrite fold_left_app. Qed.

(** What the pass has collected once it has visited [nodes]. *)
Lemma visit_all_spec dag ok nodes :
  forall st,
    NoDup nodes ->
    visit_all dag nodes (Pass.mk ok ∅ []) = inr st ->
    NoDup (Pass.unsatisfied st)
    /\ (forall n, n ∈ Pass.unsatisfied st ->
          n ∈ nodes /\ is_operation dag n = true
          /\ (nx.successors dag n = []
              \/ exists e, e ∈ nx.in_edges dag n
                           /\ EdgeAttrs.optional (nx.attrs e) = false))
    /\ (forall n, n ∈ nodes -> is_operation dag n = true ->
          nx.successors dag n = [] -> n ∈ Pass.unsatisfied st).
Proof.
  induction nodes as [|node nodes IH] using rev_ind; intros st Hnd Hv.
  { injection Hv as <-. simpl. split; [constructor|].
    split; intros n Hn; by apply elem_of_nil in Hn. }
  rewrite visit_all_snoc in Hv.
  destruct (visit_all dag nodes (Pass.mk ok ∅ [])) as [e|st0] eqn:H0;
    [done|].
  rewrite exc_bind_inr in Hv.
  apply NoDup_app in Hnd as (Hnd & Hfresh & _).
  destruct (IH st0 Hnd eq_refl) as (I1 & I2 & I3).
  assert (Hnew : node ∉ Pass.unsatisfied st0).
  { intros Hin. destruct (I2 _ Hin) as [Hin' _].
    apply (Hfresh _ Hin'). by left. }
  destruct (visit_cases dag st0 node st Hv) as [Heq|(Heq & Hop & Hwhy)];
    rewrite Heq.
  - split; [done|]. split.
    + intros n Hn. destruct (I2 n Hn) as (? & ? & ?).
      split; [apply elem_of_app; by left|done].
    + intros n [Hn|Hn%list_elem_of_singleton]%elem_of_app Hop Hs.
      * by apply I3.
      * subst n. rewrite (visit_no_outputs dag st0 node st Hv Hop Hs) in Heq.
        exfalso. apply (f_equal length) in Heq. rewrite length_app in Heq.
        simpl in Heq. lia.
  - split; [|split].
    + apply NoDup_app. split; [done|]. split; [|apply NoDup_singleton].
      intros n Hn ->%list_elem_of_singleton. done.
    + intros n [Hn|Hn%list_elem_of_singleton]%elem_of_app.
      * destruct (I2 n Hn) as (? & ? & ?).
        split; [apply elem_of_app; by left|done].
      * subst n. split; [|done]. apply elem_of_app. right. by left.
    + intros n [Hn|Hn%list_elem_of_singleton]%elem_of_app Hop' Hs.
      * apply elem_of_app. left. by apply I3.
      * apply elem_of_app. right. subst. by left.
Qed.

(** What [unsatisfied_operations] has gone through when it returns: the
    nodes of the dag in a topological order. *)
Lemma unsatisfied_operations_run dag inputs unsat :
  NoDup (nx.node_list dag) ->
  unsatisfied_operations dag inputs = inr unsat ->
  exists ok sorted_nodes st,
    nx.topological_sort dag = inr sorted_nodes
    /\ NoDup sorted_nodes
    /\ (forall v, v ∈ sorted_nodes <-> v ∈ nx.node_list dag)
    /\ visit_all dag sorted_nodes (Pass.mk ok ∅ []) = inr st
    /\ unsat = Pass.unsatisfied st.
Proof.
  intros Hnd. unfold unsatisfied_operations.
  destruct (or_recursion_error _) as [e|ok]; [done|]. simpl.
  destruct (nx.topological_sort dag) as [e|sorted_nodes] eqn:Hsort; [done|].
  simpl.
  destruct (visit_all dag sorted_nodes _) as [e|st] eqn:Hv; [done|]. simpl.
  intros [= <-].
  exists ok, sorted_nodes, st.
  destruct (kahn_sound nx.pop_last dag pop_last_perm _ _ _ _ _
              (kahn_inv_start dag Hnd) Hsort) as (H1 & _ & H3).
  pose proof (kahn_complete nx.pop_last dag pop_last_perm pop_last_none
                _ _ _ _ _ (kahn_inv_start dag Hnd)
                (kahn_cover_start dag Hnd) Hsort) as H4.
  split; [done|]. split; [done|]. split; [|done].
  intros v. split; [apply H3|apply H4].
Qed.

(** X4.  What [unsatisfied_operations] returns holds no node twice, and
    each node it holds is an operation of the dag that has no outgoing edge
    or has an incoming edge that is not optional. *)
Theorem unsatisfied_operations_reported dag inputs unsat :
  NoDup (nx.node_list dag) ->
  unsatisfied_operations dag inputs = inr unsat ->
  NoDup unsat
  /\ forall n, n ∈ unsat ->
       n ∈ nx.node_list dag /\ is_operation dag n = true
       /\ (nx.successors dag n = []
           \/ exists e, e ∈ nx.in_edges dag n
                        /\ EdgeAttrs.optional (nx.attrs e) = false).
Proof.
  intros Hnd Hu.
  destruct (unsatisfied_operations_run dag inputs unsat Hnd Hu)
    as (ok & sorted_nodes & st & _ & Hs & Hall & Hv & ->).
  destruct (visit_all_spec dag ok sorted_nodes st Hs Hv) as (I1 & I2 & _).
  split; [done|]. intros n Hn. destruct (I2 n Hn) as (? & ? & ?).
  split; [by apply Hall|done].
Qed.

(** X5.  An operation of the dag that has no outgoing edge is among the
    operations that [unsatisfied_operations] returns. *)
Theorem unsatisfied_operations_without_outputs dag inputs unsat n :
  NoDup (nx.node_list dag) ->
  unsatisfied_operations dag inputs = inr unsat ->
  n ∈ nx.node_list dag ->
  is_operation dag n = true ->
  nx.successors dag n = [] ->
  n ∈ unsat.
Proof.
  intros Hnd Hu Hn Hop Hsucc.
  destruct (unsatisfied_operations_run dag inputs unsat Hnd Hu)
    as (ok & sorted_nodes & st & _ & Hs & Hall & Hv & ->).
  destruct (visit_all_spec dag ok sorted_nodes st Hs Hv) as (_ & _ & I3).
  apply I3; [by apply Hall|done|done].
Qed.

(** ** The graph builder, step by step *)

Lemma unseen_subdoc_edges_pairs l : forall seen e,
  e ∈ (unseen_subdoc_edges l seen).1 ->
  exists s d, e = (Data s, Data d, subdoc_attrs) /\ (s, d) ∈ l.
Proof.
  induction l as [|[s d] l IH]; intros seen e; simpl.
  - intros He. by apply elem_of_nil in He.
  - destruct (mem (s, d) seen); simpl.
    + intros He. by apply elem_of_nil in He.
    + destruct (unseen_subdoc_edges l (seen ++ [(s, d)])) as [es seen']
        eqn:Hes.
      simpl. intros [->|He]%elem_of_cons.
      * exists s, d. split; [done|by left].
      * destruct (IH (seen ++ [(s, d)]) e) as (s' & d' & -> & Hin).
        { by rewrite Hes. }
        exists s', d'. split; [done|by right].
Qed.

(** A property of the graph that every step of [_append_operation] keeps
    is kept by [_append_operation]: [I] is the property before the node of
    the operation is added, and [J] the property from then on. *)
Section BuilderInvariant.
Variable operation : Operation.t.
Variables I J : nx.DiGraph -> Prop.

Hypothesis I_data_node : forall g d a,
  I g -> NodeAttrs.obj a = None -> I (nx.add_node g (Data d) a).
Hypothesis I_chain_edge : forall g s d,
  I g -> chain_pair s d ->
  I (nx.add_edge g (Data s) (Data d) subdoc_attrs).
Hypothesis I_operation : forall g,
  I g ->
  J (nx.add_node g (onode operation)
       (NodeAttrs.mk false (Operation.node_props operation)
          (Some operation))).
Hypothesis J_data_node : forall g d a,
  J g -> NodeAttrs.obj a = None -> J (nx.add_node g (Data d) a).
Hypothesis J_chain_edge : forall g s d,
  J g -> chain_pair s d ->
  J (nx.add_edge g (Data s) (Data d) subdoc_attrs).
Hypothesis J_need_edge : forall g n,
  J g -> n ∈ Operation.get_op_needs operation ->
  J (nx.add_edge g (dnode n) (onode operation) (need_edge_attrs n)).
Hypothesis J_provide_edge : forall g n,
  J g -> n ∈ Operation.get_op_provides operation ->
  J (nx.add_edge g (onode operation) (dnode n)
       (provide_edge_attrs operation n)).

Lemma append_jsonp_invariant (K : nx.DiGraph -> Prop) g seen n :
  (forall g s d, K g -> chain_pair s d ->
                 K (nx.add_edge g (Data s) (Data d) subdoc_attrs)) ->
  K g -> K (append_jsonp g seen n).1.
Proof.
  intros HK Hg. unfold append_jsonp.
  destruct (get_jsonp n) as [[|p ps]|]; try done.
  unfold append_subdoc_chain.
  destruct (unseen_subdoc_edges _ seen) as [es seen'] eqn:Hes. simpl.
  assert (Hpairs : forall e, e ∈ es ->
            exists s d, e = (Data s, Data d, subdoc_attrs)
                        /\ chain_pair s d).
  { intros e He.
    destruct (unseen_subdoc_edges_pairs
                (rev (pairwise (doc_chain (p :: ps)))) seen e)
      as (s & d & -> & Hin); [by rewrite Hes|].
    exists s, d. split; [done|]. exists (p :: ps).
    by apply list_elem_of_In, in_rev, list_elem_of_In in Hin. }
  clear Hes. revert g Hg. unfold nx.add_edges_from.
  induction es as [|e es IH]; intros g Hg; simpl; [done|].
  apply IH.
  - intros e' He'. apply Hpairs. by right.
  - destruct (Hpairs e) as (s & d & -> & Hc); [by left|]. by apply HK.
Qed.

Lemma _append_operation_invariant g :
  I g -> J (_append_operation g operation).
Proof.
  intros Hg. unfold _append_operation.
  assert (Ha : forall needs gs,
            I gs.1 ->
            I (fold_left (fun gs n => append_jsonp gs.1 gs.2 n) needs gs).1).
  { induction needs as [|n needs IH]; intros gs Hgs; simpl; [done|].
    apply IH. by apply append_jsonp_invariant. }
  specialize (Ha (Operation.get_op_needs operation) (g, []) Hg).
  destruct (fold_left _ (Operation.get_op_needs operation) (g, []))
    as [graph seen_doc_edges].
  simpl in Ha.
  assert (Hb : forall (l : list Dep) g0,
            I g0 ->
            I (nx.add_nodes_from g0
                 (map (fun n => (dnode n, need_node_attrs n)) l))).
  { unfold nx.add_nodes_from.
    induction l as [|n l IH]; intros g0 Hg0; simpl; [done|].
    apply IH. by apply I_data_node. }
  specialize (Hb (Operation.get_op_needs operation) graph Ha).
  apply I_operation in Hb.
  assert (Hc : forall (l : list Dep) g0,
            (forall n, n ∈ l -> n ∈ Operation.get_op_needs operation) ->
            J g0 ->
            J (nx.add_edges_from g0
                 (map (fun n => (dnode n, onode operation,
                                 need_edge_attrs n)) l))).
  { unfold nx.add_edges_from.
    induction l as [|n l IH]; intros g0 Hl Hg0; simpl; [done|].
    apply IH; [intros n' Hn'; apply Hl; by right|].
    apply J_need_edge; [done|]. apply Hl. by left. }
  specialize (Hc (Operation.get_op_needs operation) _ (fun _ H => H) Hb).
  assert (Hd : forall (l : list Dep) gs,
            (forall n, n ∈ l -> n ∈ Operation.get_op_provides operation) ->
            J gs.1 ->
            J (fold_left
                 (fun gs n =>
                    let '(graph, seen) := append_jsonp gs.1 gs.2 n in
                    let graph :=
                      if is_sfx n
                      then nx.add_node graph (dnode n)
                             (NodeAttrs.mk true [] None)
                      else graph in
                    (nx.add_edge graph (onode operation) (dnode n)
                       (provide_edge_attrs operation n), seen))
                 l gs).1).
  { induction l as [|n l IH]; intros gs Hl Hgs; simpl; [done|].
    apply IH; [intros n' Hn'; apply Hl; by right|].
    pose proof (append_jsonp_invariant J gs.1 gs.2 n J_chain_edge Hgs)
      as H1.
    destruct (append_jsonp gs.1 gs.2 n) as [graph' seen]. simpl in *.
    apply J_provide_edge; [|apply Hl; by left].
    destruct (is_sfx n); [by apply J_data_node|done]. }
  apply (Hd (Operation.get_op_provides operation) (_, seen_doc_edges)
            (fun _ H => H) Hc).
Qed.
End BuilderInvariant.

(** ** The operations that the nodes of the graph hold *)

Lemma obj_update a0 a :
  NodeAttrs.obj a = None ->
  NodeAttrs.obj (NodeAttrs.update a0 a) = NodeAttrs.obj a0.
Proof. intros Ha. unfold NodeAttrs.update. simpl. rewrite Ha. by destruct (NodeAttrs.obj a0). Qed.

Lemma omap_obj_update (l : list (Node * NodeAttrs.t)) n a :
  NodeAttrs.obj a = None ->
  omap (fun na : Node * NodeAttrs.t => NodeAttrs.obj na.2)
    (map (fun na : Node * NodeAttrs.t =>
            if decide (na.1 = n) then (na.1, NodeAttrs.update na.2 a)
            else na) l)
  = omap (fun na : Node * NodeAttrs.t => NodeAttrs.obj na.2) l.
Proof.
  intros Ha. induction l as [|[n' a'] l IH]; [done|].
  rewrite map_cons. cbn [omap list_omap]. rewrite IH.
  destruct (decide ((n', a').1 = n)); [|done].
  cbn [snd NodeAttrs.update NodeAttrs.obj]. rewrite Ha.
  by destruct (NodeAttrs.obj a').
Qed.

Lemma add_edge_nodes g u v a :
  nx.nodes (nx.add_edge g u v a)
  = nx.nodes (nx.add_node (nx.add_node g u NodeAttrs.empty) v
                NodeAttrs.empty).
Proof. unfold nx.add_edge. by destruct (nx.has_edge _ u v). Qed.

Lemma add_edge_elem g u v a n :
  n ∈ nx.node_list (nx.add_edge g u v a)
  <-> n ∈ nx.node_list g \/ n = u \/ n = v.
Proof.
  unfold nx.node_list. rewrite add_edge_nodes.
  fold (nx.node_list (nx.add_node (nx.add_node g u NodeAttrs.empty) v
                        NodeAttrs.empty)).
  rewrite !add_node_elem. tauto.
Qed.

Lemma holds_operations_node ops g nm :
  holds_operations ops g ->
  Oper nm ∈ nx.node_list g -> nm ∈ map Operation.name ops.
Proof.
  intros [H1 H2] Hin. apply list_elem_of_fmap in Hin as ([n a] & Hn & Hin).
  simpl in Hn. subst n. destruct (H2 _ _ Hin) as (o & Ho & <-).
  apply list_elem_of_fmap. exists o. split; [done|]. rewrite <- H1.
  apply list_elem_of_omap. by exists (Oper (Operation.name o), a).
Qed.

Lemma add_node_holds ops g n a :
  holds_operations ops g ->
  NodeAttrs.obj a = None ->
  is_Data n = true \/ nx.has_node g n = true ->
  holds_operations ops (nx.add_node g n a).
Proof.
  intros [H1 H2] Ha Hn. unfold nx.add_node.
  destruct (nx.has_node g n) eqn:Hhas; unfold holds_operations;
    cbn [nx.nodes].
  - split.
    + rewrite <- H1. by apply omap_obj_update.
    + intros n' a' Hin. apply list_elem_of_fmap in Hin as ([n0 a0] & Heq & Hin).
      simpl in Heq. specialize (H2 _ _ Hin).
      destruct (decide (n0 = n)); injection Heq as -> ->; [|done].
      rewrite obj_update by done. done.
  - destruct Hn as [Hn|]; [|done]. destruct n as [d|]; [|done]. split.
    + rewrite omap_app, H1. cbn [omap list_omap snd]. rewrite Ha.
      by rewrite app_nil_r.
    + intros n' a' [Hin|Hin%list_elem_of_singleton]%elem_of_app;
        [by apply H2|].
      by injection Hin as -> ->.
Qed.

Lemma add_node_holds_operation ops g operation props :
  holds_operations ops g ->
  nx.has_node g (onode operation) = false ->
  holds_operations (ops ++ [operation])
    (nx.add_node g (onode operation)
       (NodeAttrs.mk false props (Some operation))).
Proof.
  intros [H1 H2] Hn. unfold nx.add_node. rewrite Hn.
  unfold holds_operations. cbn [nx.nodes]. split.
  - by rewrite omap_app, H1.
  - intros n' a' [Hin|Hin%list_elem_of_singleton]%elem_of_app;
      [by apply H2|].
    injection Hin as -> ->. by exists operation.
Qed.

Lemma add_edge_holds ops g u v a :
  holds_operations ops g ->
  is_Data u = true \/ nx.has_node g u = true ->
  is_Data v = true \/ nx.has_node g v = true ->
  holds_operations ops (nx.add_edge g u v a).
Proof.
  intros Hg Hu Hv. unfold holds_operations. rewrite add_edge_nodes.
  apply add_node_holds; [by apply add_node_holds|done|].
  destruct Hv as [?|Hv]; [by left|]. right.
  apply has_node_true, add_node_elem. left. by apply has_node_true.
Qed.

Lemma _append_operation_holds ops g operation :
  holds_operations ops g ->
  Operation.name operation ∉ map Operation.name ops ->
  holds_operations (ops ++ [operation]) (_append_operation g operation).
Proof.
  intros Hg Hnew.
  apply (_append_operation_invariant operation
           (fun g => holds_operations ops g
                     /\ nx.has_node g (onode operation) = false)
           (fun g => holds_operations (ops ++ [operation]) g
                     /\ nx.has_node g (onode operation) = true)).
  - intros g0 d a [H1 H2] Ha. split; [apply add_node_holds; auto|].
    apply has_node_false. rewrite add_node_elem.
    apply has_node_false in H2. intros [?|?]; done.
  - intros g0 s d [H1 H2] _. split; [apply add_edge_holds; auto|].
    apply has_node_false. rewrite add_edge_elem.
    apply has_node_false in H2. intros [?|[?|?]]; done.
  - intros g0 [H1 H2]. split; [by apply add_node_holds_operation|].
    apply has_node_true, add_node_elem. by right.
  - intros g0 d a [H1 H2] Ha. split; [apply add_node_holds; auto|].
    apply has_node_true, add_node_elem. left. by apply has_node_true.
  - intros g0 s d [H1 H2] _. split; [apply add_edge_holds; auto|].
    apply has_node_true, add_edge_elem. left. by apply has_node_true.
  - intros g0 n [H1 H2] _. split; [apply add_edge_holds; auto|].
    apply has_node_true, add_edge_elem. left. by apply has_node_true.
  - intros g0 n [H1 H2] _. split; [apply add_edge_holds; auto|].
    apply has_node_true, add_edge_elem. left. by apply has_node_true.
  - split; [done|]. apply has_node_false. intros Hin. apply Hnew.
    by apply (holds_operations_node ops g).
Qed.

Lemma holds_operations_empty : holds_operations [] nx.empty.
Proof. split; [done|]. intros n a Hin. by apply elem_of_nil in Hin. Qed.

Lemma fold_append_operation_holds operations : forall ops g,
  holds_operations ops g ->
  NoDup (map Operation.name (ops ++ operations)) ->
  holds_operations (ops ++ operations)
    (fold_left _append_operation operations g).
Proof.
  induction operations as [|o operations IH]; intros ops g Hg Hnd; simpl.
  { by rewrite app_nil_r. }
  replace (ops ++ o :: operations) with ((ops ++ [o]) ++ operations) in *
    by (by rewrite <- app_assoc).
  apply IH; [|done]. apply _append_operation_holds; [done|].
  rewrite !map_app in Hnd. apply NoDup_app in Hnd as (Hnd & _ & _).
  apply NoDup_app in Hnd as (_ & Hnd & _). intros Hin.
  apply (Hnd _ Hin). simpl. by left.
Qed.

Lemma node_attrs_elem g :
  NoDup (nx.node_list g) ->
  forall n a, (n, a) ∈ nx.nodes g -> nx.node_attrs g n = a.
Proof.
  intros Hnd n a Hin. unfold nx.node_attrs, nx.node_list in *.
  revert Hnd Hin. induction (nx.nodes g) as [|[n' a'] l IH];
    intros Hnd Hin; [by apply elem_of_nil in Hin|].
  simpl in *. apply NoDup_cons in Hnd as [Hn' Hnd].
  apply elem_of_cons in Hin as [[= -> ->]|Hin].
  - by rewrite bool_decide_true.
  - rewrite bool_decide_false; [by apply IH|]. intros ->. apply Hn'.
    apply list_elem_of_fmap. by exists (n, a).
Qed.

(** The operations of the nodes, as [yield_ops] finds them. *)
Lemma holds_operations_yield_ops ops g :
  NoDup (nx.node_list g) ->
  holds_operations ops g ->
  yield_ops g (nx.node_list g) = ops.
Proof.
  intros Hnd [H1 H2]. rewrite <- H1. unfold yield_ops, nx.node_list.
  pose proof (node_attrs_elem g Hnd) as Hattrs.
  assert (Hall : forall l, (forall na, na ∈ l -> na ∈ nx.nodes g) ->
            omap (op_object g) (map fst l)
            = omap (fun na : Node * NodeAttrs.t => NodeAttrs.obj na.2) l).
  { induction l as [|[n a] l IH]; intros Hl; [done|].
    assert (Hin : (n, a) ∈ nx.nodes g) by (apply Hl; by left).
    assert (Heq : op_object g n = NodeAttrs.obj a).
    { unfold op_object. specialize (H2 _ _ Hin).
      destruct n; [done|]. by rewrite (Hattrs _ _ Hin). }
    rewrite map_cons. cbn [omap list_omap fst snd].
    rewrite Heq, IH; [done|]. intros na Hna. apply Hl. by right. }
  by apply Hall.
Qed.

(** ** [Network.__init__] on operations of distinct names *)

Lemma op_set_id l : forall acc,
  NoDup (map Operation.name (acc ++ l)) ->
  fold_left op_iset_add l acc = acc ++ l.
Proof.
  induction l as [|x l IH]; intros acc Hnd; simpl.
  { by rewrite app_nil_r. }
  replace (acc ++ x :: l) with ((acc ++ [x]) ++ l) in *
    by (by rewrite <- app_assoc).
  rewrite <- IH by done. f_equal. unfold op_iset_add.
  rewrite (proj2 (mem_false _ _)); [done|].
  rewrite !map_app in Hnd. apply NoDup_app in Hnd as (Hnd & _ & _).
  apply NoDup_app in Hnd as (_ & Hnd & _). intros Hin.
  apply (Hnd _ Hin). simpl. by left.
Qed.

Lemma Network_init_returns operations (s : Store) :
  NoDup (map Operation.name operations) ->
  Network_init operations None s
  = (inr (Network.mk (length s)
            (collect_requirements
               (fold_left _append_operation operations nx.empty)).1
            (collect_requirements
               (fold_left _append_operation operations nx.empty)).2 ∅),
     s ++ [fold_left _append_operation operations nx.empty]).
Proof.
  intros Hnd. unfold Network_init, op_set.
  rewrite (op_set_id operations []) by done. simpl app.
  rewrite Nat.eqb_refl. cbn [negb].
  rewrite run_bind. unfold new_graph at 1. cbv beta iota.
  rewrite run_bind, run_append_operations. cbv beta iota.
  rewrite run_bind. unfold deref.
  assert (Hl : (s ++ [fold_left _append_operation operations nx.empty])
               !! length s
               = Some (fold_left _append_operation operations nx.empty)).
  { rewrite lookup_app_r by lia. by rewrite Nat.sub_diag. }
  rewrite Hl. cbv beta iota.
  destruct (collect_requirements _) as [needs provides].
  by rewrite run_ret.
Qed.

Lemma Network_init_distinct operations graph (s : Store) net s' :
  Network_init operations graph s = (inr net, s') ->
  NoDup (map Operation.name operations).
Proof.
  unfold Network_init. destruct (negb _) eqn:Hlen; [done|]. intros _.
  apply negb_false_iff, Nat.eqb_eq in Hlen.
  destruct (op_set_fold operations [] (NoDup_nil_2 : NoDup (map Operation.name []))) as (_ & _ & _ & H4).
  apply H4. simpl. symmetry. exact Hlen.
Qed.

(** The graph of a network that [Network.__init__] returned. *)
Lemma Network_init_built operations (s : Store) net s' :
  Network_init operations None s = (inr net, s') ->
  let g := fold_left _append_operation operations nx.empty in
  s' !! Network.graph net = Some g
  /\ appended g
  /\ holds_operations operations g
  /\ Network.needs net = (collect_requirements g).1
  /\ Network.provides net = (collect_requirements g).2
  /\ Network._cached_plans net = ∅.
Proof.
  intros Hinit g.
  pose proof (Network_init_distinct _ _ _ _ _ Hinit) as Hnd.
  rewrite (Network_init_returns operations s Hnd) in Hinit.
  injection Hinit as <- <-. simpl. split.
  { rewrite lookup_app_r by lia. by rewrite Nat.sub_diag. }
  split; [apply appended_operations, appended_empty|].
  split; [|done].
  apply (fold_append_operation_holds operations [] nx.empty
           holds_operations_empty Hnd).
Qed.

Lemma dep_iset_NoDup l : NoDup (map dep_name (dep_iset l)).
Proof.
  unfold dep_iset.
  assert (H : forall acc, NoDup (map dep_name acc) ->
            NoDup (map dep_name (fold_left dep_iset_add l acc))).
  { induction l as [|d l IH]; intros acc Hacc; simpl; [done|].
    apply IH. unfold dep_iset_add.
    destruct (mem (dep_name d) (map dep_name acc)) eqn:Hm; [done|].
    apply mem_false in Hm. rewrite map_app. apply NoDup_app.
    split; [done|]. split; [|apply NoDup_singleton].
    intros n Hn Hx. simpl in Hx. apply list_elem_of_singleton in Hx.
    by subst. }
  apply H. constructor.
Qed.

(** X6.  From operations of distinct names and no graph,
    [Network.__init__] returns: it makes one new graph object, which the
    operations are appended to in their order, and a network on it whose
    cache of plans is empty. *)
Theorem Network_init_distinct_names operations (s : Store) :
  NoDup (map Operation.name operations) ->
  let g := fold_left _append_operation operations nx.empty in
  Network_init operations None s
  = (inr (Network.mk (length s) (collect_requirements g).1
            (collect_requirements g).2 ∅),
     s ++ [g]).
Proof. intros Hnd. by apply Network_init_returns. Qed.

(** X7.  In the graph of a network that [Network.__init__] returned, the
    operation nodes hold the operations given, in the order given; the
    provides of the network are those of the operations, the needs of the
    network are the needs of the operations with their optionality
    adjusted, and no name comes twice in either. *)
Theorem Network_init_operations operations (s : Store) net s' :
  Network_init operations None s = (inr net, s') ->
  exists g,
    s' !! Network.graph net = Some g
    /\ yield_ops g (nx.node_list g) = operations
    /\ Network.provides net
       = dep_iset (flat_map Operation.get_op_provides operations)
    /\ Network.needs net
       = dep_iset (map (_optionalized g)
                       (flat_map Operation.needs operations))
    /\ NoDup (map dep_name (Network.provides net))
    /\ NoDup (map dep_name (Network.needs net)).
Proof.
  intros Hinit.
  destruct (Network_init_built _ _ _ _ Hinit)
    as (Hg & (Hnd & _) & Hops & Hneeds & Hprovides & _).
  eexists. split; [exact Hg|].
  pose proof (holds_operations_yield_ops _ _ Hnd Hops) as Hy.
  split; [done|]. rewrite Hneeds, Hprovides.
  unfold collect_requirements. rewrite Hy. simpl.
  split; [done|]. split; [done|]. split; apply dep_iset_NoDup.
Qed.

(** X8.  In the graph of a network that [Network.__init__] returned, every
    operation given is a node that holds it, with an edge from each of its
    needs and an edge to each of its provides, all of which are nodes; and
    no edge joins two operations, an edge that is marked [subdoc] joining
    two names. *)
Theorem Network_init_links operations (s : Store) net s' :
  Network_init operations None s = (inr net, s') ->
  exists g,
    s' !! Network.graph net = Some g
    /\ (forall op, op ∈ operations ->
          nx.has_node g (onode op) = true
          /\ op_object g (onode op) = Some op
          /\ (forall n, n ∈ Operation.get_op_needs op ->
                nx.has_node g (dnode n) = true
                /\ nx.has_edge g (dnode n) (onode op) = true)
          /\ (forall n, n ∈ Operation.get_op_provides op ->
                nx.has_node g (dnode n) = true
                /\ nx.has_edge g (onode op) (dnode n) = true))
    /\ (forall e, e ∈ nx.edges g -> edge_typed e = true).
Proof.
  intros Hinit.
  destruct (Network_init_built _ _ _ _ Hinit)
    as (Hg & (Hnd & Hedges & Hlinked) & [Hops Hobj] & _).
  set (g := fold_left _append_operation operations nx.empty) in *.
  exists g. split; [exact Hg|]. split.
  - intros op Hop. rewrite <- Hops in Hop.
    apply list_elem_of_omap in Hop as ([n a] & Hin & Ha). simpl in Ha.
    assert (Hn : n = onode op).
    { specialize (Hobj _ _ Hin). destruct n as [d|nm]; [congruence|].
      destruct Hobj as (o & Ho & <-). assert (Heq : o = op) by congruence.
      by rewrite Heq. }
    subst n. destruct (Hlinked _ _ _ Hin Ha) as [Hneeds Hprovides].
    assert (Hends : forall u v, nx.has_edge g u v = true ->
              nx.has_node g u = true /\ nx.has_node g v = true).
    { intros u v (e & He & <- & <-)%has_edge_true.
      destruct (Hedges e He) as (? & ? & _). by rewrite !has_node_true. }
    split.
    { apply has_node_true, list_elem_of_fmap. by exists (onode op, a). }
    split.
    { pose proof (node_attrs_elem g Hnd _ _ Hin) as Hattrs.
      unfold op_object, onode in *. by rewrite Hattrs. }
    split.
    + intros x Hx. split; [|by apply Hneeds].
      by destruct (Hends _ _ (Hneeds x Hx)).
    + intros x Hx. split; [|by apply Hprovides].
      by destruct (Hends _ _ (Hprovides x Hx)).
  - intros e He. by destruct (Hedges e He) as (_ & _ & ?).
Qed.

(** ** [Network.__init__] on a graph that is given *)

Lemma run_append_operations_at operations (l : loc) : forall (s : Store),
  for_each operations (fun op => mutate l (fun g => _append_operation g op)) s
  = (inr tt, alter (fun g => fold_left _append_operation operations g) l s).
Proof.
  induction operations as [|op operations IH]; intros s; simpl.
  - rewrite run_ret. f_equal. symmetry. apply list_eq. intros i.
    destruct (decide (l = i)) as [->|Hne].
    + rewrite list_lookup_alter_eq. by destruct (s !! i).
    + by rewrite list_lookup_alter_ne.
  - rewrite run_bind. unfold mutate at 1. rewrite IH. f_equal.
    apply list_eq. intros i. destruct (decide (l = i)) as [->|Hne].
    + rewrite !list_lookup_alter_eq. by destruct (s !! i).
    + by rewrite !list_lookup_alter_ne.
Qed.

(** X9.  Given a graph object, [Network.__init__] appends the operations
    to that very object, in place, and the network it returns is on that
    object: no graph object is made. *)
Theorem Network_init_given_graph operations (l : loc) (s : Store) g0 :
  NoDup (map Operation.name operations) ->
  s !! l = Some g0 ->
  let g := fold_left _append_operation operations g0 in
  Network_init operations (Some l) s
  = (inr (Network.mk l (collect_requirements g).1
            (collect_requirements g).2 ∅),
     <[l := g]> s).
Proof.
  intros Hnd Hl g. unfold Network_init, op_set.
  rewrite (op_set_id operations []) by done. simpl app.
  rewrite Nat.eqb_refl. cbn [negb].
  rewrite run_bind, run_ret. cbv beta iota.
  rewrite run_bind, run_append_operations_at. cbv beta iota.
  assert (Hs : alter (fun g => fold_left _append_operation operations g) l s
               = <[l := g]> s).
  { apply list_eq. intros i. destruct (decide (l = i)) as [<-|Hne].
    - rewrite list_lookup_alter_eq, Hl. simpl.
      rewrite list_lookup_insert_eq; [done|]. by eapply lookup_lt_Some.
    - by rewrite list_lookup_alter_ne, list_lookup_insert_ne. }
  rewrite Hs, run_bind. unfold deref.
  rewrite list_lookup_insert_eq by (by eapply lookup_lt_Some).
  cbv beta iota. fold g. destruct (collect_requirements g). by rewrite run_ret.
Qed.

(** ** [build_network] *)

Lemma operations_of_names l :
  NoDup (map oplike_name l) ->
  NoDup (map Operation.name (operations_of l)).
Proof.
  induction l as [|x l IH]; [done|]. simpl.
  intros [Hx Hl]%NoDup_cons. unfold operations_of. simpl.
  destruct x as [op|nm]; simpl; [|by apply IH].
  apply NoDup_cons. split; [|by apply IH]. intros Hin. apply Hx.
  apply list_elem_of_fmap in Hin as (o & Ho & Hin).
  apply list_elem_of_omap in Hin as (y & Hy & Hyo).
  apply list_elem_of_fmap. exists y. split; [|done].
  destruct y; [|done]. injection Hyo as ->. done.
Qed.

(** X10.  When [proc_op] raises on one of the operations, [build_network]
    raises what it raised and leaves the store as it was.  Otherwise no
    two of the merged operations have the same name, so that
    the check of [Network.__init__] for operations added twice never fails:
    [build_network] raises [AssertionError] if one of them is falsy, and
    else returns a network on a new graph that the merged operations are
    appended to in their order. *)
Theorem build_network_outcome kw withset validate_fn_name truth operations
    (s : Store) :
  match merged kw withset validate_fn_name operations with
  | inl e =>
      (exists op parent,
         (op, parent) ∈ members operations
         /\ proc_op kw withset validate_fn_name op parent = inl e)
      /\ build_network kw withset validate_fn_name truth operations s
         = (inl e, s)
  | inr merge_set =>
      let ops := operations_of (without_NULL_OP merge_set) in
      let g := fold_left _append_operation ops nx.empty in
      NoDup (map Operation.name ops)
      /\ build_network kw withset validate_fn_name truth operations s
         = if forallb truth ops
           then (inr (Network.mk (length s) (collect_requirements g).1
                        (collect_requirements g).2 ∅),
                 s ++ [g])
           else (inl AssertionError, s)
  end.
Proof.
  unfold build_network. rewrite run_bind, run_lift.
  destruct (merged kw withset validate_fn_name operations)
    as [e|merge_set] eqn:Hm.
  - split; [|done]. rewrite merged_processed in Hm.
    unfold processed in Hm.
    destruct (process kw withset validate_fn_name (members operations))
      as [e'|flat] eqn:Hp; [|done].
    injection Hm as <-. by apply (process_error _ _ _ _ _ Hp).
  - set (ops := operations_of (without_NULL_OP merge_set)).
    assert (Hnd : NoDup (map Operation.name ops)).
    { apply operations_of_names. unfold without_NULL_OP.
      by destruct (merge_add_fold
                     (List.filter (fun i => negb (is_NULL_OP i)) merge_set)
                     [] (NoDup_nil_2 : NoDup (map oplike_name [])))
        as (? & _). }
    split; [done|].
    destruct (forallb truth ops); [|done].
    by apply Network_init_returns.
Qed.

(** X21.  When [proc_op] raises on none of the operations, [build_network]
    makes the network of the processed operations that are the first of
    their name, in their order: an earlier entry keeps every later entry of
    its name out, and a [NULL_OP] that is the first of its name keeps the
    operations of that name out without being in the network itself. *)
Theorem build_network_merges_by_name kw withset validate_fn_name truth
    operations flat :
  processed kw withset validate_fn_name operations = inr flat ->
  let result := without_NULL_OP (fold_left merge_add flat []) in
  NoDup (map oplike_name result)
  /\ sublist result flat
  /\ (forall x, x ∈ result
                <-> is_NULL_OP x = false /\ first_of_name flat x)
  /\ (forall n, first_of_name flat (NULL_OP n) ->
                n ∉ map oplike_name result)
  /\ build_network kw withset validate_fn_name truth operations
     = if forallb truth (operations_of result)
       then Network_init (operations_of result) None
       else raise AssertionError.
Proof.
  intros Hflat result.
  destruct (without_NULL_OP_spec flat) as (H1 & H2 & H3 & H4).
  repeat (split; [done|]).
  unfold build_network. rewrite merged_processed, Hflat. reflexivity.
Qed.

(** ** The walks along the sub-document chains *)

Lemma dig_edges_elem dag meth doc child sd :
  (child, sd) ∈ dig_edges dag meth doc ->
  exists e, e ∈ nx.edges dag /\ EdgeAttrs.subdoc (nx.attrs e) = sd
            /\ match meth with
               | out_edges_1 => nx.src e = doc /\ nx.dst e = child
               | in_edges_0 => nx.dst e = doc /\ nx.src e = child
               end.
Proof.
  destruct meth; simpl; intros (e & [= -> ->] & He)%list_elem_of_fmap.
  - apply out_edges_elem in He as [He Hs]. by exists e.
  - apply in_edges_elem in He as [He Hd]. by exists e.
Qed.

Section ChainWalks.
Context {A : Type}.
Variable consume : A -> Node -> A.
Variable dag : nx.DiGraph.
Hypothesis Hwf : edges_at_nodes dag = true.

Lemma dig_edges_nodes meth doc child sd :
  (child, sd) ∈ dig_edges dag meth doc ->
  nx.has_node dag doc = true /\ nx.has_node dag child = true.
Proof.
  intros (e & He & _ & Hends)%dig_edges_elem.
  destruct (edges_at_nodes_spec dag Hwf) as [_ Hn].
  destruct (Hn e He) as [H1 H2]. rewrite !has_node_true.
  destruct meth, Hends as [<- <-]; done.
Qed.

Section Complete.
Variable has : A -> Node -> Prop.
Hypothesis has_consumed : forall a d, has (consume a d) d.
Hypothesis has_kept : forall a d x, has a x -> has (consume a d) x.

(** A walk that stops nowhere consumes every doc it can dig to. *)
Lemma walk_complete meth doc x :
  dug dag meth doc x ->
  forall fuel dig_dag acc r,
    meth ∈ dig_dag ->
    _yield_also_chained_docs (fun _ _ => false) consume fuel dig_dag dag
      doc acc = Some r ->
    has r x.
Proof.
  induction 1 as [doc Hnode|doc child x Hchild Hdug IH];
    intros fuel dig_dag acc r Hmeth Hr.
  - revert Hr.
    apply (_yield_also_chained_docs_head _ consume dag
             (fun a => has a doc)); [done| | |done].
    + intros _. apply has_consumed.
    + intros a d. apply has_kept.
  - destruct fuel as [|fuel]; simpl in Hr; [done|].
    destruct (dig_edges_nodes _ _ _ _ Hchild) as [Hnode _].
    rewrite Hnode in Hr. simpl in Hr. revert r Hr.
    assert (Hkeep : forall f md d a r,
              has a x ->
              _yield_also_chained_docs (fun _ _ => false) consume f md
                dag d a = Some r ->
              has r x).
    { intros f md d a r Ha.
      apply (_yield_also_chained_docs_invariant _ consume dag
               (fun a => has a x)); [|done].
      intros a' d' _ _. apply has_kept. }
    apply (fold_left_establish
             (fun o => forall r, o = Some r -> has r x) _ dig_dag meth
             Hmeth).
    + intros o.
      apply (fold_left_establish
               (fun o => forall r, o = Some r -> has r x) _ _
               (child, true) Hchild).
      * intros [acc'|] r; [|done]. simpl. intros Hr.
        apply (IH fuel [meth] acc' r); [by left|done].
      * intros [acc'|] [child' sd] Ho r; [|done]. simpl.
        destruct sd; [|intros [= <-]; by apply Ho].
        apply Hkeep. by apply Ho.
    + intros o meth' Ho.
      apply (fold_left_invariant
               (fun o => forall r, o = Some r -> has r x)); [|done].
      intros [acc'|] [child' sd] _ Ho' r; [|done]. simpl.
      destruct sd; [|intros [= <-]; by apply Ho'].
      apply Hkeep. by apply Ho'.
Qed.
End Complete.

(** A walk digs as long as the rank of the doc allows; with fuel above
    the rank it ends. *)
Section Ends.
Variable stop_set : A -> Node -> bool.
Hypothesis Hgrows : subdoc_grows dag.

Lemma chain_rank_child meth doc child :
  (child, true) ∈ dig_edges dag meth doc ->
  chain_rank dag meth child < chain_rank dag meth doc.
Proof.
  intros Hc. destruct (dig_edges_nodes _ _ _ _ Hc) as [Hdoc Hchild].
  apply dig_edges_elem in Hc as (e & He & Hsub & Hends).
  destruct (Hgrows e He Hsub) as (s & d & Hs & Hd & Hlen).
  apply has_node_true in Hchild.
  destruct meth, Hends as [<- <-]; rewrite ?Hs, ?Hd in Hchild;
    rewrite ?Hs, ?Hd; unfold chain_rank.
  - apply (filter_length_lt _ _ _ (Data d)); [|done|..].
    + intros n Hn%Nat.ltb_lt. apply Nat.ltb_lt.
      cbn [name_length] in Hn |- *. lia.
    + apply Nat.ltb_lt. cbn [name_length]. lia.
    + apply Nat.ltb_ge. lia.
  - apply (filter_length_lt _ _ _ (Data s)); [|done|..].
    + intros n Hn%Nat.ltb_lt. apply Nat.ltb_lt.
      cbn [name_length] in Hn |- *. lia.
    + apply Nat.ltb_lt. cbn [name_length]. lia.
    + apply Nat.ltb_ge. lia.
Qed.

Lemma walk_ends fuel : forall dig_dag doc acc,
  0 < fuel ->
  (forall meth, meth ∈ dig_dag -> chain_rank dag meth doc < fuel) ->
  is_Some (_yield_also_chained_docs stop_set consume fuel dig_dag dag
             doc acc).
Proof.
  induction fuel as [|fuel IH]; intros dig_dag doc acc Hpos Hrank;
    [lia|].
  simpl. destruct (nx.has_node dag doc); simpl; [|done].
  destruct (stop_set acc doc); [done|].
  apply (fold_left_invariant (fun o : option A => is_Some o)); [|done].
  intros o meth Hmeth Ho.
  apply (fold_left_invariant (fun o : option A => is_Some o)); [|done].
  intros [acc'|] [child sd] Hchild Ho'; [|by destruct Ho'].
  simpl. destruct sd; [|done].
  pose proof (chain_rank_child _ _ _ Hchild).
  specialize (Hrank meth Hmeth).
  apply IH; [lia|].
  intros meth' ->%list_elem_of_singleton. lia.
Qed.
End Ends.
End ChainWalks.

Lemma iset_add_NoDup {A} `{EqDecision A} (acc : list A) x :
  NoDup acc -> NoDup (iset_add acc x).
Proof.
  intros Hnd. unfold iset_add. destruct (mem x acc) eqn:Hm; [done|].
  apply mem_false in Hm. apply NoDup_app. split; [done|].
  split; [|apply NoDup_singleton].
  intros y Hy ->%list_elem_of_singleton. done.
Qed.

Lemma in_chain_node dag doc x :
  edges_at_nodes dag = true -> in_chain dag doc x ->
  nx.has_node dag doc = true.
Proof.
  intros Hwf [Hd|Hd]; destruct Hd as [doc Hn|doc child x Hc _]; try done;
    by destruct (dig_edges_nodes dag Hwf _ _ _ _ Hc).
Qed.

(** X11.  On a dag whose edges end at its nodes,
    [set(yield_also_chaindocs(dag, doc))] holds exactly the chain of [doc]:
    [doc] itself if it is a node, with the sub-documents that the [subdoc]
    edges lead to from it, at any depth, and the super-documents that they
    lead from to it, at any depth; and [set(yield_chaindocs(dag, docs))]
    holds exactly the chains of the [docs]. *)
Theorem chaindocs_are_the_chains dag :
  edges_at_nodes dag = true ->
  (forall doc chain,
     set_of_also_chaindocs dag doc = Some chain ->
     NoDup chain /\ forall x, x ∈ chain <-> in_chain dag doc x)
  /\ (forall docs chains,
        set_of_chaindocs dag docs = Some chains ->
        NoDup chains
        /\ forall x, x ∈ chains
                     <-> exists doc, doc ∈ docs /\ in_chain dag doc x).
Proof.
  intros Hwf.
  assert (Hone : forall fuel doc acc r x,
            in_chain dag doc x ->
            _yield_also_chained_docs (fun _ _ => false) iset_add fuel
              [out_edges_1; in_edges_0] dag doc acc = Some r ->
            x ∈ r).
  { intros fuel doc acc r x [Hd|Hd].
    - intros Hr. revert Hr.
      apply (walk_complete iset_add dag Hwf (fun a n => n ∈ a)
               (fun a d => proj2 (iset_add_elem a d d) (or_intror eq_refl))
               (fun a d x H => proj2 (iset_add_elem a d x) (or_introl H))
               out_edges_1 doc x Hd fuel [out_edges_1; in_edges_0] acc r).
      by left.
    - intros Hr. revert Hr.
      apply (walk_complete iset_add dag Hwf (fun a n => n ∈ a)
               (fun a d => proj2 (iset_add_elem a d d) (or_intror eq_refl))
               (fun a d x H => proj2 (iset_add_elem a d x) (or_introl H))
               in_edges_0 doc x Hd fuel [out_edges_1; in_edges_0] acc r).
      right. by left. }
  split.
  - intros doc chain Hr. unfold set_of_also_chaindocs, yield_also_chaindocs in Hr.
    split; [|intros x; split].
    + revert Hr.
      apply (_yield_also_chained_docs_invariant _ iset_add dag
               (fun a => NoDup a)); [|constructor].
      intros a d _ _. apply iset_add_NoDup.
    + revert x. revert Hr.
      apply (_yield_also_chained_docs_invariant _ iset_add dag
               (fun a => forall x, x ∈ a -> in_chain dag doc x)).
      * intros a d Hd _ Ha x [Hx| ->]%iset_add_elem; [by apply Ha|].
        by apply walked_in_chain.
      * intros x Hx. by apply elem_of_nil in Hx.
    + intros Hx. apply (Hone _ doc [] chain x Hx Hr).
  - intros docs chains Hr. unfold set_of_chaindocs, yield_chaindocs in Hr.
    split; [|intros x; split].
    + revert Hr.
      apply (_yield_chained_docs_invariant _ iset_add dag
               (fun a => NoDup a)); [|constructor].
      intros a doc d _ _ _. apply iset_add_NoDup.
    + revert x. revert Hr.
      apply (_yield_chained_docs_invariant _ iset_add dag
               (fun a => forall x, x ∈ a ->
                           exists doc, doc ∈ docs /\ in_chain dag doc x)).
      * intros a doc d Hdoc Hd _ Ha x [Hx| ->]%iset_add_elem;
          [by apply Ha|].
        exists doc. split; [done|]. by apply walked_in_chain.
      * intros x Hx. by apply elem_of_nil in Hx.
    + intros (doc & Hdoc & Hx). revert chains Hr.
      unfold _yield_chained_docs.
      apply (fold_left_establish
               (fun o => forall r, o = Some r -> x ∈ r) _ docs doc Hdoc).
      * intros [acc'|] r; [|done]. by apply Hone.
      * intros [acc'|] d Ho r; [|done].
        apply (_yield_also_chained_docs_invariant _ iset_add dag
                 (fun a => x ∈ a)); [|by apply Ho].
        intros a d' _ _ Ha. apply iset_add_elem. by left.
Qed.

(** ** The chains of the documents in the graphs of networks *)

Lemma string_length_append s1 s2 :
  String.length (String.append s1 s2) = String.length s1 + String.length s2.
Proof.
  induction s1 as [|c s1 IH]; [done|].
  change (S (String.length (String.append s1 s2))
          = S (String.length s1) + String.length s2).
  by rewrite IH.
Qed.

Lemma string_append_assoc s1 s2 s3 :
  String.append (String.append s1 s2) s3
  = String.append s1 (String.append s2 s3).
Proof.
  induction s1 as [|c s1 IH]; [done|].
  change (String c (String.append (String.append s1 s2) s3)
          = String c (String.append s1 (String.append s2 s3))).
  by rewrite IH.
Qed.

Lemma join_snoc sep l x :
  l <> [] ->
  join sep (l ++ [x]) = String.append (join sep l) (String.append sep x).
Proof.
  induction l as [|p l IH]; intros Hl; [done|].
  destruct l as [|q l]; [done|].
  change (join sep ((p :: q :: l) ++ [x]))
    with (String.append p (String.append sep (join sep ((q :: l) ++ [x])))).
  rewrite IH by done.
  change (join sep (p :: q :: l))
    with (String.append p (String.append sep (join sep (q :: l)))).
  by rewrite !string_append_assoc.
Qed.

Lemma pairwise_map {A B} (f : A -> B) l :
  pairwise (map f l) = map (fun p => (f p.1, f p.2)) (pairwise l).
Proof.
  induction l as [|x l IH]; [done|]. destruct l as [|y l]; [done|].
  change (pairwise (map f (x :: y :: l)))
    with ((f x, f y) :: pairwise (map f (y :: l))).
  by rewrite IH.
Qed.

Lemma pairwise_seq n : forall k a b,
  (a, b) ∈ pairwise (seq k n) -> b = S a /\ S a < k + n.
Proof.
  induction n as [|n IH]; intros k a b Hin; [by apply elem_of_nil in Hin|].
  destruct n as [|n]; [by apply elem_of_nil in Hin|].
  change (pairwise (seq k (S (S n))))
    with ((k, S k) :: pairwise (seq (S k) (S n))) in Hin.
  apply elem_of_cons in Hin as [[= -> ->]|Hin]; [lia|].
  apply IH in Hin. lia.
Qed.

Lemma chain_pair_grows s d :
  chain_pair s d -> String.length s < String.length d.
Proof.
  intros [parts Hin]. unfold doc_chain in Hin. rewrite pairwise_map in Hin.
  apply list_elem_of_fmap in Hin as ([a b] & [= -> ->] & Hin).
  apply pairwise_seq in Hin as [-> Hlt]. simpl in Hlt.
  destruct (lookup_lt_is_Some_2 parts (S a) Hlt) as [x Hx].
  rewrite (take_S_r parts (S a) x Hx), join_snoc.
  - rewrite !string_length_append. simpl. lia.
  - destruct parts; [done|]. done.
Qed.

Lemma add_edge_edges g u v a e :
  e ∈ nx.edges (nx.add_edge g u v a) ->
  (exists e0, e0 ∈ nx.edges g
              /\ (e = e0
                  \/ (nx.src e0 = u /\ nx.dst e0 = v
                      /\ e = (u, v, EdgeAttrs.update (nx.attrs e0) a))))
  \/ e = (u, v, a).
Proof.
  unfold nx.add_edge. rewrite !add_node_edges.
  destruct (nx.has_edge _ u v); simpl.
  - intros (e0 & -> & He0)%list_elem_of_fmap. left. exists e0.
    rewrite ?add_node_edges in He0. split; [done|].
    unfold nx.is_edge. destruct (decide (nx.src e0 = u)) as [Hs|Hs];
      destruct (decide (nx.dst e0 = v)) as [Hd|Hd];
      rewrite ?(bool_decide_true _ Hs), ?(bool_decide_false _ Hs),
        ?(bool_decide_true _ Hd), ?(bool_decide_false _ Hd); simpl;
      try by left.
    right. by rewrite Hs, Hd.
  - rewrite ?add_node_edges.
    intros [He|He%list_elem_of_singleton]%elem_of_app; [|by right].
    left. exists e. split; [done|by left].
Qed.

Lemma add_edge_subdoc_grows g u v a :
  subdoc_grows g ->
  (EdgeAttrs.subdoc a = true ->
   exists s d, u = Data s /\ v = Data d
               /\ String.length s < String.length d) ->
  subdoc_grows (nx.add_edge g u v a).
Proof.
  intros Hg Ha e He Hsub.
  apply add_edge_edges in He as [(e0 & He0 & [->|(Hs & Hd & ->)])| ->].
  - by apply Hg.
  - simpl in *. apply orb_true_iff in Hsub as [Hsub|Hsub].
    + destruct (Hg e0 He0 Hsub) as (s & d & H1 & H2 & H3).
      exists s, d. by rewrite <- Hs, <- Hd.
    + by apply Ha.
  - by apply Ha.
Qed.

Lemma _append_operation_subdoc_grows g operation :
  subdoc_grows g -> subdoc_grows (_append_operation g operation).
Proof.
  apply (_append_operation_invariant operation subdoc_grows subdoc_grows).
  - intros g0 d a Hg _ e. rewrite add_node_edges. apply Hg.
  - intros g0 s d Hg Hc. apply add_edge_subdoc_grows; [done|].
    intros _. exists s, d. split; [done|]. split; [done|].
    by apply chain_pair_grows.
  - intros g0 Hg e. rewrite add_node_edges. apply Hg.
  - intros g0 d a Hg _ e. rewrite add_node_edges. apply Hg.
  - intros g0 s d Hg Hc. apply add_edge_subdoc_grows; [done|].
    intros _. exists s, d. split; [done|]. split; [done|].
    by apply chain_pair_grows.
  - intros g0 n Hg _. by apply add_edge_subdoc_grows.
  - intros g0 n Hg _. by apply add_edge_subdoc_grows.
Qed.

Lemma fold_append_operation_subdoc_grows operations : forall g,
  subdoc_grows g -> subdoc_grows (fold_left _append_operation operations g).
Proof.
  induction operations as [|o operations IH]; intros g Hg; simpl; [done|].
  by apply IH, _append_operation_subdoc_grows.
Qed.

(** The walks end on a graph whose [subdoc] edges lead to longer names. *)
Lemma chain_rank_bound dag meth doc :
  chain_rank dag meth doc < S (length (nx.nodes dag)).
Proof.
  assert (Hl : length (nx.node_list dag) = length (nx.nodes dag))
    by (unfold nx.node_list; apply length_map).
  destruct meth; unfold chain_rank;
    match goal with
    | |- length (List.filter ?f ?l) < _ =>
        pose proof (filter_length_le f l)
    end; lia.
Qed.

Section WalksEnd.
Context {A : Type}.
Variable stop_set : A -> Node -> bool.
Variable consume : A -> Node -> A.
Variable dag : nx.DiGraph.
Hypothesis Hwf : edges_at_nodes dag = true.
Hypothesis Hgrows : subdoc_grows dag.

Lemma yield_also_chaindocs_ends doc acc :
  is_Some (yield_also_chaindocs stop_set consume dag doc acc).
Proof.
  unfold yield_also_chaindocs. apply walk_ends; [done|done|lia|].
  intros meth _. apply chain_rank_bound.
Qed.

Lemma yield_chaindocs_ends docs : forall acc,
  is_Some (yield_chaindocs stop_set consume dag docs acc).
Proof.
  unfold yield_chaindocs, _yield_chained_docs.
  induction docs as [|doc docs IH]; intros acc; cbn [fold_left];
    [done|].
  destruct (walk_ends consume dag Hwf stop_set Hgrows
              (S (length (nx.nodes dag))) [out_edges_1; in_edges_0] doc acc)
    as [acc' Hacc']; [lia| |].
  { intros meth _. apply chain_rank_bound. }
  rewrite Hacc'. apply IH.
Qed.
End WalksEnd.

(** X12.  In the graph of a network that [Network.__init__] returned,
    every edge marked [subdoc] goes from a name to a longer name, and the
    walks along the chains of the documents end, towards the sub-documents
    and towards the super-documents, whatever stops them and whatever
    consumes the documents. *)
Theorem Network_init_chains_end operations (s : Store) net s' :
  Network_init operations None s = (inr net, s') ->
  exists g,
    s' !! Network.graph net = Some g
    /\ subdoc_grows g
    /\ forall (A : Type) (stop_set : A -> Node -> bool)
              (consume : A -> Node -> A) (acc : A),
         (forall doc,
            is_Some (yield_also_chaindocs stop_set consume g doc acc))
         /\ (forall docs,
               is_Some (yield_chaindocs stop_set consume g docs acc)).
Proof.
  intros Hinit.
  destruct (Network_init_built _ _ _ _ Hinit)
    as (Hg & (Hnd & Hedges & _) & _).
  set (g := fold_left _append_operation operations nx.empty) in *.
  assert (Hgrows : subdoc_grows g).
  { apply fold_append_operation_subdoc_grows. intros e He.
    by apply elem_of_nil in He. }
  assert (Hwf : edges_at_nodes g = true).
  { apply edges_at_nodes_intro; [done|]. intros e He.
    by destruct (Hedges e He) as (? & ? & _). }
  exists g. split; [done|]. split; [done|].
  intros A stop_set consume acc. split.
  - intros doc. by apply yield_also_chaindocs_ends.
  - intros docs. by apply yield_chaindocs_ends.
Qed.

(** ** The parts of the graph of a network that [compile] works on *)

Lemma part_of_copy g : edges_at_nodes g = true -> part_of g (nx.copy g).
Proof.
  intros [Hnd Hends]%edges_at_nodes_spec. split; [done|]. split; [|done].
  intros e He. unfold nx.copy in He. simpl in He.
  apply list_elem_of_In, in_flat_map in He as (u & Hu & He).
  apply list_elem_of_In, out_edges_elem in He as [He _].
  split; [done|]. apply (Hends e He).
Qed.

Lemma remove_edges_from_edges l : forall g e,
  e ∈ nx.edges (nx.remove_edges_from g l) -> e ∈ nx.edges g.
Proof.
  unfold nx.remove_edges_from.
  induction l as [|uv l IH]; intros g e He; [done|]. simpl in He.
  apply IH in He. unfold nx.remove_edge in He. simpl in He.
  by apply elem_of_List_filter in He as [He _].
Qed.

Lemma part_of_remove_edges g b l :
  part_of g b -> part_of g (nx.remove_edges_from b l).
Proof.
  intros (H1 & H2 & H3). unfold part_of, nx.node_list, nx.node_attrs.
  rewrite remove_edges_from_nodes. split; [done|]. split; [|done].
  intros e He%remove_edges_from_edges. by apply H2.
Qed.

Lemma part_of_remove_nodes g b ns :
  part_of g b -> part_of g (nx.remove_nodes_from b ns).
Proof.
  intros (H1 & H2 & H3).
  destruct (remove_nodes_from_spec ns b) as (R1 & R2 & R3 & R4).
  split; [by apply R3|]. split.
  - intros e (He & Hs & Hd)%R2. destruct (H2 e He) as (? & ? & ?).
    split; [done|]. split; apply R1; done.
  - intros n [Hn Hns]%R1. destruct (H3 n Hn) as [? Ha].
    split; [done|]. by rewrite R4.
Qed.

Lemma part_of_edges_at_nodes g b : part_of g b -> edges_at_nodes b = true.
Proof.
  intros (H1 & H2 & _). apply edges_at_nodes_intro; [done|].
  intros e He. by destruct (H2 e He) as (_ & ? & ?).
Qed.

Lemma part_of_subdoc_grows g b :
  part_of g b -> subdoc_grows g -> subdoc_grows b.
Proof. intros (_ & H2 & _) Hg e He. apply Hg. by destruct (H2 e He). Qed.

Lemma part_of_sound g b : network_graph g -> part_of g b -> sound_part b.
Proof.
  intros ((Hnd & _) & Hgrows & ops & _ & Hobj) Hb.
  split; [by apply (part_of_edges_at_nodes g)|].
  split; [by apply (part_of_subdoc_grows g)|].
  intros n Hn Hop. destruct Hb as (_ & _ & H3).
  destruct (H3 n Hn) as [Hg Ha]. destruct n as [d|nm]; [done|].
  unfold op_object. rewrite Ha.
  apply list_elem_of_fmap in Hg as ([n a] & Heq & Hin). simpl in Heq.
  subst n. rewrite (node_attrs_elem g Hnd _ _ Hin).
  destruct (Hobj _ _ Hin) as (o & -> & _). by eexists.
Qed.

Lemma network_graph_wf g : network_graph g -> edges_at_nodes g = true.
Proof.
  intros ((Hnd & Hedges & _) & _). apply edges_at_nodes_intro; [done|].
  intros e He. by destruct (Hedges e He) as (? & ? & _).
Qed.

Section Parts.
Variable set_iter : list Node -> list Node.
Hypothesis set_iter_perm : forall l, NoDup l -> set_iter l ≡ₚ l.

Lemma part_of_subgraph g b ns :
  part_of g b -> part_of g (nx.subgraph_copy set_iter b ns).
Proof.
  intros (H1 & H2 & H3). split; [|split].
  - rewrite subgraph_copy_node_list. by apply view_order_NoDup.
  - intros e (He & Hs & Hd)%(subgraph_copy_edges set_iter set_iter_perm).
    destruct (H2 e He) as (? & _ & _). split; [done|].
    split; by apply (subgraph_copy_nodes set_iter set_iter_perm).
  - intros n Hn.
    rewrite (subgraph_copy_node_attrs set_iter b ns n Hn).
    apply (subgraph_copy_nodes set_iter set_iter_perm) in Hn as [Hn _].
    by apply H3.
Qed.

Lemma part_of_broken g predicate inputs b :
  edges_at_nodes g = true ->
  broken_graph g predicate inputs = inr b ->
  part_of g b.
Proof.
  intros Hwf. unfold broken_graph.
  destruct (match predicate with
            | Some pr =>
                to_del ← predicate_to_del pr (nx.nodes (nx.copy g));
                inr (nx.remove_nodes_from (nx.copy g) to_del)
            | None => inr (nx.copy g)
            end : Exc nx.DiGraph) as [e|b0] eqn:Hb0; [done|].
  rewrite exc_bind_inr. intros [= <-].
  assert (H0 : part_of g b0).
  { destruct predicate as [pr|].
    - destruct (predicate_to_del pr _) as [e|to_del]; [done|].
      rewrite exc_bind_inr in Hb0. injection Hb0 as <-.
      by apply part_of_remove_nodes, part_of_copy.
    - injection Hb0 as <-. by apply part_of_copy. }
  apply fold_left_invariant; [|done].
  intros b n _ Hb. by apply part_of_remove_edges.
Qed.

Lemma part_of_pruned g b unsat :
  edges_at_nodes g = true ->
  part_of g (pruned_graph set_iter g b unsat).
Proof.
  intros [Hnd Hends]%edges_at_nodes_spec.
  destruct (pruned_graph_spec set_iter set_iter_perm g b unsat Hnd Hends)
    as (P1 & P2 & P3 & P4).
  split; [done|]. split.
  - intros e He. pose proof He as He'. apply P2 in He' as (Hg & Hs & Hd).
    destruct (Hends e Hg). split; [done|].
    split; apply P3; (split; [done|]); (split; [done|]); exists e; tauto.
  - intros n Hn. split; [|by apply P4]. by apply P3 in Hn as (? & _).
Qed.
End Parts.

(** ** What [compile] raises *)

Lemma part_of_ranked rank g b :
  part_of g b -> ranked_by rank g = true -> ranked_by rank b = true.
Proof.
  intros (_ & H2 & _) Hr. unfold ranked_by in *.
  rewrite forallb_forall in *. intros e He. apply Hr.
  apply list_elem_of_In. apply list_elem_of_In in He.
  by destruct (H2 e He).
Qed.

Lemma visit_returns b st node :
  sound_part b -> node ∈ nx.node_list b ->
  exists st', visit b st node = inr st'.
Proof.
  intros (Hwf & Hgrows & Hobj) Hn. unfold visit.
  destruct node as [d|nm].
  - destruct (mem _ _); by eexists.
  - destruct (Hobj _ Hn eq_refl) as [o Ho]. rewrite Ho.
    destruct (nx.successors b (Oper nm)) as [|p ps]; [by eexists|].
    destruct (issubset _ _); [|by eexists].
    destruct (yield_chaindocs_ends (fun acc d => mem d acc) iset_add b Hwf
                Hgrows (p :: ps) (Pass.ok_data st)) as [ok Hok].
    unfold update_with_chaindocs. rewrite Hok. simpl. by eexists.
Qed.

Lemma visit_all_returns b nodes : forall st,
  sound_part b -> (forall n, n ∈ nodes -> n ∈ nx.node_list b) ->
  exists st', visit_all b nodes st = inr st'.
Proof.
  unfold visit_all.
  induction nodes as [|node nodes IH]; intros st Hb Hn; simpl;
    [by eexists|].
  destruct (visit_returns b st node Hb) as [st1 H1]; [apply Hn; by left|].
  rewrite H1. apply IH; [done|]. intros n Hin. apply Hn. by right.
Qed.

Lemma unsatisfied_operations_cases b inputs :
  sound_part b ->
  (exists unsat, unsatisfied_operations b inputs = inr unsat)
  \/ (unsatisfied_operations b inputs = inl NetworkXUnfeasible
      /\ nx.topological_sort b = inl NetworkXUnfeasible).
Proof.
  intros Hb. pose proof Hb as (Hwf & Hgrows & Hobj).
  unfold unsatisfied_operations.
  destruct (yield_chaindocs_ends (fun acc d => mem d acc) iset_add b Hwf
              Hgrows inputs []) as [ok Hok].
  unfold update_with_chaindocs. rewrite Hok. simpl.
  destruct (topological_cases b Hwf) as (indeg & out & Hinv & Hcov & ->).
  destruct (decide (indeg = ∅)) as [Hemp|Hne]; simpl; [|by right].
  left. destruct (sorted_order_spec b indeg out Hinv Hcov Hemp)
    as (_ & _ & Hall).
  destruct (visit_all_returns b out (Pass.mk ok ∅ []) Hb) as [st Hst].
  { intros n. apply Hall. }
  rewrite Hst. simpl. by eexists.
Qed.

Section Steps.
Variables (g p : nx.DiGraph).
Hypothesis Hp : sound_part p.

Lemma evict_needs_returns outputs future op : forall steps,
  exists res, evict_needs p outputs future op steps = inr res.
Proof.
  destruct Hp as (Hwf & Hgrows & _). unfold evict_needs.
  induction (nx.predecessors p op) as [|need needs IH]; intros steps;
    cbn [fold_left]; [by eexists|].
  rewrite exc_bind_inr.
  destruct (yield_also_chaindocs_ends (fun _ _ => false) iset_add p Hwf
              Hgrows need []) as [chain Hchain].
  unfold set_of_also_chaindocs. rewrite Hchain. simpl.
  destruct (intersects chain outputs); [apply IH|].
  destruct (intersects _ future); apply IH.
Qed.

Lemma build_steps_returns outputs ordered : forall steps,
  exists res, build_steps g p outputs ordered steps = inr res.
Proof.
  induction ordered as [|op future IH]; intros steps; simpl;
    [by eexists|].
  destruct (is_operation p op); [|apply IH].
  destruct (evict_needs_returns outputs future op (steps ++ [op]))
    as [steps' ->].
  rewrite exc_bind_inr. apply IH.
Qed.

Lemma execution_steps_cases cfg outputs :
  (exists steps, execution_steps cfg g p outputs = inr steps)
  \/ (execution_steps cfg g p outputs = inl NetworkXUnfeasible
      /\ _topo_sort_nodes p = inl NetworkXUnfeasible).
Proof.
  pose proof Hp as (Hwf & Hgrows & _). unfold execution_steps.
  destruct (lexicographical_cases p Hwf)
    as (indeg & out & Hinv & Hcov & ->).
  destruct (decide (indeg = ∅)) as [Hemp|Hne]; [|by right].
  left. rewrite exc_bind_inr.
  destruct (negb _ || _); [by eexists|].
  destruct (yield_chaindocs_ends (fun _ _ => false) iset_add p Hwf
              Hgrows (map Data outputs) []) as [outs Houts].
  unfold set_of_chaindocs. rewrite Houts. simpl.
  apply build_steps_returns.
Qed.
End Steps.

Lemma predicate_to_del_errors predicate items e :
  predicate_to_del predicate items = inl e ->
  exists names, e = ValueError "Node-predicate(" names.
Proof.
  induction items as [|[node data] items IH]; simpl; [done|].
  destruct node as [d|nm]; [done|].
  destruct (NodeAttrs.obj data) as [op|]; [|done].
  destruct (NodePredicate.call predicate op data) as [keep|].
  - destruct (predicate_to_del predicate items) as [e'|to_del]; [|done].
    rewrite exc_bind_inl. intros [= <-]. by apply IH.
  - intros [= <-]. by eexists.
Qed.

Lemma broken_graph_errors g predicate inputs e :
  broken_graph g predicate inputs = inl e ->
  exists names, e = ValueError "Node-predicate(" names.
Proof.
  unfold broken_graph. destruct predicate as [pr|]; [|done].
  destruct (predicate_to_del pr _) as [e'|to_del] eqn:Hdel; [|done].
  rewrite !exc_bind_inl. intros [= <-].
  by apply (predicate_to_del_errors pr _ _ Hdel).
Qed.

Lemma resolve_inputs_outputs_errors g self inputs outputs e :
  resolve_inputs_outputs g self inputs outputs = inl e ->
  exists names, e = ValueError "Unknown output nodes: " names.
Proof.
  unfold resolve_inputs_outputs.
  destruct inputs as [ins|], outputs as [[|o os]|]; try done;
    cbv zeta; cbn [default];
    match goal with
    | |- context [List.filter (fun d => negb (in_graph g d)) ?l] =>
        destruct (List.filter (fun d => negb (in_graph g d)) l); [done|]
    end; intros [= <-]; by eexists.
Qed.

Lemma resolve_inputs_outputs_returns g self inputs outputs :
  (forall o, o ∈ default [] outputs -> nx.has_node g (dnode o) = true) ->
  exists r, resolve_inputs_outputs g self inputs outputs = inr r.
Proof.
  intros Hknown. unfold resolve_inputs_outputs.
  assert (Hnone : forall l : list Dep,
            (forall o, o ∈ l -> nx.has_node g (dnode o) = true) ->
            List.filter (fun d => negb (in_graph g d)) (dep_iset l) = []).
  { intros l Hl.
    destruct (List.filter _ (dep_iset l)) as [|d ds] eqn:E; [done|].
    assert (Hd : d ∈ List.filter (fun d => negb (in_graph g d)) (dep_iset l))
      by (rewrite E; by left).
    apply elem_of_List_filter in Hd as [Hd Hno].
    apply dep_iset_elem, Hl in Hd. unfold in_graph in Hno.
    by rewrite Hd in Hno. }
  destruct inputs as [ins|], outputs as [[|o os]|]; try (by eexists);
    cbv zeta; cbn [default]; rewrite (Hnone (o :: os) Hknown); by eexists.
Qed.

Section CompileErrors.
Variable set_iter : list Node -> list Node.
Hypothesis set_iter_perm : forall l, NoDup l -> set_iter l ≡ₚ l.

Lemma ending_in_outputs_returns g outputs :
  network_graph g -> exists ending, ending_in_outputs g outputs = inr ending.
Proof.
  intros Hg. pose proof (network_graph_wf g Hg) as Hwf.
  destruct Hg as (_ & Hgrows & _). unfold ending_in_outputs.
  destruct (yield_chaindocs_ends (fun acc d => mem d acc) (add_ending g) g
              Hwf Hgrows (map dnode outputs) []) as [ending ->].
  by eexists.
Qed.

(** What [_prune_graph] comes to on the graph of a network: it returns
    a part of the graph, or raises for an unknown output, for a predicate
    that raised, or for a cycle among the nodes it sorts. *)
Lemma pruned_cases g self inputs outputs predicate :
  network_graph g ->
  match pruned set_iter g self inputs outputs predicate with
  | inr (p, _, _) => part_of g p
  | inl e =>
      ((exists names, e = ValueError "Unknown output nodes: " names)
       /\ resolve_inputs_outputs g self inputs outputs = inl e)
      \/ ((exists names, e = ValueError "Node-predicate(" names)
          /\ exists ins, broken_graph g predicate ins = inl e)
      \/ (e = NetworkXUnfeasible
          /\ exists b, part_of g b
                       /\ nx.topological_sort b = inl NetworkXUnfeasible)
  end.
Proof.
  intros Hg. pose proof (network_graph_wf g Hg) as Hwf. unfold pruned.
  destruct (resolve_inputs_outputs g self inputs outputs)
    as [e|[[si ins] outs]] eqn:Hres.
  { rewrite exc_bind_inl. left. split; [|done].
    by apply (resolve_inputs_outputs_errors g self inputs outputs). }
  rewrite exc_bind_inr.
  destruct (broken_graph g predicate ins) as [e|b0] eqn:Hb0.
  { rewrite exc_bind_inl. right. left. split; [|by exists ins].
    by apply (broken_graph_errors g predicate ins). }
  rewrite exc_bind_inr.
  pose proof (part_of_broken g predicate ins b0 Hwf Hb0) as Hpart0.
  assert (Hb : exists b,
            (match outs with
             | Some outputs =>
                 ending ← ending_in_outputs g outputs;
                 inr (nx.subgraph_copy set_iter b0 ending)
             | None => inr b0
             end : Exc nx.DiGraph) = inr b /\ part_of g b).
  { destruct outs as [outs|]; [|by exists b0].
    destruct (ending_in_outputs_returns g outs Hg) as [ending ->].
    rewrite exc_bind_inr. eexists. split; [done|].
    by apply part_of_subgraph. }
  destruct Hb as (b & -> & Hpart). rewrite exc_bind_inr.
  destruct (unsatisfied_operations_cases b (map dnode si)
              (part_of_sound g b Hg Hpart)) as [[unsat ->]|[-> Hsort]].
  - rewrite exc_bind_inr. cbv zeta.
    destruct (resolved_needs_provides _ self si outs) as [needs provides].
    by apply part_of_pruned.
  - rewrite exc_bind_inl. right. right. split; [done|]. by exists b.
Qed.

Lemma compiled_cases cfg g self inputs outputs predicate :
  network_graph g ->
  match compiled set_iter cfg g self inputs outputs predicate with
  | inr (p, _, _, _) => part_of g p
  | inl e =>
      ((exists names, e = ValueError "Unknown output nodes: " names)
       /\ resolve_inputs_outputs g self
            (map plain <$> (sorted <$> astuple inputs))
            (map plain <$> (sorted <$> astuple outputs)) = inl e)
      \/ ((exists names, e = ValueError "Node-predicate(" names)
          /\ exists ins,
               broken_graph g (normal_predicate predicate) ins = inl e)
      \/ (e = NetworkXUnfeasible
          /\ exists b, part_of g b
                       /\ (nx.topological_sort b = inl NetworkXUnfeasible
                           \/ _topo_sort_nodes b
                              = inl NetworkXUnfeasible))
  end.
Proof.
  intros Hg. unfold compiled.
  pose proof (pruned_cases g self (map plain <$> (sorted <$> astuple inputs))
                (map plain <$> (sorted <$> astuple outputs))
                (normal_predicate predicate) Hg) as Hp.
  destruct (pruned _ _ _ _ _ _) as [e|[[p needs] provides]].
  { rewrite exc_bind_inl.
    destruct Hp as [?|[?|(-> & b & Hb & Hs)]]; [by left|by right; left|].
    right. right. split; [done|]. exists b. split; [done|by left]. }
  rewrite exc_bind_inr.
  destruct (execution_steps_cases g p (part_of_sound g p Hg Hp) cfg
              (default [] (sorted <$> astuple outputs)))
    as [[steps ->]|[-> Hs]].
  - by rewrite exc_bind_inr.
  - rewrite exc_bind_inl. right. right. split; [done|]. exists p.
    split; [done|by right].
Qed.

(** A call of [compile] after other calls: what it raises is what the
    compilation of its request raises, and what it returns is what the
    compilation of a request of the same key has returned. *)
Lemma compile_outcome net0 g ns cfg inputs outputs predicate :
  cache_from set_iter net0 g ns ->
  let r := compile set_iter cfg ns.1 inputs outputs predicate ns.2 in
  match r.1 with
  | inl e =>
      compiled set_iter cfg g net0 inputs outputs predicate = inl e
  | inr (plan, self') =>
      exists cfg' inputs' outputs' predicate' p,
        cache_key inputs outputs predicate
        = cache_key inputs' outputs' predicate'
        /\ compiled set_iter cfg' g net0 inputs' outputs' predicate'
           = inr (p, ExecutionPlan.needs plan, ExecutionPlan.provides plan,
                  ExecutionPlan.steps plan)
        /\ r.2 !! ExecutionPlan.dag plan = Some p
        /\ ExecutionPlan.asked_outs plan
           = bool_decide (is_Some (sorted <$> astuple outputs'))
  end.
Proof.
  intros Hinv r.
  pose proof (cache_from_after_call set_iter net0 g ns
                (Call.mk cfg inputs outputs predicate) Hinv) as Hafter.
  unfold after_call in Hafter. simpl in Hafter. fold r in Hafter.
  destruct Hinv as (Hgr & Hn & Hp & Hg & Hc).
  destruct r as [[e|[plan self']] s'] eqn:Hr; simpl.
  - revert Hr. unfold r.
    pattern (compile set_iter cfg ns.1 inputs outputs predicate ns.2).
    apply run_compile; simpl.
    + by intros plan' Hk [=].
    + intros Hk Hnone. by rewrite Hgr, Hg in Hnone.
    + intros g' e' news Hk Hg' Hcomp [= <- <-].
      rewrite Hgr, Hg in Hg'. injection Hg' as <-.
      by rewrite <- (compiled_ext set_iter cfg g ns.1 net0).
    + by intros g' p needs provides steps news Hk Hg' Hcomp [=].
  - simpl in Hafter. destruct Hafter as (_ & _ & _ & _ & Hc').
    assert (Hret : (compile set_iter cfg ns.1 inputs outputs predicate
                      ns.2).1 = inr (plan, self')).
    { fold r. by rewrite Hr. }
    destruct (compile_cached set_iter cfg ns.1 inputs outputs predicate
                ns.2 plan self' Hret) as [Hplan _].
    destruct (Hc' _ _ Hplan)
      as (cfg' & i' & o' & pr' & p & Hkey & Hcomp & Hdag & Hasked).
    by exists cfg', i', o', pr', p.
Qed.

Lemma Network_init_network_graph operations (s : Store) net s' :
  Network_init operations None s = (inr net, s') ->
  exists g,
    s' !! Network.graph net = Some g
    /\ network_graph g
    /\ forall calls,
         cache_from set_iter net g (after_calls set_iter (net, s') calls).
Proof.
  intros Hinit.
  destruct (Network_init_built _ _ _ _ Hinit)
    as (Hg & Happ & Hops & _ & _ & Hcache).
  eexists. split; [exact Hg|]. split.
  - split; [done|]. split; [|by eexists].
    apply fold_append_operation_subdoc_grows. intros e He.
    by apply elem_of_nil in He.
  - intros calls. apply cache_from_after_calls.
    by apply cache_from_start.
Qed.

(** What a call of [compile] raises on a network that [Network.__init__]
    returned, after any calls of [compile]. *)
Lemma compile_errors operations (s : Store) net0 s0 calls cfg
    inputs outputs predicate e :
  Network_init operations None s = (inr net0, s0) ->
  let now := after_calls set_iter (net0, s0) calls in
  (compile set_iter cfg now.1 inputs outputs predicate now.2).1 = inl e ->
  compile_error e.
Proof.
  intros Hinit now Hr.
  destruct (Network_init_network_graph _ _ _ _ Hinit)
    as (g & _ & Hg & Hinv).
  pose proof (compile_outcome net0 g now cfg inputs outputs predicate
                (Hinv calls)) as Hout.
  cbv zeta in Hout. rewrite Hr in Hout.
  pose proof (compiled_cases cfg g net0 inputs outputs predicate Hg) as Hc.
  rewrite Hout in Hc. unfold compile_error.
  destruct Hc as [[? _]|[[? _]|(-> & _)]]; tauto.
Qed.

(** When a call of [compile] returns a plan. *)
Lemma compile_returns_plan operations (s : Store) net0 s0 g calls cfg
    inputs outputs predicate rank :
  Network_init operations None s = (inr net0, s0) ->
  s0 !! Network.graph net0 = Some g ->
  ranked_by rank g = true ->
  (forall o, o ∈ default [] (astuple outputs) ->
             nx.has_node g (Data o) = true) ->
  (forall pr, normal_predicate predicate = Some pr -> never_raises pr g) ->
  let now := after_calls set_iter (net0, s0) calls in
  exists plan self',
    (compile set_iter cfg now.1 inputs outputs predicate now.2).1
    = inr (plan, self').
Proof.
  intros Hinit Hs0 Hrank Hknown Hpred now.
  destruct (Network_init_network_graph _ _ _ _ Hinit)
    as (g' & Hg' & Hg & Hinv).
  assert (g' = g) by congruence. subst g'.
  pose proof (compile_outcome net0 g now cfg inputs outputs predicate
                (Hinv calls)) as Hout.
  cbv zeta in Hout.
  destruct (compile set_iter cfg now.1 inputs outputs predicate now.2).1
    as [e|[plan self']]; [|by eauto].
  exfalso.
  pose proof (compiled_cases cfg g net0 inputs outputs predicate Hg) as Hc.
  rewrite Hout in Hc.
  destruct Hc as [[_ Hres]|[[_ [ins Hbr]]|(_ & b & Hb & Hsort)]].
  - destruct (resolve_inputs_outputs_returns g net0
                (map plain <$> (sorted <$> astuple inputs))
                (map plain <$> (sorted <$> astuple outputs)))
      as [r Hr]; [|congruence].
    intros o Ho. destruct (astuple outputs) as [l|]; simpl in *;
      [|by apply elem_of_nil in Ho].
    apply list_elem_of_fmap in Ho as (x & -> & Hx).
    apply Hknown. by apply sorted_elem.
  - destruct (broken_graph_total g (normal_predicate predicate)
                ins Hpred) as [b Hb].
    congruence.
  - pose proof (part_of_edges_at_nodes g b Hb) as Hwf.
    pose proof (part_of_ranked rank g b Hb Hrank) as Hr.
    destruct Hsort as [Hsort|Hsort].
    + destruct (topological_cases b Hwf) as (indeg & out & Hi & Hc & Heq).
      rewrite (sort_cases_ranked b rank indeg out _ Hwf Hr Hi Hc Heq)
        in Hsort.
      done.
    + destruct (lexicographical_cases b Hwf)
        as (indeg & out & Hi & Hc & Heq).
      rewrite (sort_cases_ranked b rank indeg out _ Hwf Hr Hi Hc Heq)
        in Hsort.
      done.
Qed.
(** X13.  On a network that [Network.__init__] returned, and after any
    calls of [compile], a call of [compile] with names for inputs and
    outputs that raises raises one of four errors: [TypeError] when the
    predicate is truthy and does not hash, [ValueError] for unknown
    output nodes, [ValueError] for a node predicate that failed, or
    [NetworkXUnfeasible]. *)
Theorem compile_raises_only operations (s : Store) net0 s0 calls cfg
    inputs outputs predicate e :
  Network_init operations None s = (inr net0, s0) ->
  let now := after_calls set_iter (net0, s0) calls in
  (Network_compile set_iter cfg now.1 inputs outputs predicate now.2).1
  = inl e ->
  (e = TypeError /\ predicate = unhashable true) \/ compile_error e.
Proof.
  intros Hinit now. unfold Network_compile.
  destruct predicate as [|pr|[|]]; simpl.
  - intros Hr. right.
    by apply (compile_errors operations s net0 s0 calls cfg inputs
                outputs None e Hinit).
  - intros Hr. right.
    by apply (compile_errors operations s net0 s0 calls cfg inputs
                outputs (Some pr) e Hinit).
  - intros [= <-]. by left.
  - intros Hr. right.
    by apply (compile_errors operations s net0 s0 calls cfg inputs
                outputs None e Hinit).
Qed.

(** X14.  On a network that [Network.__init__] returned, whose graph can
    be ranked so that every edge goes from a lower to a higher rank, and
    after any calls of [compile], a call of [compile] with names for
    inputs and outputs returns a plan when the outputs asked for are nodes
    of the graph and the predicate is none, is falsy, or hashes and
    raises on no operation. *)
Theorem compile_returns operations (s : Store) net0 s0 g calls cfg
    inputs outputs predicate rank :
  Network_init operations None s = (inr net0, s0) ->
  s0 !! Network.graph net0 = Some g ->
  ranked_by rank g = true ->
  (forall o, o ∈ default [] (astuple outputs) ->
             nx.has_node g (Data o) = true) ->
  predicate <> unhashable true ->
  (forall pr, predicate = hashable pr ->
              NodePredicate.is_true pr = true -> never_raises pr g) ->
  let now := after_calls set_iter (net0, s0) calls in
  exists plan self',
    (Network_compile set_iter cfg now.1 inputs outputs predicate now.2).1
    = inr (plan, self').
Proof.
  intros Hinit Hs0 Hrank Hknown Hhash Hpred now.
  assert (Heq : Network_compile set_iter cfg now.1 inputs outputs
                  predicate now.2
                = compile set_iter cfg now.1 inputs outputs
                    (keyed_predicate predicate) now.2).
  { unfold Network_compile. by destruct predicate as [|pr|[|]]. }
  rewrite Heq.
  apply (compile_returns_plan operations s net0 s0 g calls cfg inputs
           outputs (keyed_predicate predicate) rank Hinit Hs0 Hrank
           Hknown).
  intros pr Hpr. destruct predicate as [|pr'|t]; simpl in Hpr; [done| |done].
  destruct (NodePredicate.is_true pr') eqn:Ht; [|done].
  injection Hpr as <-. by apply (Hpred pr').
Qed.
End CompileErrors.

(** ** The steps of a plan *)

Lemma steps_tidy_nil : steps_tidy [].
Proof. split; [done|]. intros i d Hi. by rewrite lookup_nil in Hi. Qed.

Lemma steps_tidy_snoc steps x :
  steps_tidy steps ->
  (steps = [] -> is_Oper x = true) ->
  last steps <> Some x \/ is_Oper x = true ->
  steps_tidy (steps ++ [x]).
Proof.
  intros [H1 H2] Hfirst Hlast. split.
  - intros d. destruct steps as [|y steps]; simpl.
    + intros [= ->]. by specialize (Hfirst eq_refl).
    + apply (H1 d).
  - intros i d Hi Hnext.
    destruct (decide (S i < length steps)) as [Hlt|Hge].
    + rewrite lookup_app_l in Hi by lia. rewrite lookup_app_l in Hnext by lia.
      by apply (H2 i d).
    + assert (Hlen : S i = length steps).
      { apply lookup_lt_Some in Hnext. rewrite length_app in Hnext.
        simpl in Hnext. lia. }
      rewrite lookup_app_l in Hi by lia.
      rewrite lookup_app_r in Hnext by lia.
      rewrite Hlen, Nat.sub_diag in Hnext. injection Hnext as ->.
      destruct Hlast as [Hlast|?]; [|done]. apply Hlast.
      rewrite last_lookup. rewrite <- Hlen. simpl. done.
Qed.

Lemma add_eviction_tidy steps dep :
  steps_tidy steps -> steps <> [] -> steps_tidy (add_eviction steps dep).
Proof.
  intros Ht Hne. unfold add_eviction.
  destruct (last steps) as [x|] eqn:Hlast.
  - destruct (decide (x = dep)) as [->|Hx]; [done|].
    apply steps_tidy_snoc; [done|done|]. left. rewrite Hlast. congruence.
  - by apply last_None in Hlast.
Qed.

Lemma add_eviction_nonempty steps dep : add_eviction steps dep <> [].
Proof.
  unfold add_eviction. destruct (last steps) as [x|] eqn:Hlast.
  - destruct (decide (x = dep)); [|by destruct steps].
    intros ->. done.
  - by destruct steps.
Qed.

Section Tidy.
Variables (g p : nx.DiGraph).

Lemma evict_needs_tidy outputs future op : forall steps res,
  steps_tidy steps -> steps <> [] ->
  evict_needs p outputs future op steps = inr res ->
  steps_tidy res /\ res <> [].
Proof.
  unfold evict_needs.
  induction (nx.predecessors p op) as [|need needs IH];
    intros steps res Ht Hne; cbn [fold_left].
  { by intros [= <-]. }
  rewrite exc_bind_inr.
  destruct (or_recursion_error _) as [e|chain]; simpl.
  { intros Hr. exfalso. revert Hr. clear.
    induction needs as [|n ns IHn]; cbn [fold_left]; [done|].
    rewrite exc_bind_inl. apply IHn. }
  destruct (intersects chain outputs); [by apply IH|].
  destruct (intersects _ future); [by apply IH|].
  apply IH; [by apply add_eviction_tidy|apply add_eviction_nonempty].
Qed.

Lemma evict_provides_tidy op : forall steps,
  steps_tidy steps -> steps <> [] ->
  steps_tidy (evict_provides g p op steps)
  /\ evict_provides g p op steps <> [].
Proof.
  unfold evict_provides.
  induction (nx.successors g op) as [|provide provides IH];
    intros steps Ht Hne; cbn [fold_left]; [done|].
  destruct (nx.has_node p provide); [by apply IH|].
  apply IH; [by apply add_eviction_tidy|apply add_eviction_nonempty].
Qed.

Lemma build_steps_tidy outputs ordered : forall steps res,
  steps_tidy steps ->
  build_steps g p outputs ordered steps = inr res ->
  steps_tidy res.
Proof.
  induction ordered as [|op future IH]; intros steps res Ht; simpl.
  { by intros [= <-]. }
  destruct (is_operation p op) eqn:Hop; [|by apply IH].
  destruct (evict_needs p outputs future op (steps ++ [op]))
    as [e|steps1] eqn:H1; [done|].
  rewrite exc_bind_inr.
  destruct (evict_needs_tidy outputs future op (steps ++ [op]) steps1)
    as [Ht1 Hne1]; [| |done|].
  { pose proof (is_operation_Oper p op Hop) as Hoper.
    apply steps_tidy_snoc; [done|done|by right]. }
  { by destruct steps. }
  destruct (evict_provides_tidy op steps1 Ht1 Hne1) as [Ht2 _].
  by apply IH.
Qed.

Lemma execution_steps_tidy cfg outputs steps :
  execution_steps cfg g p outputs = inr steps -> steps_tidy steps.
Proof.
  unfold execution_steps.
  destruct (_topo_sort_nodes p) as [e|sorted_nodes]; [done|].
  rewrite exc_bind_inr.
  destruct (negb _ || _).
  - intros [= <-].
    assert (Hall : Forall (fun n => is_Oper n = true)
                     (List.filter (is_operation p) (iset sorted_nodes))).
    { apply Forall_forall. intros n [_ Hn]%elem_of_List_filter.
      by apply (is_operation_Oper p). }
    revert Hall. generalize (List.filter (is_operation p)
                               (iset sorted_nodes)).
    intros l Hall. split.
    + intros d Hd. destruct l as [|x l]; [done|]. injection Hd as ->.
      by apply Forall_cons in Hall as [? _].
    + intros i d Hi _. apply list_elem_of_lookup_2 in Hi.
      by apply (proj1 (Forall_forall _ _) Hall) in Hi.
  - destruct (or_recursion_error _) as [e|outs]; [done|].
    rewrite exc_bind_inr. apply build_steps_tidy, steps_tidy_nil.
Qed.
End Tidy.

Lemma compiled_steps_tidy set_iter cfg g self inputs outputs predicate
    p needs provides steps :
  compiled set_iter cfg g self inputs outputs predicate
  = inr (p, needs, provides, steps) ->
  steps_tidy steps.
Proof.
  unfold compiled. destruct (pruned _ _ _ _ _ _) as [e|[[p' n'] pr']]; [done|].
  rewrite exc_bind_inr.
  destruct (execution_steps cfg g p' _) as [e|steps'] eqn:Hs; [done|].
  rewrite exc_bind_inr. intros [= <- <- <- <-].
  apply (execution_steps_tidy g p' cfg _ steps' Hs).
Qed.

(** X15.  The steps of a plan that [compile] returns, after any calls of
    [compile] on the network, do not begin with an eviction, and no
    eviction in them is followed at once by the eviction of the same
    name. *)
Theorem compile_steps_tidy set_iter net0 (s0 : Store) g calls cfg
    inputs outputs predicate plan self' :
  Network._cached_plans net0 = ∅ ->
  s0 !! Network.graph net0 = Some g ->
  let now := after_calls set_iter (net0, s0) calls in
  (compile set_iter cfg now.1 inputs outputs predicate now.2).1
  = inr (plan, self') ->
  (forall d, head (ExecutionPlan.steps plan) <> Some (Data d))
  /\ forall i d,
       ExecutionPlan.steps plan !! i = Some (Data d) ->
       ExecutionPlan.steps plan !! S i <> Some (Data d).
Proof.
  intros Hc0 Hg0 now Hr.
  pose proof (compile_outcome set_iter net0 g now cfg inputs outputs
                predicate
                (cache_from_after_calls set_iter net0 g calls _
                   (cache_from_start set_iter _ _ _ Hc0 Hg0))) as Hout.
  cbv zeta in Hout. rewrite Hr in Hout.
  destruct Hout as (cfg' & i' & o' & pr' & p & _ & Hcomp & _).
  by apply (compiled_steps_tidy set_iter cfg' g net0 i' o' pr' p _ _ _ Hcomp).
Qed.

(** ** The operations among the steps *)

Lemma root_doc_data p doc :
  subdoc_grows p -> is_Data doc = true -> is_Data (root_doc p doc) = true.
Proof.
  intros Hgrows Hdoc.
  destruct (root_doc_cases p doc) as [->|(e & He & Hsub & ->)]; [done|].
  apply in_edges_view_elem in He as [He _].
  by destruct (Hgrows e He Hsub) as (s & d & -> & _).
Qed.

Lemma filter_add_eviction steps dep :
  is_Data dep = true ->
  List.filter is_Oper (add_eviction steps dep) = List.filter is_Oper steps.
Proof.
  intros Hd. destruct (add_eviction_cases steps dep) as [->| ->]; [done|].
  rewrite List.filter_app. simpl. destruct dep; [|done]. simpl.
  by rewrite app_nil_r.
Qed.

Section StepOperations.
Variables (g p : nx.DiGraph).
Hypothesis Hg : network_graph g.
Hypothesis Hp : part_of g p.

Lemma typed_edges_g e : e ∈ nx.edges g -> edge_typed e = true.
Proof.
  intros He. destruct Hg as ((_ & Hedges & _) & _).
  by destruct (Hedges e He) as (_ & _ & ?).
Qed.

Lemma part_subdoc_grows : subdoc_grows p.
Proof. destruct Hg as (_ & ? & _). by apply (part_of_subdoc_grows g). Qed.

Lemma evict_needs_ops outputs future op : forall steps res,
  is_Oper op = true ->
  evict_needs p outputs future op steps = inr res ->
  List.filter is_Oper res = List.filter is_Oper steps.
Proof.
  intros steps res Hop. unfold evict_needs.
  assert (Hdata : forall need, need ∈ nx.predecessors p op ->
            is_Data need = true).
  { intros need (e & He & <- & Hd)%predecessors_elem.
    destruct Hp as (_ & H2 & _). destruct (H2 e He) as (He' & _).
    pose proof (typed_edges_g e He') as Ht. unfold edge_typed in Ht.
    rewrite Hd in Ht. destruct op; [done|]. by destruct (nx.src e). }
  revert steps res Hdata.
  induction (nx.predecessors p op) as [|need needs IH];
    intros steps res Hdata; cbn [fold_left].
  { by intros [= <-]. }
  rewrite exc_bind_inr.
  assert (Hrest : forall need', need' ∈ needs -> is_Data need' = true).
  { intros need' Hin. apply Hdata. by right. }
  destruct (or_recursion_error _) as [e|chain]; simpl.
  { intros Hr. exfalso. revert Hr. clear.
    induction needs as [|n ns IHn]; cbn [fold_left]; [done|].
    rewrite exc_bind_inl. apply IHn. }
  destruct (intersects chain outputs); [by apply IH|].
  destruct (intersects _ future); [by apply IH|].
  intros Hr. rewrite (IH _ _ Hrest Hr). apply filter_add_eviction.
  apply root_doc_data; [apply part_subdoc_grows|]. apply Hdata. by left.
Qed.

Lemma evict_provides_ops op steps :
  is_Oper op = true ->
  List.filter is_Oper (evict_provides g p op steps)
  = List.filter is_Oper steps.
Proof.
  intros Hop. unfold evict_provides.
  assert (Hdata : forall provide, provide ∈ nx.successors g op ->
            is_Data provide = true).
  { intros provide (e & He & Hs & <-)%successors_elem.
    pose proof (typed_edges_g e He) as Ht. unfold edge_typed in Ht.
    rewrite Hs in Ht. destruct op; [done|]. by destruct (nx.dst e). }
  revert steps Hdata.
  induction (nx.successors g op) as [|provide provides IH];
    intros steps Hdata; cbn [fold_left]; [done|].
  assert (Hrest : forall x, x ∈ provides -> is_Data x = true).
  { intros x Hin. apply Hdata. by right. }
  destruct (nx.has_node p provide); [by apply IH|].
  rewrite (IH _ Hrest). apply filter_add_eviction.
  apply root_doc_data; [apply part_subdoc_grows|]. apply Hdata. by left.
Qed.

Lemma build_steps_ops outputs ordered : forall steps res,
  build_steps g p outputs ordered steps = inr res ->
  List.filter is_Oper res
  = List.filter is_Oper steps ++ List.filter (is_operation p) ordered.
Proof.
  induction ordered as [|op future IH]; intros steps res; simpl.
  { intros [= <-]. by rewrite app_nil_r. }
  destruct (is_operation p op) eqn:Hop; [|by apply IH].
  pose proof (is_operation_Oper p op Hop) as Hoper.
  destruct (evict_needs p outputs future op (steps ++ [op]))
    as [e|steps1] eqn:H1; [done|].
  rewrite exc_bind_inr. intros Hr. rewrite (IH _ _ Hr).
  rewrite (evict_provides_ops op steps1 Hoper).
  rewrite (evict_needs_ops outputs future op _ _ Hoper H1).
  rewrite List.filter_app. simpl. rewrite Hoper. by rewrite <- app_assoc.
Qed.

Lemma is_operation_part n :
  n ∈ nx.node_list p -> is_operation p n = is_Oper n.
Proof.
  intros Hn. destruct (part_of_sound g p Hg Hp) as (_ & _ & Hobj).
  unfold is_operation. destruct n as [d|nm].
  - apply bool_decide_eq_false. by intros [? ?].
  - apply bool_decide_eq_true. by apply Hobj.
Qed.

Lemma execution_steps_ops cfg outputs steps :
  execution_steps cfg g p outputs = inr steps ->
  exists ordered,
    _topo_sort_nodes p = inr ordered
    /\ List.filter is_Oper steps = List.filter is_Oper ordered.
Proof.
  unfold execution_steps.
  destruct (_topo_sort_nodes p) as [e|ordered] eqn:Hsort; [done|].
  rewrite exc_bind_inr. intros Hs. exists ordered. split; [done|].
  destruct Hp as (Hnd & _).
  destruct (_topo_sort_nodes_sound p ordered Hnd Hsort) as (H1 & _ & H3).
  rewrite (iset_NoDup_id ordered H1) in Hs.
  assert (Hf : List.filter (is_operation p) ordered
               = List.filter is_Oper ordered).
  { apply filter_ext_in. intros n Hn%list_elem_of_In.
    by apply is_operation_part, H3. }
  destruct (negb _ || _).
  - injection Hs as <-. rewrite Hf.
    clear. induction ordered as [|x l IH]; [done|]. simpl.
    destruct (is_Oper x) eqn:Hx; simpl; rewrite ?Hx; by rewrite IH.
  - destruct (or_recursion_error _) as [e|outs]; [done|].
    rewrite exc_bind_inr in Hs.
    by rewrite (build_steps_ops _ _ _ _ Hs), <- Hf.
Qed.
End StepOperations.

Lemma filter_perm {A} (f : A -> bool) l1 l2 :
  l1 ≡ₚ l2 -> List.filter f l1 ≡ₚ List.filter f l2.
Proof.
  induction 1 as [|x l1 l2 _ IH|x y l|l1 l2 l3 _ IH1 _ IH2]; simpl.
  - done.
  - destruct (f x); [by constructor|done].
  - destruct (f x), (f y); by constructor || done.
  - by etrans.
Qed.

Lemma lookup_split {A} (l : list A) i j a b :
  i < j -> l !! i = Some a -> l !! j = Some b ->
  exists l1 l2 l3, l = l1 ++ a :: l2 ++ b :: l3.
Proof.
  intros Hij Hi Hj.
  exists (take i l), (take (j - S i) (drop (S i) l)),
         (drop (S (j - S i)) (drop (S i) l)).
  rewrite <- (take_drop_middle l i a Hi) at 1. f_equal. f_equal.
  assert (Hj' : drop (S i) l !! (j - S i) = Some b).
  { rewrite lookup_drop. by replace (S i + (j - S i)) with j by lia. }
  by rewrite (take_drop_middle _ _ _ Hj').
Qed.

Lemma split_order {A} (l : list A) l1 l2 l3 m1 m2 m3 a b :
  NoDup l ->
  l = l1 ++ a :: l2 ++ b :: l3 ->
  l = m1 ++ b :: m2 ++ a :: m3 ->
  False.
Proof.
  intros Hnd H1 H2.
  assert (Ha1 : l !! length l1 = Some a).
  { rewrite H1, lookup_app_r by lia. by rewrite Nat.sub_diag. }
  assert (Hb1 : l !! (length l1 + S (length l2)) = Some b).
  { rewrite H1, lookup_app_r by lia.
    replace (length l1 + S (length l2) - length l1) with (S (length l2))
      by lia.
    simpl. rewrite lookup_app_r by lia. by rewrite Nat.sub_diag. }
  assert (Hb2 : l !! length m1 = Some b).
  { rewrite H2, lookup_app_r by lia. by rewrite Nat.sub_diag. }
  assert (Ha2 : l !! (length m1 + S (length m2)) = Some a).
  { rewrite H2, lookup_app_r by lia.
    replace (length m1 + S (length m2) - length m1) with (S (length m2))
      by lia.
    simpl. rewrite lookup_app_r by lia. by rewrite Nat.sub_diag. }
  pose proof (NoDup_lookup _ _ _ _ Hnd Ha1 Ha2).
  pose proof (NoDup_lookup _ _ _ _ Hnd Hb1 Hb2). lia.
Qed.

Section CompileSteps.
Variable set_iter : list Node -> list Node.
Hypothesis set_iter_perm : forall l, NoDup l -> set_iter l ≡ₚ l.

Lemma compiled_steps_ops cfg g self inputs outputs predicate
    p needs provides steps :
  network_graph g ->
  compiled set_iter cfg g self inputs outputs predicate
  = inr (p, needs, provides, steps) ->
  part_of g p
  /\ exists ordered,
       _topo_sort_nodes p = inr ordered
       /\ List.filter is_Oper steps = List.filter is_Oper ordered.
Proof.
  intros Hg Hcomp.
  pose proof (compiled_cases set_iter set_iter_perm cfg g self inputs
                outputs predicate Hg) as Hp.
  rewrite Hcomp in Hp. split; [done|].
  unfold compiled in Hcomp.
  destruct (pruned _ _ _ _ _ _) as [e|[[p' n'] pr']]; [done|].
  rewrite exc_bind_inr in Hcomp.
  destruct (execution_steps cfg g p' _) as [e|steps'] eqn:Hs; [done|].
  rewrite exc_bind_inr in Hcomp. injection Hcomp as -> -> -> ->.
  apply (execution_steps_ops g p Hg Hp cfg _ steps Hs).
Qed.

(** X16.  In the steps of a plan that [compile] returns for a network
    that [Network.__init__] returned, after any calls of [compile], every
    operation node of the pruned dag of the plan comes once, and no
    operation comes before an operation from which a walk in the pruned
    dag leads to it. *)
Theorem compile_steps_operations operations (s : Store) net0 s0 calls cfg
    inputs outputs predicate plan self' :
  Network_init operations None s = (inr net0, s0) ->
  let now := after_calls set_iter (net0, s0) calls in
  let r := compile set_iter cfg now.1 inputs outputs predicate now.2 in
  r.1 = inr (plan, self') ->
  exists p,
    r.2 !! ExecutionPlan.dag plan = Some p
    /\ List.filter is_Oper (ExecutionPlan.steps plan)
       ≡ₚ List.filter is_Oper (nx.node_list p)
    /\ NoDup (List.filter is_Oper (ExecutionPlan.steps plan))
    /\ forall i j a b,
         i < j ->
         ExecutionPlan.steps plan !! i = Some (Oper a) ->
         ExecutionPlan.steps plan !! j = Some (Oper b) ->
         ~ reaches p (Oper b) (Oper a).
Proof.
  intros Hinit now r Hr.
  destruct (Network_init_network_graph set_iter _ _ _ _ Hinit)
    as (g & _ & Hg & Hinv).
  pose proof (compile_outcome set_iter net0 g now cfg inputs outputs
                predicate (Hinv calls)) as Hout.
  cbv zeta in Hout. fold r in Hout. rewrite Hr in Hout.
  destruct Hout as (cfg' & i' & o' & pr' & p & _ & Hcomp & Hdag & _).
  destruct (compiled_steps_ops cfg' g net0 i' o' pr' p _ _ _ Hg Hcomp)
    as (Hp & ordered & Hsort & Hops).
  pose proof Hp as (Hnd & Hedges & _).
  destruct (_topo_sort_nodes_sound p ordered Hnd Hsort) as (H1 & H2 & H3).
  assert (H4 : forall v, v ∈ nx.node_list p -> v ∈ ordered).
  { apply (kahn_complete (nx.pop_min (node_keys p)) p
             (pop_min_perm _) (pop_min_none _)
             (length (nx.nodes p)) (nx.indegree_map p)
             (nx.zero_indegree p) []);
      [by apply kahn_inv_start|by apply kahn_cover_start|done]. }
  assert (Hperm : ordered ≡ₚ nx.node_list p).
  { apply NoDup_Permutation; [done|done|].
    intros v. split; [apply H3|apply H4]. }
  exists p. split; [done|]. rewrite Hops.
  split; [by apply filter_perm|]. split; [by apply NoDup_List_filter|].
  intros i j a b Hij Hi Hj Hreach.
  destruct (reaches_sorted p ordered (Oper b) (Oper a) H2)
    as (ib & ia & Hib & Hia & Hlt); [|done|].
  { intros e He. apply H4. by destruct (Hedges e He) as (_ & _ & ?). }
  destruct (lookup_split _ _ _ _ _ Hij Hi Hj) as (l1 & l2 & l3 & Hsteps).
  destruct (lookup_split _ _ _ _ _ Hlt Hib Hia) as (m1 & m2 & m3 & Hord).
  apply (split_order (List.filter is_Oper ordered)
           (List.filter is_Oper l1) (List.filter is_Oper l2)
           (List.filter is_Oper l3)
           (List.filter is_Oper m1) (List.filter is_Oper m2)
           (List.filter is_Oper m3) (Oper a) (Oper b)).
  - by apply NoDup_List_filter.
  - rewrite <- Hops, Hsteps. rewrite List.filter_app. simpl.
    by rewrite List.filter_app.
  - rewrite Hord at 1. rewrite List.filter_app. simpl. by rewrite List.filter_app.
Qed.
End CompileSteps.

(** ** The pruned dag, the needs and the provides of a plan *)

Lemma resolve_inputs_given g self ins outputs si ins' outs' :
  resolve_inputs_outputs g self (Some ins) outputs = inr (si, ins', outs') ->
  si = List.filter (in_graph g) (dep_iset ins) /\ outs' = outputs.
Proof.
  unfold resolve_inputs_outputs. cbv zeta.
  destruct outputs as [[|o os]|]; try (by intros [= <- <- <-]).
  destruct (List.filter _ (dep_iset (o :: os))); [|done].
  by intros [= <- <- <-].
Qed.

Section PrunedPlan.
Variable set_iter : list Node -> list Node.
Hypothesis set_iter_perm : forall l, NoDup l -> set_iter l ≡ₚ l.

(** What [_prune_graph] returns: a graph pruned from the graph of the
    network, with the needs and provides resolved on it. *)
Lemma pruned_returned g self inputs outputs predicate p needs provides :
  pruned set_iter g self inputs outputs predicate
  = inr (p, needs, provides) ->
  exists si ins outs b unsat,
    resolve_inputs_outputs g self inputs outputs = inr (si, ins, outs)
    /\ p = pruned_graph set_iter g b unsat
    /\ (needs, provides) = resolved_needs_provides p self si outs.
Proof.
  unfold pruned.
  destruct (resolve_inputs_outputs g self inputs outputs)
    as [e|[[si ins] outs]]; [done|].
  rewrite exc_bind_inr.
  destruct (broken_graph g predicate ins) as [e|b0]; [done|].
  rewrite exc_bind_inr.
  destruct (match outs with
            | Some outputs =>
                ending ← ending_in_outputs g outputs;
                inr (nx.subgraph_copy set_iter b0 ending)
            | None => inr b0
            end : Exc nx.DiGraph) as [e|b]; [done|].
  rewrite exc_bind_inr.
  destruct (unsatisfied_operations b (map dnode si)) as [e|unsat]; [done|].
  rewrite exc_bind_inr. cbv zeta.
  destruct (resolved_needs_provides _ self si outs) as [n' p'] eqn:Hres.
  intros [= <- <- <-]. exists si, ins, outs, b, unsat.
  by rewrite Hres.
Qed.

Lemma compiled_returned cfg g self inputs outputs predicate
    p needs provides steps :
  compiled set_iter cfg g self inputs outputs predicate
  = inr (p, needs, provides, steps) ->
  pruned set_iter g self (map plain <$> (sorted <$> astuple inputs))
    (map plain <$> (sorted <$> astuple outputs))
    (normal_predicate predicate)
  = inr (p, needs, provides).
Proof.
  unfold compiled. destruct (pruned _ _ _ _ _ _) as [e|[[p' n'] pr']];
    [done|].
  rewrite exc_bind_inr.
  destruct (execution_steps cfg g p' _) as [e|steps']; [done|].
  rewrite exc_bind_inr. by intros [= <- <- <- <-].
Qed.

(** X17.  The pruned dag of a plan that [compile] returns for a network
    that [Network.__init__] returned, after any calls of [compile], holds
    nodes of the graph of the network, each once and with its attributes,
    and exactly the edges of that graph between these nodes; and every
    node of it is at an end of one of its edges. *)
Theorem compile_pruned_dag operations (s : Store) net0 s0 calls cfg
    inputs outputs predicate plan self' :
  Network_init operations None s = (inr net0, s0) ->
  let now := after_calls set_iter (net0, s0) calls in
  let r := compile set_iter cfg now.1 inputs outputs predicate now.2 in
  r.1 = inr (plan, self') ->
  exists g p,
    s0 !! Network.graph net0 = Some g
    /\ r.2 !! ExecutionPlan.dag plan = Some p
    /\ NoDup (nx.node_list p)
    /\ (forall n, n ∈ nx.node_list p ->
          n ∈ nx.node_list g /\ nx.node_attrs p n = nx.node_attrs g n)
    /\ (forall e, e ∈ nx.edges p
          <-> e ∈ nx.edges g /\ nx.src e ∈ nx.node_list p
              /\ nx.dst e ∈ nx.node_list p)
    /\ (forall n, n ∈ nx.node_list p ->
          exists e, e ∈ nx.edges p /\ (nx.src e = n \/ nx.dst e = n)).
Proof.
  intros Hinit now r Hr.
  destruct (Network_init_network_graph set_iter _ _ _ _ Hinit)
    as (g & Hs0 & Hg & Hinv).
  pose proof (compile_outcome set_iter net0 g now cfg inputs outputs
                predicate (Hinv calls)) as Hout.
  cbv zeta in Hout. fold r in Hout. rewrite Hr in Hout.
  destruct Hout as (cfg' & i' & o' & pr' & p & _ & Hcomp & Hdag & _).
  apply compiled_returned, pruned_returned in Hcomp
    as (si & ins & outs & b & unsat & _ & Hp & _).
  destruct (edges_at_nodes_spec g (network_graph_wf g Hg)) as [Hnd Hends].
  destruct (pruned_graph_spec set_iter set_iter_perm g b unsat Hnd Hends)
    as (P1 & P2 & P3 & P4).
  rewrite <- Hp in P1, P2, P3, P4.
  exists g, p. split; [done|]. split; [done|]. split; [done|].
  split; [|split].
  - intros n Hn. split; [|by apply P4]. by apply P3 in Hn as (? & _).
  - intros e. rewrite P2. split.
    + intros (He & Hs & Hd). destruct (Hends e He).
      split; [done|]. split; apply P3; (split; [done|]); (split; [done|]);
        exists e; rewrite P2; tauto.
    + intros (He & Hs & Hd). apply P3 in Hs, Hd. tauto.
  - intros n Hn. by apply P3 in Hn as (_ & _ & ?).
Qed.
End PrunedPlan.

Lemma in_graph_names g l n :
  n ∈ map dep_name (List.filter (in_graph g) l)
  <-> n ∈ map dep_name l /\ nx.has_node g (Data n) = true.
Proof.
  rewrite !list_elem_of_fmap. split.
  - intros (d & -> & [Hd Hg]%elem_of_List_filter). split; [by exists d|done].
  - intros [(d & -> & Hd) Hg]. exists d. split; [done|].
    by apply elem_of_List_filter.
Qed.

Lemma plain_names l : map dep_name (map plain l) = l.
Proof. induction l as [|x l IH]; [done|]. simpl. by rewrite IH. Qed.

Lemma optionalized_names g l :
  map dep_name (map (_optionalized g) l) = map dep_name l.
Proof.
  induction l as [|x l IH]; [done|]. simpl.
  by rewrite _optionalized_name, IH.
Qed.

Section PlanNeedsProvides.
Variable set_iter : list Node -> list Node.
Hypothesis set_iter_perm : forall l, NoDup l -> set_iter l ≡ₚ l.

Lemma compiled_needs_provides cfg g self inputs outputs predicate
    p needs provides steps :
  network_graph g ->
  compiled set_iter cfg g self inputs outputs predicate
  = inr (p, needs, provides, steps) ->
  NoDup (map dep_name needs) /\ NoDup (map dep_name provides)
  /\ (forall l, sorted <$> astuple outputs = Some l ->
        forall n, n ∈ map dep_name provides
                  <-> n ∈ l /\ nx.has_node p (Data n) = true)
  /\ (forall l, sorted <$> astuple inputs = Some l ->
        forall n, n ∈ map dep_name needs
                  <-> n ∈ l /\ nx.has_node p (Data n) = true).
Proof.
  intros Hg Hcomp.
  pose proof (compiled_cases set_iter set_iter_perm cfg g self inputs
                outputs predicate Hg) as Hp.
  rewrite Hcomp in Hp.
  apply compiled_returned, pruned_returned in Hcomp
    as (si & ins & outs & b & unsat & Hres & _ & Hnp).
  unfold resolved_needs_provides in Hnp. injection Hnp as -> ->.
  split; [apply dep_iset_NoDup|]. split.
  { destruct outs; apply dep_iset_NoDup. }
  split.
  - intros l Hl n. rewrite Hl in Hres.
    apply (resolve_inputs_outputs_known g self) in Hres as [-> _].
    rewrite dep_iset_names, in_graph_names, plain_names. done.
  - intros l Hl n. rewrite Hl in Hres.
    apply (resolve_inputs_given g self) in Hres as [-> _].
    rewrite dep_iset_names, optionalized_names, !in_graph_names,
      dep_iset_names, plain_names.
    split; [tauto|]. intros [Hn Hpn]. split; [|done]. split; [done|].
    destruct Hp as (_ & _ & H3). apply has_node_true.
    apply has_node_true in Hpn. by destruct (H3 _ Hpn).
Qed.

(** X18.  In a plan that [compile] returns for a network that
    [Network.__init__] returned, after any calls of [compile], no name
    comes twice among the needs or among the provides; when outputs are
    given, the provides are the outputs given that are nodes of the
    pruned dag, and when inputs are given, the needs are the inputs given
    that are nodes of the pruned dag. *)
Theorem compile_needs_provides operations (s : Store) net0 s0 calls cfg
    inputs outputs predicate plan self' :
  Network_init operations None s = (inr net0, s0) ->
  let now := after_calls set_iter (net0, s0) calls in
  let r := compile set_iter cfg now.1 inputs outputs predicate now.2 in
  r.1 = inr (plan, self') ->
  exists p,
    r.2 !! ExecutionPlan.dag plan = Some p
    /\ NoDup (map dep_name (ExecutionPlan.needs plan))
    /\ NoDup (map dep_name (ExecutionPlan.provides plan))
    /\ (forall l, astuple outputs = Some l ->
          forall n, n ∈ map dep_name (ExecutionPlan.provides plan)
                    <-> n ∈ l /\ nx.has_node p (Data n) = true)
    /\ (forall l, astuple inputs = Some l ->
          forall n, n ∈ map dep_name (ExecutionPlan.needs plan)
                    <-> n ∈ l /\ nx.has_node p (Data n) = true).
Proof.
  intros Hinit now r Hr.
  destruct (Network_init_network_graph set_iter _ _ _ _ Hinit)
    as (g & Hs0 & Hg & Hinv).
  pose proof (compile_outcome set_iter net0 g now cfg inputs outputs
                predicate (Hinv calls)) as Hout.
  cbv zeta in Hout. fold r in Hout. rewrite Hr in Hout.
  destruct Hout as (cfg' & i' & o' & pr' & p & Hkey & Hcomp & Hdag & _).
  destruct (compiled_needs_provides cfg' g net0 i' o' pr' p _ _ _ Hg Hcomp)
    as (N1 & N2 & N3 & N4).
  unfold cache_key in Hkey. injection Hkey as Hki Hko _.
  exists p. split; [done|]. split; [done|]. split; [done|]. split.
  - intros l Hl n. rewrite Hl in Hko. simpl in Hko.
    rewrite (N3 (sorted l) (eq_sym Hko)), sorted_elem. done.
  - intros l Hl n. rewrite Hl in Hki. simpl in Hki.
    rewrite (N4 (sorted l) (eq_sym Hki)), sorted_elem. done.
Qed.
End PlanNeedsProvides.

(** ** The order in which inputs and outputs are given *)

Lemma ascii_compare_refl c : Ascii.compare c c = Eq.
Proof. unfold Ascii.compare. apply N.compare_refl. Qed.

Lemma string_compare_trans a : forall b c,
  String.compare a b = Lt -> String.compare b c = Lt ->
  String.compare a c = Lt.
Proof.
  induction a as [|x a IH]; intros [|y b] [|z c]; simpl; try done.
  destruct (Ascii.compare x y) eqn:Hxy; [| |done];
    destruct (Ascii.compare y z) eqn:Hyz; try done.
  - apply Ascii.compare_eq_iff in Hxy as ->.
    apply Ascii.compare_eq_iff in Hyz as ->.
    rewrite ascii_compare_refl. apply IH.
  - apply Ascii.compare_eq_iff in Hxy as ->. by rewrite Hyz.
  - apply Ascii.compare_eq_iff in Hyz as <-. by rewrite Hxy.
  - unfold Ascii.compare in *. rewrite N.compare_lt_iff in Hxy, Hyz.
    assert (H : (N_of_ascii x ?= N_of_ascii z)%N = Lt)
      by (apply N.compare_lt_iff; lia).
    by rewrite H.
Qed.

Lemma string_ltb_trans a b c :
  String.ltb a b = true -> String.ltb b c = true -> String.ltb a c = true.
Proof.
  unfold String.ltb. intros H1 H2.
  destruct (String.compare a b) eqn:Hab; try done.
  destruct (String.compare b c) eqn:Hbc; try done.
  by rewrite (string_compare_trans a b c Hab Hbc).
Qed.

Lemma string_ltb_cases a b :
  (String.ltb a b = true /\ String.ltb b a = false)
  \/ (a = b /\ String.ltb a b = false)
  \/ (String.ltb b a = true /\ String.ltb a b = false).
Proof.
  unfold String.ltb. rewrite (String.compare_antisym b a).
  destruct (String.compare a b) eqn:Hab; simpl.
  - right. left. split; [|done]. by apply String.compare_eq_iff.
  - by left.
  - right. by right.
Qed.

(** Two names go to the same places of a list whichever is inserted first. *)
Lemma insert_sorted_comm a b l :
  insert_sorted a (insert_sorted b l) = insert_sorted b (insert_sorted a l).
Proof.
  induction l as [|x l IH]; simpl.
  - destruct (string_ltb_cases a b) as [[-> ->]|[[-> ->]|[-> ->]]]; done.
  - destruct (String.ltb b x) eqn:Hbx, (String.ltb a x) eqn:Hax; simpl;
      rewrite ?Hbx, ?Hax.
    + destruct (string_ltb_cases a b) as [[-> ->]|[[-> ->]|[-> ->]]]; done.
    + destruct (String.ltb a b) eqn:Hab.
      * by rewrite (string_ltb_trans a b x Hab Hbx) in Hax.
      * done.
    + destruct (String.ltb b a) eqn:Hba.
      * by rewrite (string_ltb_trans b a x Hba Hax) in Hbx.
      * done.
    + by rewrite IH.
Qed.

Lemma sorted_of_permutation l l' : l ≡ₚ l' -> sorted l = sorted l'.
Proof.
  unfold sorted. intros Hperm. generalize (@nil string).
  induction Hperm as [|x l l' _ IH|x y l|l l' l'' _ IH1 _ IH2];
    intros acc; simpl.
  - done.
  - apply IH.
  - by rewrite insert_sorted_comm.
  - by rewrite IH1.
Qed.

(** X19.  [compile] does not look at the order in which the names of the
    inputs and of the outputs are given: with the same names in another
    order it returns or raises the same, and leaves the same store. *)
Theorem compile_order_irrelevant set_iter cfg self ins ins' outs outs'
    predicate (s : Store) :
  ins ≡ₚ ins' ->
  outs ≡ₚ outs' ->
  compile set_iter cfg self (ItemsColl ins) (ItemsColl outs) predicate s
  = compile set_iter cfg self (ItemsColl ins') (ItemsColl outs') predicate s.
Proof.
  intros Hi Ho. unfold compile. simpl.
  by rewrite (sorted_of_permutation _ _ Hi), (sorted_of_permutation _ _ Ho).
Qed.

(** ** The predicate of a compilation *)

Lemma predicate_to_del_spec predicate items : forall to_del,
  predicate_to_del predicate items = inr to_del ->
  forall nm data op,
    (Oper nm, data) ∈ items -> NodeAttrs.obj data = Some op ->
    NodePredicate.call predicate op data = Some true
    \/ Oper nm ∈ to_del.
Proof.
  induction items as [|[node data] items IH]; intros to_del Hdel nm d op Hin Hop.
  { by apply elem_of_nil in Hin. }
  simpl in Hdel.
  destruct node as [dn|nm'].
  { apply elem_of_cons in Hin as [[=]|Hin]. by apply (IH to_del Hdel nm d op). }
  destruct (NodeAttrs.obj data) as [op'|] eqn:Hobj.
  2:{ apply elem_of_cons in Hin as [[= -> ->]|Hin]; [congruence|].
      by apply (IH to_del Hdel nm d op). }
  destruct (NodePredicate.call predicate op' data) as [keep|] eqn:Hcall;
    [|done].
  destruct (predicate_to_del predicate items) as [e|rest] eqn:Hrest; [done|].
  rewrite exc_bind_inr in Hdel. injection Hdel as <-.
  apply elem_of_cons in Hin as [[= -> ->]|Hin].
  - rewrite Hop in Hobj. injection Hobj as <-.
    destruct keep; [by left|right; by left].
  - destruct (IH rest eq_refl nm d op Hin Hop) as [?|Hr]; [by left|].
    right. destruct keep; [done|by right].
Qed.

Section Predicate.
Variable set_iter : list Node -> list Node.
Hypothesis set_iter_perm : forall l, NoDup l -> set_iter l ≡ₚ l.

Lemma broken_graph_predicate g pred inputs b nm data op :
  broken_graph g (Some pred) inputs = inr b ->
  (Oper nm, data) ∈ nx.nodes g -> NodeAttrs.obj data = Some op ->
  Oper nm ∈ nx.node_list b ->
  NodePredicate.call pred op data = Some true.
Proof.
  unfold broken_graph.
  destruct (predicate_to_del pred (nx.nodes (nx.copy g)))
    as [e|to_del] eqn:Hdel; [done|].
  rewrite !exc_bind_inr. intros [= <-] Hin Hop Hb.
  destruct (predicate_to_del_spec _ _ _ Hdel nm data op Hin Hop)
    as [?|Hd]; [done|].
  exfalso. revert Hb. unfold nx.node_list.
  fold (nx.remove_edges_from (nx.remove_nodes_from (nx.copy g) to_del)).
  assert (Hnodes : forall l b0,
    nx.nodes (fold_left
                (fun b n => nx.remove_edges_from b
                              (non_subdoc_in_edges b (dnode n))) l b0)
    = nx.nodes b0).
  { induction l as [|x l IHl]; intros b0; [done|]. simpl.
    by rewrite IHl, remove_edges_from_nodes. }
  rewrite Hnodes. fold (nx.node_list (nx.remove_nodes_from (nx.copy g) to_del)).
  destruct (remove_nodes_from_spec to_del (nx.copy g)) as (H1 & _).
  rewrite H1. tauto.
Qed.

Lemma pruned_predicate g self inputs outputs pred p needs provides
    nm data op :
  edges_at_nodes g = true ->
  pruned set_iter g self inputs outputs (Some pred)
  = inr (p, needs, provides) ->
  (Oper nm, data) ∈ nx.nodes g -> NodeAttrs.obj data = Some op ->
  Oper nm ∈ nx.node_list p ->
  NodePredicate.call pred op data = Some true.
Proof.
  intros [Hnd Hends]%edges_at_nodes_spec. unfold pruned.
  destruct (resolve_inputs_outputs g self inputs outputs)
    as [e|[[si ins] outs]]; [done|].
  rewrite exc_bind_inr.
  destruct (broken_graph g (Some pred) ins) as [e|b0] eqn:Hb0; [done|].
  rewrite exc_bind_inr.
  destruct (match outs with
            | Some outputs =>
                ending ← ending_in_outputs g outputs;
                inr (nx.subgraph_copy set_iter b0 ending)
            | None => inr b0
            end : Exc nx.DiGraph) as [e|b] eqn:Hb; [done|].
  rewrite exc_bind_inr.
  destruct (unsatisfied_operations b (map dnode si)) as [e|unsat]; [done|].
  rewrite exc_bind_inr. cbv zeta.
  destruct (resolved_needs_provides _ self si outs) as [n' p'].
  intros [= <- <- <-] Hin Hop Hp.
  destruct (pruned_graph_spec set_iter set_iter_perm g b unsat Hnd Hends)
    as (_ & _ & P3 & _).
  apply P3 in Hp as (_ & [Hpb _] & _).
  apply (broken_graph_predicate g pred ins b0 nm data op Hb0 Hin Hop).
  destruct outs as [o|]; [|by injection Hb as <-].
  destruct (ending_in_outputs g o) as [e|ending]; [done|].
  rewrite exc_bind_inr in Hb. injection Hb as <-.
  by apply (subgraph_copy_nodes set_iter set_iter_perm) in Hpb as [? _].
Qed.

(** X20.  When [compile] is given a predicate that is truthy and finds no
    plan of the request in its cache, each operation of the pruned dag of
    the plan it returns is one for which the predicate, called with the
    operation and the attributes of its node, returned true. *)
Theorem compile_predicate_kept cfg self inputs outputs pred (s : Store) g
    plan self' :
  NodePredicate.is_true pred = true ->
  Network._cached_plans self !! cache_key inputs outputs (Some pred)
  = None ->
  s !! Network.graph self = Some g ->
  edges_at_nodes g = true ->
  let r := compile set_iter cfg self inputs outputs (Some pred) s in
  r.1 = inr (plan, self') ->
  exists p,
    r.2 !! ExecutionPlan.dag plan = Some p
    /\ forall nm data op,
         (Oper nm, data) ∈ nx.nodes g ->
         NodeAttrs.obj data = Some op ->
         Oper nm ∈ nx.node_list p ->
         NodePredicate.call pred op data = Some true.
Proof.
  intros Htrue Hmiss Hg Hwf r. unfold r.
  pattern (compile set_iter cfg self inputs outputs (Some pred) s).
  apply run_compile; simpl.
  - intros plan' Hhit. by rewrite Hhit in Hmiss.
  - intros _ Hnone. by rewrite Hnone in Hg.
  - by intros g' e news _ _ _ [=].
  - intros g' p needs provides steps news _ Hg' Hcomp [= <- <-].
    rewrite Hg in Hg'. injection Hg' as <-.
    exists p. split.
    + unfold fresh_plan. simpl. rewrite app_assoc, lookup_app_r;
        rewrite length_app; [|lia]. by rewrite Nat.sub_diag.
    + intros nm data op Hin Hop Hp.
      apply compiled_returned in Hcomp.
      unfold normal_predicate in Hcomp. rewrite Htrue in Hcomp.
      by apply (pruned_predicate _ _ _ _ _ _ _ _ nm data op Hwf Hcomp).
Qed.
End Predicate.

(** * The further properties on example networks *)

(** The diamond is sorted in the order of its nodes. *)
Lemma _topo_sort_nodes_permutation_witness :
  NoDup (nx.node_list (graph_of (built diamond)))
  /\ _topo_sort_nodes (graph_of (built diamond))
     = inr (returned_nodes (_topo_sort_nodes (graph_of (built diamond))))
  /\ returned_nodes (_topo_sort_nodes (graph_of (built diamond)))
     ≡ₚ nx.node_list (graph_of (built diamond))
  /\ forall e i j,
       e ∈ nx.edges (graph_of (built diamond)) ->
       returned_nodes (_topo_sort_nodes (graph_of (built diamond))) !! i
       = Some (nx.src e) ->
       returned_nodes (_topo_sort_nodes (graph_of (built diamond))) !! j
       = Some (nx.dst e) ->
       i < j.
Proof.
  assert (H1 : NoDup (nx.node_list (graph_of (built diamond))))
    by by_evaluation.
  assert (H2 : _topo_sort_nodes (graph_of (built diamond))
               = inr (returned_nodes
                        (_topo_sort_nodes (graph_of (built diamond)))))
    by (vm_compute; reflexivity).
  split; [exact H1|]. split; [exact H2|].
  apply (_topo_sort_nodes_permutation (graph_of (built diamond)) _ H1 H2).
Defined.

(** Two operations that need each other's provide cannot be sorted. *)
Lemma _topo_sort_nodes_cycle_witness :
  edges_at_nodes (graph_of (built cyclic)) = true
  /\ reaches (graph_of (built cyclic)) (Data "a") (Data "a")
  /\ _topo_sort_nodes (graph_of (built cyclic)) = inl NetworkXUnfeasible.
Proof.
  assert (H1 : edges_at_nodes (graph_of (built cyclic)) = true)
    by (vm_compute; reflexivity).
  assert (H2 : reaches (graph_of (built cyclic)) (Data "a") (Data "a")).
  { apply reaches_step with (w := Oper "op1"); [vm_compute; reflexivity|].
    apply reaches_step with (w := Data "b"); [vm_compute; reflexivity|].
    apply reaches_step with (w := Oper "op2"); [vm_compute; reflexivity|].
    apply reaches_edge. vm_compute. reflexivity. }
  split; [exact H1|]. split; [exact H2|].
  apply (_topo_sort_nodes_cycle (graph_of (built cyclic)) (Data "a") H1 H2).
Defined.

(** The diamond is ranked by the places of its nodes. *)
Lemma _topo_sort_nodes_ranked_witness :
  edges_at_nodes (graph_of (built diamond)) = true
  /\ ranked_by (position_rank (graph_of (built diamond)))
       (graph_of (built diamond)) = true
  /\ exists ordered, _topo_sort_nodes (graph_of (built diamond)) = inr ordered.
Proof.
  assert (H1 : edges_at_nodes (graph_of (built diamond)) = true)
    by (vm_compute; reflexivity).
  assert (H2 : ranked_by (position_rank (graph_of (built diamond)))
                 (graph_of (built diamond)) = true)
    by (vm_compute; reflexivity).
  split; [exact H1|]. split; [exact H2|].
  apply (_topo_sort_nodes_ranked (graph_of (built diamond))
           (position_rank (graph_of (built diamond))) H1 H2).
Defined.

(** Without [y], the diamond has [op3] unsatisfied. *)
Lemma unsatisfied_operations_reported_witness :
  NoDup (nx.node_list diamond_without_y)
  /\ unsatisfied_operations diamond_without_y [Data "x"] = inr [Oper "op3"]
  /\ NoDup [Oper "op3"]
  /\ forall n, n ∈ [Oper "op3"] ->
       n ∈ nx.node_list diamond_without_y
       /\ is_operation diamond_without_y n = true
       /\ (nx.successors diamond_without_y n = []
           \/ exists e, e ∈ nx.in_edges diamond_without_y n
                        /\ EdgeAttrs.optional (nx.attrs e) = false).
Proof.
  assert (H1 : NoDup (nx.node_list diamond_without_y)) by by_evaluation.
  assert (H2 : unsatisfied_operations diamond_without_y [Data "x"]
               = inr [Oper "op3"]) by (vm_compute; reflexivity).
  split; [exact H1|]. split; [exact H2|].
  apply (unsatisfied_operations_reported diamond_without_y [Data "x"]
           [Oper "op3"] H1 H2).
Defined.

Lemma unsatisfied_operations_without_outputs_witness :
  NoDup (nx.node_list diamond_without_y)
  /\ unsatisfied_operations diamond_without_y [Data "x"] = inr [Oper "op3"]
  /\ Oper "op3" ∈ nx.node_list diamond_without_y
  /\ is_operation diamond_without_y (Oper "op3") = true
  /\ nx.successors diamond_without_y (Oper "op3") = []
  /\ Oper "op3" ∈ [Oper "op3"].
Proof.
  assert (H1 : NoDup (nx.node_list diamond_without_y)) by by_evaluation.
  assert (H2 : unsatisfied_operations diamond_without_y [Data "x"]
               = inr [Oper "op3"]) by (vm_compute; reflexivity).
  assert (H3 : Oper "op3" ∈ nx.node_list diamond_without_y)
    by by_evaluation.
  assert (H4 : is_operation diamond_without_y (Oper "op3") = true)
    by (vm_compute; reflexivity).
  assert (H5 : nx.successors diamond_without_y (Oper "op3") = [])
    by (vm_compute; reflexivity).
  repeat (split; [assumption|]).
  apply (unsatisfied_operations_without_outputs diamond_without_y
           [Data "x"] [Oper "op3"] (Oper "op3") H1 H2 H3 H4 H5).
Defined.

(** The network of the diamond. *)
Lemma Network_init_distinct_names_witness :
  NoDup (map Operation.name diamond)
  /\ let g := fold_left _append_operation diamond nx.empty in
     Network_init diamond None []
     = (inr (Network.mk (length ([] : Store)) (collect_requirements g).1
               (collect_requirements g).2 ∅),
        [] ++ [g]).
Proof.
  assert (H1 : NoDup (map Operation.name diamond)) by by_evaluation.
  split; [exact H1|].
  apply (Network_init_distinct_names diamond [] H1).
Defined.

Lemma Network_init_operations_witness :
  Network_init diamond None [] = (inr (built diamond).1, (built diamond).2)
  /\ exists g,
       (built diamond).2 !! Network.graph (built diamond).1 = Some g
       /\ yield_ops g (nx.node_list g) = diamond
       /\ Network.provides (built diamond).1
          = dep_iset (flat_map Operation.get_op_provides diamond)
       /\ Network.needs (built diamond).1
          = dep_iset (map (_optionalized g)
                          (flat_map Operation.needs diamond))
       /\ NoDup (map dep_name (Network.provides (built diamond).1))
       /\ NoDup (map dep_name (Network.needs (built diamond).1)).
Proof.
  assert (H1 : Network_init diamond None []
               = (inr (built diamond).1, (built diamond).2))
    by (vm_compute; reflexivity).
  split; [exact H1|].
  apply (Network_init_operations diamond [] (built diamond).1
           (built diamond).2 H1).
Defined.

Lemma Network_init_links_witness :
  Network_init subdocs None [] = (inr (built subdocs).1, (built subdocs).2)
  /\ exists g,
       (built subdocs).2 !! Network.graph (built subdocs).1 = Some g
       /\ (forall op, op ∈ subdocs ->
             nx.has_node g (onode op) = true
             /\ op_object g (onode op) = Some op
             /\ (forall n, n ∈ Operation.get_op_needs op ->
                   nx.has_node g (dnode n) = true
                   /\ nx.has_edge g (dnode n) (onode op) = true)
             /\ (forall n, n ∈ Operation.get_op_provides op ->
                   nx.has_node g (dnode n) = true
                   /\ nx.has_edge g (onode op) (dnode n) = true))
       /\ (forall e, e ∈ nx.edges g -> edge_typed e = true).
Proof.
  assert (H1 : Network_init subdocs None []
               = (inr (built subdocs).1, (built subdocs).2))
    by (vm_compute; reflexivity).
  split; [exact H1|].
  apply (Network_init_links subdocs [] (built subdocs).1
           (built subdocs).2 H1).
Defined.

(** One more operation appended to the graph of the diamond. *)
Lemma Network_init_given_graph_witness :
  NoDup (map Operation.name [fnop "op4" [plain "y"] [plain "z"]])
  /\ [graph_of (built diamond)] !! 0 = Some (graph_of (built diamond))
  /\ let g := fold_left _append_operation
                [fnop "op4" [plain "y"] [plain "z"]]
                (graph_of (built diamond)) in
     Network_init [fnop "op4" [plain "y"] [plain "z"]] (Some 0)
       [graph_of (built diamond)]
     = (inr (Network.mk 0 (collect_requirements g).1
               (collect_requirements g).2 ∅),
        <[0 := g]> [graph_of (built diamond)]).
Proof.
  assert (H1 : NoDup (map Operation.name
                        [fnop "op4" [plain "y"] [plain "z"]]))
    by by_evaluation.
  assert (H2 : [graph_of (built diamond)] !! 0
               = Some (graph_of (built diamond))) by reflexivity.
  split; [exact H1|]. split; [exact H2|].
  apply (Network_init_given_graph [fnop "op4" [plain "y"] [plain "z"]] 0
           [graph_of (built diamond)] (graph_of (built diamond)) H1 H2).
Defined.

(** The chains of the documents [a], [a/x] and [a/y]. *)
Lemma chaindocs_are_the_chains_witness :
  edges_at_nodes subdocs_dag = true
  /\ (forall doc chain,
        set_of_also_chaindocs subdocs_dag doc = Some chain ->
        NoDup chain /\ forall x, x ∈ chain <-> in_chain subdocs_dag doc x)
  /\ (forall docs chains,
        set_of_chaindocs subdocs_dag docs = Some chains ->
        NoDup chains
        /\ forall x, x ∈ chains
                     <-> exists doc, doc ∈ docs
                                     /\ in_chain subdocs_dag doc x).
Proof.
  assert (H1 : edges_at_nodes subdocs_dag = true)
    by (vm_compute; reflexivity).
  split; [exact H1|].
  apply (chaindocs_are_the_chains subdocs_dag H1).
Defined.

Lemma Network_init_chains_end_witness :
  Network_init subdocs None [] = (inr (built subdocs).1, (built subdocs).2)
  /\ exists g,
       (built subdocs).2 !! Network.graph (built subdocs).1 = Some g
       /\ subdoc_grows g
       /\ forall (A : Type) (stop_set : A -> Node -> bool)
                 (consume : A -> Node -> A) (acc : A),
            (forall doc,
               is_Some (yield_also_chaindocs stop_set consume g doc acc))
            /\ (forall docs,
                  is_Some (yield_chaindocs stop_set consume g docs acc)).
Proof.
  assert (H1 : Network_init subdocs None []
               = (inr (built subdocs).1, (built subdocs).2))
    by (vm_compute; reflexivity).
  split; [exact H1|].
  apply (Network_init_chains_end subdocs [] (built subdocs).1
           (built subdocs).2 H1).
Defined.

(** The two operations that need each other's provide: [compile] raises
    [NetworkXUnfeasible]. *)
Lemma compile_raises_only_witness :
  Network_init cyclic None [] = (inr (built cyclic).1, (built cyclic).2)
  /\ (Network_compile set_id skip_unset (built cyclic).1 ItemsNone ItemsNone
        (hashable keep_all) (built cyclic).2).1
     = inl NetworkXUnfeasible
  /\ ((NetworkXUnfeasible = TypeError
       /\ hashable keep_all = unhashable true)
      \/ compile_error NetworkXUnfeasible).
Proof.
  assert (H1 : Network_init cyclic None []
               = (inr (built cyclic).1, (built cyclic).2))
    by (vm_compute; reflexivity).
  assert (H2 : (Network_compile set_id skip_unset (built cyclic).1
                  ItemsNone ItemsNone (hashable keep_all)
                  (built cyclic).2).1
               = inl NetworkXUnfeasible)
    by (vm_compute; reflexivity).
  split; [exact H1|]. split; [exact H2|].
  apply (compile_raises_only set_id set_id_perm cyclic []
           (built cyclic).1 (built cyclic).2 [] skip_unset
           ItemsNone ItemsNone (hashable keep_all) NetworkXUnfeasible H1 H2).
Defined.

(** The diamond, ranked by the places of its nodes, asked for [y] with a
    predicate that hashes and keeps every operation. *)
Lemma compile_returns_witness :
  Network_init diamond None [] = (inr (built diamond).1, (built diamond).2)
  /\ (built diamond).2 !! Network.graph (built diamond).1
     = Some (graph_of (built diamond))
  /\ ranked_by (position_rank (graph_of (built diamond)))
       (graph_of (built diamond)) = true
  /\ (forall o, o ∈ default [] (astuple (ItemsColl ["y"])) ->
                nx.has_node (graph_of (built diamond)) (Data o) = true)
  /\ hashable keep_all <> unhashable true
  /\ (forall pr, hashable keep_all = hashable pr ->
                 NodePredicate.is_true pr = true ->
                 never_raises pr (graph_of (built diamond)))
  /\ exists plan self',
       (Network_compile set_id skip_unset (built diamond).1
          (ItemsColl ["x"]) (ItemsColl ["y"]) (hashable keep_all)
          (built diamond).2).1
       = inr (plan, self').
Proof.
  assert (H1 : Network_init diamond None []
               = (inr (built diamond).1, (built diamond).2))
    by (vm_compute; reflexivity).
  assert (H2 : (built diamond).2 !! Network.graph (built diamond).1
               = Some (graph_of (built diamond)))
    by (vm_compute; reflexivity).
  assert (H3 : ranked_by (position_rank (graph_of (built diamond)))
                 (graph_of (built diamond)) = true)
    by (vm_compute; reflexivity).
  assert (H4 : forall o, o ∈ default [] (astuple (ItemsColl ["y"])) ->
                 nx.has_node (graph_of (built diamond)) (Data o) = true).
  { intros o Ho. apply list_elem_of_singleton in Ho. rewrite Ho.
    vm_compute. reflexivity. }
  assert (H5 : hashable keep_all <> unhashable true) by discriminate.
  assert (H6 : forall pr, hashable keep_all = hashable pr ->
                 NodePredicate.is_true pr = true ->
                 never_raises pr (graph_of (built diamond))).
  { intros pr Hpr _. injection Hpr as <-. apply keep_all_never_raises. }
  repeat (split; [assumption|]).
  apply (compile_returns set_id set_id_perm diamond [] (built diamond).1
           (built diamond).2 (graph_of (built diamond)) [] skip_unset
           (ItemsColl ["x"]) (ItemsColl ["y"]) (hashable keep_all)
           (position_rank (graph_of (built diamond))) H1 H2 H3 H4 H5 H6).
Defined.

(** A [NULL_OP] drops [op2] of the pipeline, and [op1] of the pipeline
    comes before the operation of its name that is given after it. *)
Lemma build_network_merges_by_name_witness :
  processed Keywords.none withset_same validate_ok nested_diamond
  = inr (NULL_OP "op2" :: map FnOp diamond
         ++ [FnOp (fnop "op1" [plain "z"] [plain "a"])])
  /\ let flat := NULL_OP "op2" :: map FnOp diamond
                 ++ [FnOp (fnop "op1" [plain "z"] [plain "a"])] in
     let result := without_NULL_OP (fold_left merge_add flat []) in
     NoDup (map oplike_name result)
     /\ sublist result flat
     /\ (forall x, x ∈ result
                   <-> is_NULL_OP x = false /\ first_of_name flat x)
     /\ (forall n, first_of_name flat (NULL_OP n) ->
                   n ∉ map oplike_name result)
     /\ build_network Keywords.none withset_same validate_ok
          truthy_operation nested_diamond
        = if forallb truthy_operation (operations_of result)
          then Network_init (operations_of result) None
          else raise AssertionError.
Proof.
  assert (H1 : processed Keywords.none withset_same validate_ok
                 nested_diamond
               = inr (NULL_OP "op2" :: map FnOp diamond
                      ++ [FnOp (fnop "op1" [plain "z"] [plain "a"])]))
    by (vm_compute; reflexivity).
  split; [exact H1|].
  apply (build_network_merges_by_name Keywords.none withset_same
           validate_ok truthy_operation nested_diamond _ H1).
Defined.

(** The plan of the documents: [a] is evicted twice, not twice in a row. *)
Lemma compile_steps_tidy_witness :
  Network._cached_plans (built subdocs).1 = ∅
  /\ (built subdocs).2 !! Network.graph (built subdocs).1
     = Some (graph_of (built subdocs))
  /\ subdocs_run.1
     = inr (returned_plan subdocs_run, returned_network subdocs_run)
  /\ (forall d, head (ExecutionPlan.steps (returned_plan subdocs_run))
                <> Some (Data d))
  /\ forall i d,
       ExecutionPlan.steps (returned_plan subdocs_run) !! i = Some (Data d) ->
       ExecutionPlan.steps (returned_plan subdocs_run) !! S i
       <> Some (Data d).
Proof.
  assert (H1 : Network._cached_plans (built subdocs).1 = ∅) by reflexivity.
  assert (H2 : (built subdocs).2 !! Network.graph (built subdocs).1
               = Some (graph_of (built subdocs)))
    by (vm_compute; reflexivity).
  assert (H3 : subdocs_run.1
               = inr (returned_plan subdocs_run,
                      returned_network subdocs_run))
    by (vm_compute; reflexivity).
  repeat (split; [assumption|]).
  apply (compile_steps_tidy set_id (built subdocs).1 (built subdocs).2
           (graph_of (built subdocs)) [] skip_unset (ItemsColl ["i"])
           (ItemsColl ["o2"; "o1"]) None (returned_plan subdocs_run)
           (returned_network subdocs_run) H1 H2 H3).
Defined.

Lemma compile_steps_operations_witness :
  Network_init subdocs None [] = (inr (built subdocs).1, (built subdocs).2)
  /\ subdocs_run.1
     = inr (returned_plan subdocs_run, returned_network subdocs_run)
  /\ exists p,
       subdocs_run.2 !! ExecutionPlan.dag (returned_plan subdocs_run)
       = Some p
       /\ List.filter is_Oper (ExecutionPlan.steps (returned_plan subdocs_run))
          ≡ₚ List.filter is_Oper (nx.node_list p)
       /\ NoDup (List.filter is_Oper
                   (ExecutionPlan.steps (returned_plan subdocs_run)))
       /\ forall i j a b,
            i < j ->
            ExecutionPlan.steps (returned_plan subdocs_run) !! i
            = Some (Oper a) ->
            ExecutionPlan.steps (returned_plan subdocs_run) !! j
            = Some (Oper b) ->
            ~ reaches p (Oper b) (Oper a).
Proof.
  assert (H1 : Network_init subdocs None []
               = (inr (built subdocs).1, (built subdocs).2))
    by (vm_compute; reflexivity).
  assert (H2 : subdocs_run.1
               = inr (returned_plan subdocs_run,
                      returned_network subdocs_run))
    by (vm_compute; reflexivity).
  split; [exact H1|]. split; [exact H2|].
  apply (compile_steps_operations set_id set_id_perm subdocs []
           (built subdocs).1 (built subdocs).2 [] skip_unset
           (ItemsColl ["i"]) (ItemsColl ["o2"; "o1"]) None
           (returned_plan subdocs_run) (returned_network subdocs_run)
           H1 H2).
Defined.

Lemma compile_pruned_dag_witness :
  Network_init diamond None [] = (inr (built diamond).1, (built diamond).2)
  /\ diamond_without_op2.1
     = inr (returned_plan diamond_without_op2,
            returned_network diamond_without_op2)
  /\ exists g p,
       (built diamond).2 !! Network.graph (built diamond).1 = Some g
       /\ diamond_without_op2.2
          !! ExecutionPlan.dag (returned_plan diamond_without_op2) = Some p
       /\ NoDup (nx.node_list p)
       /\ (forall n, n ∈ nx.node_list p ->
             n ∈ nx.node_list g /\ nx.node_attrs p n = nx.node_attrs g n)
       /\ (forall e, e ∈ nx.edges p
             <-> e ∈ nx.edges g /\ nx.src e ∈ nx.node_list p
                 /\ nx.dst e ∈ nx.node_list p)
       /\ (forall n, n ∈ nx.node_list p ->
             exists e, e ∈ nx.edges p /\ (nx.src e = n \/ nx.dst e = n)).
Proof.
  assert (H1 : Network_init diamond None []
               = (inr (built diamond).1, (built diamond).2))
    by (vm_compute; reflexivity).
  assert (H2 : diamond_without_op2.1
               = inr (returned_plan diamond_without_op2,
                      returned_network diamond_without_op2))
    by (vm_compute; reflexivity).
  split; [exact H1|]. split; [exact H2|].
  apply (compile_pruned_dag set_id set_id_perm diamond []
           (built diamond).1 (built diamond).2 [] skip_unset
           (ItemsColl ["x"]) ItemsNone (Some without_op2)
           (returned_plan diamond_without_op2)
           (returned_network diamond_without_op2) H1 H2).
Defined.

Lemma compile_needs_provides_witness :
  Network_init subdocs None [] = (inr (built subdocs).1, (built subdocs).2)
  /\ subdocs_run.1
     = inr (returned_plan subdocs_run, returned_network subdocs_run)
  /\ exists p,
       subdocs_run.2 !! ExecutionPlan.dag (returned_plan subdocs_run)
       = Some p
       /\ NoDup (map dep_name (ExecutionPlan.needs (returned_plan subdocs_run)))
       /\ NoDup (map dep_name
                   (ExecutionPlan.provides (returned_plan subdocs_run)))
       /\ (forall l, astuple (ItemsColl ["o2"; "o1"]) = Some l ->
             forall n,
               n ∈ map dep_name
                     (ExecutionPlan.provides (returned_plan subdocs_run))
               <-> n ∈ l /\ nx.has_node p (Data n) = true)
       /\ (forall l, astuple (ItemsColl ["i"]) = Some l ->
             forall n,
               n ∈ map dep_name
                     (ExecutionPlan.needs (returned_plan subdocs_run))
               <-> n ∈ l /\ nx.has_node p (Data n) = true).
Proof.
  assert (H1 : Network_init subdocs None []
               = (inr (built subdocs).1, (built subdocs).2))
    by (vm_compute; reflexivity).
  assert (H2 : subdocs_run.1
               = inr (returned_plan subdocs_run,
                      returned_network subdocs_run))
    by (vm_compute; reflexivity).
  split; [exact H1|]. split; [exact H2|].
  apply (compile_needs_provides set_id set_id_perm subdocs []
           (built subdocs).1 (built subdocs).2 [] skip_unset
           (ItemsColl ["i"]) (ItemsColl ["o2"; "o1"]) None
           (returned_plan subdocs_run) (returned_network subdocs_run)
           H1 H2).
Defined.

(** The diamond asked for [y] and [a] from [x] and [z], in two orders. *)
Lemma compile_order_irrelevant_witness :
  ["x"; "z"] ≡ₚ ["z"; "x"]
  /\ ["y"; "a"] ≡ₚ ["a"; "y"]
  /\ compile set_id skip_unset (built diamond).1 (ItemsColl ["x"; "z"])
       (ItemsColl ["y"; "a"]) None (built diamond).2
     = compile set_id skip_unset (built diamond).1 (ItemsColl ["z"; "x"])
         (ItemsColl ["a"; "y"]) None (built diamond).2.
Proof.
  assert (H1 : ["x"; "z"] ≡ₚ ["z"; "x"]) by apply perm_swap.
  assert (H2 : ["y"; "a"] ≡ₚ ["a"; "y"]) by apply perm_swap.
  split; [exact H1|]. split; [exact H2|].
  apply (compile_order_irrelevant set_id skip_unset (built diamond).1
           ["x"; "z"] ["z"; "x"] ["y"; "a"] ["a"; "y"] None
           (built diamond).2 H1 H2).
Defined.

(** The diamond compiled with a predicate that rejects [op2]. *)
Lemma compile_predicate_kept_witness :
  NodePredicate.is_true without_op2 = true
  /\ Network._cached_plans (built diamond).1
     !! cache_key (ItemsColl ["x"]) ItemsNone (Some without_op2) = None
  /\ (built diamond).2 !! Network.graph (built diamond).1
     = Some (graph_of (built diamond))
  /\ edges_at_nodes (graph_of (built diamond)) = true
  /\ diamond_without_op2.1
     = inr (returned_plan diamond_without_op2,
            returned_network diamond_without_op2)
  /\ exists p,
       diamond_without_op2.2
       !! ExecutionPlan.dag (returned_plan diamond_without_op2) = Some p
       /\ forall nm data op,
            (Oper nm, data) ∈ nx.nodes (graph_of (built diamond)) ->
            NodeAttrs.obj data = Some op ->
            Oper nm ∈ nx.node_list p ->
            NodePredicate.call without_op2 op data = Some true.
Proof.
  assert (H1 : NodePredicate.is_true without_op2 = true) by reflexivity.
  assert (H2 : Network._cached_plans (built diamond).1
               !! cache_key (ItemsColl ["x"]) ItemsNone (Some without_op2)
               = None) by (vm_compute; reflexivity).
  assert (H3 : (built diamond).2 !! Network.graph (built diamond).1
               = Some (graph_of (built diamond)))
    by (vm_compute; reflexivity).
  assert (H4 : edges_at_nodes (graph_of (built diamond)) = true)
    by (vm_compute; reflexivity).
  assert (H5 : diamond_without_op2.1
               = inr (returned_plan diamond_without_op2,
                      returned_network diamond_without_op2))
    by (vm_compute; reflexivity).
  repeat (split; [assumption|]).
  apply (compile_predicate_kept set_id set_id_perm skip_unset
           (built diamond).1 (ItemsColl ["x"]) ItemsNone without_op2
           (built diamond).2 (graph_of (built diamond))
           (returned_plan diamond_without_op2)
           (returned_network diamond_without_op2) H1 H2 H3 H4 H5).
Defined.
